(** * Hochbaum's pseudoflow parametric minimum cut: the solver core and its driver

    A shallow embedding of [pseudoflow/core/libhpf.c] (the pseudoflow engine,
    the contraction of cut problems, the recursive parametric driver and the
    breakpoint list) and of the arc checks of [readData] in [c/hpf.c].

    Conventions of the embedding.
    - A C [double] is an exact rational number ([Q], kept in lowest terms):
      every comparison and every branch is the one of the source, the
      arithmetic is the exact one, not the rounded one.
    - A C [uint] is a [Z] in [0, 2^32); increments, decrements and
      subtractions wrap around as written ([u32]).
    - A pointer to a node or to an arc is an index into the array it points
      into, [None] for [NULL]; an array is a list; a read or a write outside
      an array, and a dereference of [NULL], end the run with an error instead
      of being undefined.
    - The file-scope variables of the C file are the fields of [Globals]; the
      ones the engine works on are grouped in [Engine].
    - Loops that follow pointers take a [fuel] bound. *)

From Stdlib Require Import ZArith QArith Qabs Lqa Lia String Ascii.
From stdpp Require Import base list.

Open Scope Z_scope.

(** ** Numbers *)

Definition double : Type := Q.

Definition dadd (x y : double) : double := Qred (x + y).
Definition dsub (x y : double) : double := Qred (x - y).
Definition dmul (x y : double) : double := Qred (x * y).
Definition ddiv (x y : double) : double := Qred (x / y).
Definition dneg (x : double) : double := Qred (- x).

Definition dlt (x y : double) : bool :=
  match (x ?= y)%Q with Lt => true | _ => false end.
Definition dle (x y : double) : bool :=
  match (x ?= y)%Q with Gt => false | _ => true end.
Definition dgt (x y : double) : bool := dlt y x.
Definition dge (x y : double) : bool := dle y x.
Definition deq (x y : double) : bool := Qeq_bool x y.

(** [(double) n] and [(int) x] (truncation towards zero). *)
Definition double_of_int (n : Z) : double := inject_Z n.
Definition int_of_double (x : double) : Z := Z.quot (Qnum x) (Zpos (Qden x)).

Definition uint : Type := Z.
Definition u32 (z : Z) : uint := z mod 2 ^ 32.

(** [static double TOL = 1E-8]. *)
Definition TOL_1Em8 : double := 1 # 100000000.

Definition dabs (value : double) : double :=
  if dge value 0%Q then value else dneg value.

Definition isFlow (flow : double) : Z :=
  if dgt flow 0%Q then 1 else 0.

Definition isExcess (excess : double) : Z :=
  if dlt excess 0%Q then -1 else if dgt excess 0%Q then 1 else 0.

(** ** Runs that end early *)

Inductive error : Type :=
| ExitNegativeCapacity (lambdaValue : double)  (* printf ...; exit(0) in evaluateCapacities *)
| ExitWith (status : Z) (diagnostic : string)  (* printf (diagnostic); exit (status) in readData *)
| NullBreakpointList                           (* firstBreakpoint->next with firstBreakpoint == NULL *)
| NullPointer                                  (* any other dereference of NULL *)
| OutOfBounds                                  (* an index outside its array *)
| OutOfFuel.

Inductive result (A : Type) : Type :=
| Ok (a : A)
| Err (e : error).
Arguments Ok {A} a.
Arguments Err {A} e.

(** State and error monad: a C function working on the file-scope variables. *)
Definition M (S A : Type) : Type := S -> result (A * S).

Definition ret {S A} (a : A) : M S A := fun s => Ok (a, s).
Definition bind {S A B} (m : M S A) (k : A -> M S B) : M S B :=
  fun s => match m s with
           | Ok (a, s') => k a s'
           | Err e => Err e
           end.
Definition fail {S A} (e : error) : M S A := fun _ => Err e.
Definition gets {S A} (f : S -> A) : M S A := fun s => Ok (f s, s).
Definition get {S} : M S S := fun s => Ok (s, s).
Definition modify {S} (f : S -> S) : M S unit := fun s => Ok (tt, f s).
Definition liftR {S A} (r : result A) : M S A :=
  fun s => match r with Ok a => Ok (a, s) | Err e => Err e end.

Declare Scope hpf_scope.
Delimit Scope hpf_scope with hpf.
Notation "x <- c1 ;; c2" := (bind c1 (fun x => c2))
  (at level 100, c1 at next level, right associativity) : hpf_scope.
Notation "c1 ;; c2" := (bind c1 (fun _ => c2))
  (at level 100, right associativity) : hpf_scope.
Open Scope hpf_scope.

(** Arrays: [a[i]] and [a[i] = x], checked. *)
Definition aread {A} (a : list A) (i : Z) : result A :=
  if i <? 0 then Err OutOfBounds
  else match a !! Z.to_nat i with
       | Some x => Ok x
       | None => Err OutOfBounds
       end.

Definition awrite {A} (a : list A) (i : Z) (x : A) : result (list A) :=
  if i <? 0 then Err OutOfBounds
  else if i <? Z.of_nat (length a) then Ok (<[Z.to_nat i := x]> a)
  else Err OutOfBounds.

(** [malloc (n * sizeof ...)]: [n] cells, holding [x] until they are written. *)
Definition malloc {A} (n : Z) (x : A) : list A := replicate (Z.to_nat n) x.

(** [*p] for a pointer [p]. *)
Definition deref {S} (p : option nat) : M S nat :=
  match p with
  | Some i => ret i
  | None => fail NullPointer
  end.

(** ** The structs *)

Record Arc : Type := mkArc {
  from : option nat;          (* struct Node *from *)
  to : option nat;            (* struct Node *to *)
  flow : double;
  capacity : double;
  constant : double;
  multiplier : double;
  direction : uint
}.

Record Node : Type := mkNode {
  visited : uint;
  numAdjacent : uint;
  number : uint;
  originalIndex : Z;          (* int *)
  label : uint;
  excess : double;
  parent : option nat;
  childList : option nat;
  nextScan : option nat;
  numOutOfTree : uint;
  outOfTree : list nat;       (* Arc **outOfTree; [] is NULL *)
  nextArc : uint;
  arcToParent : option nat;   (* Arc *arcToParent *)
  next : option nat
}.

Record Root : Type := mkRoot {
  start : option nat;
  end_ : option nat           (* Node *end *)
}.

Record CutProblem : Type := mkCutProblem {
  numNodesInList : uint;
  numSourceSet : uint;
  numSinkSet : uint;
  p_numArcs : uint;                              (* numArcs *)
  solved : uint;
  p_lambdaValue : double;                        (* lambdaValue *)
  p_arcList : list Arc;                          (* arcList *)
  nodeList : list Node;
  cutValue : double;
  cutMultiplier : double;
  cutConstant : double;
  sourceSet : list Node;
  sinkSet : list Node;
  optimalSourceSetIndicator : option (list uint) (* None is NULL *)
}.

Record Breakpoint : Type := mkBreakpoint {
  lambdaValue : double;
  sourceSetIndicator : list uint
}.

(** Field updates. *)
Definition set_flow (v : double) (a : Arc) : Arc :=
  mkArc (from a) (to a) v (capacity a) (constant a) (multiplier a) (direction a).
Definition set_capacity (v : double) (a : Arc) : Arc :=
  mkArc (from a) (to a) (flow a) v (constant a) (multiplier a) (direction a).
Definition set_constant (v : double) (a : Arc) : Arc :=
  mkArc (from a) (to a) (flow a) (capacity a) v (multiplier a) (direction a).
Definition set_multiplier (v : double) (a : Arc) : Arc :=
  mkArc (from a) (to a) (flow a) (capacity a) (constant a) v (direction a).
Definition set_direction (v : uint) (a : Arc) : Arc :=
  mkArc (from a) (to a) (flow a) (capacity a) (constant a) (multiplier a) v.
Definition set_from (v : option nat) (a : Arc) : Arc :=
  mkArc v (to a) (flow a) (capacity a) (constant a) (multiplier a) (direction a).
Definition set_to (v : option nat) (a : Arc) : Arc :=
  mkArc (from a) v (flow a) (capacity a) (constant a) (multiplier a) (direction a).

Definition set_numAdjacent (v : uint) (n : Node) : Node :=
  mkNode (visited n) v (number n) (originalIndex n) (label n) (excess n) (parent n)
    (childList n) (nextScan n) (numOutOfTree n) (outOfTree n) (nextArc n) (arcToParent n) (next n).
Definition set_originalIndex (v : Z) (n : Node) : Node :=
  mkNode (visited n) (numAdjacent n) (number n) v (label n) (excess n) (parent n)
    (childList n) (nextScan n) (numOutOfTree n) (outOfTree n) (nextArc n) (arcToParent n) (next n).
Definition set_label (v : uint) (n : Node) : Node :=
  mkNode (visited n) (numAdjacent n) (number n) (originalIndex n) v (excess n) (parent n)
    (childList n) (nextScan n) (numOutOfTree n) (outOfTree n) (nextArc n) (arcToParent n) (next n).
Definition set_excess (v : double) (n : Node) : Node :=
  mkNode (visited n) (numAdjacent n) (number n) (originalIndex n) (label n) v (parent n)
    (childList n) (nextScan n) (numOutOfTree n) (outOfTree n) (nextArc n) (arcToParent n) (next n).
Definition set_parent (v : option nat) (n : Node) : Node :=
  mkNode (visited n) (numAdjacent n) (number n) (originalIndex n) (label n) (excess n) v
    (childList n) (nextScan n) (numOutOfTree n) (outOfTree n) (nextArc n) (arcToParent n) (next n).
Definition set_childList (v : option nat) (n : Node) : Node :=
  mkNode (visited n) (numAdjacent n) (number n) (originalIndex n) (label n) (excess n) (parent n)
    v (nextScan n) (numOutOfTree n) (outOfTree n) (nextArc n) (arcToParent n) (next n).
Definition set_nextScan (v : option nat) (n : Node) : Node :=
  mkNode (visited n) (numAdjacent n) (number n) (originalIndex n) (label n) (excess n) (parent n)
    (childList n) v (numOutOfTree n) (outOfTree n) (nextArc n) (arcToParent n) (next n).
Definition set_numOutOfTree (v : uint) (n : Node) : Node :=
  mkNode (visited n) (numAdjacent n) (number n) (originalIndex n) (label n) (excess n) (parent n)
    (childList n) (nextScan n) v (outOfTree n) (nextArc n) (arcToParent n) (next n).
Definition set_outOfTree (v : list nat) (n : Node) : Node :=
  mkNode (visited n) (numAdjacent n) (number n) (originalIndex n) (label n) (excess n) (parent n)
    (childList n) (nextScan n) (numOutOfTree n) v (nextArc n) (arcToParent n) (next n).
Definition set_nextArc (v : uint) (n : Node) : Node :=
  mkNode (visited n) (numAdjacent n) (number n) (originalIndex n) (label n) (excess n) (parent n)
    (childList n) (nextScan n) (numOutOfTree n) (outOfTree n) v (arcToParent n) (next n).
Definition set_arcToParent (v : option nat) (n : Node) : Node :=
  mkNode (visited n) (numAdjacent n) (number n) (originalIndex n) (label n) (excess n) (parent n)
    (childList n) (nextScan n) (numOutOfTree n) (outOfTree n) (nextArc n) v (next n).
Definition set_next (v : option nat) (n : Node) : Node :=
  mkNode (visited n) (numAdjacent n) (number n) (originalIndex n) (label n) (excess n) (parent n)
    (childList n) (nextScan n) (numOutOfTree n) (outOfTree n) (nextArc n) (arcToParent n) v.

Definition set_start (v : option nat) (r : Root) : Root := mkRoot v (end_ r).
Definition set_end (v : option nat) (r : Root) : Root := mkRoot (start r) v.

(** ** The file-scope variables *)

(** The ones the engine works on. *)
Record Engine : Type := mkEngine {
  numNodes : uint;
  numArcs : uint;
  source : uint;
  sink : uint;
  highestStrongLabel : uint;
  numArcScans : uint;
  numPushes : uint;
  numMergers : uint;
  numRelabels : uint;
  numGaps : uint;
  nodesList : list Node;
  strongRoots : list Root;
  labelCount : list uint;
  arcList : list Arc
}.

(** Where a breakpoint was appended; kept next to the list as a record of the
    run (it is not read by any function). *)
Inductive EmitSite : Type :=
| AtHighCoincides     (* addBreakpoint(highProblem->lambdaValue, lowProblem->...) *)
| AtLowCoincides      (* addBreakpoint(lowProblem->lambdaValue, lowProblem->...) *)
| AtBaseLevel         (* addBreakpoint(highProblem->lambdaValue, highProblem->...) *)
| AtSingleLambda.     (* addBreakpoint in hpf_solve, useParametricCut == 0 *)

Record Globals : Type := mkGlobals {
  TOL : double;
  numNodesSuper : uint;
  numArcsSuper : uint;
  nodeListSuper : list Node;
  arcListSuper : list Arc;
  breakpoints : list Breakpoint;   (* firstBreakpoint ... lastBreakpoint *)
  emitted : list EmitSite;
  useParametricCut : uint;
  roundNegativeCapacity : uint;
  LAMBDA_LOW : double;
  LAMBDA_HIGH : double;
  engine : Engine
}.

Definition set_engine (e : Engine) (g : Globals) : Globals :=
  mkGlobals (TOL g) (numNodesSuper g) (numArcsSuper g) (nodeListSuper g) (arcListSuper g)
    (breakpoints g) (emitted g) (useParametricCut g) (roundNegativeCapacity g)
    (LAMBDA_LOW g) (LAMBDA_HIGH g) e.

(** An engine function called from the driver. *)
Definition inEngine {A} (m : M Engine A) : M Globals A :=
  fun g => match m (engine g) with
           | Ok (a, e) => Ok (a, set_engine e g)
           | Err e => Err e
           end.

Definition set_numNodes (v : uint) (e : Engine) : Engine :=
  mkEngine v (numArcs e) (source e) (sink e) (highestStrongLabel e) (numArcScans e) (numPushes e)
    (numMergers e) (numRelabels e) (numGaps e) (nodesList e) (strongRoots e) (labelCount e) (arcList e).
Definition set_numArcs (v : uint) (e : Engine) : Engine :=
  mkEngine (numNodes e) v (source e) (sink e) (highestStrongLabel e) (numArcScans e) (numPushes e)
    (numMergers e) (numRelabels e) (numGaps e) (nodesList e) (strongRoots e) (labelCount e) (arcList e).
Definition set_source (v : uint) (e : Engine) : Engine :=
  mkEngine (numNodes e) (numArcs e) v (sink e) (highestStrongLabel e) (numArcScans e) (numPushes e)
    (numMergers e) (numRelabels e) (numGaps e) (nodesList e) (strongRoots e) (labelCount e) (arcList e).
Definition set_sink (v : uint) (e : Engine) : Engine :=
  mkEngine (numNodes e) (numArcs e) (source e) v (highestStrongLabel e) (numArcScans e) (numPushes e)
    (numMergers e) (numRelabels e) (numGaps e) (nodesList e) (strongRoots e) (labelCount e) (arcList e).
Definition set_highestStrongLabel (v : uint) (e : Engine) : Engine :=
  mkEngine (numNodes e) (numArcs e) (source e) (sink e) v (numArcScans e) (numPushes e)
    (numMergers e) (numRelabels e) (numGaps e) (nodesList e) (strongRoots e) (labelCount e) (arcList e).
Definition set_numArcScans (v : uint) (e : Engine) : Engine :=
  mkEngine (numNodes e) (numArcs e) (source e) (sink e) (highestStrongLabel e) v (numPushes e)
    (numMergers e) (numRelabels e) (numGaps e) (nodesList e) (strongRoots e) (labelCount e) (arcList e).
Definition set_numPushes (v : uint) (e : Engine) : Engine :=
  mkEngine (numNodes e) (numArcs e) (source e) (sink e) (highestStrongLabel e) (numArcScans e) v
    (numMergers e) (numRelabels e) (numGaps e) (nodesList e) (strongRoots e) (labelCount e) (arcList e).
Definition set_numMergers (v : uint) (e : Engine) : Engine :=
  mkEngine (numNodes e) (numArcs e) (source e) (sink e) (highestStrongLabel e) (numArcScans e) (numPushes e)
    v (numRelabels e) (numGaps e) (nodesList e) (strongRoots e) (labelCount e) (arcList e).
Definition set_numRelabels (v : uint) (e : Engine) : Engine :=
  mkEngine (numNodes e) (numArcs e) (source e) (sink e) (highestStrongLabel e) (numArcScans e) (numPushes e)
    (numMergers e) v (numGaps e) (nodesList e) (strongRoots e) (labelCount e) (arcList e).
Definition set_numGaps (v : uint) (e : Engine) : Engine :=
  mkEngine (numNodes e) (numArcs e) (source e) (sink e) (highestStrongLabel e) (numArcScans e) (numPushes e)
    (numMergers e) (numRelabels e) v (nodesList e) (strongRoots e) (labelCount e) (arcList e).
Definition set_nodesList (v : list Node) (e : Engine) : Engine :=
  mkEngine (numNodes e) (numArcs e) (source e) (sink e) (highestStrongLabel e) (numArcScans e) (numPushes e)
    (numMergers e) (numRelabels e) (numGaps e) v (strongRoots e) (labelCount e) (arcList e).
Definition set_strongRoots (v : list Root) (e : Engine) : Engine :=
  mkEngine (numNodes e) (numArcs e) (source e) (sink e) (highestStrongLabel e) (numArcScans e) (numPushes e)
    (numMergers e) (numRelabels e) (numGaps e) (nodesList e) v (labelCount e) (arcList e).
Definition set_labelCount (v : list uint) (e : Engine) : Engine :=
  mkEngine (numNodes e) (numArcs e) (source e) (sink e) (highestStrongLabel e) (numArcScans e) (numPushes e)
    (numMergers e) (numRelabels e) (numGaps e) (nodesList e) (strongRoots e) v (arcList e).
Definition set_arcList (v : list Arc) (e : Engine) : Engine :=
  mkEngine (numNodes e) (numArcs e) (source e) (sink e) (highestStrongLabel e) (numArcScans e) (numPushes e)
    (numMergers e) (numRelabels e) (numGaps e) (nodesList e) (strongRoots e) (labelCount e) v.

(** ** Access to the engine's arrays *)

(** [&a[i]], the pointer to cell [i] of an array, for an unsigned [i]. *)
Definition addr (i : Z) : nat := Z.to_nat i.

Definition pread {A} (a : list A) (p : nat) : result A := aread a (Z.of_nat p).
Definition pwrite {A} (a : list A) (p : nat) (x : A) : result (list A) := awrite a (Z.of_nat p) x.

Definition getNode (p : nat) : M Engine Node :=
  l <- gets nodesList ;; liftR (pread l p).
Definition setNode (p : nat) (n : Node) : M Engine unit :=
  l <- gets nodesList ;; l' <- liftR (pwrite l p n) ;; modify (set_nodesList l').
Definition updNode (p : nat) (f : Node -> Node) : M Engine unit :=
  n <- getNode p ;; setNode p (f n).

Definition getArc (p : nat) : M Engine Arc :=
  l <- gets arcList ;; liftR (pread l p).
Definition updArc (p : nat) (f : Arc -> Arc) : M Engine unit :=
  l <- gets arcList ;; a <- liftR (pread l p) ;;
  l' <- liftR (pwrite l p (f a)) ;; modify (set_arcList l').

Definition getRoot (i : uint) : M Engine Root :=
  l <- gets strongRoots ;; liftR (aread l i).
Definition updRoot (i : uint) (f : Root -> Root) : M Engine unit :=
  l <- gets strongRoots ;; r <- liftR (aread l i) ;;
  l' <- liftR (awrite l i (f r)) ;; modify (set_strongRoots l').

Definition getLabelCount (i : uint) : M Engine uint :=
  l <- gets labelCount ;; liftR (aread l i).
Definition setLabelCount (i : uint) (v : uint) : M Engine unit :=
  l <- gets labelCount ;; l' <- liftR (awrite l i v) ;; modify (set_labelCount l').
(** [-- labelCount[i]] and [++ labelCount[i]]. *)
Definition decLabelCount (i : uint) : M Engine unit :=
  v <- getLabelCount i ;; setLabelCount i (u32 (v - 1)).
Definition incLabelCount (i : uint) : M Engine unit :=
  v <- getLabelCount i ;; setLabelCount i (u32 (v + 1)).

(** [for (i = lo; i < hi; ++i) body], for a bound [hi] the body leaves alone. *)
Fixpoint for_loop {S} (n : nat) (i : Z) (body : Z -> M S unit) : M S unit :=
  match n with
  | O => ret tt
  | S n' => body i ;; for_loop n' (i + 1) body
  end.
Definition for_range {S} (lo hi : Z) (body : Z -> M S unit) : M S unit :=
  for_loop (Z.to_nat (hi - lo)) lo body.

(** ** The pseudoflow engine *)

Definition createOutOfTree (nd : nat) : M Engine unit :=
  n <- getNode nd ;;
  if numAdjacent n =? 0 then ret tt
  else setNode nd (set_outOfTree (malloc (numAdjacent n) 0%nat) n).

Definition initializeArc (ac : Arc) : Arc :=
  mkArc None None 0%Q 0%Q 0%Q 0%Q 1.

(** The statements of [liftAll] run on each node it reaches. *)
Definition liftAll_lift (current : nat) : M Engine unit :=
  updNode current (fun c => set_nextScan (childList c) c) ;;
  c <- getNode current ;;
  decLabelCount (label c) ;;
  n <- gets numNodes ;;
  updNode current (set_label n).

Fixpoint liftAll_walk (fuel : nat) (current : option nat) : M Engine unit :=
  match fuel with
  | O => fail OutOfFuel
  | S fuel' =>
      match current with
      | None => ret tt
      | Some cur =>
          c <- getNode cur ;;
          match nextScan c with
          | Some temp =>
              t <- getNode temp ;;
              updNode cur (set_nextScan (next t)) ;;
              liftAll_lift temp ;;
              liftAll_walk fuel' (Some temp)
          | None => liftAll_walk fuel' (parent c)
          end
      end
  end.

Definition liftAll (fuel : nat) (rootNode : nat) : M Engine unit :=
  liftAll_lift rootNode ;;
  liftAll_walk fuel (Some rootNode).

Definition addOutOfTreeNode (n : nat) (out : nat) : M Engine unit :=
  nd <- getNode n ;;
  ot <- liftR (awrite (outOfTree nd) (numOutOfTree nd) out) ;;
  setNode n (set_outOfTree ot nd) ;;
  updNode n (fun nd => set_numOutOfTree (u32 (numOutOfTree nd + 1)) nd).

Definition addToStrongBucket (newRoot : nat) (rootBucket : uint) : M Engine unit :=
  rt <- getRoot rootBucket ;;
  match start rt with
  | Some _ =>
      e <- deref (end_ rt) ;;
      updNode e (set_next (Some newRoot)) ;;
      updRoot rootBucket (set_end (Some newRoot)) ;;
      updNode newRoot (set_next None)
  | None =>
      updRoot rootBucket (set_start (Some newRoot)) ;;
      updRoot rootBucket (set_end (Some newRoot)) ;;
      updNode newRoot (set_next None)
  end.

Definition addRelationship (newParent child : nat) : M Engine unit :=
  updNode child (set_parent (Some newParent)) ;;
  np <- getNode newParent ;;
  updNode child (set_next (childList np)) ;;
  updNode newParent (set_childList (Some child)).

(** [for (current = oldParent->childList; current->next != child; current = current->next);] *)
Fixpoint breakRelationship_find (fuel : nat) (current : option nat) (child : nat)
  : M Engine nat :=
  match fuel with
  | O => fail OutOfFuel
  | S fuel' =>
      cur <- deref current ;;
      c <- getNode cur ;;
      if decide (next c = Some child) then ret cur
      else breakRelationship_find fuel' (next c) child
  end.

Definition breakRelationship (fuel : nat) (oldParent child : nat) : M Engine unit :=
  updNode child (set_parent None) ;;
  op <- getNode oldParent ;;
  if decide (childList op = Some child) then
    c <- getNode child ;;
    updNode oldParent (set_childList (next c)) ;;
    updNode child (set_next None)
  else
    current <- breakRelationship_find fuel (childList op) child ;;
    c <- getNode child ;;
    updNode current (set_next (next c)) ;;
    updNode child (set_next None).

Fixpoint merge_loop (fuel : nat) (current newParent newArc : nat) : M Engine unit :=
  match fuel with
  | O => fail OutOfFuel
  | S fuel' =>
      c <- getNode current ;;
      match parent c with
      | Some oldParent =>
          let oldArc := arcToParent c in
          updNode current (set_arcToParent (Some newArc)) ;;
          breakRelationship fuel oldParent current ;;
          addRelationship newParent current ;;
          newArc' <- deref oldArc ;;
          updArc newArc' (fun a => set_direction (u32 (1 - direction a)) a) ;;
          merge_loop fuel' oldParent current newArc'
      | None =>
          updNode current (set_arcToParent (Some newArc)) ;;
          addRelationship newParent current
      end
  end.

Definition merge (fuel : nat) (parent child newArc : nat) : M Engine unit :=
  modify (fun e => set_numMergers (u32 (numMergers e + 1)) e) ;;
  merge_loop fuel child parent newArc.

Definition pushUpward (fuel : nat) (currentArc child parent : nat) (resCap : double)
  : M Engine unit :=
  modify (fun e => set_numPushes (u32 (numPushes e + 1)) e) ;;
  c <- getNode child ;;
  if 0 <=? isExcess (dsub resCap (excess c)) then
    c <- getNode child ;;
    updNode parent (fun p => set_excess (dadd (excess p) (excess c)) p) ;;
    c <- getNode child ;;
    updArc currentArc (fun a => set_flow (dadd (flow a) (excess c)) a) ;;
    updNode child (set_excess 0%Q)
  else
    updArc currentArc (set_direction 0) ;;
    updNode parent (fun p => set_excess (dadd (excess p) resCap) p) ;;
    updNode child (fun c => set_excess (dsub (excess c) resCap) c) ;;
    updArc currentArc (fun a => set_flow (capacity a) a) ;;
    addOutOfTreeNode parent currentArc ;;
    breakRelationship fuel parent child ;;
    c <- getNode child ;;
    addToStrongBucket child (label c).

Definition pushDownward (fuel : nat) (currentArc child parent : nat) (flow_ : double)
  : M Engine unit :=
  modify (fun e => set_numPushes (u32 (numPushes e + 1)) e) ;;
  c <- getNode child ;;
  if 0 <=? isExcess (dsub flow_ (excess c)) then
    c <- getNode child ;;
    updNode parent (fun p => set_excess (dadd (excess p) (excess c)) p) ;;
    c <- getNode child ;;
    updArc currentArc (fun a => set_flow (dsub (flow a) (excess c)) a) ;;
    updNode child (set_excess 0%Q)
  else
    updArc currentArc (set_direction 1) ;;
    updNode child (fun c => set_excess (dsub (excess c) flow_) c) ;;
    updNode parent (fun p => set_excess (dadd (excess p) flow_) p) ;;
    updArc currentArc (set_flow 0%Q) ;;
    addOutOfTreeNode parent currentArc ;;
    breakRelationship fuel parent child ;;
    c <- getNode child ;;
    addToStrongBucket child (label c).

(** The [for] loop of [pushExcess]; returns [current] and [prevEx] at its exit. *)
Fixpoint pushExcess_loop (fuel : nat) (current : nat) (prevEx : double)
  : M Engine (nat * double) :=
  match fuel with
  | O => fail OutOfFuel
  | S fuel' =>
      c <- getNode current ;;
      if isExcess (excess c) =? 0 then ret (current, prevEx)
      else
        match parent c with
        | None => ret (current, prevEx)
        | Some parent_ =>
            p <- getNode parent_ ;;
            let prevEx' := excess p in
            arcToParent_ <- deref (arcToParent c) ;;
            a <- getArc arcToParent_ ;;
            (if direction a =? 0
             then pushDownward fuel' arcToParent_ current parent_ (flow a)
             else pushUpward fuel' arcToParent_ current parent_
                    (dsub (capacity a) (flow a))) ;;
            pushExcess_loop fuel' parent_ prevEx'
        end
  end.

Definition pushExcess (fuel : nat) (strongRoot : nat) : M Engine unit :=
  r <- pushExcess_loop fuel strongRoot 1%Q ;;
  let '(current, prevEx) := r in
  c <- getNode current ;;
  if (0 <? isExcess (excess c)) && (isExcess prevEx <=? 0)
  then addToStrongBucket current (label c)
  else ret tt.

(** The exit of [findWeakNode] through one of its two [return (out)]. *)
Definition findWeakNode_take (strongNode : nat) (i : uint) : M Engine nat :=
  updNode strongNode (set_nextArc i) ;;
  sn <- getNode strongNode ;;
  out <- liftR (aread (outOfTree sn) i) ;;
  updNode strongNode (fun n => set_numOutOfTree (u32 (numOutOfTree n - 1)) n) ;;
  sn <- getNode strongNode ;;
  last_ <- liftR (aread (outOfTree sn) (numOutOfTree sn)) ;;
  ot <- liftR (awrite (outOfTree sn) i last_) ;;
  setNode strongNode (set_outOfTree ot sn) ;;
  ret out.

(** The [for] loop of [findWeakNode], [n] iterations from index [i];
    [Some (out, weakNode)] or [None] for [NULL]. *)
Fixpoint findWeakNode_scan (n : nat) (strongNode : nat) (i : uint)
  : M Engine (option (nat * nat)) :=
  match n with
  | O =>
      updNode strongNode (fun sn => set_nextArc (numOutOfTree sn) sn) ;;
      ret None
  | S n' =>
      modify (fun e => set_numArcScans (u32 (numArcScans e + 1)) e) ;;
      sn <- getNode strongNode ;;
      oi <- liftR (aread (outOfTree sn) i) ;;
      a <- getArc oi ;;
      t <- deref (to a) ;;
      tn <- getNode t ;;
      h <- gets highestStrongLabel ;;
      if label tn =? u32 (h - 1) then
        out <- findWeakNode_take strongNode i ;;
        a <- getArc out ;;
        weakNode <- deref (to a) ;;
        ret (Some (out, weakNode))
      else
        f <- deref (from a) ;;
        fn <- getNode f ;;
        if label fn =? u32 (h - 1) then
          out <- findWeakNode_take strongNode i ;;
          a <- getArc out ;;
          weakNode <- deref (from a) ;;
          ret (Some (out, weakNode))
        else findWeakNode_scan n' strongNode (i + 1)
  end.

Definition findWeakNode (strongNode : nat) : M Engine (option (nat * nat)) :=
  sn <- getNode strongNode ;;
  let size := numOutOfTree sn in
  findWeakNode_scan (Z.to_nat (size - nextArc sn)) strongNode (nextArc sn).

(** The [for] loop of [checkChildren]; [true] when it leaves through [return]. *)
Fixpoint checkChildren_scan (fuel : nat) (curNode : nat) : M Engine bool :=
  match fuel with
  | O => fail OutOfFuel
  | S fuel' =>
      c <- getNode curNode ;;
      match nextScan c with
      | None => ret false
      | Some s =>
          sn <- getNode s ;;
          if label sn =? label c then ret true
          else
            updNode curNode (set_nextScan (next sn)) ;;
            checkChildren_scan fuel' curNode
      end
  end.

Definition checkChildren (fuel : nat) (curNode : nat) : M Engine unit :=
  found <- checkChildren_scan fuel curNode ;;
  if found : bool then ret tt
  else
    c <- getNode curNode ;;
    decLabelCount (label c) ;;
    updNode curNode (fun c => set_label (u32 (label c + 1)) c) ;;
    c <- getNode curNode ;;
    incLabelCount (label c) ;;
    modify (fun e => set_numRelabels (u32 (numRelabels e + 1)) e) ;;
    updNode curNode (set_nextArc 0).

Definition simpleInitialization : M Engine unit :=
  source_ <- gets source ;;
  sink_ <- gets sink ;;
  s <- getNode (addr source_) ;;
  for_range 0 (numOutOfTree s) (fun i =>       (* Saturating source adjacent nodes *)
    s <- getNode (addr source_) ;;
    tempArc <- liftR (aread (outOfTree s) i) ;;
    updArc tempArc (fun a => set_flow (capacity a) a) ;;
    a <- getArc tempArc ;;
    t <- deref (to a) ;;
    updNode t (fun n => set_excess (dadd (excess n) (capacity a)) n)) ;;
  s <- getNode (addr sink_) ;;
  for_range 0 (numOutOfTree s) (fun i =>       (* Pushing maximum flow on sink adjacent nodes *)
    s <- getNode (addr sink_) ;;
    tempArc <- liftR (aread (outOfTree s) i) ;;
    updArc tempArc (fun a => set_flow (capacity a) a) ;;
    a <- getArc tempArc ;;
    f <- deref (from a) ;;
    updNode f (fun n => set_excess (dsub (excess n) (capacity a)) n)) ;;
  updNode (addr source_) (set_excess 0%Q) ;;   (* zeroing source excess *)
  updNode (addr sink_) (set_excess 0%Q) ;;     (* zeroing sink excess *)
  n <- gets numNodes ;;
  for_range 0 n (fun i =>
    nd <- getNode (addr i) ;;
    if 0 <? isExcess (excess nd) then
      updNode (addr i) (set_label 1) ;;
      incLabelCount 1 ;;
      addToStrongBucket (addr i) 1
    else ret tt) ;;
  n <- gets numNodes ;;
  updNode (addr source_) (set_label n) ;;      (* Set the source label to n *)
  updNode (addr sink_) (set_label 0) ;;        (* set the sink label to 0 *)
  c1 <- getLabelCount 1 ;;
  setLabelCount 0 (u32 (u32 (n - 2) - c1)).

(** [while (strongRoots[i].start) { ++ numGaps; ...; liftAll (strongRoot); }] *)
Fixpoint getHighestStrongRoot_gap (fuel : nat) (i : uint) : M Engine unit :=
  match fuel with
  | O => fail OutOfFuel
  | S fuel' =>
      rt <- getRoot i ;;
      match start rt with
      | None => ret tt
      | Some strongRoot =>
          modify (fun e => set_numGaps (u32 (numGaps e + 1)) e) ;;
          r <- getNode strongRoot ;;
          updRoot i (set_start (next r)) ;;
          liftAll fuel' strongRoot ;;
          getHighestStrongRoot_gap fuel' i
      end
  end.

(** [for (i = highestStrongLabel; i > 0; -- i)], [n] iterations from [i];
    [Some strongRoot] when the loop is left through [return strongRoot]. *)
Fixpoint getHighestStrongRoot_scan (fuel : nat) (n : nat) (i : uint)
  : M Engine (option nat) :=
  match n with
  | O => ret None
  | S n' =>
      rt <- getRoot i ;;
      match start rt with
      | Some strongRoot =>
          modify (set_highestStrongLabel i) ;;
          c <- getLabelCount (i - 1) ;;
          if negb (c =? 0) then
            r <- getNode strongRoot ;;
            updRoot i (set_start (next r)) ;;
            updNode strongRoot (set_next None) ;;
            ret (Some strongRoot)
          else
            getHighestStrongRoot_gap fuel i ;;
            getHighestStrongRoot_scan fuel n' (i - 1)
      | None => getHighestStrongRoot_scan fuel n' (i - 1)
      end
  end.

(** [while (strongRoots[0].start) { ... addToStrongBucket (...); }] *)
Fixpoint getHighestStrongRoot_promote (fuel : nat) : M Engine unit :=
  match fuel with
  | O => fail OutOfFuel
  | S fuel' =>
      rt <- getRoot 0 ;;
      match start rt with
      | None => ret tt
      | Some strongRoot =>
          r <- getNode strongRoot ;;
          updRoot 0 (set_start (next r)) ;;
          updNode strongRoot (set_label 1) ;;
          decLabelCount 0 ;;
          incLabelCount 1 ;;
          modify (fun e => set_numRelabels (u32 (numRelabels e + 1)) e) ;;
          r <- getNode strongRoot ;;
          addToStrongBucket strongRoot (label r) ;;
          getHighestStrongRoot_promote fuel'
      end
  end.

(** [None] is the [NULL] result. *)
Definition getHighestStrongRoot (fuel : nat) : M Engine (option nat) :=
  h <- gets highestStrongLabel ;;
  found <- getHighestStrongRoot_scan fuel (Z.to_nat h) h ;;
  match found with
  | Some strongRoot => ret (Some strongRoot)
  | None =>
      rt <- getRoot 0 ;;
      match start rt with
      | None => ret None
      | Some _ =>
          getHighestStrongRoot_promote fuel ;;
          modify (set_highestStrongLabel 1) ;;
          rt <- getRoot 1 ;;
          strongRoot <- deref (start rt) ;;
          r <- getNode strongRoot ;;
          updRoot 1 (set_start (next r)) ;;
          updNode strongRoot (set_next None) ;;
          ret (Some strongRoot)
      end
  end.

Definition initializeRoot (rt : Root) : Root := mkRoot None None.

Definition initializeNode (nd : Node) (n : uint) : Node :=
  mkNode 0 0 n (-10) 0 0%Q None None None 0 [] 0 None None.

Definition freeRoot (rt : Root) : Root := mkRoot None None.

(** The nodes keep their fields; the arrays of the solve are released. *)
Definition freeMemorySolve : M Engine unit :=
  n <- gets numNodes ;;
  for_range 0 n (fun i => updRoot i freeRoot) ;;
  modify (set_strongRoots []) ;;
  for_range 0 n (fun i => updNode (addr i) (set_outOfTree [])) ;;
  modify (set_labelCount []).

(** The two loops of [processRoot] below its first [checkChildren];
    [true] when a weak node was found and merged. *)
Fixpoint processRoot_walk (fuel : nat) (strongRoot : nat) (strongNode : option nat)
  : M Engine bool :=
  match fuel with
  | O => fail OutOfFuel
  | S fuel' =>
      match strongNode with
      | None => ret false
      | Some sn =>
          s <- getNode sn ;;
          match nextScan s with
          | Some temp =>
              t <- getNode temp ;;
              updNode sn (set_nextScan (next t)) ;;
              updNode temp (fun t => set_nextScan (childList t) t) ;;
              found <- findWeakNode temp ;;
              match found with
              | Some (out, weakNode) =>
                  merge fuel' weakNode temp out ;;
                  pushExcess fuel' strongRoot ;;
                  ret true
              | None =>
                  checkChildren fuel' temp ;;
                  processRoot_walk fuel' strongRoot (Some temp)
              end
          | None =>
              match parent s with
              | Some p =>
                  checkChildren fuel' p ;;
                  processRoot_walk fuel' strongRoot (Some p)
              | None => processRoot_walk fuel' strongRoot None
              end
          end
      end
  end.

Definition processRoot (fuel : nat) (strongRoot : nat) : M Engine unit :=
  updNode strongRoot (fun r => set_nextScan (childList r) r) ;;
  found <- findWeakNode strongRoot ;;
  match found with
  | Some (out, weakNode) =>
      merge fuel weakNode strongRoot out ;;
      pushExcess fuel strongRoot
  | None =>
      checkChildren fuel strongRoot ;;
      merged <- processRoot_walk fuel strongRoot (Some strongRoot) ;;
      if merged : bool then ret tt
      else
        r <- getNode strongRoot ;;
        addToStrongBucket strongRoot (label r) ;;
        modify (fun e => set_highestStrongLabel (u32 (highestStrongLabel e + 1)) e)
  end.

Fixpoint pseudoflowPhase1 (fuel : nat) : M Engine unit :=
  match fuel with
  | O => fail OutOfFuel
  | S fuel' =>
      r <- getHighestStrongRoot fuel' ;;
      match r with
      | Some strongRoot =>
          processRoot fuel' strongRoot ;;
          pseudoflowPhase1 fuel'
      | None => ret tt
      end
  end.

Definition createMemoryStructures : M Engine unit :=
  n <- gets numNodes ;;
  for_range 0 n (fun i => createOutOfTree (addr i)) ;;
  m <- gets numArcs ;;
  for_range 0 m (fun i =>
    a <- getArc (addr i) ;;
    t <- deref (to a) ;; tn <- getNode t ;;
    let to_ := number tn in
    f <- deref (from a) ;; fn <- getNode f ;;
    let from_ := number fn in
    let capacity_ := capacity a in
    source_ <- gets source ;;
    sink_ <- gets sink ;;
    if negb ((source_ =? to_) || (sink_ =? from_) || (from_ =? to_)) then
      if (source_ =? from_) && (to_ =? sink_) then
        updArc (addr i) (set_flow capacity_)
      else if to_ =? sink_ then
        addOutOfTreeNode (addr to_) (addr i)
      else
        addOutOfTreeNode (addr from_) (addr i)
    else ret tt) ;;
  n <- gets numNodes ;;
  modify (set_strongRoots (malloc n (mkRoot None None))) ;;
  modify (set_labelCount (malloc n 0)) ;;
  for_range 0 n (fun i =>
    updRoot i initializeRoot ;;
    setLabelCount i 0).

(** ** Cut problems *)

Definition set_numNodesInList (v : uint) (p : CutProblem) : CutProblem :=
  mkCutProblem v (numSourceSet p) (numSinkSet p) (p_numArcs p) (solved p) (p_lambdaValue p)
    (p_arcList p) (nodeList p) (cutValue p) (cutMultiplier p) (cutConstant p) (sourceSet p)
    (sinkSet p) (optimalSourceSetIndicator p).
Definition set_numSourceSet (v : uint) (p : CutProblem) : CutProblem :=
  mkCutProblem (numNodesInList p) v (numSinkSet p) (p_numArcs p) (solved p) (p_lambdaValue p)
    (p_arcList p) (nodeList p) (cutValue p) (cutMultiplier p) (cutConstant p) (sourceSet p)
    (sinkSet p) (optimalSourceSetIndicator p).
Definition set_numSinkSet (v : uint) (p : CutProblem) : CutProblem :=
  mkCutProblem (numNodesInList p) (numSourceSet p) v (p_numArcs p) (solved p) (p_lambdaValue p)
    (p_arcList p) (nodeList p) (cutValue p) (cutMultiplier p) (cutConstant p) (sourceSet p)
    (sinkSet p) (optimalSourceSetIndicator p).
Definition set_p_numArcs (v : uint) (p : CutProblem) : CutProblem :=
  mkCutProblem (numNodesInList p) (numSourceSet p) (numSinkSet p) v (solved p) (p_lambdaValue p)
    (p_arcList p) (nodeList p) (cutValue p) (cutMultiplier p) (cutConstant p) (sourceSet p)
    (sinkSet p) (optimalSourceSetIndicator p).
Definition set_solved (v : uint) (p : CutProblem) : CutProblem :=
  mkCutProblem (numNodesInList p) (numSourceSet p) (numSinkSet p) (p_numArcs p) v (p_lambdaValue p)
    (p_arcList p) (nodeList p) (cutValue p) (cutMultiplier p) (cutConstant p) (sourceSet p)
    (sinkSet p) (optimalSourceSetIndicator p).
Definition set_p_lambdaValue (v : double) (p : CutProblem) : CutProblem :=
  mkCutProblem (numNodesInList p) (numSourceSet p) (numSinkSet p) (p_numArcs p) (solved p) v
    (p_arcList p) (nodeList p) (cutValue p) (cutMultiplier p) (cutConstant p) (sourceSet p)
    (sinkSet p) (optimalSourceSetIndicator p).
Definition set_p_arcList (v : list Arc) (p : CutProblem) : CutProblem :=
  mkCutProblem (numNodesInList p) (numSourceSet p) (numSinkSet p) (p_numArcs p) (solved p)
    (p_lambdaValue p) v (nodeList p) (cutValue p) (cutMultiplier p) (cutConstant p) (sourceSet p)
    (sinkSet p) (optimalSourceSetIndicator p).
Definition set_nodeList (v : list Node) (p : CutProblem) : CutProblem :=
  mkCutProblem (numNodesInList p) (numSourceSet p) (numSinkSet p) (p_numArcs p) (solved p)
    (p_lambdaValue p) (p_arcList p) v (cutValue p) (cutMultiplier p) (cutConstant p) (sourceSet p)
    (sinkSet p) (optimalSourceSetIndicator p).
Definition set_cutValue (v : double) (p : CutProblem) : CutProblem :=
  mkCutProblem (numNodesInList p) (numSourceSet p) (numSinkSet p) (p_numArcs p) (solved p)
    (p_lambdaValue p) (p_arcList p) (nodeList p) v (cutMultiplier p) (cutConstant p) (sourceSet p)
    (sinkSet p) (optimalSourceSetIndicator p).
Definition set_cutMultiplier (v : double) (p : CutProblem) : CutProblem :=
  mkCutProblem (numNodesInList p) (numSourceSet p) (numSinkSet p) (p_numArcs p) (solved p)
    (p_lambdaValue p) (p_arcList p) (nodeList p) (cutValue p) v (cutConstant p) (sourceSet p)
    (sinkSet p) (optimalSourceSetIndicator p).
Definition set_cutConstant (v : double) (p : CutProblem) : CutProblem :=
  mkCutProblem (numNodesInList p) (numSourceSet p) (numSinkSet p) (p_numArcs p) (solved p)
    (p_lambdaValue p) (p_arcList p) (nodeList p) (cutValue p) (cutMultiplier p) v (sourceSet p)
    (sinkSet p) (optimalSourceSetIndicator p).
Definition set_sourceSet (v : list Node) (p : CutProblem) : CutProblem :=
  mkCutProblem (numNodesInList p) (numSourceSet p) (numSinkSet p) (p_numArcs p) (solved p)
    (p_lambdaValue p) (p_arcList p) (nodeList p) (cutValue p) (cutMultiplier p) (cutConstant p) v
    (sinkSet p) (optimalSourceSetIndicator p).
Definition set_sinkSet (v : list Node) (p : CutProblem) : CutProblem :=
  mkCutProblem (numNodesInList p) (numSourceSet p) (numSinkSet p) (p_numArcs p) (solved p)
    (p_lambdaValue p) (p_arcList p) (nodeList p) (cutValue p) (cutMultiplier p) (cutConstant p)
    (sourceSet p) v (optimalSourceSetIndicator p).
Definition set_optimalSourceSetIndicator (v : option (list uint)) (p : CutProblem) : CutProblem :=
  mkCutProblem (numNodesInList p) (numSourceSet p) (numSinkSet p) (p_numArcs p) (solved p)
    (p_lambdaValue p) (p_arcList p) (nodeList p) (cutValue p) (cutMultiplier p) (cutConstant p)
    (sourceSet p) (sinkSet p) v.

(** A cell of freshly allocated memory. *)
Definition CutProblem_uninit : CutProblem :=
  mkCutProblem 0 0 0 0 0 0%Q [] [] 0%Q 0%Q 0%Q [] [] None.
Definition Node_uninit : Node := mkNode 0 0 0 0 0 0%Q None None None 0 [] 0 None None.
Definition Arc_uninit : Arc := mkArc None None 0%Q 0%Q 0%Q 0%Q 0.

(** [ind[j]] for an indicator array that may be [NULL]. *)
Definition ind_read (ind : option (list uint)) (j : Z) : result uint :=
  match ind with
  | Some a => aread a j
  | None => Err NullPointer
  end.

(** [nodes[i].f = v] on a node array of a problem. *)
Definition node_upd (nodes : list Node) (i : uint) (f : Node -> Node) : result (list Node) :=
  match aread nodes i with
  | Ok n => awrite nodes i (f n)
  | Err e => Err e
  end.

Definition arc_upd (arcs : list Arc) (i : uint) (f : Arc -> Arc) : result (list Arc) :=
  match aread arcs i with
  | Ok a => awrite arcs i (f a)
  | Err e => Err e
  end.

(** copyArcNew - copy basic info arc and point to new nodes.  [oldNodes] is
    the node array the arc [old] points into, [new] the index of the new arc
    in [problem->arcList]. *)
Definition copyArcNew (oldNodes : list Node) (nodeMap : list Z) (old : Arc) (new : uint)
  : M CutProblem unit :=
  l <- gets p_arcList ;;
  l <- liftR (arc_upd l new initializeArc) ;;
  l <- liftR (arc_upd l new (set_constant (constant old))) ;;
  l <- liftR (arc_upd l new (set_multiplier (multiplier old))) ;;
  modify (set_p_arcList l) ;;
  f <- deref (from old) ;;
  fn <- liftR (pread oldNodes f) ;;
  m <- liftR (aread nodeMap (number fn)) ;;
  let newIndexFrom := u32 m in
  t <- deref (to old) ;;
  tn <- liftR (pread oldNodes t) ;;
  m <- liftR (aread nodeMap (number tn)) ;;
  let newIndexTo := u32 m in
  l <- gets p_arcList ;;
  l <- liftR (arc_upd l new (set_from (Some (addr newIndexFrom)))) ;;
  l <- liftR (arc_upd l new (set_to (Some (addr newIndexTo)))) ;;
  modify (set_p_arcList l) ;;
  (* update degree nodes *)
  nl <- gets nodeList ;;
  nl <- liftR (node_upd nl newIndexFrom (fun n => set_numAdjacent (u32 (numAdjacent n + 1)) n)) ;;
  modify (set_nodeList nl) ;;
  nl <- gets nodeList ;;
  nl <- liftR (node_upd nl newIndexTo (fun n => set_numAdjacent (u32 (numAdjacent n + 1)) n)) ;;
  modify (set_nodeList nl).

(** copyArcAdd - update arc by adding another *)
Definition copyArcAdd (old : Arc) (new : uint) : M CutProblem unit :=
  l <- gets p_arcList ;;
  l <- liftR (arc_upd l new (fun a => set_constant (dadd (constant a) (constant old)) a)) ;;
  l <- liftR (arc_upd l new (fun a => set_multiplier (dadd (multiplier a) (multiplier old)) a)) ;;
  modify (set_p_arcList l).

(** One iteration of the loop of [evaluateCapacities], on arc [a]. *)
Definition evaluateCapacity (g : Globals) (lambda : double) (a : Arc) : result Arc :=
  let a := set_capacity (dadd (constant a) (dmul (multiplier a) lambda)) a in
  if dlt (capacity a) 0%Q then
    if (roundNegativeCapacity g =? 1) || dgt (capacity a) (dneg (TOL g))
    then Ok (set_capacity 0%Q a)
    else Err (ExitNegativeCapacity lambda)
  else Ok a.

(** evaluateCapacities - Evaluate capacities for a particular value of capacities *)
Definition evaluateCapacities (g : Globals) : M CutProblem unit :=
  m <- gets p_numArcs ;;
  for_range 0 m (fun i =>
    l <- gets p_arcList ;;
    a <- liftR (aread l i) ;;
    lambda <- gets p_lambdaValue ;;
    a <- liftR (evaluateCapacity g lambda a) ;;
    l <- liftR (awrite l i a) ;;
    modify (set_p_arcList l)).

(** The local variables of [initializeProblem] and of [contractProblem],
    with the problem under construction ([currentNode] is [currentNodeInList]
    in [contractProblem]). *)
Record Frame : Type := mkFrame {
  problem : CutProblem;
  nodeMap : list Z;
  currentNode : uint;
  currentSourceSet : uint;
  currentSinkSet : uint;
  currentArc : uint;
  sourceAdjacentArcIndices : list Z;
  sinkAdjacentArcIndices : list Z
}.

Definition set_problem (v : CutProblem) (f : Frame) : Frame :=
  mkFrame v (nodeMap f) (currentNode f) (currentSourceSet f) (currentSinkSet f) (currentArc f)
    (sourceAdjacentArcIndices f) (sinkAdjacentArcIndices f).
Definition set_nodeMap (v : list Z) (f : Frame) : Frame :=
  mkFrame (problem f) v (currentNode f) (currentSourceSet f) (currentSinkSet f) (currentArc f)
    (sourceAdjacentArcIndices f) (sinkAdjacentArcIndices f).
Definition set_currentNode (v : uint) (f : Frame) : Frame :=
  mkFrame (problem f) (nodeMap f) v (currentSourceSet f) (currentSinkSet f) (currentArc f)
    (sourceAdjacentArcIndices f) (sinkAdjacentArcIndices f).
Definition set_currentSourceSet (v : uint) (f : Frame) : Frame :=
  mkFrame (problem f) (nodeMap f) (currentNode f) v (currentSinkSet f) (currentArc f)
    (sourceAdjacentArcIndices f) (sinkAdjacentArcIndices f).
Definition set_currentSinkSet (v : uint) (f : Frame) : Frame :=
  mkFrame (problem f) (nodeMap f) (currentNode f) (currentSourceSet f) v (currentArc f)
    (sourceAdjacentArcIndices f) (sinkAdjacentArcIndices f).
Definition set_currentArc (v : uint) (f : Frame) : Frame :=
  mkFrame (problem f) (nodeMap f) (currentNode f) (currentSourceSet f) (currentSinkSet f) v
    (sourceAdjacentArcIndices f) (sinkAdjacentArcIndices f).
Definition set_sourceAdjacentArcIndices (v : list Z) (f : Frame) : Frame :=
  mkFrame (problem f) (nodeMap f) (currentNode f) (currentSourceSet f) (currentSinkSet f)
    (currentArc f) v (sinkAdjacentArcIndices f).
Definition set_sinkAdjacentArcIndices (v : list Z) (f : Frame) : Frame :=
  mkFrame (problem f) (nodeMap f) (currentNode f) (currentSourceSet f) (currentSinkSet f)
    (currentArc f) (sourceAdjacentArcIndices f) v.

(** A statement on the fields of [problem]. *)
Definition onProblem {A} (m : M CutProblem A) : M Frame A :=
  fun f => match m (problem f) with
           | Ok (a, p) => Ok (a, set_problem p f)
           | Err e => Err e
           end.

(** [problem->sourceSet[i]], [problem->sinkSet[i]] and [problem->nodeList[i]]
    initialised as node [i] with the given original index. *)
Definition new_sourceSet_node (i : uint) (orig : Z) : M CutProblem unit :=
  l <- gets sourceSet ;;
  l <- liftR (awrite l i (set_originalIndex orig (initializeNode Node_uninit i))) ;;
  modify (set_sourceSet l).
Definition new_sinkSet_node (i : uint) (orig : Z) : M CutProblem unit :=
  l <- gets sinkSet ;;
  l <- liftR (awrite l i (set_originalIndex orig (initializeNode Node_uninit i))) ;;
  modify (set_sinkSet l).
Definition new_nodeList_node (i : uint) (orig : Z) : M CutProblem unit :=
  l <- gets nodeList ;;
  l <- liftR (awrite l i (set_originalIndex orig (initializeNode Node_uninit i))) ;;
  modify (set_nodeList l).

(** [nodeMap[i] = v] *)
Definition set_nodeMap_at (i : uint) (v : Z) : M Frame unit :=
  nm <- gets nodeMap ;;
  nm <- liftR (awrite nm i v) ;;
  modify (set_nodeMap nm).

(** initializeProblem - Setup problems for parametric cut *)
Definition initializeProblem (g : Globals) (nodeListProblem : list Node) (numNodesProblem : uint)
    (arcListProblem : list Arc) (numArcsProblem : uint) (lambdaValue_ : double)
  : result CutProblem :=
  let p := CutProblem_uninit in
  let p := set_cutValue 0%Q p in
  let p := set_cutMultiplier 0%Q p in
  let p := set_cutConstant 0%Q p in
  let p := set_solved 0 p in
  let p := set_optimalSourceSetIndicator None p in
  let p := set_p_lambdaValue lambdaValue_ p in
  let p := set_numSourceSet 1 p in
  let p := set_numSinkSet 1 p in
  let p := set_numNodesInList numNodesProblem p in
  let p := set_nodeList (malloc (numNodesInList p) Node_uninit) p in
  let p := set_sourceSet (malloc (numSourceSet p) Node_uninit) p in
  let p := set_sinkSet (malloc (numSourceSet p) Node_uninit) p in
  let run : M Frame unit :=
    (* create new node sets *)
    for_range 0 numNodesProblem (fun i =>
      old <- liftR (aread nodeListProblem i) ;;
      if i =? source (engine g) then
        onProblem (new_sourceSet_node 0 (originalIndex old)) ;;
        onProblem (new_nodeList_node 0 (-1)) ;;  (* source is always first node *)
        set_nodeMap_at i 0
      else if i =? sink (engine g) then
        onProblem (new_sinkSet_node 0 (originalIndex old)) ;;
        onProblem (new_nodeList_node 1 (-2)) ;;  (* sink is always seond node *)
        set_nodeMap_at i 1
      else
        c <- gets currentNode ;;
        onProblem (new_nodeList_node c (originalIndex old)) ;;
        set_nodeMap_at i c ;;
        modify (set_currentNode (u32 (c + 1)))) ;;
    (* set number of arcs *)
    onProblem (modify (set_p_numArcs numArcsProblem)) ;;
    onProblem (modify (set_p_arcList (malloc numArcsProblem Arc_uninit))) ;;
    (* copy arcs *)
    for_range 0 numArcsProblem (fun i =>
      old <- liftR (aread arcListProblem i) ;;
      nm <- gets nodeMap ;;
      onProblem (copyArcNew nodeListProblem nm old i)) ;;
    (* evaluate capacities *)
    onProblem (evaluateCapacities g) in
  match run (mkFrame p (malloc numNodesProblem 0) 2 0 0 0 [] []) with
  | Ok (_, f) => Ok (problem f)
  | Err e => Err e
  end.

(** [nodeMap[arc->from->number]] and [nodeMap[arc->to->number]] for an arc of
    [oldProblem]. *)
Definition newIndexFrom_of (oldProblem : CutProblem) (a : Arc) : M Frame uint :=
  f <- deref (from a) ;;
  fn <- liftR (pread (nodeList oldProblem) f) ;;
  nm <- gets nodeMap ;;
  m <- liftR (aread nm (number fn)) ;;
  ret (u32 m).
Definition newIndexTo_of (oldProblem : CutProblem) (a : Arc) : M Frame uint :=
  t <- deref (to a) ;;
  tn <- liftR (pread (nodeList oldProblem) t) ;;
  nm <- gets nodeMap ;;
  m <- liftR (aread nm (number tn)) ;;
  ret (u32 m).

(** contractProblem, the body of its first loop, for the node [i] of
    [oldProblem]. *)
Definition contractProblem_size (oldProblem : CutProblem)
    (lowSourceSetIndicator highSourceSetIndicator : option (list uint)) (i : uint)
  : M Frame unit :=
  old <- liftR (aread (nodeList oldProblem) i) ;;
  let originalIndex_ := u32 (originalIndex old) in
  low <- liftR (ind_read lowSourceSetIndicator originalIndex_) ;;
  if low =? 1 then
    onProblem (modify (fun p => set_numSourceSet (u32 (numSourceSet p + 1)) p)) ;;
    onProblem (modify (fun p => set_numNodesInList (u32 (numNodesInList p - 1)) p))
  else
    high <- liftR (ind_read highSourceSetIndicator originalIndex_) ;;
    if high =? 0 then
      onProblem (modify (fun p => set_numSinkSet (u32 (numSinkSet p + 1)) p)) ;;
      onProblem (modify (fun p => set_numNodesInList (u32 (numNodesInList p - 1)) p))
    else ret tt.

(** contractProblem, first loop: determine size node sets. *)
Definition contractProblem_sizes (oldProblem : CutProblem)
    (lowSourceSetIndicator highSourceSetIndicator : option (list uint)) : M Frame unit :=
  (* we can skip source and sink since they will stay *)
  for_range 2 (numNodesInList oldProblem)
    (contractProblem_size oldProblem lowSourceSetIndicator highSourceSetIndicator).

(** contractProblem, the allocation of the node sets and the copy of the two
    frozen sets and of the two artificial nodes. *)
Definition contractProblem_copy_sets (oldProblem : CutProblem) : M Frame unit :=
  (* allocate space for the node sets *)
  onProblem (modify (fun p => set_nodeList (malloc (numNodesInList p) Node_uninit) p)) ;;
  onProblem (modify (fun p => set_sourceSet (malloc (numSourceSet p) Node_uninit) p)) ;;
  onProblem (modify (fun p => set_sinkSet (malloc (numSinkSet p) Node_uninit) p)) ;;
  (* copy source set *)
  for_range 0 (numSourceSet oldProblem) (fun i =>
    old <- liftR (aread (sourceSet oldProblem) i) ;;
    onProblem (new_sourceSet_node i (originalIndex old))) ;;
  (* copy sink set *)
  for_range 0 (numSinkSet oldProblem) (fun i =>
    old <- liftR (aread (sinkSet oldProblem) i) ;;
    onProblem (new_sinkSet_node i (originalIndex old))) ;;
  (* copy source *)
  onProblem (new_nodeList_node 0 (-1)) ;;   (* source is always first node *)
  set_nodeMap_at 0 0 ;;
  (* copy sink *)
  onProblem (new_nodeList_node 1 (-2)) ;;   (* sink is always seond node *)
  set_nodeMap_at 1 1.

(** contractProblem, the body of the loop that places the node [i] of
    [oldProblem]. *)
Definition contractProblem_place (oldProblem : CutProblem)
    (lowSourceSetIndicator highSourceSetIndicator : option (list uint)) (i : uint)
  : M Frame unit :=
  old <- liftR (aread (nodeList oldProblem) i) ;;
  let originalIndex_ := u32 (originalIndex old) in
  low <- liftR (ind_read lowSourceSetIndicator originalIndex_) ;;
  if low =? 1 then
    c <- gets currentSourceSet ;;
    onProblem (new_sourceSet_node c (originalIndex old)) ;;
    set_nodeMap_at i 0 ;;
    modify (set_currentSourceSet (u32 (c + 1)))
  else
    high <- liftR (ind_read highSourceSetIndicator originalIndex_) ;;
    if high =? 0 then
      c <- gets currentSinkSet ;;
      onProblem (new_sinkSet_node c (originalIndex old)) ;;
      set_nodeMap_at i 1 ;;
      modify (set_currentSinkSet (u32 (c + 1)))
    else
      c <- gets currentNode ;;
      onProblem (new_nodeList_node c (originalIndex old)) ;;
      set_nodeMap_at i c ;;
      modify (set_currentNode (u32 (c + 1))).

(** contractProblem, the node sets. *)
Definition contractProblem_nodes (oldProblem : CutProblem)
    (lowSourceSetIndicator highSourceSetIndicator : option (list uint)) : M Frame unit :=
  contractProblem_copy_sets oldProblem ;;
  (* create new node list - we can ignore source and sink since they don't change *)
  for_range 2 (numNodesInList oldProblem)
    (contractProblem_place oldProblem lowSourceSetIndicator highSourceSetIndicator).

(** contractProblem, the arcs: the count of the new arcs, then their copy. *)
Definition contractProblem_arcs (oldProblem : CutProblem) : M Frame unit :=
  (* set number of arcs *)
  onProblem (modify (set_p_numArcs (p_numArcs oldProblem))) ;;
  (* allocate space for source and sink arc indices, initialize indices *)
  n <- onProblem (gets numNodesInList) ;;
  modify (set_sourceAdjacentArcIndices (malloc n (-1))) ;;
  modify (set_sinkAdjacentArcIndices (malloc n (-1))) ;;
  (* determine new number of arcs *)
  for_range 0 (p_numArcs oldProblem) (fun i =>
    a <- liftR (aread (p_arcList oldProblem) i) ;;
    newIndexFrom <- newIndexFrom_of oldProblem a ;;
    newIndexTo <- newIndexTo_of oldProblem a ;;
    if (newIndexFrom =? newIndexTo) || (newIndexTo =? 0) || (newIndexFrom =? 1) then ret tt
    else if newIndexFrom =? 0 then
      sa <- gets sourceAdjacentArcIndices ;;
      v <- liftR (aread sa newIndexTo) ;;
      if v =? -1 then
        c <- gets currentArc ;;
        sa <- liftR (awrite sa newIndexTo c) ;;
        modify (set_sourceAdjacentArcIndices sa) ;;
        modify (set_currentArc (u32 (c + 1)))
      else ret tt
    else if newIndexTo =? 1 then
      sa <- gets sinkAdjacentArcIndices ;;
      v <- liftR (aread sa newIndexFrom) ;;
      if v =? -1 then
        c <- gets currentArc ;;
        sa <- liftR (awrite sa newIndexFrom c) ;;
        modify (set_sinkAdjacentArcIndices sa) ;;
        modify (set_currentArc (u32 (c + 1)))
      else ret tt
    else
      c <- gets currentArc ;;
      modify (set_currentArc (u32 (c + 1)))) ;;
  (* set number of arcs *)
  c <- gets currentArc ;;
  onProblem (modify (set_p_numArcs c)) ;;
  (* allocate space for arcs *)
  onProblem (modify (set_p_arcList (malloc c Arc_uninit))) ;;
  (* copy arcs *)
  modify (set_currentArc 0) ;;
  for_range 0 (p_numArcs oldProblem) (fun i =>
    a <- liftR (aread (p_arcList oldProblem) i) ;;
    newIndexFrom <- newIndexFrom_of oldProblem a ;;
    newIndexTo <- newIndexTo_of oldProblem a ;;
    nm <- gets nodeMap ;;
    if (newIndexFrom =? newIndexTo) || (newIndexTo =? 0) || (newIndexFrom =? 1) then ret tt
    else if newIndexFrom =? 0 then
      sa <- gets sourceAdjacentArcIndices ;;
      v <- liftR (aread sa newIndexTo) ;;
      c <- gets currentArc ;;
      if u32 v =? c then
        onProblem (copyArcNew (nodeList oldProblem) nm a c) ;;
        modify (set_currentArc (u32 (c + 1)))
      else
        onProblem (copyArcAdd a v)
    else if newIndexTo =? 1 then
      sa <- gets sinkAdjacentArcIndices ;;
      v <- liftR (aread sa newIndexFrom) ;;
      c <- gets currentArc ;;
      if u32 v =? c then
        onProblem (copyArcNew (nodeList oldProblem) nm a c) ;;
        modify (set_currentArc (u32 (c + 1)))
      else
        onProblem (copyArcAdd a v)
    else
      c <- gets currentArc ;;
      onProblem (copyArcNew (nodeList oldProblem) nm a c) ;;
      modify (set_currentArc (u32 (c + 1)))).

(** The problem and the local variables of [contractProblem] before its first
    loop. *)
Definition contractProblem_frame (oldProblem : CutProblem) (lambdaValue_ : double) : Frame :=
  let p := CutProblem_uninit in
  (* set cut parameters *)
  let p := set_cutValue 0%Q p in
  let p := set_cutMultiplier 0%Q p in
  let p := set_cutConstant 0%Q p in
  (* set solved indicator *)
  let p := set_solved 0 p in
  (* initialize optimal cut *)
  let p := set_optimalSourceSetIndicator None p in
  (* initialize new lambda value *)
  let p := set_p_lambdaValue lambdaValue_ p in
  (* set size of node sets *)
  let p := set_numSourceSet (numSourceSet oldProblem) p in
  let p := set_numSinkSet (numSinkSet oldProblem) p in
  let p := set_numNodesInList (numNodesInList oldProblem) p in
  mkFrame p (malloc (numNodesInList oldProblem) 0) 2
    (numSourceSet oldProblem) (numSinkSet oldProblem) 0 [] [].

(** contractProblem - create contracted instance based on lower bound and upper bound *)
Definition contractProblem (g : Globals) (oldProblem : CutProblem) (lambdaValue_ : double)
    (lowSourceSetIndicator highSourceSetIndicator : option (list uint))
  : result CutProblem :=
  match (contractProblem_sizes oldProblem lowSourceSetIndicator highSourceSetIndicator ;;
         contractProblem_nodes oldProblem lowSourceSetIndicator highSourceSetIndicator ;;
         contractProblem_arcs oldProblem ;;
         (* evaluate capacities *)
         onProblem (evaluateCapacities g))
          (contractProblem_frame oldProblem lambdaValue_) with
  | Ok (_, f) => Ok (problem f)
  | Err e => Err e
  end.

Definition set_breakpoints (v : list Breakpoint) (g : Globals) : Globals :=
  mkGlobals (TOL g) (numNodesSuper g) (numArcsSuper g) (nodeListSuper g) (arcListSuper g)
    v (emitted g) (useParametricCut g) (roundNegativeCapacity g)
    (LAMBDA_LOW g) (LAMBDA_HIGH g) (engine g).
Definition set_emitted (v : list EmitSite) (g : Globals) : Globals :=
  mkGlobals (TOL g) (numNodesSuper g) (numArcsSuper g) (nodeListSuper g) (arcListSuper g)
    (breakpoints g) v (useParametricCut g) (roundNegativeCapacity g)
    (LAMBDA_LOW g) (LAMBDA_HIGH g) (engine g).
Definition set_nodeListSuper (v : list Node) (g : Globals) : Globals :=
  mkGlobals (TOL g) (numNodesSuper g) (numArcsSuper g) v (arcListSuper g)
    (breakpoints g) (emitted g) (useParametricCut g) (roundNegativeCapacity g)
    (LAMBDA_LOW g) (LAMBDA_HIGH g) (engine g).
Definition set_arcListSuper (v : list Arc) (g : Globals) : Globals :=
  mkGlobals (TOL g) (numNodesSuper g) (numArcsSuper g) (nodeListSuper g) v
    (breakpoints g) (emitted g) (useParametricCut g) (roundNegativeCapacity g)
    (LAMBDA_LOW g) (LAMBDA_HIGH g) (engine g).
Definition set_useParametricCut (v : uint) (g : Globals) : Globals :=
  mkGlobals (TOL g) (numNodesSuper g) (numArcsSuper g) (nodeListSuper g) (arcListSuper g)
    (breakpoints g) (emitted g) v (roundNegativeCapacity g)
    (LAMBDA_LOW g) (LAMBDA_HIGH g) (engine g).

(** The copy loop of [addBreakpoint]: cells [i .. i + n) of [src]. *)
Fixpoint copy_cells (n : nat) (i : Z) (src : option (list uint)) : result (list uint) :=
  match n with
  | O => Ok []
  | S n' =>
      match ind_read src i with
      | Err e => Err e
      | Ok v =>
          match copy_cells n' (i + 1) src with
          | Ok l => Ok (v :: l)
          | Err e => Err e
          end
      end
  end.

(** addBreakpoint - Adds a breakpoint to the linkedlist.  [site] is the place
    of the call. *)
Definition addBreakpoint (site : EmitSite) (lambdaValue_ : double)
    (sourceSetIndicator_ : option (list uint)) : M Globals unit :=
  n <- gets numNodesSuper ;;
  copy <- liftR (copy_cells (Z.to_nat n) 0 sourceSetIndicator_) ;;
  let newBreakpoint := mkBreakpoint lambdaValue_ copy in
  (* add breakpoint to linkedlist *)
  modify (fun g => set_breakpoints (breakpoints g ++ [newBreakpoint]) g) ;;
  modify (fun g => set_emitted (emitted g ++ [site]) g).

(** [arc->from->originalIndex] and [arc->to->originalIndex] in a problem. *)
Definition originalIndexFrom_of (a : Arc) : M CutProblem Z :=
  f <- deref (from a) ;;
  nl <- gets nodeList ;;
  fn <- liftR (pread nl f) ;;
  ret (originalIndex fn).
Definition originalIndexTo_of (a : Arc) : M CutProblem Z :=
  t <- deref (to a) ;;
  nl <- gets nodeList ;;
  tn <- liftR (pread nl t) ;;
  ret (originalIndex tn).

(** [problem->cutValue += capacity; cutMultiplier += multiplier; cutConstant += constant] *)
Definition add_to_cut (a : Arc) : M CutProblem unit :=
  modify (fun p => set_cutValue (dadd (cutValue p) (capacity a)) p) ;;
  modify (fun p => set_cutMultiplier (dadd (cutMultiplier p) (multiplier a)) p) ;;
  modify (fun p => set_cutConstant (dadd (cutConstant p) (constant a)) p).

(** evaluateCut - Evaluates optimal cut parameters for a given problem *)
Definition evaluateCut : M CutProblem unit :=
  m <- gets p_numArcs ;;
  for_range 0 m (fun i =>
    l <- gets p_arcList ;;
    a <- liftR (aread l i) ;;
    originalIndexFrom <- originalIndexFrom_of a ;;
    originalIndexTo <- originalIndexTo_of a ;;
    ind <- gets optimalSourceSetIndicator ;;
    fromIn <- (if originalIndexFrom =? -1 then ret true
               else v <- liftR (ind_read ind originalIndexFrom) ;; ret (v =? 1)) ;;
    if fromIn : bool then
      toOut <- (if originalIndexTo =? -2 then ret true
                else v <- liftR (ind_read ind originalIndexTo) ;; ret (v =? 0)) ;;
      if toOut : bool then add_to_cut a else ret tt
    else ret tt).

(** [ind[set[i].originalIndex] = v] for [i < n]; the state is the array [ind]. *)
Definition mark_set (set : list Node) (n : uint) (v : uint) : M (list uint) unit :=
  for_range 0 n (fun i =>
    nd <- liftR (aread set i) ;;
    ind <- get ;;
    ind <- liftR (awrite ind (originalIndex nd) v) ;;
    modify (fun _ => ind)).

(** The loop of [solveProblem] over the undecided nodes [2 .. numNodes): the
    nodes labelled [numNodes] or more get [above], the others [below]. *)
Definition mark_labels (nodes : list Node) (numNodes_ : uint) (above below : uint)
  : M (list uint) unit :=
  for_range 2 numNodes_ (fun i =>   (* start from 2 to ignore artificial source and sink *)
    nd <- liftR (aread nodes i) ;;
    ind <- get ;;
    ind <- liftR (awrite ind (originalIndex nd)
                    (if numNodes_ <=? label nd then above else below)) ;;
    modify (fun _ => ind)).

(** A statement working on an array of its own. *)
Definition run_on {S T A} (init : T) (m : M T A) : M S T :=
  fun s => match m init with
           | Ok (_, t) => Ok (t, s)
           | Err e => Err e
           end.

(** The branch [if (numNodes == 2)] of [solveProblem]: handle empty problems. *)
Definition solveProblem_empty (numNodesSuper_ : uint) : M CutProblem unit :=
  p <- get ;;
  ind <- run_on (malloc numNodesSuper_ 0)
           (mark_set (sourceSet p) (numSourceSet p) 1 ;;
            mark_set (sinkSet p) (numSinkSet p) 0) ;;
  modify (set_optimalSourceSetIndicator (Some ind)) ;;
  (* determine cut value *)
  m <- gets p_numArcs ;;
  for_range 0 m (fun i =>
    l <- gets p_arcList ;;
    a <- liftR (aread l i) ;;
    originalIndexFrom <- originalIndexFrom_of a ;;
    if originalIndexFrom =? -1 then
      originalIndexTo <- originalIndexTo_of a ;;
      if originalIndexTo =? -2 then
        modify (fun p => set_cutConstant (dadd (cutConstant p) (constant a)) p) ;;
        modify (fun p => set_cutMultiplier (dadd (cutMultiplier p) (multiplier a)) p) ;;
        modify (fun p => set_cutValue (dadd (cutValue p) (capacity a)) p)
      else ret tt
    else ret tt).

(** The copy of the arcs with their direction reversed, for the maximal
    source set. *)
Definition reversed_arcs (p : CutProblem) : result (list Arc) :=
  match run_on (S := unit) (malloc (p_numArcs p) Arc_uninit)
          (for_range 0 (p_numArcs p) (fun i =>
             a <- liftR (aread (p_arcList p) i) ;;
             l <- get ;;
             l <- liftR (arc_upd l i initializeArc) ;;
             (* reverse direction *)
             l <- liftR (arc_upd l i (set_from (to a))) ;;
             l <- liftR (arc_upd l i (set_to (from a))) ;;
             (* assign capacity *)
             l <- liftR (arc_upd l i (set_capacity (capacity a))) ;;
             modify (fun _ => l))) tt with
  | Ok (l, _) => Ok l
  | Err e => Err e
  end.

(** The statements of [solveProblem] from the choice of the direction to the
    end of [simpleInitialization]. *)
Definition solveProblem_start (p : CutProblem) (maximalSourceSet : uint) : M Globals unit :=
  (if maximalSourceSet =? 1 then
     inEngine (modify (set_source 1)) ;;
     inEngine (modify (set_sink 0)) ;;
     l <- liftR (reversed_arcs p) ;;
     inEngine (modify (set_arcList l))
   else
     inEngine (modify (set_source 0)) ;;
     inEngine (modify (set_sink 1)) ;;
     inEngine (modify (set_arcList (p_arcList p)))) ;;
  (* solve *)
  inEngine createMemoryStructures ;;
  inEngine simpleInitialization.

(** solveProblem - solves a single instance of cut problem.  The engine works
    on [problem->nodeList] itself (and on [problem->arcList] itself when the
    minimal source set is asked for): they are handed to the engine and taken
    back from it. *)
Definition solveProblem (fuel : nat) (p : CutProblem) (maximalSourceSet : uint)
  : M Globals CutProblem :=
  inEngine (modify (set_nodesList (nodeList p))) ;;
  inEngine (modify (set_numNodes (numNodesInList p))) ;;
  inEngine (modify (set_numArcs (p_numArcs p))) ;;
  let p := set_cutMultiplier 0%Q p in
  let p := set_cutConstant 0%Q p in
  let p := set_cutValue 0%Q p in
  numNodes_ <- inEngine (gets numNodes) ;;
  if numNodes_ =? 2 then
    numNodesSuper_ <- gets numNodesSuper ;;
    run_on p (solveProblem_empty numNodesSuper_)
  else
    solveProblem_start p maximalSourceSet ;;
    inEngine (pseudoflowPhase1 fuel) ;;
    nl <- inEngine (gets nodesList) ;;
    al <- inEngine (gets arcList) ;;
    let p := set_nodeList nl p in
    let p := if maximalSourceSet =? 1 then p else set_p_arcList al p in
    (* allocate memory for source set (possibly reversed) *)
    let nodeCount := u32 (u32 (u32 (numNodesInList p + numSourceSet p) + numSinkSet p) - 2) in
    (* retrieve optimal sourceSet for nodes in graph *)
    tempSourceSet <- run_on (malloc nodeCount 0)
      ((if maximalSourceSet =? 1
        then mark_labels nl numNodes_ 0 1   (* reverse assignment to source and sink set *)
        else mark_labels nl numNodes_ 1 0) ;;
       (* process cut for source set nodes *)
       mark_set (sourceSet p) (numSourceSet p) 1 ;;
       (* process cut for sink set nodes *)
       mark_set (sinkSet p) (numSinkSet p) 0) ;;
    (* assign cut *)
    let p := set_optimalSourceSetIndicator (Some tempSourceSet) p in
    p <- run_on p evaluateCut ;;
    (if maximalSourceSet =? 1 then inEngine (modify (set_arcList [])) else ret tt) ;;
    inEngine freeMemorySolve ;;
    nl <- inEngine (gets nodesList) ;;
    ret (set_nodeList nl p).

(** ** The parametric driver *)

(** The branch [parametricCut] takes after its two problems are solved. *)
Inductive Branch : Type :=
| RecurseAt (lambdaIntersect : double)  (* intersection strictly within the interval *)
| EmitHigh                              (* lambda intersect is equal to upper bound *)
| EmitLow                               (* lambda intersect is equal to lower bound *)
| NoBreakpoint.

(** The intersection of the two cut functions and the tests on it. *)
Definition intersect_branch (tol : double) (lowProblem highProblem : CutProblem) : Branch :=
  let '(lambdaIntersect, lambdaIntersectExists) :=
    if dgt (dabs (dsub (cutMultiplier highProblem) (cutMultiplier lowProblem))) tol
    then (ddiv (dsub (cutConstant lowProblem) (cutConstant highProblem))
               (dsub (cutMultiplier highProblem) (cutMultiplier lowProblem)), 1)
    else (0%Q, 0) in
  if (lambdaIntersectExists =? 1)
     && dlt (dadd lambdaIntersect tol) (p_lambdaValue highProblem)
     && dgt (dsub lambdaIntersect tol) (p_lambdaValue lowProblem)
  then RecurseAt lambdaIntersect
  else if (lambdaIntersectExists =? 1)
          && dle (dabs (dsub lambdaIntersect (p_lambdaValue highProblem))) tol
  then EmitHigh
  else if (lambdaIntersectExists =? 1)
          && dle (dabs (dsub lambdaIntersect (p_lambdaValue lowProblem))) tol
  then EmitLow
  else NoBreakpoint.

(** [parametricCut] between the solving of its two problems and its last
    statement; [rec] is [parametricCut] itself, for the two calls inside. *)
Definition parametricCut_interval
    (rec : CutProblem -> CutProblem -> M Globals (CutProblem * CutProblem))
    (lowProblem highProblem : CutProblem) : M Globals (CutProblem * CutProblem) :=
  tol <- gets TOL ;;
  match intersect_branch tol lowProblem highProblem with
  | RecurseAt lambdaIntersect =>
      g <- get ;;
      upperBoundIntersect <-
        liftR (contractProblem g lowProblem lambdaIntersect
                 (optimalSourceSetIndicator lowProblem)
                 (optimalSourceSetIndicator highProblem)) ;;
      (* recurse for lower subinterval *)
      r <- rec lowProblem upperBoundIntersect ;;
      let '(lowProblem, upperBoundIntersect) := r in
      g <- get ;;
      lowerBoundIntersect <-
        liftR (contractProblem g lowProblem lambdaIntersect
                 (optimalSourceSetIndicator lowProblem)
                 (optimalSourceSetIndicator highProblem)) ;;
      (* recurse for higher subinterval *)
      r <- rec lowerBoundIntersect highProblem ;;
      let '(lowerBoundIntersect, highProblem) := r in
      ret (lowProblem, highProblem)
  | EmitHigh =>
      addBreakpoint AtHighCoincides (p_lambdaValue highProblem)
        (optimalSourceSetIndicator lowProblem) ;;
      ret (lowProblem, highProblem)
  | EmitLow =>
      addBreakpoint AtLowCoincides (p_lambdaValue lowProblem)
        (optimalSourceSetIndicator lowProblem) ;;
      ret (lowProblem, highProblem)
  | NoBreakpoint => ret (lowProblem, highProblem)
  end.

(** parametricCut - Recursive function that solves the parametric cut problem.
    The two problems are passed by pointer in C: the function returns them as
    it leaves them. *)
Fixpoint parametricCut (fuel : nat) (lowProblem highProblem : CutProblem)
  : M Globals (CutProblem * CutProblem) :=
  match fuel with
  | O => fail OutOfFuel
  | S fuel' =>
      (* determine if this is the outermost recursion level *)
      let baseLevel :=
        if (solved lowProblem =? 0) && (solved highProblem =? 0) then 1 else 0 in
      (* solve lower bound problem if necessary by finding minimal source set *)
      lowProblem <-
        (if solved lowProblem =? 0
         then p <- solveProblem fuel' lowProblem 0 ;; ret (set_solved 1 p)
         else ret lowProblem) ;;
      (* solve upper bound problem if nessecary by finding maximal source set *)
      highProblem <-
        (if solved highProblem =? 0
         then p <- solveProblem fuel' highProblem 1 ;; ret (set_solved 1 p)
         else ret highProblem) ;;
      r <- parametricCut_interval (parametricCut fuel') lowProblem highProblem ;;
      let '(lowProblem, highProblem) := r in
      (* add cut corresponding to lambdaHigh iff first recursion level *)
      (if baseLevel =? 1
       then addBreakpoint AtBaseLevel (p_lambdaValue highProblem)
              (optimalSourceSetIndicator highProblem)
       else ret tt) ;;
      ret (lowProblem, highProblem)
  end.

(** The loop of [removeDuplicateBreakpoints], at [currentBreakpoint] with the
    records after it. *)
Fixpoint removeDuplicateBreakpoints_loop (currentBreakpoint : Breakpoint)
    (rest : list Breakpoint) : list Breakpoint :=
  match rest with
  | [] => [currentBreakpoint]
  | nextBreakpoint :: rest' =>
      if deq (lambdaValue currentBreakpoint) (lambdaValue nextBreakpoint) then
        (* nextBreakpoint is unlinked and destroyed; currentBreakpoint = currentBreakpoint->next *)
        match rest' with
        | [] => [currentBreakpoint]
        | current' :: rest'' =>
            currentBreakpoint :: removeDuplicateBreakpoints_loop current' rest''
        end
      else currentBreakpoint :: removeDuplicateBreakpoints_loop nextBreakpoint rest'
  end.

Definition removeDuplicateBreakpoints : M Globals unit :=
  l <- gets breakpoints ;;
  match l with
  | [] => fail NullBreakpointList
  | firstBreakpoint :: rest =>
      modify (set_breakpoints (removeDuplicateBreakpoints_loop firstBreakpoint rest))
  end.

(** What [hpf_solve] hands back (the three times are not modelled). *)
Record Output : Type := mkOutput {
  out_numBreakpoints : Z;
  out_cuts : list Z;
  out_breakpoints : list double;
  out_stats : list Z
}.

(** The rows of the indicator matrix, one after the other. *)
Fixpoint prepareOutput_cuts (n : uint) (l : list Breakpoint) : result (list Z) :=
  match l with
  | [] => Ok []
  | b :: l' =>
      match copy_cells (Z.to_nat n) 0 (Some (sourceSetIndicator b)) with
      | Err e => Err e
      | Ok row =>
          match prepareOutput_cuts n l' with
          | Ok rows => Ok (row ++ rows)
          | Err e => Err e
          end
      end
  end.

Definition prepareOutput : M Globals Output :=
  e <- gets engine ;;
  let stats := [numArcScans e; numMergers e; numPushes e; numRelabels e; numGaps e] in
  l <- gets breakpoints ;;
  let numBreakpoints := Z.of_nat (length l) in
  n <- gets numNodesSuper ;;
  cuts <- liftR (prepareOutput_cuts n l) ;;
  ret (mkOutput numBreakpoints cuts (map lambdaValue l) stats).

Definition readGraphSuper (arcMatrix : list double) : M Globals unit :=
  n <- gets numNodesSuper ;;
  m <- gets numArcsSuper ;;
  modify (set_nodeListSuper (malloc n Node_uninit)) ;;
  modify (set_arcListSuper (malloc m Arc_uninit)) ;;
  (* Initialization *)
  for_range 0 n (fun i =>
    l <- gets nodeListSuper ;;
    l <- liftR (awrite l i (set_originalIndex i (initializeNode Node_uninit i))) ;;
    modify (set_nodeListSuper l)) ;;
  for_range 0 m (fun i =>
    l <- gets arcListSuper ;;
    l <- liftR (arc_upd l i initializeArc) ;;
    modify (set_arcListSuper l)) ;;
  lo <- gets LAMBDA_LOW ;;
  hi <- gets LAMBDA_HIGH ;;
  (if deq lo hi then modify (set_useParametricCut 0) else ret tt) ;;
  for_range 0 m (fun i =>
    f <- liftR (aread arcMatrix (i * 4 + 0)) ;;
    let from_ := int_of_double f in
    t <- liftR (aread arcMatrix (i * 4 + 1)) ;;
    let to_ := int_of_double t in
    constantCapacity <- liftR (aread arcMatrix (i * 4 + 2)) ;;
    multiplierCapacity <- liftR (aread arcMatrix (i * 4 + 3)) ;;
    l <- gets arcListSuper ;;
    l <- liftR (arc_upd l i (set_constant constantCapacity)) ;;
    l <- liftR (arc_upd l i (set_multiplier multiplierCapacity)) ;;
    l <- liftR (arc_upd l i (set_from (Some (addr from_)))) ;;
    l <- liftR (arc_upd l i (set_to (Some (addr to_)))) ;;
    modify (set_arcListSuper l) ;;
    nl <- gets nodeListSuper ;;
    nl <- liftR (node_upd nl from_ (fun n => set_numAdjacent (u32 (numAdjacent n + 1)) n)) ;;
    nl <- liftR (node_upd nl to_ (fun n => set_numAdjacent (u32 (numAdjacent n + 1)) n)) ;;
    modify (set_nodeListSuper nl)).

(** The values [reset_globals] gives the file-scope variables. *)
Definition reset_globals : Globals :=
  mkGlobals TOL_1Em8 0 0 [] [] [] [] 1 0 0%Q 0%Q
    (mkEngine 0 0 0 0 1 0 0 0 0 0 [] [] [] []).

(** initializeParametricCut - Set up data structures for parametric cut.
    [highProblem] stays as it was when [useParametricCut] is not 1. *)
Definition initializeParametricCut (highProblem : CutProblem)
  : M Globals (CutProblem * CutProblem) :=
  g <- get ;;
  (* initialize problem for LAMBDA_LOW *)
  lowProblem <- liftR (initializeProblem g (nodeListSuper g) (numNodesSuper g)
                         (arcListSuper g) (numArcsSuper g) (LAMBDA_LOW g)) ;;
  if useParametricCut g =? 1 then
    (* initialize problem for LAMBDA_HIGH *)
    highProblem <- liftR (initializeProblem g (nodeListSuper g) (numNodesSuper g)
                            (arcListSuper g) (numArcsSuper g) (LAMBDA_HIGH g)) ;;
    ret (lowProblem, highProblem)
  else ret (lowProblem, highProblem).

(** The start of [hpf_solve]: the inputs are stored and the graph is read. *)
Definition hpf_solve_read (numNodesIn numArcsIn sourceIn sinkIn : Z)
    (arcMatrix : list double) (lambdaRange : double * double) (roundNegativeCapacityIn : Z)
  : M Globals unit :=
  modify (fun _ =>
    mkGlobals TOL_1Em8 (u32 numNodesIn) (u32 numArcsIn) [] [] [] [] 1
      (u32 roundNegativeCapacityIn) (fst lambdaRange) (snd lambdaRange)
      (mkEngine 0 0 (u32 sourceIn) (u32 sinkIn) 1 0 0 0 0 0 [] [] [] [])) ;;
  readGraphSuper arcMatrix.

(** The part of [hpf_solve] between the two calls of [clock] around the solve:
    the breakpoint list is complete when it ends. *)
Definition hpf_solve_breakpoints (fuel : nat) (lowProblem highProblem : CutProblem)
  : M Globals unit :=
  u <- gets useParametricCut ;;
  if u =? 1 then
    _ <- parametricCut fuel lowProblem highProblem ;;
    removeDuplicateBreakpoints
  else
    lowProblem <- solveProblem fuel lowProblem 0 ;;
    (* add solution as breakpoint *)
    addBreakpoint AtSingleLambda (p_lambdaValue lowProblem)
      (optimalSourceSetIndicator lowProblem).

(** freeMemoryComplete: the breakpoints and the graph are released. *)
Definition freeMemoryComplete : M Globals unit :=
  modify (set_breakpoints []) ;;
  modify (set_nodeListSuper []) ;;
  modify (set_arcListSuper []).

Definition hpf_solve (fuel : nat) (numNodesIn numArcsIn sourceIn sinkIn : Z)
    (arcMatrix : list double) (lambdaRange : double * double) (roundNegativeCapacityIn : Z)
  : result (Output * Globals) :=
  (hpf_solve_read numNodesIn numArcsIn sourceIn sinkIn arcMatrix lambdaRange
     roundNegativeCapacityIn ;;
   r <- initializeParametricCut CutProblem_uninit ;;
   let '(lowProblem, highProblem) := r in
   hpf_solve_breakpoints fuel lowProblem highProblem ;;
   out <- prepareOutput ;;
   freeMemoryComplete ;;
   ret out) reset_globals.

(** ** Reading the input file: [readData] of c/hpf.c

    A line of the file is taken as [sscanf] delivers it. *)

Inductive Line : Type :=
| LineP (numNodes_ numArcs_ : Z) (lambdaLow lambdaHigh : double) (roundNegativeCapacity_ : Z)
| LineN (currentNode_ : Z) (sourceSinkIndicator : ascii)
| LineA (from_ to_ : Z) (constantCapacity multiplierCapacity : double)
| LineOther.                 (* a comment, or any other first character *)

(** The variables of [readData] and the values it writes through its
    arguments. *)
Record Reader : Type := mkReader {
  r_numNodes : Z;
  r_numArcs : Z;
  r_lambdaRange : double * double;
  r_roundNegativeCapacity : Z;
  arcCount : Z;
  numRemovedArcs : Z;
  isSourceAssigned : Z;
  isSinkAssigned : Z;
  r_source : Z;
  r_sink : Z;
  arcMatrix : list double
}.

Definition Reader_start : Reader := mkReader 0 0 (0%Q, 0%Q) 0 0 0 0 0 0 0 [].

Definition set_arcCount (v : Z) (r : Reader) : Reader :=
  mkReader (r_numNodes r) (r_numArcs r) (r_lambdaRange r) (r_roundNegativeCapacity r) v
    (numRemovedArcs r) (isSourceAssigned r) (isSinkAssigned r) (r_source r) (r_sink r)
    (arcMatrix r).
Definition set_numRemovedArcs (v : Z) (r : Reader) : Reader :=
  mkReader (r_numNodes r) (r_numArcs r) (r_lambdaRange r) (r_roundNegativeCapacity r)
    (arcCount r) v (isSourceAssigned r) (isSinkAssigned r) (r_source r) (r_sink r)
    (arcMatrix r).
Definition set_r_source (v : Z) (r : Reader) : Reader :=
  mkReader (r_numNodes r) (r_numArcs r) (r_lambdaRange r) (r_roundNegativeCapacity r)
    (arcCount r) (numRemovedArcs r) 1 (isSinkAssigned r) v (r_sink r) (arcMatrix r).
Definition set_r_sink (v : Z) (r : Reader) : Reader :=
  mkReader (r_numNodes r) (r_numArcs r) (r_lambdaRange r) (r_roundNegativeCapacity r)
    (arcCount r) (numRemovedArcs r) (isSourceAssigned r) 1 (r_source r) v (arcMatrix r).
Definition set_arcMatrix (v : list double) (r : Reader) : Reader :=
  mkReader (r_numNodes r) (r_numArcs r) (r_lambdaRange r) (r_roundNegativeCapacity r)
    (arcCount r) (numRemovedArcs r) (isSourceAssigned r) (isSinkAssigned r) (r_source r)
    (r_sink r) v.
Definition set_r_numArcs (v : Z) (r : Reader) : Reader :=
  mkReader (r_numNodes r) v (r_lambdaRange r) (r_roundNegativeCapacity r)
    (arcCount r) (numRemovedArcs r) (isSourceAssigned r) (isSinkAssigned r) (r_source r)
    (r_sink r) (arcMatrix r).

(** [printf (diagnostic); exit (0);] *)
Definition exit0 {A} (diagnostic : string) : M Reader A := fail (ExitWith 0 diagnostic).

(** [case 'p'] *)
Definition readData_problem (numNodes_ numArcs_ : Z) (lambdaLow lambdaHigh : double)
    (roundNegativeCapacity_ : Z) : M Reader unit :=
  modify (fun r =>
    mkReader numNodes_ numArcs_ (lambdaLow, lambdaHigh) roundNegativeCapacity_
      (arcCount r) (numRemovedArcs r) (isSourceAssigned r) (isSinkAssigned r)
      (r_source r) (r_sink r) (malloc (numArcs_ * 4) 0%Q)).

(** [case 'n'] *)
Definition readData_node (currentNode_ : Z) (sourceSinkIndicator : ascii) : M Reader unit :=
  r <- get ;;
  if Ascii.eqb sourceSinkIndicator "s"%char then
    (* check if source is valid *)
    if (currentNode_ >=? r_numNodes r) || (currentNode_ <? 0) then
      exit0 "Nodes are labeled from 0 to <number of nodes>  - 1"
    (* check if source is assigned *)
    else if negb (isSourceAssigned r =? 0) then exit0 "Source is already defined"
    else modify (set_r_source currentNode_)
  else if Ascii.eqb sourceSinkIndicator "t"%char then
    (* check if sink is valid *)
    if (currentNode_ >=? r_numNodes r) || (currentNode_ <? 0) then
      exit0 "Nodes are labeled from 0 to <number of nodes>  - 1"
    (* check if sink is assigned *)
    else if negb (isSinkAssigned r =? 0) then exit0 "Sink is already defined"
    else modify (set_r_sink currentNode_)
  else exit0 "Node type: %c is unknown".

(** [case 'a'] *)
Definition readData_arc (from_ to_ : Z) (constantCapacity multiplierCapacity : double)
  : M Reader unit :=
  r <- get ;;
  if (isSinkAssigned r =? 0) || (isSourceAssigned r =? 0) then
    exit0 "Source and sink need to be defined before arcs are defined."
  (* assign arc *)
  else if (from_ <? 0) || (to_ <? 0) || (from_ >=? r_numNodes r) || (to_ >=? r_numNodes r) then
    exit0 "Nodes are labeled from 0 to <number of nodes>  - 1"
  else if from_ =? to_ then
    exit0 "Node %u has a self loop which is not allowed"
  else if dgt multiplierCapacity 0%Q && negb (from_ =? r_source r) then
    exit0 "Only source adjacent arcs can have a strictly positive capacity multiplier"
  else if dlt multiplierCapacity 0%Q && negb (to_ =? r_sink r) then
    exit0 "Only sink adjacent arcs can have a strictly negative capacity multiplier"
  else if arcCount r >=? r_numArcs r then
    exit0 "Incorrect number of arcs specified"
  else if (to_ =? r_source r) || (from_ =? r_sink r) then
    modify (set_numRemovedArcs (numRemovedArcs r + 1))
  else
    m <- liftR (awrite (arcMatrix r) (arcCount r * 4 + 0) (double_of_int from_)) ;;
    m <- liftR (awrite m (arcCount r * 4 + 1) (double_of_int to_)) ;;
    m <- liftR (awrite m (arcCount r * 4 + 2) constantCapacity) ;;
    m <- liftR (awrite m (arcCount r * 4 + 3) multiplierCapacity) ;;
    modify (set_arcMatrix m) ;;
    modify (set_arcCount (arcCount r + 1)).

Definition readData_line (l : Line) : M Reader unit :=
  match l with
  | LineP n m lo hi rnd => readData_problem n m lo hi rnd
  | LineN c k => readData_node c k
  | LineA f t c m => readData_arc f t c m
  | LineOther => ret tt
  end.

(** The loop over the lines of the file, until [fgets] finds its end. *)
Fixpoint readData_lines (ls : list Line) : M Reader unit :=
  match ls with
  | [] => ret tt
  | l :: ls' => readData_line l ;; readData_lines ls'
  end.

(** The statements of [readData] after the file is closed. *)
Definition readData_finish : M Reader unit :=
  r <- get ;;
  (if 0 <? numRemovedArcs r then
     modify (set_r_numArcs (r_numArcs r - numRemovedArcs r)) ;;
     r <- get ;;
     match run_on (S := unit) (malloc (r_numArcs r) 0%Q)
             (for_range 0 (r_numArcs r * 4) (fun i =>
                v <- liftR (aread (arcMatrix r) i) ;;
                new <- get ;;
                new <- liftR (awrite new i v) ;;
                modify (fun _ => new))) tt with
     | Ok (arcMatrixNew, _) => modify (set_arcMatrix arcMatrixNew)
     | Err e => fail e
     end
   else ret tt) ;;
  r <- get ;;
  (* check if correct number of arcs has been specified *)
  if negb (arcCount r =? r_numArcs r) then exit0 "Incorrect number of arcs specified"
  else if isSourceAssigned r =? 0 then exit0 "Source is not assigned"
  else if isSinkAssigned r =? 0 then exit0 "Sink is not assigned"
  else if r_source r =? r_sink r then
    exit0 "The source node and sink node need to be distinct"
  else ret tt.

Definition readData (ls : list Line) : result (unit * Reader) :=
  (readData_lines ls ;; readData_finish) Reader_start.

(** ** Notions used in the statements *)

(** The lambda values of a breakpoint list. *)
Definition lambdas (l : list Breakpoint) : list double := map lambdaValue l.

(** No two consecutive records have equal lambda values. *)
Fixpoint no_adjacent_equal (l : list Breakpoint) : Prop :=
  match l with
  | a :: (b :: _) as t => ~ (lambdaValue a == lambdaValue b)%Q /\ no_adjacent_equal t
  | _ => True
  end.

(** No three consecutive records have the same lambda value. *)
Fixpoint no_three_equal (l : list Breakpoint) : Prop :=
  match l with
  | a :: (b :: c :: _) as t =>
      ~ ((lambdaValue a == lambdaValue b)%Q /\ (lambdaValue b == lambdaValue c)%Q)
      /\ no_three_equal t
  | _ => True
  end.

(** The list with every run of equal lambda values collapsed to the first
    record of the run. *)
Fixpoint collapse_runs (current : Breakpoint) (rest : list Breakpoint) : list Breakpoint :=
  match rest with
  | [] => [current]
  | b :: rest' =>
      if deq (lambdaValue current) (lambdaValue b)
      then collapse_runs current rest'
      else current :: collapse_runs b rest'
  end.

(** The number of values of [l] equal to [x]. *)
Fixpoint occ (x : double) (l : list double) : nat :=
  match l with
  | [] => 0
  | y :: l' => ((if deq x y then 1 else 0) + occ x l')%nat
  end.

Definition within (a b : double) (l : list double) : Prop :=
  Forall (fun x => (a <= x)%Q /\ (x <= b)%Q) l.

Fixpoint nondecreasing (l : list double) : Prop :=
  match l with
  | x :: (y :: _) as t => (x <= y)%Q /\ nondecreasing t
  | _ => True
  end.

Fixpoint increasing (l : list double) : Prop :=
  match l with
  | x :: (y :: _) as t => (x < y)%Q /\ increasing t
  | _ => True
  end.

(** The lambda values a call of [parametricCut] on the interval [a, b]
    appends before its last statement: in order, within the interval, each
    bound at most once and no value more than twice. *)
Definition interval_list (a b : double) (l : list double) : Prop :=
  within a b l /\ nondecreasing l /\ (occ a l <= 1)%nat /\ (occ b l <= 1)%nat
  /\ forall x, (occ x l <= 2)%nat.

(** The last statement of [parametricCut]: what it appends to the breakpoint
    list when [base] is the base level, for the problem [high] it holds. *)
Definition terminal_breakpoint (base : bool) (n : uint) (high : CutProblem)
    (term : list Breakpoint) : Prop :=
  if base
  then exists copy,
         copy_cells (Z.to_nat n) 0 (optimalSourceSetIndicator high) = Ok copy
         /\ term = [mkBreakpoint (p_lambdaValue high) copy]
  else term = [].

(** Both problems unsolved at the entry of [parametricCut]. *)
Definition both_unsolved (low high : CutProblem) : bool :=
  (solved low =? 0) && (solved high =? 0).

(** What a call of [parametricCut] on [low] and [high], from the state [g],
    has done when it returns [low'] and [high'] in the state [g']: the records
    [added] were appended at the places [sites], none of them the last
    statement of a call, then [term] by the last statement of this call. *)
Definition parametricCut_post (low high : CutProblem) (g : Globals)
    (low' high' : CutProblem) (g' : Globals) : Prop :=
  exists added sites term,
    breakpoints g' = breakpoints g ++ added ++ term
    /\ emitted g' = emitted g ++ sites
                    ++ (if both_unsolved low high then [AtBaseLevel] else [])
    /\ terminal_breakpoint (both_unsolved low high) (numNodesSuper g) high' term
    /\ Forall (fun s => s <> AtBaseLevel) sites
    /\ length sites = length added
    /\ TOL g' = TOL g /\ numNodesSuper g' = numNodesSuper g
    /\ p_lambdaValue low' = p_lambdaValue low
    /\ p_lambdaValue high' = p_lambdaValue high
    /\ solved low' <> 0 /\ solved high' <> 0
    /\ ((0 <= TOL g)%Q -> (p_lambdaValue low < p_lambdaValue high)%Q ->
        interval_list (p_lambdaValue low) (p_lambdaValue high) (lambdas added)).

(** Where [contractProblem] puts a node of the old problem that is neither
    of its two artificial nodes. *)
Inductive Placement : Type := InSourceSet | InSinkSet | Undecided.

Definition Placement_eqb (a b : Placement) : bool :=
  match a, b with
  | InSourceSet, InSourceSet | InSinkSet, InSinkSet | Undecided, Undecided => true
  | _, _ => false
  end.

(** The rule of the contraction, for the node [nd] and the two indicators. *)
Definition placement (lowInd highInd : option (list uint)) (nd : Node) : result Placement :=
  let j := u32 (originalIndex nd) in
  match ind_read lowInd j with
  | Err e => Err e
  | Ok l =>
      if l =? 1 then Ok InSourceSet
      else match ind_read highInd j with
           | Err e => Err e
           | Ok h => if h =? 0 then Ok InSinkSet else Ok Undecided
           end
  end.

(** The original indices of the nodes of [nodes] that the rule places at [pl],
    in their order. *)
Fixpoint placed (pl : Placement) (lowInd highInd : option (list uint)) (nodes : list Node)
  : list Z :=
  match nodes with
  | [] => []
  | nd :: nodes' =>
      match placement lowInd highInd nd with
      | Ok pl' =>
          if Placement_eqb pl pl'
          then originalIndex nd :: placed pl lowInd highInd nodes'
          else placed pl lowInd highInd nodes'
      | Err _ => placed pl lowInd highInd nodes'
      end
  end.

(** The nodes [2 .. numNodesInList) of a problem. *)
Definition undecided_nodes (p : CutProblem) : list Node :=
  take (Z.to_nat (numNodesInList p) - 2) (drop 2 (nodeList p)).

(** The set of the new problem that receives the nodes placed at [pl], with
    the local counter [currentSourceSet], [currentSinkSet] or
    [currentNodeInList] of its next free cell. *)
Definition track (pl : Placement) (f : Frame) : uint * list Node :=
  match pl with
  | InSourceSet => (currentSourceSet f, sourceSet (problem f))
  | InSinkSet => (currentSinkSet f, sinkSet (problem f))
  | Undecided => (currentNode f, nodeList (problem f))
  end.

(** The node sets of a problem, the nodes of its node list by their original
    indices. *)
Definition node_sets (p : CutProblem) : list Node * list Node * list Z :=
  (sourceSet p, sinkSet p, map originalIndex (nodeList p)).

(** ** Minimum cuts, as the specification speaks of them

    The capacity at [lambda] of the cut whose source side is [ind], for the
    arcs given as the rows [from; to; constant; multiplier] of [arcMatrix]. *)
Fixpoint cut_capacity (arcMatrix : list double) (ind : Z -> bool) (lambda : Q) : Q :=
  match arcMatrix with
  | from_ :: to_ :: constant_ :: multiplier_ :: rest =>
      ((if ind (int_of_double from_) && negb (ind (int_of_double to_))
        then constant_ + multiplier_ * lambda else 0)
       + cut_capacity rest ind lambda)%Q
  | _ => 0%Q
  end.

(** [ind] is the source side of a minimum cut at [lambda]. *)
Definition minimum_cut (arcMatrix : list double) (source_ sink_ : Z) (lambda : Q)
    (ind : Z -> bool) : Prop :=
  ind source_ = true /\ ind sink_ = false
  /\ forall ind', ind' source_ = true -> ind' sink_ = false ->
       (cut_capacity arcMatrix ind lambda <= cut_capacity arcMatrix ind' lambda)%Q.

(** The optimal source set changes at [lambda]: as near to [lambda] as one
    likes, a source set is optimal at one value and not at another. *)
Definition source_set_changes_at (arcMatrix : list double) (source_ sink_ : Z) (lambda : Q)
  : Prop :=
  forall eps : Q, (0 < eps)%Q ->
    exists (l1 l2 : Q) (ind : Z -> bool),
      (Qabs (l1 - lambda) < eps)%Q /\ (Qabs (l2 - lambda) < eps)%Q
      /\ minimum_cut arcMatrix source_ sink_ l1 ind
      /\ ~ minimum_cut arcMatrix source_ sink_ l2 ind.

(** ** Runs followed up to a point

    The statements of [solveProblem] up to the end of [simpleInitialization],
    for a problem with nodes besides the source and the sink, and the value
    of [highestStrongLabel] there. *)
Definition solveProblem_initialized (p : CutProblem) (maximalSourceSet : uint)
  : M Globals uint :=
  inEngine (modify (set_nodesList (nodeList p))) ;;
  inEngine (modify (set_numNodes (numNodesInList p))) ;;
  inEngine (modify (set_numArcs (p_numArcs p))) ;;
  solveProblem_start p maximalSourceSet ;;
  inEngine (gets highestStrongLabel).

(** [hpf_solve] up to the end of [simpleInitialization] in the second solve
    of [parametricCut]: the values of [highestStrongLabel] at the end of the
    first and of the second [simpleInitialization]. *)
Definition hpf_solve_initializations (fuel : nat) (numNodesIn numArcsIn sourceIn sinkIn : Z)
    (arcMatrix : list double) (lambdaRange : double * double) (roundNegativeCapacityIn : Z)
  : result (uint * uint) :=
  match
    (hpf_solve_read numNodesIn numArcsIn sourceIn sinkIn arcMatrix lambdaRange
       roundNegativeCapacityIn ;;
     r <- initializeParametricCut CutProblem_uninit ;;
     let '(lowProblem, highProblem) := r in
     first <- solveProblem_initialized lowProblem 0 ;;
     _ <- solveProblem fuel lowProblem 0 ;;
     second <- solveProblem_initialized highProblem 1 ;;
     ret (first, second)) reset_globals
  with
  | Ok (labels, _) => Ok labels
  | Err e => Err e
  end.

(** ** Small instances

    Three nodes in a chain: the arc 0 -> 1 of capacity lambda and the arc
    1 -> 2 of capacity 10, with source 0 and sink 2, for lambda in
    [[0, 20]]. *)
Definition chain3 : list double := [0; 1; 0; 1;  1; 2; 10; 0]%Q.

(** The run of [hpf_solve] on [chain3] up to the entry of the outermost call
    of [parametricCut]: its two problems and the state. *)
Definition chain3_start : result (CutProblem * CutProblem * Globals) :=
  match (hpf_solve_read 3 2 0 2 chain3 (0, 20)%Q 0 ;;
         initializeParametricCut CutProblem_uninit) reset_globals with
  | Ok ((lowProblem, highProblem), g) => Ok (lowProblem, highProblem, g)
  | Err e => Err e
  end.

(** The same run up to the computation of the intersection in that call: the
    two problems are solved. *)
Definition chain3_bounds : result (CutProblem * CutProblem * Globals) :=
  match (hpf_solve_read 3 2 0 2 chain3 (0, 20)%Q 0 ;;
         r <- initializeParametricCut CutProblem_uninit ;;
         let '(lowProblem, highProblem) := r in
         lowProblem <- solveProblem 100 lowProblem 0 ;;
         highProblem <- solveProblem 100 highProblem 1 ;;
         ret (set_solved 1 lowProblem, set_solved 1 highProblem)) reset_globals with
  | Ok ((lowProblem, highProblem), g) => Ok (lowProblem, highProblem, g)
  | Err e => Err e
  end.

(** A problem at lambda = 2 with an arc of capacity 5 and an arc of capacity
    - lambda, and the file-scope variables with the rounding flag [flag]. *)
Definition negative_arc_problem : CutProblem :=
  set_p_lambdaValue 2%Q
    (set_p_numArcs 2
       (set_p_arcList [set_constant 5%Q Arc_uninit; set_multiplier (-1)%Q Arc_uninit]
          CutProblem_uninit)).
Definition rounding_globals (flag : uint) : Globals :=
  mkGlobals TOL_1Em8 0 0 [] [] [] [] 0 flag 0%Q 0%Q (engine reset_globals).

(** [readData] after the problem line [p 3 1 0 20 0] and the node lines
    [n 0 s] and [n 2 t]. *)
Definition reader_3_1 : Reader :=
  mkReader 3 1 (0, 20)%Q 0 0 0 1 1 0 2 (malloc 4 0%Q).

(** ** Properties that statements keep *)

(** A property of the state that a statement keeps. *)
Definition preserves {S A} (I : S -> Prop) (m : M S A) : Prop :=
  forall s a s', I s -> m s = Ok (a, s') -> I s'.

(** The lambda value and the solved flag of a problem. *)
Definition keeps (lambda : double) (sv : uint) (p : CutProblem) : Prop :=
  p_lambdaValue p = lambda /\ solved p = sv.

(** The file-scope variables the engine does not work on. *)
Definition driver_part (g : Globals) :=
  (TOL g, numNodesSuper g, numArcsSuper g, nodeListSuper g, arcListSuper g,
   breakpoints g, emitted g, useParametricCut g, roundNegativeCapacity g,
   LAMBDA_LOW g, LAMBDA_HIGH g).

(** ** Notions used in the further properties *)

(** A solved problem at [lambda] whose cut function is
    [constant + multiplier * lambda], with no indicator. *)
Definition line_problem (lambda constant_ multiplier_ : double) : CutProblem :=
  set_cutConstant constant_
    (set_cutMultiplier multiplier_ (set_p_lambdaValue lambda CutProblem_uninit)).

(** ** The instance a file describes

    Row [k] of an arc matrix holds a well-formed arc: ends in range and
    distinct, not into the source, not out of the sink, a positive multiplier
    only out of the source and a negative one only into the sink. *)
Definition valid_arc_row (numNodes_ source_ sink_ : Z) (m : list double) (k : Z) : Prop :=
  exists (from_ to_ : Z) (constant_ multiplier_ : double),
    m !! Z.to_nat (k * 4 + 0) = Some (double_of_int from_)
    /\ m !! Z.to_nat (k * 4 + 1) = Some (double_of_int to_)
    /\ m !! Z.to_nat (k * 4 + 2) = Some constant_
    /\ m !! Z.to_nat (k * 4 + 3) = Some multiplier_
    /\ 0 <= from_ < numNodes_ /\ 0 <= to_ < numNodes_
    /\ from_ <> to_ /\ to_ <> source_ /\ from_ <> sink_
    /\ ((0 < multiplier_)%Q -> from_ = source_)
    /\ ((multiplier_ < 0)%Q -> to_ = sink_).

(** What [readData] keeps true of its variables from the problem line on. *)
Definition Reader_ok (r : Reader) : Prop :=
  0 <= arcCount r /\ 0 <= numRemovedArcs r
  /\ (0 < arcCount r -> arcCount r <= r_numArcs r)
  /\ (0 < arcCount r -> isSourceAssigned r <> 0 /\ isSinkAssigned r <> 0)
  /\ (isSourceAssigned r <> 0 -> 0 <= r_source r < r_numNodes r)
  /\ (isSinkAssigned r <> 0 -> 0 <= r_sink r < r_numNodes r)
  /\ forall k, 0 <= k < arcCount r ->
       valid_arc_row (r_numNodes r) (r_source r) (r_sink r) (arcMatrix r) k.

(** A line that is not a problem line. *)
Definition not_problem_line (l : Line) : Prop :=
  match l with LineP _ _ _ _ _ => False | _ => True end.

(** The file of the chain of three nodes: the problem line, a comment, the
    source and the sink, and the arcs 0 -> 1 (capacity lambda) and 1 -> 2
    (capacity 10). *)
Definition chain3_lines : list Line :=
  [LineOther; LineN 0 "s"; LineN 2 "t"; LineA 0 1 0%Q 1%Q; LineA 1 2 10%Q 0%Q].

(** ** What the engine keeps

    A property [P] of the node array and of the arc array of the engine seen
    through the fields [kept] of the nodes and [keptA] of the arcs. *)
Definition engine_inv {V W : Type} (kept : Node -> V) (keptA : Arc -> W)
    (P : list V -> list W -> Prop) (e : Engine) : Prop :=
  P (map kept (nodesList e)) (map keptA (arcList e)).

(** The fields of a node that say which node it is and how many arcs it has,
    and the fields of an arc that describe it in the graph. *)
Definition node_id (n : Node) : Z * uint * uint :=
  (originalIndex n, number n, numAdjacent n).
Definition arc_datum (a : Arc) : option nat * option nat * double * double * double :=
  (from a, to a, capacity a, constant a, multiplier a).

(** The graph of the engine is the one described by [ids] and [arcs]. *)
Definition same_graph (ids : list (Z * uint * uint))
    (arcs : list (option nat * option nat * double * double * double))
    (l : list (Z * uint * uint))
    (m : list (option nat * option nat * double * double * double)) : Prop :=
  l = ids /\ m = arcs.

(** The part of a problem that describes its graph and its place in the
    recursion: the sizes and the two frozen sets, which nodes the node list
    holds, and the ends, the capacity and the capacity function of its
    arcs. *)
Definition problem_graph (p : CutProblem) :=
  (numNodesInList p, numSourceSet p, numSinkSet p, p_numArcs p, solved p, p_lambdaValue p,
   sourceSet p, sinkSet p, map node_id (nodeList p), map arc_datum (p_arcList p)).

(** ** The nodes of a problem

    The original indices of the nodes of an array. *)
Definition idx (l : list Node) : list Z := map originalIndex l.

(** The nodes of the graph a problem knows of: the ones frozen on the source
    side, the ones frozen on the sink side and the undecided ones, which
    follow the two artificial nodes in the node list. *)
Definition problem_nodes (p : CutProblem) : list Z :=
  idx (sourceSet p) ++ idx (sinkSet p) ++ idx (drop 2 (nodeList p)).

(** A problem on a graph of [N] nodes is well formed: its three arrays have
    the sizes its counters say, and hold every node of the graph once. *)
Definition problem_ok (N : Z) (p : CutProblem) : Prop :=
  0 <= numSourceSet p /\ 0 <= numSinkSet p /\ 2 <= numNodesInList p
  /\ length (sourceSet p) = Z.to_nat (numSourceSet p)
  /\ length (sinkSet p) = Z.to_nat (numSinkSet p)
  /\ length (nodeList p) = Z.to_nat (numNodesInList p)
  /\ problem_nodes p ≡ₚ seqZ 0 N.

(** The source [s] of the graph is frozen on the source side and its sink [t]
    on the sink side. *)
Definition problem_ends (s t : Z) (p : CutProblem) : Prop :=
  s ∈ idx (sourceSet p) /\ t ∈ idx (sinkSet p).

(** An indicator array of [N] cells, each 0 or 1, that has 1 at the nodes of
    [ones] and 0 at the nodes of [zeros]. *)
Definition indicator_of (N : Z) (ones zeros : list Z) (ind : list uint) : Prop :=
  length ind = Z.to_nat N
  /\ Forall (fun v => v = 0 \/ v = 1) ind
  /\ (forall j, j ∈ ones -> ind !! Z.to_nat j = Some 1)
  /\ (forall j, j ∈ zeros -> ind !! Z.to_nat j = Some 0).

(** The array [ind'] is [ind] after, for each node of [ns], the value [val]
    of the node was written at its original index. *)
Definition marked (ns : list Node) (val : Node -> uint) (ind ind' : list uint) : Prop :=
  length ind' = length ind
  /\ forall j, 0 <= j ->
       ((forall nd, nd ∈ ns -> originalIndex nd <> j) ->
        ind' !! Z.to_nat j = ind !! Z.to_nat j)
       /\ (forall nd0, nd0 ∈ ns -> originalIndex nd0 = j ->
           exists nd, nd ∈ ns /\ originalIndex nd = j
                      /\ ind' !! Z.to_nat j = Some (val nd)).

(** The three counters of the node arrays of a problem. *)
Definition problem_sizes (p : CutProblem) : uint * uint * uint :=
  (numSourceSet p, numSinkSet p, numNodesInList p).

(** A problem of the parametric driver, on a graph of [N] nodes with the
    source [s] and the sink [t]: it is well formed, [s] and [t] are frozen on
    their sides, and once it is solved its indicator is a cut of the graph
    that separates [s] from [t]. *)
Definition problem_good (N s t : Z) (p : CutProblem) : Prop :=
  problem_ok N p /\ problem_ends s t p
  /\ (solved p = 0
      \/ exists ind, optimalSourceSetIndicator p = Some ind
                     /\ indicator_of N [s] [t] ind).

(** Every record of a breakpoint list holds such a cut. *)
Definition rows_ok (N s t : Z) (l : list Breakpoint) : Prop :=
  Forall (fun b => indicator_of N [s] [t] (sourceSetIndicator b)) l.

(** ** The arcs of a problem

    The value of the capacity function of an arc at [lambda]. *)
Definition arc_value (lambda : double) (a : Arc) : Q :=
  (constant a + multiplier a * lambda)%Q.

(** The capacity of the arc is its value at [lambda], or 0 when the value is
    negative. *)
Definition arc_evaluated (lambda : double) (a : Arc) : Prop :=
  ((arc_value lambda a < 0)%Q -> (capacity a == 0)%Q)
  /\ ((0 <= arc_value lambda a)%Q -> (capacity a == arc_value lambda a)%Q).

(** The arc array of a problem has the size its counter says, and the
    capacities are evaluated at the lambda value of the problem. *)
Definition arcs_ok (p : CutProblem) : Prop :=
  p_numArcs p = Z.of_nat (length (p_arcList p))
  /\ Forall (arc_evaluated (p_lambdaValue p)) (p_arcList p).

(** The counter and the size of the arc array. *)
Definition arcs_size (p : CutProblem) : uint * nat :=
  (p_numArcs p, length (p_arcList p)).

(** The cut function of a problem, [cutConstant + cutMultiplier * lambda]. *)
Definition cut_line (lambda : double) (p : CutProblem) : Q :=
  (cutConstant p + cutMultiplier p * lambda)%Q.

(** The relation [R] holds between the value at [lambda] and the capacity of
    every arc of the problem, and between its cut function at [lambda] and
    its cut value. *)
Definition cut_related (R : Q -> Q -> Prop) (lambda : double) (p : CutProblem) : Prop :=
  Forall (fun a => R (arc_value lambda a) (capacity a)) (p_arcList p)
  /\ R (cut_line lambda p) (cutValue p).

(** ** The graph as [readGraphSuper] builds it

    The arc [a] is the arc that row [k] of the arc matrix describes, between
    two of the [n] nodes of the graph: its ends are the first two entries of
    the row, cast to [int], its capacity function the last two; it carries no
    flow yet. *)
Definition arc_of_row (arcMatrix : list double) (n : Z) (k : nat) (a : Arc) : Prop :=
  exists from_ to_ constantCapacity multiplierCapacity,
    arcMatrix !! (4 * k)%nat = Some from_
    /\ arcMatrix !! (4 * k + 1)%nat = Some to_
    /\ arcMatrix !! (4 * k + 2)%nat = Some constantCapacity
    /\ arcMatrix !! (4 * k + 3)%nat = Some multiplierCapacity
    /\ 0 <= int_of_double from_ < n /\ 0 <= int_of_double to_ < n
    /\ a = mkArc (Some (addr (int_of_double from_))) (Some (addr (int_of_double to_)))
             0%Q 0%Q constantCapacity multiplierCapacity 1.

(** ** The buckets of strong roots

    Bucket [i] of [strongRoots] holds no root. *)
Definition bucket_empty (e : Engine) (i : Z) : Prop :=
  exists rt, strongRoots e !! Z.to_nat i = Some rt /\ start rt = None.

(** What [liftAll] leaves alone. *)
Definition roots_part (e : Engine) : list Root * uint :=
  (strongRoots e, highestStrongLabel e).

(** The engine at the entry of the first phase, in the first solve of a run
    on the graph of four nodes with the arcs 0 -> 1 (capacity 10), 1 -> 3
    (capacity 5) and 2 -> 3 (capacity 5), with source 0 and sink 3. *)
Definition fork4_engine : result Engine :=
  match (hpf_solve_read 4 3 0 3 [0; 1; 10; 0;  1; 3; 5; 0;  2; 3; 5; 0]%Q (0, 1)%Q 0 ;;
         r <- initializeParametricCut CutProblem_uninit ;;
         let '(lowProblem, highProblem) := r in
         solveProblem_initialized lowProblem 0) reset_globals with
  | Ok (_, g) => Ok (engine g)
  | Err e => Err e
  end.

(** ** The state after [simpleInitialization]

    [isExcess (nd->excess) > 0] *)
Definition positive_excess (nd : Node) : bool := 0 <? isExcess (excess nd).

(** The nodes [l] are linked in this order by their [next] pointers, from the
    pointer [cur] to a [NULL]. *)
Fixpoint chain (nodes : list Node) (cur : option nat) (l : list nat) : Prop :=
  match l with
  | [] => cur = None
  | x :: l' => cur = Some x /\ exists nd, nodes !! x = Some nd /\ chain nodes (next nd) l'
  end.

(** Bucket [b] of [strongRoots] holds the nodes [l], in this order. *)
Definition bucket_holds (e : Engine) (b : nat) (l : list nat) : Prop :=
  exists rt, strongRoots e !! b = Some rt
             /\ chain (nodesList e) (start rt) l
             /\ (l <> [] -> end_ rt = last l).

(** The nodes with positive excess among the first [k] nodes, in the order of
    the node array. *)
Definition strong_nodes (nodes : list Node) (k : nat) : list nat :=
  List.filter (fun i => match nodes !! i with
                        | Some nd => positive_excess nd
                        | None => false
                        end) (seq 0 k).

(** What the first part of [simpleInitialization] (the saturation of the arcs
    at the source and at the sink) leaves alone. *)
Definition labels_part (e : Engine) :=
  (map (fun nd => (label nd, next nd)) (nodesList e),
   strongRoots e, labelCount e, numNodes e, source e, sink e).

(** The engine between [createMemoryStructures] and [simpleInitialization],
    in the first solve of a run on the graph of four nodes with the arcs
    0 -> 1 (capacity 10), 1 -> 3 (capacity 5) and 2 -> 3 (capacity 5), with
    source 0 and sink 3. *)
Definition fork4_created : result Engine :=
  match (hpf_solve_read 4 3 0 3 [0; 1; 10; 0;  1; 3; 5; 0;  2; 3; 5; 0]%Q (0, 1)%Q 0 ;;
         r <- initializeParametricCut CutProblem_uninit ;;
         let '(lowProblem, highProblem) := r in
         inEngine (modify (set_nodesList (nodeList lowProblem))) ;;
         inEngine (modify (set_numNodes (numNodesInList lowProblem))) ;;
         inEngine (modify (set_numArcs (p_numArcs lowProblem))) ;;
         inEngine (modify (set_source 0)) ;;
         inEngine (modify (set_sink 1)) ;;
         inEngine (modify (set_arcList (p_arcList lowProblem))) ;;
         inEngine createMemoryStructures) reset_globals with
  | Ok (_, g) => Ok (engine g)
  | Err e => Err e
  end.

(** ** A push along an arc of the tree

    The excesses [new] are the excesses [old] after [delta] was moved from
    the node [child] to the node [parent]: no other excess has changed. *)
Definition pushed (delta : Q) (child parent : nat) (old new : list double) : Prop :=
  exists ec ep ec' ep',
    old !! child = Some ec /\ old !! parent = Some ep
    /\ new = <[child := ec']> (<[parent := ep']> old)
    /\ (ec' == ec - delta)%Q /\ (ep' == ep + delta)%Q.

(** What a push and the end of a relationship may change of a node. *)
Definition tree_part (nd : Node) : double * option nat := (excess nd, parent nd).

(** The sum of the excesses of all the nodes. *)
Definition total_excess (e : Engine) : Q :=
  foldr Qplus 0%Q (map excess (nodesList e)).

(** Every arc carries a flow between zero and its capacity. *)
Definition flows_ok (e : Engine) : Prop :=
  Forall (fun a => (0 <= flow a)%Q /\ (flow a <= capacity a)%Q) (arcList e).

(** No node is its own parent, and a node with a parent, the node [cur]
    apart, has no excess. *)
Definition settled (cur : option nat) (e : Engine) : Prop :=
  forall i x p, map tree_part (nodesList e) !! i = Some (x, Some p) ->
    p <> i /\ (cur <> Some i -> (x == 0)%Q).

(** A network of five nodes: 0 -> 1 (10), 1 -> 2 (3), 2 -> 4 (1), 1 -> 3 (20),
    3 -> 4 (30), from the source 0 to the sink 4, in the engine right after
    [createMemoryStructures] (the source is node 0, the sink node 1, and the
    nodes 1, 2, 3 of the network are the nodes 2, 3, 4). *)
Definition net5_created : result Engine :=
  match (hpf_solve_read 5 5 0 4
           [0; 1; 10; 0;  1; 2; 3; 0;  2; 4; 1; 0;  1; 3; 20; 0;  3; 4; 30; 0]%Q
           (0, 1)%Q 0 ;;
         r <- initializeParametricCut CutProblem_uninit ;;
         let '(lowProblem, highProblem) := r in
         inEngine (modify (set_nodesList (nodeList lowProblem))) ;;
         inEngine (modify (set_numNodes (numNodesInList lowProblem))) ;;
         inEngine (modify (set_numArcs (p_numArcs lowProblem))) ;;
         inEngine (modify (set_source 0)) ;;
         inEngine (modify (set_sink 1)) ;;
         inEngine (modify (set_arcList (p_arcList lowProblem))) ;;
         inEngine createMemoryStructures) reset_globals with
  | Ok (_, g) => Ok (engine g)
  | Err e => Err e
  end.

(** [k] rounds of the loop of [pseudoflowPhase1]. *)
Fixpoint phase1_rounds (k : nat) : M Engine unit :=
  match k with
  | O => ret tt
  | S k' =>
      r <- getHighestStrongRoot 50 ;;
      match r with
      | Some strongRoot => processRoot 50 strongRoot ;; phase1_rounds k'
      | None => ret tt
      end
  end.

(** The engine of the network after [simpleInitialization], [k] rounds of
    phase 1 and, in the next round, the merger that [processRoot] does before
    it calls [pushExcess]; with the strong root of that round. *)
Definition net5_merged (k : nat) : result (nat * Engine) :=
  match net5_created with
  | Ok e =>
      (simpleInitialization ;;
       phase1_rounds k ;;
       r <- getHighestStrongRoot 50 ;;
       strongRoot <- deref r ;;
       updNode strongRoot (fun r => set_nextScan (childList r) r) ;;
       found <- findWeakNode strongRoot ;;
       match found with
       | Some (out, weakNode) => merge 50 weakNode strongRoot out ;; ret strongRoot
       | None => fail NullPointer
       end) e
  | Err x => Err x
  end.

(** ** The search for a weak node

    The label of the node that the pointer [p] points to. *)
Definition end_label (nodes : list Node) (p : option nat) : option uint :=
  match p with
  | Some i => label <$> nodes !! i
  | None => None
  end.

(** Neither end of the arc [oi] has the label [l]. *)
Definition no_end_at (nodes : list Node) (arcs : list Arc) (l : uint) (oi : nat) : Prop :=
  exists a lt lf,
    arcs !! oi = Some a
    /\ end_label nodes (to a) = Some lt /\ lt <> l
    /\ end_label nodes (from a) = Some lf /\ lf <> l.

(** The node [w] is the end of the arc [oi] that has the label [l]: its
    head [to] when that has the label, its tail [from] otherwise. *)
Definition end_at (nodes : list Node) (arcs : list Arc) (l : uint) (oi w : nat) : Prop :=
  exists a lt,
    arcs !! oi = Some a /\ end_label nodes (to a) = Some lt
    /\ if decide (lt = l) then to a = Some w
       else from a = Some w /\ end_label nodes (from a) = Some l.

(** The engine of the network of five nodes after [simpleInitialization]. *)
Definition net5_started : result Engine :=
  match net5_created with
  | Ok e => match simpleInitialization e with
            | Ok (_, e') => Ok e'
            | Err x => Err x
            end
  | Err x => Err x
  end.

(** ** The relabelling of a node

    The nodes [l] are linked in this order by their [next] pointers, from the
    pointer [cur] to the pointer [stop]. *)
Fixpoint chain_to (nodes : list Node) (cur : option nat) (l : list nat)
    (stop : option nat) : Prop :=
  match l with
  | [] => cur = stop
  | x :: l' =>
      cur = Some x
      /\ exists nd, nodes !! x = Some nd /\ chain_to nodes (next nd) l' stop
  end.

(** The node [s] has a label other than [l]. *)
Definition other_label (nodes : list Node) (l : uint) (s : nat) : Prop :=
  exists sn, nodes !! s = Some sn /\ label sn <> l.

(** The engine of the network of five nodes after [simpleInitialization],
    [k] rounds of phase 1 and, in the next round, the search of [processRoot]
    at the strong root, when it finds no weak node; with that strong root. *)
Definition net5_no_weak (k : nat) : result (nat * Engine) :=
  match net5_created with
  | Ok e =>
      (simpleInitialization ;;
       phase1_rounds k ;;
       r <- getHighestStrongRoot 50 ;;
       strongRoot <- deref r ;;
       updNode strongRoot (fun r => set_nextScan (childList r) r) ;;
       found <- findWeakNode strongRoot ;;
       match found with
       | Some _ => fail NullPointer
       | None => ret strongRoot
       end) e
  | Err x => Err x
  end.

(** ** The lists of children

    The node [p] has the children [l], linked in this order from its
    [childList] pointer by their [next] pointers. *)
Definition children (nodes : list Node) (p : nat) (l : list nat) : Prop :=
  exists nd, nodes !! p = Some nd /\ chain nodes (childList nd) l.

(** ** The path to the root, and its reversal by [merge]

    The pointer of a node to its parent, with the arc to it. *)
Definition up_part (nd : Node) : option nat * option nat := (parent nd, arcToParent nd).

(** From the node [x], the pointers [U] lead up through the steps [l] (an arc
    and the parent it leads to, each) to the node [top]. *)
Fixpoint climb (U : list (option nat * option nat)) (x : nat) (l : list (nat * nat))
    (top : nat) : Prop :=
  match l with
  | [] => x = top
  | (a, y) :: l' => U !! x = Some (Some y, Some a) /\ climb U y l' top
  end.

(** The node [x] is a node without parent. *)
Definition is_root (U : list (option nat * option nat)) (x : nat) : Prop :=
  exists a, U !! x = Some (None, a).

(** The steps [l] up from the node [x], walked down from their last node. *)
Fixpoint turned (x : nat) (l : list (nat * nat)) : list (nat * nat) :=
  match l with
  | [] => []
  | (a, y) :: l' => turned y l' ++ [(a, x)]
  end.

(** [newArc->direction = 1 - newArc->direction] on each arc of [l] in turn. *)
Definition flip_directions (arcs : list Arc) (l : list nat) : list Arc :=
  foldl (fun arcs a => match arcs !! a with
                       | Some ar => <[a := set_direction (u32 (1 - direction ar)) ar]> arcs
                       | None => arcs
                       end) arcs l.

(** The pointers after the loop of [merge], from the pointers before it. *)
Fixpoint turn_up (U : list (option nat * option nat)) (cur np na : nat)
    (l : list (nat * nat)) : list (option nat * option nat) :=
  match l with
  | [] => <[cur := (Some np, Some na)]> U
  | (a, y) :: l' => turn_up (<[cur := (Some np, Some na)]> U) y cur a l'
  end.

(** The network of five nodes with the capacity 20 on its arc 1 -> 2, in the
    engine right after [createMemoryStructures]. *)
Definition net5w_created : result Engine :=
  match (hpf_solve_read 5 5 0 4
           [0; 1; 10; 0;  1; 2; 20; 0;  2; 4; 1; 0;  1; 3; 20; 0;  3; 4; 30; 0]%Q
           (0, 1)%Q 0 ;;
         r <- initializeParametricCut CutProblem_uninit ;;
         let '(lowProblem, highProblem) := r in
         inEngine (modify (set_nodesList (nodeList lowProblem))) ;;
         inEngine (modify (set_numNodes (numNodesInList lowProblem))) ;;
         inEngine (modify (set_numArcs (p_numArcs lowProblem))) ;;
         inEngine (modify (set_source 0)) ;;
         inEngine (modify (set_sink 1)) ;;
         inEngine (modify (set_arcList (p_arcList lowProblem))) ;;
         inEngine createMemoryStructures) reset_globals with
  | Ok (_, g) => Ok (engine g)
  | Err e => Err e
  end.

(** The engine of that network after [simpleInitialization], one round of
    phase 1 and, in the second round, the steps of [processRoot] up to the
    weak node that it finds from the first child of the strong root; with the
    weak node, the strong node and the arc found. *)
Definition net5w_found : result (nat * nat * nat * Engine) :=
  match net5w_created with
  | Ok e =>
      (simpleInitialization ;;
       phase1_rounds 1 ;;
       r <- getHighestStrongRoot 50 ;;
       strongRoot <- deref r ;;
       updNode strongRoot (fun r => set_nextScan (childList r) r) ;;
       found <- findWeakNode strongRoot ;;
       match found with
       | Some _ => fail NullPointer
       | None =>
           checkChildren 50 strongRoot ;;
           s <- getNode strongRoot ;;
           temp <- deref (nextScan s) ;;
           t <- getNode temp ;;
           updNode strongRoot (set_nextScan (next t)) ;;
           updNode temp (fun t => set_nextScan (childList t) t) ;;
           found <- findWeakNode temp ;;
           match found with
           | Some (out, weakNode) => ret (weakNode, temp, out)
           | None => fail NullPointer
           end
       end) e
  | Err x => Err x
  end.

(** ** The out-of-tree arcs at the start of a solve

    The node into whose out-of-tree arcs [createMemoryStructures] puts the
    arc [a]: the sink for an arc into the sink, the tail of the arc otherwise;
    no node for an arc into the source, out of the sink, from a node to itself
    or from the source to the sink. *)
Definition arc_owner (source_ sink_ : uint) (nodes : list Node) (a : Arc) : option nat :=
  match to a, from a with
  | Some t, Some f =>
      match nodes !! t, nodes !! f with
      | Some tn, Some fn =>
          let to_ := number tn in
          let from_ := number fn in
          if negb ((source_ =? to_) || (sink_ =? from_) || (from_ =? to_)) then
            if (source_ =? from_) && (to_ =? sink_) then None
            else if to_ =? sink_ then Some (addr to_)
            else Some (addr from_)
          else None
      | _, _ => None
      end
  | _, _ => None
  end.

(** The arc [a] leads from the source to the sink. *)
Definition source_to_sink (source_ sink_ : uint) (nodes : list Node) (a : Arc) : bool :=
  match to a, from a with
  | Some t, Some f =>
      match nodes !! t, nodes !! f with
      | Some tn, Some fn =>
          let to_ := number tn in
          let from_ := number fn in
          negb ((source_ =? to_) || (sink_ =? from_) || (from_ =? to_))
          && ((source_ =? from_) && (to_ =? sink_))
      | _, _ => false
      end
  | _, _ => false
  end.

(** The arcs among the first [k] that go to the node [n], in their order. *)
Definition owned (source_ sink_ : uint) (nodes : list Node) (arcs : list Arc)
    (n : nat) (k : nat) : list nat :=
  List.filter (fun i => match arcs !! i with
                        | Some a => bool_decide (arc_owner source_ sink_ nodes a = Some n)
                        | None => false
                        end) (seq 0 k).

(** The network of five nodes in the engine right before
    [createMemoryStructures], in the first solve of a run. *)
Definition net5_loaded : result Engine :=
  match (hpf_solve_read 5 5 0 4
           [0; 1; 10; 0;  1; 2; 3; 0;  2; 4; 1; 0;  1; 3; 20; 0;  3; 4; 30; 0]%Q
           (0, 1)%Q 0 ;;
         r <- initializeParametricCut CutProblem_uninit ;;
         let '(lowProblem, highProblem) := r in
         inEngine (modify (set_nodesList (nodeList lowProblem))) ;;
         inEngine (modify (set_numNodes (numNodesInList lowProblem))) ;;
         inEngine (modify (set_numArcs (p_numArcs lowProblem))) ;;
         inEngine (modify (set_source 0)) ;;
         inEngine (modify (set_sink 1)) ;;
         inEngine (modify (set_arcList (p_arcList lowProblem)))) reset_globals with
  | Ok (_, g) => Ok (engine g)
  | Err e => Err e
  end.

(** ** The lift of a tree at a gap

    A node up to its label and its scan pointer. *)
Definition unlabelled (nd : Node) : Node := set_label 0 (set_nextScan None nd).

(** Every label of [new] is the label of [old] at this node, or [n]. *)
Definition lifted (n : uint) (old new : list Node) : Prop :=
  Forall2 (fun nd0 nd => label nd = label nd0 \/ label nd = n) old new.

(** * Theorems *)

(** ** The monad *)

Lemma bind_Ok {S A B} (m : M S A) (k : A -> M S B) s r :
  bind m k s = Ok r <-> exists a s', m s = Ok (a, s') /\ k a s' = Ok r.
Proof.
  unfold bind. destruct (m s) as [[a s']|e].
  - split; [eauto | intros (? & ? & [= <- <-] & ?); done].
  - split; [done | intros (? & ? & ? & ?); done].
Qed.

Lemma liftR_Ok {S A} (r : result A) (s : S) a s' :
  liftR r s = Ok (a, s') <-> r = Ok a /\ s' = s.
Proof. unfold liftR. destruct r; split; intros H; try (destruct H; congruence); by inversion H. Qed.

Lemma ret_Ok {S A} (x : A) (s : S) a s' : ret x s = Ok (a, s') <-> a = x /\ s' = s.
Proof. unfold ret. split; [intros [= <- <-] | intros [-> ->]]; done. Qed.

Lemma gets_Ok {S A} (f : S -> A) (s : S) a s' : gets f s = Ok (a, s') <-> a = f s /\ s' = s.
Proof. unfold gets. split; [intros [= <- <-] | intros [-> ->]]; done. Qed.

Lemma get_Ok {S} (s : S) a s' : get s = Ok (a, s') <-> a = s /\ s' = s.
Proof. unfold get. split; [intros [= <- <-] | intros [-> ->]]; done. Qed.

Lemma modify_Ok {S} (f : S -> S) (s : S) a s' : modify f s = Ok (a, s') <-> s' = f s.
Proof. unfold modify. destruct a. split; [intros [= <-] | intros ->]; done. Qed.

Lemma bind_gets {S A B} (f : S -> A) (k : A -> M S B) s : bind (gets f) k s = k (f s) s.
Proof. reflexivity. Qed.

Lemma bind_get {S B} (k : S -> M S B) s : bind get k s = k s s.
Proof. reflexivity. Qed.

Lemma fail_Ok {S A} (e : error) (s : S) (r : A * S) : fail e s = Ok r -> False.
Proof. done. Qed.

Lemma inEngine_Ok {A} (m : M Engine A) g a g' :
  inEngine m g = Ok (a, g') <-> exists e', m (engine g) = Ok (a, e') /\ g' = set_engine e' g.
Proof.
  unfold inEngine. destruct (m (engine g)) as [[a0 e0]|e0].
  - split; [intros [= <- <-]; eauto | intros (? & [= <- <-] & ->); done].
  - split; [done | intros (? & ? & ?); done].
Qed.

Lemma onProblem_Ok {A} (m : M CutProblem A) f a f' :
  onProblem m f = Ok (a, f') <-> exists p', m (problem f) = Ok (a, p') /\ f' = set_problem p' f.
Proof.
  unfold onProblem. destruct (m (problem f)) as [[a0 e0]|e0].
  - split; [intros [= <- <-]; eauto | intros (? & [= <- <-] & ->); done].
  - split; [done | intros (? & ? & ?); done].
Qed.

Lemma run_on_Ok {S T A} (init : T) (m : M T A) (s : S) t s' :
  run_on init m s = Ok (t, s') <-> (exists a, m init = Ok (a, t)) /\ s' = s.
Proof.
  unfold run_on. destruct (m init) as [[a0 t0]|e0].
  - split; [intros [= <- <-]; eauto | intros ((? & [= <- <-]) & ->); done].
  - split; [done | intros ((? & ?) & ?); done].
Qed.

(** Symbolic execution of the runs that end well, in the hypotheses. *)
Ltac inv_run :=
  repeat match goal with
  | H : bind _ _ _ = Ok _ |- _ =>
      apply bind_Ok in H; destruct H as (? & ? & ? & ?)
  | H : ret _ _ = Ok _ |- _ => apply ret_Ok in H; destruct H as [? ?]; subst
  | H : gets _ _ = Ok _ |- _ => apply gets_Ok in H; destruct H as [? ?]; subst
  | H : get _ = Ok _ |- _ => apply get_Ok in H; destruct H as [? ?]; subst
  | H : modify _ _ = Ok _ |- _ => apply modify_Ok in H; subst
  | H : liftR _ _ = Ok _ |- _ => apply liftR_Ok in H; destruct H as [? ?]; subst
  | H : run_on _ _ _ = Ok _ |- _ => apply run_on_Ok in H; destruct H as [[? ?] ?]; subst
  | H : inEngine _ _ = Ok _ |- _ => apply inEngine_Ok in H; destruct H as (? & ? & ?); subst
  | H : fail _ _ = Ok _ |- _ => by apply fail_Ok in H
  | H : Ok _ = Ok _ |- _ => injection H as ? ?; subst
  | H : (_, _) = (_, _) |- _ => injection H as ? ?; subst
  | H : context [let '(_, _) := ?r in _] |- _ => is_var r; destruct r
  | H : Err _ = Ok _ |- _ => discriminate H
  end.

Lemma preserves_bind {S A B} (I : S -> Prop) (m : M S A) (k : A -> M S B) :
  preserves I m -> (forall a, preserves I (k a)) -> preserves I (bind m k).
Proof.
  intros Hm Hk s b s' HI H. apply bind_Ok in H as (a & s1 & H1 & H2).
  eapply Hk; [|exact H2]. eapply Hm; eauto.
Qed.

Lemma preserves_ret {S A} (I : S -> Prop) (x : A) : preserves I (ret x).
Proof. intros s a s' HI H. by apply ret_Ok in H as [_ ->]. Qed.

Lemma preserves_gets {S A} (I : S -> Prop) (f : S -> A) : preserves I (gets f).
Proof. intros s a s' HI H. by apply gets_Ok in H as [_ ->]. Qed.

Lemma preserves_get {S} (I : S -> Prop) : preserves I (get (S := S)).
Proof. intros s a s' HI H. by apply get_Ok in H as [_ ->]. Qed.

Lemma preserves_liftR {S A} (I : S -> Prop) (r : result A) : preserves I (liftR (S := S) r).
Proof. intros s a s' HI H. by apply liftR_Ok in H as [_ ->]. Qed.

Lemma preserves_fail {S A} (I : S -> Prop) e : preserves I (fail (S := S) (A := A) e).
Proof. intros s a s' HI H. done. Qed.

Lemma preserves_deref {S} (I : S -> Prop) p : preserves I (deref (S := S) p).
Proof. destruct p; [apply preserves_ret | apply preserves_fail]. Qed.

Lemma preserves_modify {S} (I : S -> Prop) (f : S -> S) :
  (forall s, I s -> I (f s)) -> preserves I (modify f).
Proof. intros Hf s a s' HI H. apply modify_Ok in H as ->. auto. Qed.

Lemma preserves_run_on {S T A} (I : S -> Prop) (init : T) (m : M T A) :
  preserves I (run_on (S := S) init m).
Proof. intros s a s' HI H. by apply run_on_Ok in H as [_ ->]. Qed.

Lemma preserves_for_loop {S} (I : S -> Prop) n i (body : Z -> M S unit) :
  (forall j, preserves I (body j)) -> preserves I (for_loop n i body).
Proof.
  intros Hb. revert i. induction n as [|n IH]; intros i; simpl.
  - apply preserves_ret.
  - apply preserves_bind; [apply Hb | intros _; apply IH].
Qed.

Lemma preserves_for_range {S} (I : S -> Prop) lo hi (body : Z -> M S unit) :
  (forall j, preserves I (body j)) -> preserves I (for_range lo hi body).
Proof. apply preserves_for_loop. Qed.

Lemma preserves_inEngine {A} (I : Globals -> Prop) (m : M Engine A) :
  (forall g e, I g -> I (set_engine e g)) -> preserves I (inEngine m).
Proof. intros HI g a g' Hg H. apply inEngine_Ok in H as (e' & _ & ->). auto. Qed.

Lemma preserves_onProblem {A} (J : CutProblem -> Prop) (m : M CutProblem A) :
  preserves J m -> preserves (fun f => J (problem f)) (onProblem m).
Proof.
  intros Hm f a f' Hf H. apply onProblem_Ok in H as (p' & H & ->). simpl. eapply Hm; eauto.
Qed.

(** The structural part of a proof that a statement keeps a property. *)
Ltac preserves_step :=
  lazymatch goal with
  | |- preserves _ (bind _ _) => apply preserves_bind; [|intros ?]
  | |- preserves _ (ret _) => apply preserves_ret
  | |- preserves _ (gets _) => apply preserves_gets
  | |- preserves _ get => apply preserves_get
  | |- preserves _ (liftR _) => apply preserves_liftR
  | |- preserves _ (fail _) => apply preserves_fail
  | |- preserves _ (deref _) => apply preserves_deref
  | |- preserves _ (run_on _ _) => apply preserves_run_on
  | |- preserves _ (for_range _ _ _) => apply preserves_for_range; intros ?
  | |- preserves _ (for_loop _ _ _) => apply preserves_for_loop; intros ?
  | |- preserves _ (if ?b then _ else _) => destruct b
  | |- preserves _ (match ?x with _ => _ end) => destruct x
  | |- preserves _ (let '(_, _) := ?x in _) => destruct x
  | |- preserves _ ((fun _ => _) _) => cbv beta
  end.

(** ** Comparisons of doubles *)

Lemma deq_true x y : deq x y = true <-> (x == y)%Q.
Proof. apply Qeq_bool_iff. Qed.

Lemma deq_false x y : deq x y = false <-> ~ (x == y)%Q.
Proof.
  rewrite <- deq_true. destruct (deq x y); split; intros; congruence.
Qed.

Lemma dlt_true x y : dlt x y = true <-> (x < y)%Q.
Proof.
  unfold dlt. rewrite Qlt_alt. destruct (x ?= y)%Q; split; intros; congruence.
Qed.

Lemma dle_true x y : dle x y = true <-> (x <= y)%Q.
Proof.
  unfold dle. rewrite Qle_alt. destruct (x ?= y)%Q; split; intros; congruence.
Qed.

Lemma dlt_false x y : dlt x y = false <-> (y <= x)%Q.
Proof.
  destruct (dlt x y) eqn:E.
  - apply dlt_true in E. split; [done | intros H; lra].
  - split; [intros _ | done]. apply Qnot_lt_le. intros H. apply dlt_true in H. congruence.
Qed.

Lemma dle_false x y : dle x y = false <-> (y < x)%Q.
Proof.
  destruct (dle x y) eqn:E.
  - apply dle_true in E. split; [done | intros H; lra].
  - split; [intros _ | done]. apply Qnot_le_lt. intros H. apply dle_true in H. congruence.
Qed.

Lemma dadd_eq x y : (dadd x y == x + y)%Q.
Proof. apply Qred_correct. Qed.
Lemma dsub_eq x y : (dsub x y == x - y)%Q.
Proof. apply Qred_correct. Qed.
Lemma dmul_eq x y : (dmul x y == x * y)%Q.
Proof. apply Qred_correct. Qed.
Lemma ddiv_eq x y : (ddiv x y == x / y)%Q.
Proof. apply Qred_correct. Qed.
Lemma dneg_eq x : (dneg x == - x)%Q.
Proof. apply Qred_correct. Qed.

Lemma dabs_eq x : (dabs x == Qabs x)%Q.
Proof.
  unfold dabs, dge. destruct (dle 0%Q x) eqn:E.
  - apply dle_true in E. by rewrite Qabs_pos.
  - apply dle_false in E. rewrite dneg_eq. rewrite Qabs_neg; [reflexivity | lra].
Qed.

(** ** The pass over the breakpoint list *)

Lemma collapse_runs_head current rest :
  exists tl, collapse_runs current rest = current :: tl.
Proof.
  revert current. induction rest as [|b rest IH]; intros current; simpl; [eauto|].
  destruct (deq _ _); eauto.
Qed.

Lemma collapse_runs_no_adjacent_equal current rest :
  no_adjacent_equal (collapse_runs current rest).
Proof.
  revert current. induction rest as [|b rest IH]; intros current; simpl; [done|].
  destruct (deq _ _) eqn:E; [apply IH|].
  specialize (IH b). destruct (collapse_runs_head b rest) as [tl Htl].
  rewrite Htl in *. simpl. split; [by apply deq_false | exact IH].
Qed.

Lemma removeDuplicateBreakpoints_loop_head current rest :
  exists tl, removeDuplicateBreakpoints_loop current rest = current :: tl.
Proof.
  destruct rest as [|b rest]; simpl; [eauto|].
  destruct (deq _ _); [|eauto]. destruct rest; eauto.
Qed.

Lemma removeDuplicateBreakpoints_loop_collapse n current rest :
  (length rest <= n)%nat ->
  no_three_equal (current :: rest) ->
  removeDuplicateBreakpoints_loop current rest = collapse_runs current rest.
Proof.
  revert current rest. induction n as [|n IH]; intros current rest Hn H3.
  { destruct rest; [done | simpl in Hn; lia]. }
  destruct rest as [|b rest]; [done|].
  simpl. destruct (deq (lambdaValue current) (lambdaValue b)) eqn:E.
  - destruct rest as [|c rest]; [done|].
    simpl in H3. destruct H3 as [Habc H3].
    apply deq_true in E. simpl.
    assert (deq (lambdaValue current) (lambdaValue c) = false) as ->.
    { apply deq_false. intros Hc. apply Habc. split; [done|]. by rewrite <- E. }
    f_equal. apply IH; [simpl in Hn; lia|].
    destruct rest as [|d rest]; [done|]. by destruct H3.
  - f_equal. apply IH; [simpl in Hn; lia|].
    destruct rest as [|c rest]; [done|]. simpl in H3. by destruct H3.
Qed.




(** ** Evaluation of the capacities *)

(** What [evaluateCapacity] does to one arc. *)
Lemma evaluateCapacity_rule (g : Globals) (lambda : double) (a : Arc) :
  let value := (constant a + multiplier a * lambda)%Q in
  match evaluateCapacity g lambda a with
  | Ok a' =>
      ((value < 0)%Q ->
         (roundNegativeCapacity g = 1 \/ (- TOL g < value)%Q) /\ (capacity a' == 0)%Q)
      /\ ((0 <= value)%Q -> (capacity a' == value)%Q)
      /\ from a' = from a /\ to a' = to a /\ flow a' = flow a
      /\ constant a' = constant a /\ multiplier a' = multiplier a
      /\ direction a' = direction a
  | Err e =>
      e = ExitNegativeCapacity lambda
      /\ (value < 0)%Q /\ roundNegativeCapacity g <> 1 /\ (value <= - TOL g)%Q
  end.
Proof.
  intros value. unfold evaluateCapacity. simpl.
  assert (dadd (constant a) (dmul (multiplier a) lambda) == value)%Q as Hv.
  { unfold value. by rewrite dadd_eq, dmul_eq. }
  destruct (dlt _ 0%Q) eqn:Hneg.
  - apply dlt_true in Hneg. rewrite Hv in Hneg.
    destruct (roundNegativeCapacity g =? 1) eqn:Hr; simpl.
    + apply Z.eqb_eq in Hr. repeat split; try done; [by left | lra].
    + apply Z.eqb_neq in Hr. unfold dgt. destruct (dlt (dneg (TOL g)) _) eqn:Htol.
      * apply dlt_true in Htol. rewrite dneg_eq, Hv in Htol.
        simpl. repeat split; try done; [by right | lra].
      * apply dlt_false in Htol. rewrite dneg_eq, Hv in Htol. done.
  - apply dlt_false in Hneg. rewrite Hv in Hneg. simpl.
    repeat split; try done; lra.
Qed.

(** The loop of [evaluateCapacities] from arc [i] on. *)
Lemma evaluateCapacities_loop (g : Globals) (n i : nat) (p : CutProblem) :
  (i + n)%nat = length (p_arcList p) ->
  match for_loop n (Z.of_nat i)
          (fun i =>
             l <- gets p_arcList ;;
             a <- liftR (aread l i) ;;
             lambda <- gets p_lambdaValue ;;
             a <- liftR (evaluateCapacity g lambda a) ;;
             l <- liftR (awrite l i a) ;;
             modify (set_p_arcList l)) p with
  | Ok (_, p') =>
      exists l', p' = set_p_arcList l' p
        /\ length l' = length (p_arcList p)
        /\ (forall k, (k < i)%nat -> l' !! k = p_arcList p !! k)
        /\ (forall k a, (i <= k)%nat -> p_arcList p !! k = Some a ->
              exists a', evaluateCapacity g (p_lambdaValue p) a = Ok a' /\ l' !! k = Some a')
  | Err e =>
      exists k a, p_arcList p !! k = Some a
        /\ evaluateCapacity g (p_lambdaValue p) a = Err e
  end.
Proof.
  revert i p. induction n as [|n IH]; intros i p Hlen; simpl.
  - exists (p_arcList p). split; [by destruct p|]. split; [done|]. split; [done|].
    intros k a Hk Ha. apply lookup_lt_Some in Ha. lia.
  - unfold bind at 1. unfold bind at 1. unfold gets at 1. simpl.
    assert (i < length (p_arcList p))%nat as Hi by lia.
    destruct (lookup_lt_is_Some_2 _ _ Hi) as [a Ha].
    unfold aread. replace (Z.of_nat i <? 0) with false by lia.
    rewrite Nat2Z.id, Ha. simpl.
    unfold bind at 1. simpl.
    unfold bind at 1. simpl.
    destruct (evaluateCapacity g (p_lambdaValue p) a) as [a'|e] eqn:Hev; simpl.
    + unfold bind at 1. unfold awrite.
      replace (Z.of_nat i <? 0) with false by lia.
      replace (Z.of_nat i <? Z.of_nat (length (p_arcList p))) with true by lia.
      simpl. rewrite Nat2Z.id.
      replace (Z.of_nat i + 1) with (Z.of_nat (S i)) by lia.
      specialize (IH (S i) (set_p_arcList (<[i:=a']> (p_arcList p)) p)).
      simpl in IH. rewrite length_insert in IH. specialize (IH ltac:(lia)).
      destruct (for_loop n _ _ _) as [[[] p']|e].
      * destruct IH as (l' & -> & Hl & Hlow & Hhigh).
        exists l'. split; [done|]. split; [done|]. split.
        -- intros k Hk. rewrite Hlow by lia. apply list_lookup_insert_ne. lia.
        -- intros k b Hk Hb. destruct (decide (k = i)) as [->|Hne].
           ++ exists a'. rewrite Ha in Hb. injection Hb as <-. split; [done|].
              rewrite Hlow by lia. by apply list_lookup_insert_eq.
           ++ apply Hhigh; [lia|]. by rewrite list_lookup_insert_ne.
      * destruct IH as (k & b & Hb & He).
        destruct (decide (k = i)) as [->|Hne].
        -- rewrite list_lookup_insert_eq in Hb by done. injection Hb as <-.
           exists i, a. split; [done|].
           pose proof (evaluateCapacity_rule g (p_lambdaValue p) a) as R1.
           pose proof (evaluateCapacity_rule g (p_lambdaValue p) a') as R2.
           rewrite Hev in R1. rewrite He in R2. simpl in R1, R2.
           destruct R1 as (Hn & Hp & _ & _ & _ & Hc & Hm & _).
           destruct R2 as (_ & Hneg & Hr & Hle).
           rewrite Hc, Hm in Hneg, Hle.
           destruct (Hn Hneg) as [[Hr' | Htol] _]; [done | lra].
        -- rewrite list_lookup_insert_ne in Hb by done. eauto.
    + exists i, a. done.
Qed.

(** C3: when the capacities of a problem are evaluated at its lambda, every
    arc whose value [constant + multiplier * lambda] is negative gets capacity
    0 if the rounding flag is 1 or the value is above [- TOL], and otherwise
    the evaluation ends the process after its diagnostic; a value that is not
    negative is taken as the capacity unchanged. *)
Theorem evaluateCapacities_rule (g : Globals) (p : CutProblem) :
  p_numArcs p = Z.of_nat (length (p_arcList p)) ->
  let value a := (constant a + multiplier a * p_lambdaValue p)%Q in
  match evaluateCapacities g p with
  | Ok (_, p') =>
      length (p_arcList p') = length (p_arcList p)
      /\ forall i a, p_arcList p !! i = Some a ->
           exists a', p_arcList p' !! i = Some a'
             /\ ((value a < 0)%Q ->
                   (roundNegativeCapacity g = 1 \/ (- TOL g < value a)%Q)
                   /\ (capacity a' == 0)%Q)
             /\ ((0 <= value a)%Q -> (capacity a' == value a)%Q)
  | Err e =>
      e = ExitNegativeCapacity (p_lambdaValue p)
      /\ exists i a, p_arcList p !! i = Some a
           /\ (value a < 0)%Q /\ roundNegativeCapacity g <> 1 /\ (value a <= - TOL g)%Q
  end.
Proof.
  intros Hn value. unfold evaluateCapacities, bind at 1, gets at 1, for_range.
  rewrite Hn, Z.sub_0_r, Nat2Z.id.
  pose proof (evaluateCapacities_loop g (length (p_arcList p)) 0 p eq_refl) as H.
  change (Z.of_nat 0) with 0 in H.
  destruct (for_loop _ _ _ _) as [[[] p']|e].
  - destruct H as (l' & -> & Hl & _ & Hk). simpl. split; [done|].
    intros i a Ha. destruct (Hk i a ltac:(lia) Ha) as (a' & Hev & Ha').
    exists a'. split; [done|].
    pose proof (evaluateCapacity_rule g (p_lambdaValue p) a) as R.
    rewrite Hev in R. simpl in R. destruct R as (R1 & R2 & _). done.
  - destruct H as (k & a & Ha & Hev).
    pose proof (evaluateCapacity_rule g (p_lambdaValue p) a) as R.
    rewrite Hev in R. simpl in R. destruct R as (-> & R). split; [done|]. eauto.
Qed.

(** ** The intersection of the two cut functions *)

Lemma intersect_branch_parallel (tol : double) (low high : CutProblem) :
  (Qabs (cutMultiplier low - cutMultiplier high) <= tol)%Q ->
  intersect_branch tol low high = NoBreakpoint.
Proof.
  intros H. unfold intersect_branch, dgt.
  destruct (dlt tol _) eqn:E; [|done].
  apply dlt_true in E. rewrite dabs_eq, dsub_eq in E.
  rewrite Qabs_Qminus in H. lra.
Qed.

Lemma intersect_branch_crossing (tol : double) (low high : CutProblem) :
  (tol < Qabs (cutMultiplier low - cutMultiplier high))%Q ->
  let lambdaStar :=
    ((cutConstant low - cutConstant high) / (cutMultiplier high - cutMultiplier low))%Q in
  exists lambdaIntersect,
    (lambdaIntersect == lambdaStar)%Q
    /\ (((p_lambdaValue low + tol < lambdaStar)%Q /\ (lambdaStar < p_lambdaValue high - tol)%Q)
        -> intersect_branch tol low high = RecurseAt lambdaIntersect)
    /\ (forall l, intersect_branch tol low high = RecurseAt l ->
          l = lambdaIntersect
          /\ (p_lambdaValue low + tol < lambdaStar)%Q
          /\ (lambdaStar < p_lambdaValue high - tol)%Q).
Proof.
  intros H lambdaStar.
  exists (ddiv (dsub (cutConstant low) (cutConstant high))
               (dsub (cutMultiplier high) (cutMultiplier low))).
  assert (ddiv (dsub (cutConstant low) (cutConstant high))
               (dsub (cutMultiplier high) (cutMultiplier low)) == lambdaStar)%Q as Hl.
  { unfold lambdaStar. by rewrite ddiv_eq, !dsub_eq. }
  split; [exact Hl|].
  unfold intersect_branch, dgt.
  assert (dlt tol (dabs (dsub (cutMultiplier high) (cutMultiplier low))) = true) as ->.
  { apply dlt_true. rewrite dabs_eq, dsub_eq. by rewrite Qabs_Qminus in H. }
  simpl.
  set (l := ddiv _ _) in *.
  destruct (dlt (dadd l tol) (p_lambdaValue high)) eqn:E1;
    destruct (dlt (p_lambdaValue low) (dsub l tol)) eqn:E2; simpl.
  - apply dlt_true in E1, E2. rewrite dadd_eq in E1. rewrite dsub_eq in E2.
    rewrite Hl in E1, E2.
    split; [done|]. intros l' [= <-]. split; [done|]. split; lra.
  - apply dlt_false in E2. rewrite dsub_eq, Hl in E2.
    split; [intros [? ?]; lra|].
    intros l' Hb. by repeat destruct (dle _ _).
  - apply dlt_false in E1. rewrite dadd_eq, Hl in E1.
    split; [intros [? ?]; lra|].
    intros l' Hb. by repeat destruct (dle _ _).
  - apply dlt_false in E1. rewrite dadd_eq, Hl in E1.
    split; [intros [? ?]; lra|].
    intros l' Hb. by repeat destruct (dle _ _).
Qed.


(** ** What the construction and the solving of a problem leave alone *)

Ltac preserves_auto :=
  repeat first
    [ preserves_step
    | lazymatch goal with
      | |- preserves _ (modify _) =>
          apply preserves_modify; let s := fresh in let H := fresh in
          intros s H; exact H
      | |- preserves (fun f => ?J (problem f)) (onProblem _) =>
          apply (preserves_onProblem J)
      end ].

Lemma preserves_new_sourceSet_node lambda sv i orig :
  preserves (keeps lambda sv) (new_sourceSet_node i orig).
Proof. unfold new_sourceSet_node. preserves_auto. Qed.

Lemma preserves_new_sinkSet_node lambda sv i orig :
  preserves (keeps lambda sv) (new_sinkSet_node i orig).
Proof. unfold new_sinkSet_node. preserves_auto. Qed.

Lemma preserves_new_nodeList_node lambda sv i orig :
  preserves (keeps lambda sv) (new_nodeList_node i orig).
Proof. unfold new_nodeList_node. preserves_auto. Qed.

Lemma preserves_copyArcNew lambda sv oldNodes nm old new :
  preserves (keeps lambda sv) (copyArcNew oldNodes nm old new).
Proof. unfold copyArcNew. preserves_auto. Qed.

Lemma preserves_copyArcAdd lambda sv old new :
  preserves (keeps lambda sv) (copyArcAdd old new).
Proof. unfold copyArcAdd. preserves_auto. Qed.

Lemma preserves_evaluateCapacities lambda sv g :
  preserves (keeps lambda sv) (evaluateCapacities g).
Proof. unfold evaluateCapacities. preserves_auto. Qed.

Lemma preserves_set_nodeMap_at (I : Frame -> Prop) i v :
  (forall nm f, I f -> I (set_nodeMap nm f)) -> preserves I (set_nodeMap_at i v).
Proof.
  intros H. unfold set_nodeMap_at. preserves_auto.
  apply preserves_modify. auto.
Qed.

Ltac preserves_frame :=
  repeat first
    [ apply preserves_new_sourceSet_node
    | apply preserves_new_sinkSet_node
    | apply preserves_new_nodeList_node
    | apply preserves_copyArcNew
    | apply preserves_copyArcAdd
    | apply preserves_evaluateCapacities
    | apply preserves_set_nodeMap_at; intros ? ? ?; assumption
    | preserves_step
    | lazymatch goal with
      | |- preserves _ (modify _) =>
          apply preserves_modify; let s := fresh in let H := fresh in
          intros s H; exact H
      | |- preserves (fun f => ?J (problem f)) (onProblem _) =>
          apply (preserves_onProblem J)
      end ].

Lemma initializeProblem_keeps g nl n al m lambda p :
  initializeProblem g nl n al m lambda = Ok p -> keeps lambda 0 p.
Proof.
  unfold initializeProblem. intros H.
  match type of H with
  | match ?run ?f0 with _ => _ end = _ =>
      destruct (run f0) as [[[] f]|e] eqn:Hrun; [|done];
      assert (preserves (fun f => keeps lambda 0 (problem f)) run) as Hp
  end.
  { preserves_frame. }
  injection H as <-. eapply Hp; [|exact Hrun]. done.
Qed.

Lemma contractProblem_keeps g old lambda low high p :
  contractProblem g old lambda low high = Ok p -> keeps lambda 0 p.
Proof.
  unfold contractProblem. intros H.
  match type of H with
  | match ?run ?f0 with _ => _ end = _ =>
      destruct (run f0) as [[[] f]|e] eqn:Hrun; [|done];
      assert (preserves (fun f => keeps lambda 0 (problem f)) run) as Hp
  end.
  { unfold contractProblem_sizes, contractProblem_size, contractProblem_nodes,
      contractProblem_copy_sets, contractProblem_place, contractProblem_arcs,
      newIndexFrom_of, newIndexTo_of.
    preserves_frame. }
  injection H as <-. eapply Hp; [|exact Hrun]. done.
Qed.

Lemma preserves_inEngine_driver {A} d (m : M Engine A) :
  preserves (fun g => driver_part g = d) (inEngine m).
Proof. by apply preserves_inEngine. Qed.

Lemma solveProblem_start_driver d p m :
  preserves (fun g => driver_part g = d) (solveProblem_start p m).
Proof.
  unfold solveProblem_start.
  repeat first [apply preserves_inEngine_driver | preserves_step].
Qed.

Lemma solveProblem_driver d fuel p m :
  preserves (fun g => driver_part g = d) (solveProblem fuel p m).
Proof.
  unfold solveProblem.
  repeat first
    [apply preserves_inEngine_driver | apply solveProblem_start_driver | preserves_step].
Qed.

Lemma preserves_evaluateCut lambda sv : preserves (keeps lambda sv) evaluateCut.
Proof.
  unfold evaluateCut, add_to_cut, originalIndexFrom_of, originalIndexTo_of. preserves_auto.
Qed.

Lemma preserves_solveProblem_empty lambda sv n :
  preserves (keeps lambda sv) (solveProblem_empty n).
Proof.
  unfold solveProblem_empty, originalIndexFrom_of, originalIndexTo_of. preserves_auto.
Qed.

Lemma solveProblem_keeps fuel p m g p' g' :
  solveProblem fuel p m g = Ok (p', g') -> keeps (p_lambdaValue p) (solved p) p'.
Proof.
  unfold solveProblem. intros H. inv_run.
  match goal with H : (if ?b then _ else _) _ = Ok _ |- _ => destruct b end; inv_run.
  - match goal with H : solveProblem_empty _ _ = Ok _ |- _ =>
      eapply preserves_solveProblem_empty; [|exact H] end.
    done.
  - match goal with H : evaluateCut _ = Ok (_, ?q) |- _ =>
      assert (keeps (p_lambdaValue p) (solved p) q) as [Hk1 Hk2]
        by (eapply preserves_evaluateCut; [|exact H]; by destruct (m =? 1)) end.
    done.
Qed.

(** ** Lists of lambda values *)

Lemma occ_app x l1 l2 : occ x (l1 ++ l2) = (occ x l1 + occ x l2)%nat.
Proof. induction l1 as [|y l1 IH]; simpl; [done | rewrite IH; lia]. Qed.

Lemma occ_zero x l : Forall (fun y => ~ (x == y)%Q) l -> occ x l = 0%nat.
Proof.
  induction 1 as [|y l Hy _ IH]; simpl; [done|].
  apply deq_false in Hy. by rewrite Hy, IH.
Qed.

Lemma occ_le_length x l : (occ x l <= length l)%nat.
Proof. induction l as [|y l IH]; simpl; [done | destruct (deq x y); lia]. Qed.

Lemma nondecreasing_app l1 l2 :
  nondecreasing l1 -> nondecreasing l2 ->
  (forall x y, x ∈ l1 -> y ∈ l2 -> (x <= y)%Q) ->
  nondecreasing (l1 ++ l2).
Proof.
  intros H1 H2 H. induction l1 as [|x l1 IH]; [done|].
  destruct l1 as [|x' l1].
  - simpl. destruct l2 as [|y l2]; [done|]. split; [|done].
    apply H; constructor.
  - simpl in *. destruct H1 as [Hx H1]. split; [done|]. apply IH; [done|].
    intros a b Ha Hb. apply H; [by constructor | done].
Qed.

Lemma interval_list_nil a b : interval_list a b [].
Proof. repeat split; simpl; try lia. constructor. Qed.

Lemma interval_list_single a b x :
  (a <= x)%Q -> (x <= b)%Q -> interval_list a b [x].
Proof.
  intros Ha Hb. repeat split; simpl; try (by destruct (deq _ _); lia).
  - constructor; [done | constructor].
  - intros y. destruct (deq _ _); lia.
Qed.

Lemma interval_list_app a m b l1 l2 :
  (a < m)%Q -> (m < b)%Q ->
  interval_list a m l1 -> interval_list m b l2 -> interval_list a b (l1 ++ l2).
Proof.
  intros Ham Hmb (W1 & N1 & A1 & M1 & T1) (W2 & N2 & M2 & B2 & T2).
  unfold within in *. rewrite Forall_forall in W1, W2.
  assert (forall x, (x < m)%Q -> occ x l2 = 0%nat) as Hlow.
  { intros x Hx. apply occ_zero, Forall_forall. intros y Hy E.
    destruct (W2 y Hy). lra. }
  assert (forall x, (m < x)%Q -> occ x l1 = 0%nat) as Hhigh.
  { intros x Hx. apply occ_zero, Forall_forall. intros y Hy E.
    destruct (W1 y Hy). lra. }
  split; [|split; [|split; [|split]]].
  - apply Forall_app. split; apply Forall_forall; intros x Hx.
    + destruct (W1 x Hx). split; lra.
    + destruct (W2 x Hx). split; lra.
  - apply nondecreasing_app; [done..|].
    intros x y Hx Hy. destruct (W1 x Hx), (W2 y Hy). lra.
  - rewrite occ_app, (Hlow a) by done. lia.
  - rewrite occ_app, (Hhigh b) by done. lia.
  - intros x. rewrite occ_app.
    destruct (Qlt_le_dec x m) as [Hx|Hx]; [rewrite (Hlow x Hx); specialize (T1 x); lia|].
    destruct (Qlt_le_dec m x) as [Hx'|Hx']; [rewrite (Hhigh x Hx'); specialize (T2 x); lia|].
    assert (x == m)%Q as E by lra.
    assert (occ x l1 = occ m l1) as ->.
    { clear -E. induction l1 as [|y l1 IH]; simpl; [done|]. rewrite IH. f_equal.
      destruct (deq x y) eqn:E1, (deq m y) eqn:E2; try done.
      - apply deq_true in E1. apply deq_false in E2. rewrite E in E1. done.
      - apply deq_false in E1. apply deq_true in E2. rewrite E in E1. done. }
    assert (occ x l2 = occ m l2) as ->.
    { clear -E. induction l2 as [|y l2 IH]; simpl; [done|]. rewrite IH. f_equal.
      destruct (deq x y) eqn:E1, (deq m y) eqn:E2; try done.
      - apply deq_true in E1. apply deq_false in E2. rewrite E in E1. done.
      - apply deq_false in E1. apply deq_true in E2. rewrite E in E1. done. }
    lia.
Qed.

(** ** The recursion of the parametric driver *)

Lemma addBreakpoint_Ok site lambda ind g u g' :
  addBreakpoint site lambda ind g = Ok (u, g') ->
  exists copy,
    copy_cells (Z.to_nat (numNodesSuper g)) 0 ind = Ok copy
    /\ breakpoints g' = breakpoints g ++ [mkBreakpoint lambda copy]
    /\ emitted g' = emitted g ++ [site]
    /\ TOL g' = TOL g /\ numNodesSuper g' = numNodesSuper g.
Proof.
  unfold addBreakpoint. intros H. inv_run. eauto 10.
Qed.

Lemma intersect_branch_RecurseAt tol low high l :
  intersect_branch tol low high = RecurseAt l ->
  (l + tol < p_lambdaValue high)%Q /\ (p_lambdaValue low < l - tol)%Q.
Proof.
  unfold intersect_branch, dgt.
  destruct (dlt tol _); simpl; [|done].
  set (l0 := ddiv _ _).
  destruct (dlt (dadd l0 tol) _) eqn:E1; simpl.
  - destruct (dlt _ (dsub l0 tol)) eqn:E2; simpl.
    + intros [= <-]. apply dlt_true in E1, E2.
      rewrite dadd_eq in E1. rewrite dsub_eq in E2. done.
    + by repeat destruct (dle _ _).
  - by repeat destruct (dle _ _).
Qed.

Lemma parametricCut_interval_post rec low high g low' high' g' :
  (forall l h g0 l' h' g0',
     rec l h g0 = Ok ((l', h'), g0') -> parametricCut_post l h g0 l' h' g0') ->
  solved low <> 0 -> solved high <> 0 ->
  parametricCut_interval rec low high g = Ok ((low', high'), g') ->
  exists added sites,
    breakpoints g' = breakpoints g ++ added
    /\ emitted g' = emitted g ++ sites
    /\ Forall (fun s => s <> AtBaseLevel) sites
    /\ length sites = length added
    /\ TOL g' = TOL g /\ numNodesSuper g' = numNodesSuper g
    /\ p_lambdaValue low' = p_lambdaValue low
    /\ p_lambdaValue high' = p_lambdaValue high
    /\ solved low' <> 0 /\ solved high' <> 0
    /\ ((0 <= TOL g)%Q -> (p_lambdaValue low < p_lambdaValue high)%Q ->
        interval_list (p_lambdaValue low) (p_lambdaValue high) (lambdas added)).
Proof.
  intros Hrec Hlow Hhigh H. unfold parametricCut_interval in H.
  rewrite bind_gets in H.
  destruct (intersect_branch (TOL g) low high) as [l| | |] eqn:Hb.
  - (* the two recursive calls *)
    apply intersect_branch_RecurseAt in Hb as [Hb1 Hb2].
    inv_run.
    repeat match goal with
    | H : contractProblem _ _ _ _ _ = Ok _ |- _ => apply contractProblem_keeps in H as [? ?]
    end.
    match goal with H : rec low _ _ = Ok _ |- _ =>
      apply Hrec in H;
      destruct H as (added1 & sites1 & term1 & Hbp1 & Hem1 & Hterm1 & Hs1 & Hlen1
                     & HT1 & HN1 & Hl1 & Hh1 & Hsl1 & Hsh1 & Hint1)
    end.
    match goal with H : rec _ high _ = Ok _ |- _ =>
      apply Hrec in H;
      destruct H as (added2 & sites2 & term2 & Hbp2 & Hem2 & Hterm2 & Hs2 & Hlen2
                     & HT2 & HN2 & Hl2 & Hh2 & Hsl2 & Hsh2 & Hint2)
    end.
    unfold both_unsolved, terminal_breakpoint in *.
    apply Z.eqb_neq in Hlow as Hlow'. rewrite Hlow' in *. simpl in *.
    apply Z.eqb_neq in Hhigh as Hhigh'. rewrite Hhigh' in *.
    rewrite andb_false_r in *. subst.
    rewrite !app_nil_r in *.
    exists (added1 ++ added2), (sites1 ++ sites2).
    split; [by rewrite Hbp2, Hbp1, app_assoc|].
    split; [by rewrite Hem2, Hem1, app_assoc|].
    split; [by apply Forall_app|].
    split; [by rewrite !length_app, Hlen1, Hlen2|].
    split; [congruence|]. split; [congruence|].
    split; [done|]. split; [done|]. split; [done|]. split; [done|].
    intros Htol Hlt. unfold lambdas. rewrite map_app.
    match goal with
    | H1 : (p_lambdaValue low < ?m - _)%Q, H2 : p_lambdaValue ?q = ?m,
      Hi : _ -> (p_lambdaValue ?q < p_lambdaValue high)%Q -> _ |- _ =>
        rewrite H2 in Hi; apply (interval_list_app _ m)
    end.
    + lra.
    + lra.
    + apply Hint1; [done | lra].
    + apply Hint2; [rewrite HT1; done | lra].
  - (* lambda intersect is equal to upper bound *)
    inv_run.
    match goal with H : addBreakpoint _ _ _ _ = Ok _ |- _ =>
      apply addBreakpoint_Ok in H as (copy & _ & Hbp & Hem & HT & HN) end.
    exists [mkBreakpoint (p_lambdaValue high) copy], [AtHighCoincides].
    split_and!; try done.
    + by repeat constructor.
    + intros _ Hlt. apply interval_list_single; simpl; lra.
  - (* lambda intersect is equal to lower bound *)
    inv_run.
    match goal with H : addBreakpoint _ _ _ _ = Ok _ |- _ =>
      apply addBreakpoint_Ok in H as (copy & _ & Hbp & Hem & HT & HN) end.
    exists [mkBreakpoint (p_lambdaValue low) copy], [AtLowCoincides].
    split_and!; try done.
    + by repeat constructor.
    + intros _ Hlt. apply interval_list_single; simpl; lra.
  - inv_run. exists [], []. rewrite !app_nil_r.
    split_and!; try done. intros _ _. apply interval_list_nil.
Qed.

Lemma solve_if_needed fuel p m g p1 g1 :
  (if solved p =? 0
   then q <- solveProblem fuel p m ;; ret (set_solved 1 q)
   else ret p) g = Ok (p1, g1) ->
  driver_part g1 = driver_part g
  /\ p_lambdaValue p1 = p_lambdaValue p
  /\ solved p1 <> 0.
Proof.
  destruct (solved p =? 0) eqn:E; intros H; inv_run.
  - match goal with H : solveProblem _ _ _ _ = Ok _ |- _ =>
      pose proof (solveProblem_keeps _ _ _ _ _ _ H) as [Hk _];
      pose proof (solveProblem_driver (driver_part g) _ _ _ _ _ _ eq_refl H) as Hd
    end.
    done.
  - apply Z.eqb_neq in E. done.
Qed.

Lemma parametricCut_spec fuel low high g low' high' g' :
  parametricCut fuel low high g = Ok ((low', high'), g') ->
  parametricCut_post low high g low' high' g'.
Proof.
  revert low high g low' high' g'.
  induction fuel as [|fuel IH]; intros low high g low' high' g' H; [done|].
  simpl in H. inv_run.
  repeat match goal with
  | H : (if solved _ =? 0 then _ else _) _ = Ok _ |- _ =>
      apply solve_if_needed in H as (?Hd & ?Hl & ?Hs)
  end.
  match goal with H : parametricCut_interval _ _ _ _ = Ok _ |- _ =>
    apply (parametricCut_interval_post _ _ _ _ _ _ _ IH) in H;
      [|done..];
    destruct H as (added & sites & Hbp & Hem & Hsites & Hlen & HT & HN
                   & Hl1 & Hh1 & Hsl & Hsh & Hint)
  end.
  unfold driver_part in *.
  repeat match goal with H : (_, _) = (_, _) |- _ => injection H as ? ? end.
  fold (both_unsolved low high) in *.
  destruct (both_unsolved low high) eqn:Hbase; simpl in *; inv_run.
  - match goal with H : addBreakpoint _ _ _ _ = Ok _ |- _ =>
      apply addBreakpoint_Ok in H as (copy & Hcopy & Hbp' & Hem' & HT' & HN') end.
    match goal with |- parametricCut_post _ _ _ _ ?h _ =>
      exists added, sites, [mkBreakpoint (p_lambdaValue h) copy] end.
    rewrite Hbase. split_and!; try congruence.
    + rewrite Hbp', Hbp, <- app_assoc. congruence.
    + rewrite Hem', Hem, <- app_assoc. congruence.
    + exists copy. split; [|done]. rewrite <- Hcopy. do 2 f_equal. congruence.
    + intros Htol Hlt. rewrite <- Hl0, <- Hl. apply Hint; [|congruence].
      replace (TOL _) with (TOL g) by congruence. done.
  - exists added, sites, []. rewrite Hbase, !app_nil_r. split_and!; try congruence.
    intros Htol Hlt. rewrite <- Hl0, <- Hl. apply Hint; [|congruence].
      replace (TOL _) with (TOL g) by congruence. done.
Qed.

(** ** The run of [hpf_solve] *)

Lemma readGraphSuper_post arcMatrix g g' :
  readGraphSuper arcMatrix g = Ok (tt, g') ->
  useParametricCut g = 1 ->
  TOL g' = TOL g /\ LAMBDA_LOW g' = LAMBDA_LOW g /\ LAMBDA_HIGH g' = LAMBDA_HIGH g
  /\ breakpoints g' = breakpoints g /\ emitted g' = emitted g
  /\ numNodesSuper g' = numNodesSuper g
  /\ useParametricCut g' = (if deq (LAMBDA_LOW g) (LAMBDA_HIGH g) then 0 else 1).
Proof.
  intros H Hu.
  assert (preserves (fun s => (TOL s, LAMBDA_LOW s, LAMBDA_HIGH s, breakpoints s, emitted s,
                               numNodesSuper s)
                              = (TOL g, LAMBDA_LOW g, LAMBDA_HIGH g, breakpoints g, emitted g,
                                 numNodesSuper g)) (readGraphSuper arcMatrix)) as Hp.
  { unfold readGraphSuper. preserves_auto. }
  specialize (Hp _ _ _ eq_refl H). injection Hp as -> -> -> -> -> ->.
  split_and!; try done.
  unfold readGraphSuper in H. inv_run.
  repeat match goal with
  | H : for_range _ _ _ ?s = Ok (_, ?s') |- _ =>
      assert ((LAMBDA_LOW s', LAMBDA_HIGH s', useParametricCut s')
              = (LAMBDA_LOW s, LAMBDA_HIGH s, useParametricCut s))
        by (eapply (preserves_for_range
                      (fun x => (LAMBDA_LOW x, LAMBDA_HIGH x, useParametricCut x) = _));
            [|reflexivity|exact H]; intros; preserves_auto);
      clear H
  end.
  repeat match goal with H : (_, _) = (_, _) |- _ => injection H as ? ? ? end.
  simpl in *.
  match goal with H : (if deq (LAMBDA_LOW ?s) (LAMBDA_HIGH ?s) then _ else _) _ = Ok _ |- _ =>
    replace (LAMBDA_LOW g) with (LAMBDA_LOW s) by congruence;
    replace (LAMBDA_HIGH g) with (LAMBDA_HIGH s) by congruence;
    destruct (deq (LAMBDA_LOW s) (LAMBDA_HIGH s)) eqn:E
  end; inv_run; simpl in *; congruence.
Qed.

Lemma hpf_solve_read_post n m s t arcMatrix range rnd g g' :
  hpf_solve_read n m s t arcMatrix range rnd g = Ok (tt, g') ->
  TOL g' = TOL_1Em8 /\ LAMBDA_LOW g' = fst range /\ LAMBDA_HIGH g' = snd range
  /\ breakpoints g' = [] /\ emitted g' = []
  /\ numNodesSuper g' = u32 n
  /\ useParametricCut g' = (if deq (fst range) (snd range) then 0 else 1).
Proof.
  unfold hpf_solve_read. intros H. inv_run.
  match goal with H : readGraphSuper _ _ = Ok (?u, _) |- _ =>
    destruct u; apply readGraphSuper_post in H; [|done] end.
  simpl in *. done.
Qed.

Lemma initializeParametricCut_post high0 g low high g' :
  initializeParametricCut high0 g = Ok ((low, high), g') ->
  g' = g /\ keeps (LAMBDA_LOW g) 0 low
  /\ (useParametricCut g = 1 -> keeps (LAMBDA_HIGH g) 0 high).
Proof.
  unfold initializeParametricCut. intros H. inv_run.
  match goal with H : initializeProblem _ _ _ _ _ (LAMBDA_LOW _) = Ok _ |- _ =>
    apply initializeProblem_keeps in H end.
  destruct (useParametricCut g =? 1) eqn:E; inv_run.
  - match goal with H : initializeProblem _ _ _ _ _ (LAMBDA_HIGH _) = Ok _ |- _ =>
      apply initializeProblem_keeps in H end.
    done.
  - apply Z.eqb_neq in E. done.
Qed.

Lemma prepareOutput_post g out g' :
  prepareOutput g = Ok (out, g') ->
  g' = g
  /\ out_breakpoints out = lambdas (breakpoints g)
  /\ out_numBreakpoints out = Z.of_nat (length (breakpoints g)).
Proof. unfold prepareOutput. intros H. inv_run. done. Qed.

Lemma freeMemoryComplete_post g u g' :
  freeMemoryComplete g = Ok (u, g') -> emitted g' = emitted g.
Proof. unfold freeMemoryComplete. intros H. inv_run. done. Qed.

(** The breakpoint list and the record of the run when the solve of
    [hpf_solve] returns, in its two cases. *)
Lemma hpf_solve_breakpoints_post fuel low high g u g' :
  hpf_solve_breakpoints fuel low high g = Ok (u, g') ->
  breakpoints g = [] -> emitted g = [] ->
  (useParametricCut g = 1 /\
   exists low' high' g1 added sites term first rest,
     parametricCut fuel low high g = Ok ((low', high'), g1)
     /\ breakpoints g1 = added ++ term
     /\ emitted g1 = sites ++ (if both_unsolved low high then [AtBaseLevel] else [])
     /\ terminal_breakpoint (both_unsolved low high) (numNodesSuper g) high' term
     /\ Forall (fun s => s <> AtBaseLevel) sites
     /\ p_lambdaValue high' = p_lambdaValue high
     /\ ((0 <= TOL g)%Q -> (p_lambdaValue low < p_lambdaValue high)%Q ->
         interval_list (p_lambdaValue low) (p_lambdaValue high) (lambdas added))
     /\ breakpoints g1 = first :: rest
     /\ breakpoints g' = removeDuplicateBreakpoints_loop first rest
     /\ emitted g' = emitted g1)
  \/ (useParametricCut g <> 1 /\
      exists copy, breakpoints g' = [mkBreakpoint (p_lambdaValue low) copy]
                   /\ emitted g' = [AtSingleLambda]).
Proof.
  unfold hpf_solve_breakpoints. rewrite bind_gets. intros H Hb He.
  destruct (useParametricCut g =? 1) eqn:E.
  - left. apply Z.eqb_eq in E. split; [done|]. inv_run.
    match goal with H : parametricCut _ _ _ _ = Ok (?x, _) |- _ =>
      destruct x as [low' high'] end.
    match goal with H : parametricCut _ _ _ _ = Ok _ |- _ =>
      pose proof (parametricCut_spec _ _ _ _ _ _ _ H)
        as (added & sites & term & Hbp & Hem & Hterm & Hs & _ & _ & _ & _ & Hh & _ & _ & Hint)
    end.
    rewrite Hb in Hbp. rewrite He in Hem. simpl in Hbp, Hem.
    unfold removeDuplicateBreakpoints in *. rewrite bind_gets in *.
    match goal with H : match breakpoints ?g1 with _ => _ end _ = Ok _ |- _ =>
      destruct (breakpoints g1) as [|first rest] eqn:Hl; [done|]; inv_run end.
    eexists _, _, _, added, sites, term, first, rest. split; [eassumption|].
    split_and!; try done; congruence.
  - right. apply Z.eqb_neq in E. split; [done|]. inv_run.
    match goal with H : solveProblem _ _ _ _ = Ok _ |- _ =>
      pose proof (solveProblem_keeps _ _ _ _ _ _ H) as [Hk _];
      pose proof (solveProblem_driver (driver_part g) _ _ _ _ _ _ eq_refl H) as Hd
    end.
    match goal with H : addBreakpoint _ _ _ _ = Ok _ |- _ =>
      apply addBreakpoint_Ok in H as (copy & _ & Hbp & Hem & _) end.
    unfold driver_part in Hd. injection Hd as _ _ _ _ _ Hb' He' _ _ _ _.
    exists copy. rewrite Hbp, Hem, Hb', He', Hb, He, Hk. done.
Qed.

Lemma nondecreasing_skip x y l : nondecreasing (x :: y :: l) -> nondecreasing (x :: l).
Proof.
  simpl. intros [Hxy H]. destruct l as [|z l]; [done|].
  destruct H as [Hyz H]. split; [lra | done].
Qed.

Lemma collapse_runs_increasing current rest :
  nondecreasing (lambdas (current :: rest)) ->
  increasing (lambdas (collapse_runs current rest)).
Proof.
  revert current. induction rest as [|b rest IH]; intros current H; [done|].
  simpl. destruct (deq _ _) eqn:E.
  - apply IH. by apply nondecreasing_skip in H.
  - simpl in H. destruct H as [Hle H]. specialize (IH b H).
    destruct (collapse_runs_head b rest) as [tl Htl]. rewrite Htl in *.
    simpl. split; [|done]. apply deq_false in E. lra.
Qed.

Lemma collapse_runs_subset current rest x :
  x ∈ collapse_runs current rest -> x ∈ current :: rest.
Proof.
  revert current. induction rest as [|b rest IH]; intros current; simpl; [done|].
  destruct (deq _ _).
  - intros H. apply IH in H. apply elem_of_cons in H as [->|H]; [left | by do 2 right].
  - intros H. apply elem_of_cons in H as [->|H]; [left | right; by apply IH].
Qed.

Lemma collapse_runs_within a b current rest :
  within a b (lambdas (current :: rest)) ->
  within a b (lambdas (collapse_runs current rest)).
Proof.
  unfold within, lambdas. rewrite !Forall_forall. intros H x Hx.
  apply list_elem_of_fmap in Hx as (bp & -> & Hbp).
  apply H. apply list_elem_of_fmap. exists bp. split; [done|].
  by apply collapse_runs_subset.
Qed.

Lemma collapse_runs_last current l t :
  exists init x,
    collapse_runs current (l ++ [t]) = init ++ [x]
    /\ (lambdaValue x == lambdaValue t)%Q.
Proof.
  revert current. induction l as [|b l IH]; intros current; simpl.
  - destruct (deq _ _) eqn:E.
    + exists [], current. split; [done | by apply deq_true].
    + exists [current], t. done.
  - destruct (deq _ _).
    + apply IH.
    + destruct (IH b) as (init & x & -> & Hx). exists (current :: init), x. done.
Qed.

Lemma occ_proper x y l : (x == y)%Q -> occ x l = occ y l.
Proof.
  intros E. induction l as [|z l IH]; simpl; [done|]. rewrite IH. f_equal.
  destruct (deq x z) eqn:E1, (deq y z) eqn:E2; try done.
  - apply deq_true in E1. apply deq_false in E2. rewrite E in E1. done.
  - apply deq_false in E1. apply deq_true in E2. rewrite E in E1. done.
Qed.

Lemma no_three_equal_of_occ l :
  (forall x, (occ x (lambdas l) <= 2)%nat) -> no_three_equal l.
Proof.
  induction l as [|a l IH]; intros H; [done|].
  destruct l as [|b [|c l]]; try done.
  split.
  - intros [Hab Hbc]. specialize (H (lambdaValue a)). simpl in H.
    assert (deq (lambdaValue a) (lambdaValue a) = true) as E1 by (by apply deq_true).
    assert (deq (lambdaValue a) (lambdaValue b) = true) as E2 by (by apply deq_true).
    assert (deq (lambdaValue a) (lambdaValue c) = true) as E3
      by (apply deq_true; by rewrite Hab).
    rewrite E1, E2, E3 in H. lia.
  - apply IH. intros x. specialize (H x). simpl in *. destruct (deq x (lambdaValue a)); lia.
Qed.

Lemma lambdas_app l1 l2 : lambdas (l1 ++ l2) = lambdas l1 ++ lambdas l2.
Proof. apply map_app. Qed.

(** The breakpoint list of a parametric run, before and after the pass. *)
Lemma parametric_list_sorted lo hi added t first rest :
  (lo < hi)%Q ->
  interval_list lo hi (lambdas added) ->
  (lambdaValue t == hi)%Q ->
  added ++ [t] = first :: rest ->
  no_three_equal (first :: rest)
  /\ increasing (lambdas (collapse_runs first rest))
  /\ within lo hi (lambdas (collapse_runs first rest))
  /\ exists init x, collapse_runs first rest = init ++ [x] /\ (lambdaValue x == hi)%Q.
Proof.
  intros Hlt (W & N & _ & B & T) Ht Hl.
  assert (within lo hi (lambdas (added ++ [t]))) as W'.
  { rewrite lambdas_app. apply Forall_app. split; [done|].
    repeat constructor; simpl; lra. }
  assert (nondecreasing (lambdas (added ++ [t]))) as N'.
  { rewrite lambdas_app. apply nondecreasing_app; [done..|].
    intros x y Hx Hy. apply list_elem_of_singleton in Hy as ->.
    unfold within in W. rewrite Forall_forall in W. destruct (W x Hx). simpl. lra. }
  assert (forall x, (occ x (lambdas (added ++ [t])) <= 2)%nat) as T'.
  { intros x. rewrite lambdas_app, occ_app. simpl.
    destruct (deq x (lambdaValue t)) eqn:E; [|specialize (T x); lia].
    apply deq_true in E. rewrite (occ_proper x hi) by (by rewrite E). lia. }
  rewrite Hl in *.
  split; [by apply no_three_equal_of_occ|].
  split; [by apply collapse_runs_increasing|].
  split; [by apply collapse_runs_within|].
  destruct added as [|a added]; simpl in Hl; injection Hl as <- <-.
  - exists [], t. done.
  - destruct (collapse_runs_last a added t) as (init & x & -> & Hx).
    exists init, x. split; [done|]. by rewrite Hx.
Qed.

Lemma hpf_solve_Ok fuel n m s t arcMatrix range rnd out g :
  hpf_solve fuel n m s t arcMatrix range rnd = Ok (out, g) ->
  exists g1 low high g2,
    hpf_solve_read n m s t arcMatrix range rnd reset_globals = Ok (tt, g1)
    /\ initializeParametricCut CutProblem_uninit g1 = Ok ((low, high), g1)
    /\ hpf_solve_breakpoints fuel low high g1 = Ok (tt, g2)
    /\ out_breakpoints out = lambdas (breakpoints g2)
    /\ out_numBreakpoints out = Z.of_nat (length (breakpoints g2))
    /\ emitted g = emitted g2.
Proof.
  unfold hpf_solve. intros H. inv_run.
  repeat match goal with u : unit |- _ => destruct u end.
  match goal with H : initializeParametricCut _ _ = Ok _ |- _ =>
    pose proof (initializeParametricCut_post _ _ _ _ _ H) as (-> & _) end.
  match goal with H : prepareOutput _ = Ok _ |- _ =>
    apply prepareOutput_post in H as (-> & ? & ?) end.
  match goal with H : freeMemoryComplete _ = Ok _ |- _ =>
    apply freeMemoryComplete_post in H end.
  eauto 12.
Qed.

(** The state of [hpf_solve] when its solve returns: the cases of the
    parametric run and of the single lambda value. *)
Lemma hpf_solve_lists fuel n m s t arcMatrix lo hi rnd out g :
  hpf_solve fuel n m s t arcMatrix (lo, hi) rnd = Ok (out, g) ->
  (~ (lo == hi)%Q /\
   exists added sites copy first rest,
     added ++ [mkBreakpoint hi copy] = first :: rest
     /\ ((lo < hi)%Q -> interval_list lo hi (lambdas added))
     /\ out_breakpoints out = lambdas (removeDuplicateBreakpoints_loop first rest)
     /\ out_numBreakpoints out
        = Z.of_nat (length (removeDuplicateBreakpoints_loop first rest))
     /\ emitted g = sites ++ [AtBaseLevel]
     /\ Forall (fun s => s <> AtBaseLevel) sites)
  \/ ((lo == hi)%Q /\ out_breakpoints out = [lo] /\ out_numBreakpoints out = 1
      /\ emitted g = [AtSingleLambda]).
Proof.
  intros H. apply hpf_solve_Ok in H as (g1 & low & high & g2 & Hread & Hinit & Hrun
                                        & Hout & Hnum & Hem).
  apply hpf_solve_read_post in Hread as (HT & Hlo & Hhi & Hb & He & HN & Hu).
  apply initializeParametricCut_post in Hinit as (_ & [Hl1 Hl2] & Hhigh).
  simpl in *.
  apply hpf_solve_breakpoints_post in Hrun; [|done..].
  destruct Hrun as [(Hu1 & low' & high' & g3 & added & sites & term & first & rest
                     & _ & Hbp & Hem3 & Hterm & Hs & Hh' & Hint & Hl & Hbp2 & Hem2)
                   |(Hu0 & copy & Hbp & Hem2)].
  - left. rewrite Hu1 in Hu. destruct (deq lo hi) eqn:E; [done|]. apply deq_false in E.
    split; [done|].
    destruct (Hhigh Hu1) as [Hh1 Hh2].
    unfold both_unsolved, terminal_breakpoint in *. rewrite Hl2, Hh2 in *. simpl in *.
    destruct Hterm as (copy & _ & ->).
    exists added, sites, copy, first, rest.
    rewrite Hout, Hnum, Hem, Hem2, Hem3, Hbp2.
    split_and!; try done.
    + rewrite <- Hl, Hbp. do 3 f_equal. congruence.
    + intros Hlt. rewrite <- Hlo, <- Hhi, <- Hl1, <- Hh1. apply Hint.
      * rewrite HT. done.
      * rewrite Hl1, Hh1, Hlo, Hhi. done.
  - right. destruct (deq lo hi) eqn:E; [|done]. apply deq_true in E.
    rewrite Hout, Hnum, Hem, Hem2, Hbp. simpl. rewrite Hl1, Hlo. done.
Qed.



(** C10: whenever [hpf_solve] returns, at least one breakpoint was appended
    during the run and the returned number of breakpoints is at least 1; and
    whenever the outermost call of [parametricCut] returns, the breakpoint
    list that [removeDuplicateBreakpoints] is then run on has a first record,
    so that the pass goes through and leaves a list with a first record. *)
Theorem hpf_solve_at_least_one_breakpoint fuel n m s t arcMatrix range rnd :
  (forall out g,
     hpf_solve fuel n m s t arcMatrix range rnd = Ok (out, g) ->
     1 <= out_numBreakpoints out
     /\ out_numBreakpoints out = Z.of_nat (length (out_breakpoints out))
     /\ emitted g <> [])
  /\ (forall g1 low high r g2,
        hpf_solve_read n m s t arcMatrix range rnd reset_globals = Ok (tt, g1) ->
        initializeParametricCut CutProblem_uninit g1 = Ok ((low, high), g1) ->
        useParametricCut g1 = 1 ->
        parametricCut fuel low high g1 = Ok (r, g2) ->
        breakpoints g2 <> []
        /\ exists g3, removeDuplicateBreakpoints g2 = Ok (tt, g3) /\ breakpoints g3 <> []).
Proof.
  split.
  - intros out g H. destruct range as [lo hi].
    apply hpf_solve_lists in H
      as [(_ & added & sites & copy & first & rest & _ & _ & Hout & Hnum & Hem & _)
         |(_ & Hout & Hnum & Hem)].
    + rewrite Hout, Hnum, Hem. unfold lambdas. rewrite length_map.
      destruct (removeDuplicateBreakpoints_loop_head first rest) as [tl ->].
      split_and!; [simpl; lia | done | by destruct sites].
    + rewrite Hout, Hnum, Hem. done.
  - intros g1 low high [low' high'] g2 Hread Hinit Hu H.
    apply initializeParametricCut_post in Hinit as (_ & [_ Hl] & Hhigh).
    destruct (Hhigh Hu) as [_ Hh].
    apply parametricCut_spec in H as (added & sites & term & Hbp & _ & Hterm & _).
    unfold both_unsolved, terminal_breakpoint in Hterm. rewrite Hl, Hh in Hterm.
    destruct Hterm as (copy & _ & ->).
    assert (breakpoints g2 <> []) as Hne.
    { rewrite Hbp. intros E. apply app_eq_nil in E as [_ E]. by apply app_eq_nil in E as [_ E]. }
    split; [done|].
    unfold removeDuplicateBreakpoints. rewrite bind_gets.
    destruct (breakpoints g2) as [|first rest]; [done|].
    eexists. split; [reflexivity|]. simpl.
    by destruct (removeDuplicateBreakpoints_loop_head first rest) as [tl ->].
Qed.

(** ** The arc checks of [readData] *)


Lemma awrite_Ok {A} (a : list A) (i : Z) (x : A) :
  0 <= i < Z.of_nat (length a) -> awrite a i x = Ok (<[Z.to_nat i := x]> a).
Proof.
  intros H. unfold awrite.
  replace (i <? 0) with false by lia.
  by replace (i <? Z.of_nat (length a)) with true by lia.
Qed.


(** ** The contraction of a problem *)

(** A loop that ends well, followed iteration by iteration. *)
Lemma for_loop_ind {St} (P : nat -> St -> Prop) n i (body : Z -> M St unit) s u s' :
  for_loop n i body s = Ok (u, s') ->
  P 0%nat s ->
  (forall k s1 u1 s2, (k < n)%nat -> P k s1 ->
     body (i + Z.of_nat k) s1 = Ok (u1, s2) -> P (S k) s2) ->
  P n s'.
Proof.
  revert P i s. induction n as [|n IH]; intros P i s H H0 Hstep; simpl in H.
  - by apply ret_Ok in H as [_ ->].
  - apply bind_Ok in H as (u1 & s1 & H1 & H2).
    apply (IH (fun k => P (S k)) (i + 1) s1 H2).
    + apply (Hstep 0%nat s u1); [lia | done |]. by rewrite Z.add_0_r.
    + intros k sa ua sb Hk HP Hb. apply (Hstep (S k) sa ua); [lia | done |].
      by replace (i + Z.of_nat (S k)) with (i + 1 + Z.of_nat k) by lia.
Qed.

Lemma aread_Ok {A} (a : list A) (i : Z) (x : A) :
  aread a i = Ok x <-> 0 <= i /\ a !! Z.to_nat i = Some x.
Proof.
  unfold aread. destruct (i <? 0) eqn:E.
  - split; [done | lia].
  - destruct (a !! Z.to_nat i) eqn:El; split.
    + intros [= ->]. split; [lia | done].
    + by intros [_ [= ->]].
    + done.
    + by intros [_ ?].
Qed.

Lemma awrite_inv {A} (a : list A) (i : Z) (x : A) a' :
  awrite a i x = Ok a' <-> 0 <= i < Z.of_nat (length a) /\ a' = <[Z.to_nat i := x]> a.
Proof.
  unfold awrite. destruct (i <? 0) eqn:E; [split; [done | lia]|].
  destruct (i <? Z.of_nat (length a)) eqn:E2; split.
  - intros [= <-]. split; [lia | done].
  - by intros [_ ->].
  - done.
  - lia.
Qed.

Lemma placed_app pl lowInd highInd l1 l2 :
  placed pl lowInd highInd (l1 ++ l2)
  = placed pl lowInd highInd l1 ++ placed pl lowInd highInd l2.
Proof.
  induction l1 as [|nd l1 IH]; simpl; [done|].
  destruct (placement lowInd highInd nd) as [pl'|]; [|done].
  destruct (Placement_eqb pl pl'); [|done]. by rewrite IH.
Qed.

Lemma placed_one pl lowInd highInd nd pl' :
  placement lowInd highInd nd = Ok pl' ->
  placed pl lowInd highInd [nd] = if Placement_eqb pl pl' then [originalIndex nd] else [].
Proof. intros H. simpl. by rewrite H. Qed.

Lemma placed_length_le pl lowInd highInd l :
  (length (placed pl lowInd highInd l) <= length l)%nat.
Proof.
  induction l as [|nd l IH]; simpl; [done|].
  destruct (placement lowInd highInd nd) as [pl'|]; [|lia].
  destruct (Placement_eqb pl pl'); simpl; lia.
Qed.

Lemma placed_lengths lowInd highInd l :
  Forall (fun nd => exists pl, placement lowInd highInd nd = Ok pl) l ->
  (length (placed InSourceSet lowInd highInd l) + length (placed InSinkSet lowInd highInd l)
   + length (placed Undecided lowInd highInd l) = length l)%nat.
Proof.
  induction 1 as [|nd l [pl Hpl] _ IH]; simpl; [done|].
  rewrite Hpl. destruct pl; simpl; lia.
Qed.

Lemma undecided_nodes_lookup (p : CutProblem) (k : nat) (nd : Node) :
  (k < Z.to_nat (numNodesInList p) - 2)%nat ->
  aread (nodeList p) (2 + Z.of_nat k) = Ok nd ->
  undecided_nodes p !! k = Some nd.
Proof.
  intros Hk H. apply aread_Ok in H as [_ H].
  unfold undecided_nodes. rewrite lookup_take_lt by done. rewrite lookup_drop.
  by replace (Z.to_nat (2 + Z.of_nat k)) with (2 + k)%nat in H by lia.
Qed.

Lemma u32_small z : 0 <= z < 2 ^ 32 -> u32 z = z.
Proof. intros H. unfold u32. by apply Z.mod_small. Qed.

(** The body of the first loop, on a node the rule places at [pl]. *)
Lemma contractProblem_size_Ok old lowInd highInd i f u f' :
  contractProblem_size old lowInd highInd i f = Ok (u, f') ->
  exists nd pl,
    aread (nodeList old) i = Ok nd
    /\ placement lowInd highInd nd = Ok pl
    /\ numSourceSet (problem f')
       = (if Placement_eqb InSourceSet pl then u32 (numSourceSet (problem f) + 1)
          else numSourceSet (problem f))
    /\ numSinkSet (problem f')
       = (if Placement_eqb InSinkSet pl then u32 (numSinkSet (problem f) + 1)
          else numSinkSet (problem f))
    /\ numNodesInList (problem f')
       = (if Placement_eqb Undecided pl then numNodesInList (problem f)
          else u32 (numNodesInList (problem f) - 1)).
Proof.
  unfold contractProblem_size. intros H. inv_run.
  match goal with H : aread _ _ = Ok ?nd |- _ => exists nd end.
  unfold placement.
  match goal with H : ind_read lowInd _ = Ok ?l |- _ => rewrite H; destruct (l =? 1) end.
  - exists InSourceSet. inv_run.
    repeat match goal with H : onProblem _ _ = Ok _ |- _ =>
      apply onProblem_Ok in H as (? & ? & ->) end.
    inv_run. done.
  - inv_run.
    match goal with H : ind_read highInd _ = Ok ?h |- _ => rewrite H; destruct (h =? 0) end.
    + exists InSinkSet. inv_run.
      repeat match goal with H : onProblem _ _ = Ok _ |- _ =>
        apply onProblem_Ok in H as (? & ? & ->) end.
      inv_run. done.
    + exists Undecided. inv_run. done.
Qed.

(** The sizes of the node sets after the first loop. *)
Lemma contractProblem_sizes_Ok old lowInd highInd f u f' :
  contractProblem_sizes old lowInd highInd f = Ok (u, f') ->
  0 <= numSourceSet (problem f) -> 0 <= numSinkSet (problem f) ->
  numSourceSet (problem f) + numNodesInList old < 2 ^ 32 ->
  numSinkSet (problem f) + numNodesInList old < 2 ^ 32 ->
  numNodesInList (problem f) = numNodesInList old ->
  2 <= numNodesInList old ->
  let und := undecided_nodes old in
  length und = (Z.to_nat (numNodesInList old) - 2)%nat
  /\ Forall (fun nd => exists pl, placement lowInd highInd nd = Ok pl) und
  /\ numSourceSet (problem f')
     = numSourceSet (problem f) + Z.of_nat (length (placed InSourceSet lowInd highInd und))
  /\ numSinkSet (problem f')
     = numSinkSet (problem f) + Z.of_nat (length (placed InSinkSet lowInd highInd und))
  /\ numNodesInList (problem f')
     = 2 + Z.of_nat (length (placed Undecided lowInd highInd und)).
Proof.
  intros H HS HT HSb HTb Hn Hn2 und.
  set (N := (Z.to_nat (numNodesInList old) - 2)%nat).
  unfold contractProblem_sizes, for_range in H.
  replace (Z.to_nat (numNodesInList old - 2)) with N in H by lia.
  pose (P := fun (k : nat) (f1 : Frame) =>
    length (take k und) = k
    /\ Forall (fun nd => exists pl, placement lowInd highInd nd = Ok pl) (take k und)
    /\ numSourceSet (problem f1)
       = numSourceSet (problem f)
         + Z.of_nat (length (placed InSourceSet lowInd highInd (take k und)))
    /\ numSinkSet (problem f1)
       = numSinkSet (problem f)
         + Z.of_nat (length (placed InSinkSet lowInd highInd (take k und)))
    /\ numNodesInList (problem f1)
       = numNodesInList old
         - Z.of_nat (length (placed InSourceSet lowInd highInd (take k und)))
         - Z.of_nat (length (placed InSinkSet lowInd highInd (take k und)))).
  assert (P N f') as (HlenN & Hall & H1 & H2 & H3).
  { apply (for_loop_ind P _ _ _ _ _ _ H).
    - unfold P. rewrite take_0. simpl. split_and!; try done; lia.
    - intros k f1 u1 f2 Hk (Hlen & Hall & H1 & H2 & H3) Hbody.
      apply contractProblem_size_Ok in Hbody
        as (nd & pl & Hnd & Hpl & E1 & E2 & E3).
      apply undecided_nodes_lookup in Hnd; [|done]. fold und in Hnd.
      pose proof (placed_length_le InSourceSet lowInd highInd (take k und)).
      pose proof (placed_length_le InSinkSet lowInd highInd (take k und)).
      pose proof (placed_lengths _ _ _ Hall).
      unfold P. rewrite (take_S_r _ _ _ Hnd).
      rewrite !placed_app, !(placed_one _ _ _ _ _ Hpl), !length_app.
      split_and!.
      + rewrite Hlen. simpl. lia.
      + apply Forall_app. split; [done|]. repeat constructor. eauto.
      + rewrite E1, H1. destruct pl; simpl; rewrite ?u32_small; lia.
      + rewrite E2, H2. destruct pl; simpl; rewrite ?u32_small; lia.
      + rewrite E3, H3. destruct pl; simpl; rewrite ?u32_small; lia. }
  assert (length und = N) as HN.
  { assert (length und <= N)%nat
      by (unfold und, undecided_nodes; rewrite length_take; lia).
    rewrite length_take in HlenN. lia. }
  rewrite take_ge in * by lia.
  split_and!; try done.
  rewrite H3. pose proof (placed_lengths _ _ _ Hall). lia.
Qed.

(** A cell written just after the cells filled so far. *)
Lemma fill_next {A B} (h : A -> B) (arr : list A) (k : nat) (x : A) :
  (k < length arr)%nat ->
  map h (take (S k) (<[k := x]> arr)) = map h (take k arr) ++ [h x].
Proof.
  intros Hk.
  rewrite (take_S_r _ _ x) by (by apply list_lookup_insert_eq).
  rewrite take_insert_ge by done. by rewrite map_app.
Qed.

Lemma new_sourceSet_node_Ok i orig f u f' :
  onProblem (new_sourceSet_node i orig) f = Ok (u, f') ->
  0 <= i < Z.of_nat (length (sourceSet (problem f)))
  /\ f' = set_problem
            (set_sourceSet
               (<[Z.to_nat i := set_originalIndex orig (initializeNode Node_uninit i)]>
                  (sourceSet (problem f))) (problem f)) f.
Proof.
  intros H. apply onProblem_Ok in H as (p' & H & ->).
  unfold new_sourceSet_node in H. inv_run.
  match goal with H : awrite _ _ _ = Ok _ |- _ => apply awrite_inv in H as [? ->] end.
  done.
Qed.

Lemma new_sinkSet_node_Ok i orig f u f' :
  onProblem (new_sinkSet_node i orig) f = Ok (u, f') ->
  0 <= i < Z.of_nat (length (sinkSet (problem f)))
  /\ f' = set_problem
            (set_sinkSet
               (<[Z.to_nat i := set_originalIndex orig (initializeNode Node_uninit i)]>
                  (sinkSet (problem f))) (problem f)) f.
Proof.
  intros H. apply onProblem_Ok in H as (p' & H & ->).
  unfold new_sinkSet_node in H. inv_run.
  match goal with H : awrite _ _ _ = Ok _ |- _ => apply awrite_inv in H as [? ->] end.
  done.
Qed.

Lemma new_nodeList_node_Ok i orig f u f' :
  onProblem (new_nodeList_node i orig) f = Ok (u, f') ->
  0 <= i < Z.of_nat (length (nodeList (problem f)))
  /\ f' = set_problem
            (set_nodeList
               (<[Z.to_nat i := set_originalIndex orig (initializeNode Node_uninit i)]>
                  (nodeList (problem f))) (problem f)) f.
Proof.
  intros H. apply onProblem_Ok in H as (p' & H & ->).
  unfold new_nodeList_node in H. inv_run.
  match goal with H : awrite _ _ _ = Ok _ |- _ => apply awrite_inv in H as [? ->] end.
  done.
Qed.

Lemma set_nodeMap_at_Ok i v f u f' :
  set_nodeMap_at i v f = Ok (u, f') -> exists nm, f' = set_nodeMap nm f.
Proof. unfold set_nodeMap_at. intros H. inv_run. eauto. Qed.

(** The copy of one frozen set: the loops "copy source set" and "copy sink
    set", for the projection [arr] of the problem on the set copied. *)
Lemma copy_set_loop (src : list Node) (arr : Frame -> list Node)
    (body : Z -> M Frame unit) n f u f' :
  (forall i f1 u1 f2, body i f1 = Ok (u1, f2) ->
     exists old, aread src i = Ok old
       /\ 0 <= i < Z.of_nat (length (arr f1))
       /\ arr f2 = <[Z.to_nat i := set_originalIndex (originalIndex old)
                                     (initializeNode Node_uninit i)]> (arr f1)) ->
  for_loop n 0 body f = Ok (u, f') ->
  length (arr f') = length (arr f)
  /\ map originalIndex (take n (arr f')) = map originalIndex (take n src).
Proof.
  intros Hbody H.
  apply (for_loop_ind
           (fun k f1 => length (arr f1) = length (arr f)
                        /\ map originalIndex (take k (arr f1))
                           = map originalIndex (take k src)) _ _ _ _ _ _ H).
  - by rewrite !take_0.
  - intros k f1 u1 f2 Hk [Hlen Hmap] Hb.
    apply Hbody in Hb as (old & Hold & Hi & ->).
    apply aread_Ok in Hold as [_ Hold].
    rewrite Z.add_0_l, Nat2Z.id in *.
    rewrite length_insert. split; [done|].
    rewrite fill_next by lia. rewrite (take_S_r _ _ _ Hold), map_app, Hmap. done.
Qed.

(** What every iteration of a loop leaves alone, the loop leaves alone. *)
Lemma for_loop_keeps {St V} (proj : St -> V) n i (body : Z -> M St unit) s u s' :
  (forall j s1 u1 s2, body j s1 = Ok (u1, s2) -> proj s2 = proj s1) ->
  for_loop n i body s = Ok (u, s') -> proj s' = proj s.
Proof.
  intros Hbody H.
  apply (for_loop_ind (fun _ s1 => proj s1 = proj s) _ _ _ _ _ _ H); [done|].
  intros k s1 u1 s2 _ Hk Hb. by rewrite (Hbody _ _ _ _ Hb).
Qed.

Lemma take2_written {A B} (h : A -> B) (l : list A) (a b : A) :
  (2 <= length l)%nat -> map h (take 2 (<[1%nat := b]> (<[0%nat := a]> l))) = [h a; h b].
Proof. destruct l as [|x [|y l]]; simpl; intros; try lia; done. Qed.

(** The allocation of the node sets and the copy of the frozen sets: the new
    sets have the sizes counted by the first loop, and begin with the nodes
    of the old sets; the node list begins with the two artificial nodes. *)
Lemma contractProblem_copy_sets_Ok old f u f' :
  contractProblem_copy_sets old f = Ok (u, f') ->
  length (sourceSet (problem f')) = Z.to_nat (numSourceSet (problem f))
  /\ length (sinkSet (problem f')) = Z.to_nat (numSinkSet (problem f))
  /\ length (nodeList (problem f')) = Z.to_nat (numNodesInList (problem f))
  /\ map originalIndex (take (Z.to_nat (numSourceSet old)) (sourceSet (problem f')))
     = map originalIndex (take (Z.to_nat (numSourceSet old)) (sourceSet old))
  /\ map originalIndex (take (Z.to_nat (numSinkSet old)) (sinkSet (problem f')))
     = map originalIndex (take (Z.to_nat (numSinkSet old)) (sinkSet old))
  /\ map originalIndex (take 2 (nodeList (problem f'))) = [-1; -2]
  /\ currentNode f' = currentNode f
  /\ currentSourceSet f' = currentSourceSet f
  /\ currentSinkSet f' = currentSinkSet f.
Proof.
  unfold contractProblem_copy_sets, for_range. rewrite !Z.sub_0_r. intros H.
  apply bind_Ok in H as ([] & f1 & H1 & H).
  apply onProblem_Ok in H1 as (p1 & H1 & ->). apply modify_Ok in H1 as ->.
  apply bind_Ok in H as ([] & f2 & H2 & H).
  apply onProblem_Ok in H2 as (p2 & H2 & ->). apply modify_Ok in H2 as ->.
  apply bind_Ok in H as ([] & f3 & H3 & H).
  apply onProblem_Ok in H3 as (p3 & H3 & ->). apply modify_Ok in H3 as ->.
  apply bind_Ok in H as ([] & f4 & Hsrc & H).
  apply bind_Ok in H as ([] & f5 & Hsnk & H).
  apply bind_Ok in H as ([] & f6 & Hn0 & H). apply new_nodeList_node_Ok in Hn0 as [Hi0 ->].
  apply bind_Ok in H as ([] & f7 & Hm0 & H). apply set_nodeMap_at_Ok in Hm0 as [nm0 ->].
  apply bind_Ok in H as ([] & f8 & Hn1 & H). apply new_nodeList_node_Ok in Hn1 as [Hi1 ->].
  apply set_nodeMap_at_Ok in H as [nm1 ->].
  (* the copy of the source set *)
  pose proof Hsrc as Hsrc'.
  apply (copy_set_loop (sourceSet old) (fun f => sourceSet (problem f))) in Hsrc
    as [Hlen4 Hmap4].
  2:{ intros i fa ua fb Hb. apply bind_Ok in Hb as (nd & ? & Hr & Hb).
      apply liftR_Ok in Hr as [Hr ->]. apply new_sourceSet_node_Ok in Hb as [Hi ->].
      by exists nd. }
  apply (for_loop_keeps
           (fun f => (sinkSet (problem f), nodeList (problem f),
                      currentNode f, currentSourceSet f, currentSinkSet f))) in Hsrc'.
  2:{ intros i fa ua fb Hb. apply bind_Ok in Hb as (nd & ? & Hr & Hb).
      apply liftR_Ok in Hr as [Hr ->]. by apply new_sourceSet_node_Ok in Hb as [Hi ->]. }
  (* the copy of the sink set *)
  pose proof Hsnk as Hsnk'.
  apply (copy_set_loop (sinkSet old) (fun f => sinkSet (problem f))) in Hsnk
    as [Hlen5 Hmap5].
  2:{ intros i fa ua fb Hb. apply bind_Ok in Hb as (nd & ? & Hr & Hb).
      apply liftR_Ok in Hr as [Hr ->]. apply new_sinkSet_node_Ok in Hb as [Hi ->].
      by exists nd. }
  apply (for_loop_keeps
           (fun f => (sourceSet (problem f), nodeList (problem f),
                      currentNode f, currentSourceSet f, currentSinkSet f))) in Hsnk'.
  2:{ intros i fa ua fb Hb. apply bind_Ok in Hb as (nd & ? & Hr & Hb).
      apply liftR_Ok in Hr as [Hr ->]. by apply new_sinkSet_node_Ok in Hb as [Hi ->]. }
  simpl in *.
  injection Hsrc' as E1 E2 E3 E4 E5. injection Hsnk' as G1 G2 G3 G4 G5.
  rewrite ?length_insert, G2, E2 in *. rewrite ?G1, ?Hlen5, ?E1, ?Hlen4.
  unfold malloc in *. rewrite ?length_replicate in *.
  split_and!; try done; try congruence.
  change (Z.to_nat 1) with 1%nat. change (Z.to_nat 0) with 0%nat.
  rewrite take2_written by (rewrite length_replicate; lia). done.
Qed.

Lemma Placement_eqb_eq a b : Placement_eqb a b = true <-> a = b.
Proof. destruct a, b; simpl; split; congruence. Qed.

(** The body of the loop that places the nodes: the node goes to the next
    free cell of the set the rule names, and the other two sets are left
    alone. *)
Lemma contractProblem_place_Ok old lowInd highInd i f u f' :
  contractProblem_place old lowInd highInd i f = Ok (u, f') ->
  exists nd pl,
    aread (nodeList old) i = Ok nd
    /\ placement lowInd highInd nd = Ok pl
    /\ 0 <= (track pl f).1 < Z.of_nat (length (track pl f).2)
    /\ track pl f'
       = (u32 ((track pl f).1 + 1),
          <[Z.to_nat (track pl f).1 :=
              set_originalIndex (originalIndex nd)
                (initializeNode Node_uninit (track pl f).1)]> (track pl f).2)
    /\ forall pl', pl' <> pl -> track pl' f' = track pl' f.
Proof.
  unfold contractProblem_place. intros H.
  apply bind_Ok in H as (nd & ? & Hnd & H). apply liftR_Ok in Hnd as [Hnd ->].
  apply bind_Ok in H as (l & ? & Hl & H). apply liftR_Ok in Hl as [Hl ->].
  exists nd. unfold placement. rewrite Hl. destruct (l =? 1).
  - exists InSourceSet.
    apply bind_Ok in H as (c & ? & Hc & H). apply gets_Ok in Hc as [-> ->].
    apply bind_Ok in H as ([] & ? & Hw & H). apply new_sourceSet_node_Ok in Hw as [Hi ->].
    apply bind_Ok in H as ([] & ? & Hm & H). apply set_nodeMap_at_Ok in Hm as [nm ->].
    apply modify_Ok in H as ->.
    split_and!; try done; try (simpl; lia); try (by intros [] ?).
  - apply bind_Ok in H as (h & ? & Hh & H). apply liftR_Ok in Hh as [Hh ->].
    rewrite Hh. destruct (h =? 0).
    + exists InSinkSet.
      apply bind_Ok in H as (c & ? & Hc & H). apply gets_Ok in Hc as [-> ->].
      apply bind_Ok in H as ([] & ? & Hw & H). apply new_sinkSet_node_Ok in Hw as [Hi ->].
      apply bind_Ok in H as ([] & ? & Hm & H). apply set_nodeMap_at_Ok in Hm as [nm ->].
      apply modify_Ok in H as ->.
      split_and!; try done; try (simpl; lia); try (by intros [] ?).
    + exists Undecided.
      apply bind_Ok in H as (c & ? & Hc & H). apply gets_Ok in Hc as [-> ->].
      apply bind_Ok in H as ([] & ? & Hw & H). apply new_nodeList_node_Ok in Hw as [Hi ->].
      apply bind_Ok in H as ([] & ? & Hm & H). apply set_nodeMap_at_Ok in Hm as [nm ->].
      apply modify_Ok in H as ->.
      split_and!; try done; try (simpl; lia); try (by intros [] ?).
Qed.

(** The loop that places the nodes: each set receives, after what it held,
    the original indices of the nodes the rule places in it, in their
    order. *)
Lemma contractProblem_place_loop old lowInd highInd f u f'
    (c0 : Placement -> Z) (pre : Placement -> list Z) :
  for_range 2 (numNodesInList old) (contractProblem_place old lowInd highInd) f
  = Ok (u, f') ->
  (forall pl, 0 <= c0 pl /\ c0 pl + numNodesInList old - 2 < 2 ^ 32
              /\ (track pl f).1 = c0 pl
              /\ map originalIndex (take (Z.to_nat (c0 pl)) (track pl f).2) = pre pl) ->
  forall pl,
    (track pl f').1
    = c0 pl + Z.of_nat (length (placed pl lowInd highInd (undecided_nodes old)))
    /\ length (track pl f').2 = length (track pl f).2
    /\ map originalIndex (take (Z.to_nat (track pl f').1) (track pl f').2)
       = pre pl ++ placed pl lowInd highInd (undecided_nodes old).
Proof.
  intros H H0.
  set (und := undecided_nodes old).
  set (N := (Z.to_nat (numNodesInList old) - 2)%nat).
  unfold for_range in H.
  replace (Z.to_nat (numNodesInList old - 2)) with N in H by lia.
  pose (P := fun (k : nat) (f1 : Frame) =>
    forall pl,
      (track pl f1).1 = c0 pl + Z.of_nat (length (placed pl lowInd highInd (take k und)))
      /\ length (track pl f1).2 = length (track pl f).2
      /\ map originalIndex (take (Z.to_nat (track pl f1).1) (track pl f1).2)
         = pre pl ++ placed pl lowInd highInd (take k und)).
  assert (P N f') as HP.
  { apply (for_loop_ind P _ _ _ _ _ _ H).
    - intros pl. destruct (H0 pl) as (? & ? & E & Hpre).
      rewrite take_0. simpl. rewrite Z.add_0_r, app_nil_r, E. done.
    - intros k f1 u1 f2 Hk HPk Hbody pl.
      apply contractProblem_place_Ok in Hbody
        as (nd & pl0 & Hnd & Hpl & Hi & Hto & Hother).
      apply undecided_nodes_lookup in Hnd; [|done]. fold und in Hnd.
      rewrite (take_S_r _ _ _ Hnd), placed_app, (placed_one _ _ _ _ _ Hpl), length_app.
      destruct (HPk pl) as (Hc & Hlen & Hmap). destruct (H0 pl) as (Hc0 & Hb & _ & _).
      pose proof (placed_length_le pl lowInd highInd (take k und)) as Hle.
      rewrite length_take in Hle.
      destruct (Placement_eqb pl pl0) eqn:E.
      + apply Placement_eqb_eq in E as <-. rewrite Hto. simpl fst. simpl snd.
        rewrite u32_small by lia. rewrite length_insert.
        replace (Z.to_nat ((track pl f1).1 + 1)) with (S (Z.to_nat (track pl f1).1)) by lia.
        rewrite fill_next by lia. rewrite Hmap, app_assoc. simpl. split_and!; [lia|done|done].
      + rewrite Hother by (intros ->; by destruct pl0).
        simpl. rewrite Nat.add_0_r, app_nil_r. done. }
  assert (take N und = und) as HN.
  { apply take_ge. unfold und, undecided_nodes. rewrite length_take. fold N. lia. }
  unfold P in HP. rewrite HN in HP. exact HP.
Qed.

(** The count of the arcs of a node of the list does not move the node. *)
Lemma node_upd_originalIndex nl i (v : Node -> uint) nl' :
  node_upd nl i (fun n => set_numAdjacent (v n) n) = Ok nl' ->
  map originalIndex nl' = map originalIndex nl.
Proof.
  unfold node_upd. destruct (aread nl i) as [n|] eqn:E; [|done].
  intros H. apply awrite_inv in H as [_ ->]. apply aread_Ok in E as [_ E].
  rewrite <- (list_insert_id _ _ _ E) at 2.
  change map with (@fmap list _). by rewrite !list_fmap_insert.
Qed.

Lemma deref_Ok {S} (p : option nat) (s : S) a s' :
  deref p s = Ok (a, s') <-> p = Some a /\ s' = s.
Proof.
  destruct p; simpl; split.
  - intros H. apply ret_Ok in H as [-> ->]. done.
  - intros [[= ->] ->]. done.
  - done.
  - by intros [? ?].
Qed.

Lemma preserves_node_sets_copyArcNew c oldNodes nm old new :
  preserves (fun p => node_sets p = c) (copyArcNew oldNodes nm old new).
Proof.
  intros p a p' HI H. unfold copyArcNew in H. inv_run.
  repeat match goal with
  | H : deref _ _ = Ok _ |- _ => apply deref_Ok in H as [_ ->]
  end.
  repeat match goal with
  | H : node_upd _ _ _ = Ok _ |- _ => apply node_upd_originalIndex in H; simpl in H
  end.
  unfold node_sets in *. simpl. congruence.
Qed.

Lemma preserves_node_sets_copyArcAdd c old new :
  preserves (fun p => node_sets p = c) (copyArcAdd old new).
Proof. unfold copyArcAdd. preserves_auto. Qed.

Lemma preserves_node_sets_evaluateCapacities c g :
  preserves (fun p => node_sets p = c) (evaluateCapacities g).
Proof. unfold evaluateCapacities. preserves_auto. Qed.

(** The arcs of the new problem are made without moving its nodes. *)
Lemma preserves_node_sets_contractProblem_arcs c old :
  preserves (fun f => node_sets (problem f) = c) (contractProblem_arcs old).
Proof.
  unfold contractProblem_arcs, newIndexFrom_of, newIndexTo_of.
  repeat first
    [ apply (preserves_onProblem (fun p => node_sets p = c))
    | apply preserves_node_sets_copyArcNew
    | apply preserves_node_sets_copyArcAdd
    | preserves_step
    | lazymatch goal with
      | |- preserves _ (modify _) =>
          apply preserves_modify; let s := fresh in let H := fresh in
          intros s H; exact H
      end ].
Qed.

Lemma preserves_onProblem_locals {A} (I : Frame -> Prop) (m : M CutProblem A) :
  (forall p f, I f -> I (set_problem p f)) -> preserves I (onProblem m).
Proof.
  intros H f a f' HI Hrun. apply onProblem_Ok in Hrun as (p' & _ & ->). auto.
Qed.

(** The first loop counts, and moves none of the three cursors. *)
Lemma preserves_cursors_contractProblem_sizes c old lowInd highInd :
  preserves (fun f => (currentNode f, currentSourceSet f, currentSinkSet f) = c)
    (contractProblem_sizes old lowInd highInd).
Proof.
  unfold contractProblem_sizes, contractProblem_size.
  repeat first
    [ preserves_step
    | apply preserves_onProblem_locals; intros ? ? HH; exact HH ].
Qed.


(** ** The strong label kept from one solve to the next *)

(** [simpleInitialization] does not assign [highestStrongLabel]. *)
Lemma simpleInitialization_keeps_highestStrongLabel c :
  preserves (fun e => highestStrongLabel e = c) simpleInitialization.
Proof.
  unfold simpleInitialization, addToStrongBucket, incLabelCount, setLabelCount,
    getLabelCount, updRoot, getRoot, updArc, getArc, updNode, setNode, getNode.
  preserves_auto.
Qed.

(** C8.  After [simpleInitialization] the variable [highestStrongLabel] is 1
    in the first solve of a run of [hpf_solve], and is what the solve before
    left in it in the next ones: on the graph of four nodes with the arcs
    0 -> 1 (capacity 10), 1 -> 3 (capacity 5) and 2 -> 3 (capacity 5), with
    source 0, sink 3 and the interval [0, 1], it is 2 at the end of the
    second [simpleInitialization]. *)
Theorem simpleInitialization_highestStrongLabel_stale :
  hpf_solve_initializations 100 4 3 0 3
    [0; 1; 10; 0;  1; 3; 5; 0;  2; 3; 5; 0]%Q (0, 1)%Q 0
  = Ok (1, 2).
Proof. vm_compute. reflexivity. Qed.

(** ** The upper end of the interval, returned without a change *)

(** The capacity of a cut does not depend on lambda when no arc has a
    multiplier. *)
Lemma cut_capacity_constant (ind : Z -> bool) (l1 l2 : Q) :
  (cut_capacity [0; 1; 10; 0;  1; 2; 5; 0]%Q ind l1
   == cut_capacity [0; 1; 10; 0;  1; 2; 5; 0]%Q ind l2)%Q.
Proof.
  simpl.
  destruct (ind (int_of_double 0%Q) && negb (ind (int_of_double 1%Q)));
    destruct (ind (int_of_double 1%Q) && negb (ind (int_of_double 2%Q))); lra.
Qed.


(** ** The theorems on small instances *)


Lemma evaluateCapacities_rule_witness :
  p_numArcs negative_arc_problem = Z.of_nat (length (p_arcList negative_arc_problem))
  /\ (exists p',
       evaluateCapacities (rounding_globals 1) negative_arc_problem = Ok (tt, p')
       /\ forall i a, p_arcList negative_arc_problem !! i = Some a ->
            exists a', p_arcList p' !! i = Some a'
              /\ ((constant a + multiplier a * 2 < 0)%Q -> (capacity a' == 0)%Q)
              /\ ((0 <= constant a + multiplier a * 2)%Q ->
                  (capacity a' == constant a + multiplier a * 2)%Q))
  /\ evaluateCapacities (rounding_globals 0) negative_arc_problem
     = Err (ExitNegativeCapacity 2%Q).
Proof.
  split; [reflexivity|]. split.
  - pose proof (evaluateCapacities_rule (rounding_globals 1) negative_arc_problem eq_refl)
      as R.
    cbv zeta in R.
    destruct (evaluateCapacities (rounding_globals 1) negative_arc_problem)
      as [[[] p']|e] eqn:E.
    + exists p'. split; [reflexivity|]. destruct R as [_ R]. intros i a Hi.
      destruct (R i a Hi) as (a' & Ha' & Hneg & Hpos). exists a'.
      split; [exact Ha'|]. split; [|exact Hpos]. intros Hv. exact (proj2 (Hneg Hv)).
    + exfalso. vm_compute in E. discriminate E.
  - pose proof (evaluateCapacities_rule (rounding_globals 0) negative_arc_problem eq_refl)
      as R.
    cbv zeta in R.
    destruct (evaluateCapacities (rounding_globals 0) negative_arc_problem)
      as [[[] p']|e] eqn:E.
    + exfalso. vm_compute in E. discriminate E.
    + destruct R as [-> _]. reflexivity.
Defined.




Lemma hpf_solve_at_least_one_breakpoint_witness :
  (exists out g,
     hpf_solve 100 3 2 0 2 chain3 (0, 20)%Q 0 = Ok (out, g)
     /\ 1 <= out_numBreakpoints out
     /\ out_numBreakpoints out = Z.of_nat (length (out_breakpoints out))
     /\ emitted g <> [])
  /\ exists g1 low high r g2,
       hpf_solve_read 3 2 0 2 chain3 (0, 20)%Q 0 reset_globals = Ok (tt, g1)
       /\ initializeParametricCut CutProblem_uninit g1 = Ok ((low, high), g1)
       /\ useParametricCut g1 = 1
       /\ parametricCut 100 low high g1 = Ok (r, g2)
       /\ breakpoints g2 <> []
       /\ exists g3, removeDuplicateBreakpoints g2 = Ok (tt, g3) /\ breakpoints g3 <> [].
Proof.
  split.
  - eexists _, _.
    match goal with
    | |- hpf_solve ?fuel ?n ?m ?s ?t ?a ?range ?rnd = Ok (?out, ?g) /\ _ =>
        assert (hpf_solve fuel n m s t a range rnd = Ok (out, g)) as H
          by (vm_compute; reflexivity);
        split; [exact H|];
        exact (proj1 (hpf_solve_at_least_one_breakpoint fuel n m s t a range rnd) out g H)
    end.
  - eexists _, _, _, _, _.
    match goal with
    | |- ?A /\ ?B /\ ?C /\ ?D /\ _ =>
        assert A as H1 by (vm_compute; reflexivity);
        assert B as H2 by (vm_compute; reflexivity);
        assert C as H3 by reflexivity;
        assert D as H4 by (vm_compute; reflexivity);
        split; [exact H1|]; split; [exact H2|]; split; [exact H3|]; split; [exact H4|];
        exact (proj2 (hpf_solve_at_least_one_breakpoint 100 3 2 0 2 chain3 (0, 20)%Q 0)
                 _ _ _ _ _ H1 H2 H3 H4)
    end.
Defined.


(** * Further properties of the code *)


(** * Further properties of the code *)

(** ** The end of [readData] *)

Lemma aread_Err {A} (a : list A) (i : Z) e : aread a i = Err e -> e = OutOfBounds.
Proof. unfold aread. repeat case_match; congruence. Qed.

Lemma awrite_Err {A} (a : list A) (i : Z) (x : A) e : awrite a i x = Err e -> e = OutOfBounds.
Proof. unfold awrite. repeat case_match; congruence. Qed.

(** The copy loop at the end of [readData], from the cell [i] on, for a
    destination with fewer cells than the loop goes through. *)
Lemma readData_copy_overflow (src : list double) (n : nat) (i : Z) (new : list double) :
  0 <= i <= Z.of_nat (length new) ->
  Z.of_nat (length new) < i + Z.of_nat n ->
  for_loop n i (fun i =>
     v <- liftR (aread src i) ;;
     new <- get ;;
     new <- liftR (awrite new i v) ;;
     modify (fun _ => new)) new = Err OutOfBounds.
Proof.
  revert i new. induction n as [|n IH]; intros i new Hi Hn; [lia|].
  simpl. unfold bind at 1. unfold bind at 1. unfold liftR at 1.
  destruct (aread src i) as [v|e] eqn:Er.
  - unfold get at 1. unfold bind at 1. unfold liftR at 1.
    destruct (awrite new i v) as [new'|e] eqn:Ew.
    + apply awrite_inv in Ew as [Hb ->]. unfold bind at 1, modify at 1.
      apply IH; rewrite length_insert; lia.
    + by rewrite (awrite_Err _ _ _ _ Ew).
  - by rewrite (aread_Err _ _ _ Er).
Qed.

(** X1.  When at least one arc line was dropped (an arc into the source or
    out of the sink) and at least one arc is left, the end of [readData]
    allocates the new arc matrix with [numArcs] cells and copies
    [4 * numArcs] cells into it: the copy writes outside the new matrix. *)
Theorem readData_finish_overflow (r : Reader) :
  0 < numRemovedArcs r ->
  1 <= r_numArcs r - numRemovedArcs r ->
  readData_finish r = Err OutOfBounds.
Proof.
  intros Hrem Hleft. unfold readData_finish. rewrite bind_get.
  replace (0 <? numRemovedArcs r) with true by lia.
  unfold bind at 1. unfold bind at 1. unfold modify at 1. rewrite bind_get.
  unfold run_on, for_range.
  rewrite readData_copy_overflow; [done| |];
    unfold malloc; rewrite length_replicate; simpl; lia.
Qed.

Lemma readData_finish_overflow_witness :
  exists r,
    readData_lines [LineP 3 2 0%Q 20%Q 0; LineN 0 "s"; LineN 2 "t";
                    LineA 1 0 5%Q 0%Q; LineA 0 1 5%Q 0%Q] Reader_start = Ok (tt, r)
    /\ 0 < numRemovedArcs r
    /\ 1 <= r_numArcs r - numRemovedArcs r
    /\ readData_finish r = Err OutOfBounds.
Proof.
  eexists. split; [vm_compute; reflexivity|].
  split; [reflexivity|]. split; [simpl; lia|].
  apply readData_finish_overflow; simpl; lia.
Defined.

(** ** The intersection at an end of the interval *)



(** ** The interval of one value *)

(** X3.  When the two ends of the interval are equal, a run of [hpf_solve]
    that returns has solved one problem and returns exactly one breakpoint,
    the common value of the ends. *)
Theorem hpf_solve_single_lambda fuel n m s t arcMatrix lo hi rnd out g :
  (lo == hi)%Q ->
  hpf_solve fuel n m s t arcMatrix (lo, hi) rnd = Ok (out, g) ->
  out_numBreakpoints out = 1
  /\ out_breakpoints out = [lo]
  /\ emitted g = [AtSingleLambda].
Proof.
  intros Heq H.
  apply hpf_solve_lists in H as [(Hne & _)|(_ & Hb & Hn & He)]; done.
Qed.

Lemma hpf_solve_single_lambda_witness :
  exists out g,
    hpf_solve 100 3 2 0 2 [0; 1; 5; 0;  1; 2; 0; -1]%Q (2, 2)%Q 1 = Ok (out, g)
    /\ out_numBreakpoints out = 1
    /\ out_breakpoints out = [2%Q]
    /\ emitted g = [AtSingleLambda].
Proof.
  eexists _, _.
  match goal with
  | |- hpf_solve ?fuel ?n ?m ?s ?t ?a (?lo, ?hi) ?rnd = Ok (?out, ?g) /\ _ =>
      assert (hpf_solve fuel n m s t a (lo, hi) rnd = Ok (out, g)) as H
        by (vm_compute; reflexivity);
      split; [exact H|];
      exact (hpf_solve_single_lambda fuel n m s t a lo hi rnd out g
               (Qeq_refl lo) H)
  end.
Defined.

(** ** The instance [readData] accepts *)

Lemma readData_node_ok c k r u r' :
  readData_node c k r = Ok (u, r') -> Reader_ok r -> Reader_ok r'.
Proof.
  unfold readData_node. rewrite bind_get. intros H (H1 & H2 & H3 & H4 & H5 & H6 & H7).
  destruct (Ascii.eqb k "s") eqn:Es.
  - destruct ((c >=? r_numNodes r) || (c <? 0)) eqn:Ec; [done|].
    destruct (isSourceAssigned r =? 0) eqn:Ea; [|done]. simpl in H.
    apply modify_Ok in H as ->. apply Z.eqb_eq in Ea.
    unfold Reader_ok. simpl.
    split_and!; try done; try lia; try (intros; destruct (H4 ltac:(lia)); lia).
  - destruct (Ascii.eqb k "t") eqn:Et; [|done].
    destruct ((c >=? r_numNodes r) || (c <? 0)) eqn:Ec; [done|].
    destruct (isSinkAssigned r =? 0) eqn:Ea; [|done]. simpl in H.
    apply modify_Ok in H as ->. apply Z.eqb_eq in Ea.
    unfold Reader_ok. simpl.
    split_and!; try done; try lia; try (intros; destruct (H4 ltac:(lia)); lia).
Qed.

Lemma readData_arc_ok f t c m r u r' :
  readData_arc f t c m r = Ok (u, r') -> Reader_ok r -> Reader_ok r'.
Proof.
  unfold readData_arc. rewrite bind_get. intros H (H1 & H2 & H3 & H4 & H5 & H6 & H7).
  destruct ((isSinkAssigned r =? 0) || (isSourceAssigned r =? 0)) eqn:Ea; [done|].
  destruct ((f <? 0) || (t <? 0) || (f >=? r_numNodes r) || (t >=? r_numNodes r)) eqn:Er;
    [done|].
  destruct (f =? t) eqn:Eft; [done|].
  destruct (dgt m 0%Q && negb (f =? r_source r)) eqn:Ep; [done|].
  destruct (dlt m 0%Q && negb (t =? r_sink r)) eqn:En; [done|].
  destruct (arcCount r >=? r_numArcs r) eqn:Ec; [done|].
  destruct ((t =? r_source r) || (f =? r_sink r)) eqn:Ex.
  - apply modify_Ok in H as ->. unfold Reader_ok. simpl. split_and!; try done; lia.
  - inv_run.
    repeat match goal with
    | H : awrite _ _ _ = Ok _ |- _ => apply awrite_inv in H as [? ->]
    end.
    rewrite ?length_insert in *.
    unfold Reader_ok. simpl. split_and!; try done; try lia.
    + intros k Hk. destruct (decide (k = arcCount r)) as [->|Hne].
      * exists f, t, c, m.
        rewrite !list_lookup_insert_eq by (rewrite ?length_insert; lia).
        rewrite !list_lookup_insert_ne by lia.
        rewrite !list_lookup_insert_eq by (rewrite ?length_insert; lia).
        rewrite !list_lookup_insert_ne by lia.
        rewrite !list_lookup_insert_eq by (rewrite ?length_insert; lia).
        rewrite !list_lookup_insert_ne by lia.
        rewrite !list_lookup_insert_eq by (rewrite ?length_insert; lia).
        split_and!; try done; try lia.
        -- intros Hm. destruct (f =? r_source r) eqn:E; [lia|].
           unfold dgt in Ep. rewrite (proj2 (dlt_true _ _) Hm) in Ep. done.
        -- intros Hm. destruct (t =? r_sink r) eqn:E; [lia|].
           rewrite (proj2 (dlt_true _ _) Hm) in En. done.
      * destruct (H7 k ltac:(lia)) as (f0 & t0 & c0 & m0 & L0 & L1 & L2 & L3 & Hv).
        exists f0, t0, c0, m0.
        clear - Hne Hk H1 L0 L1 L2 L3 Hv.
        rewrite !list_lookup_insert_ne by lia. done.
Qed.

Lemma readData_lines_ok ls r u r' :
  Forall not_problem_line ls ->
  readData_lines ls r = Ok (u, r') -> Reader_ok r ->
  Reader_ok r' /\ r_numNodes r' = r_numNodes r.
Proof.
  intros Hls. revert r. induction Hls as [|l ls Hl _ IH]; intros r H Hok; simpl in H.
  - apply ret_Ok in H as [_ ->]. done.
  - apply bind_Ok in H as (u1 & r1 & H1 & H2).
    assert (Reader_ok r1 /\ r_numNodes r1 = r_numNodes r) as [Hok1 Hn1].
    { destruct l as [| c k | f t c m |]; simpl in H1.
      - done.
      - split; [by eapply readData_node_ok|].
        unfold readData_node in H1. rewrite bind_get in H1.
        repeat case_match; try done; by apply modify_Ok in H1 as ->.
      - split; [by eapply readData_arc_ok|].
        unfold readData_arc in H1. rewrite bind_get in H1.
        repeat case_match; try done; inv_run; done.
      - by apply ret_Ok in H1 as [_ ->]. }
    destruct (IH _ H2 Hok1) as [? ?]. split; [done | congruence].
Qed.

(** The end of [readData] when it goes through. *)
Lemma readData_finish_Ok r u r' :
  readData_finish r = Ok (u, r') -> Reader_ok r ->
  Reader_ok r' /\ r_numNodes r' = r_numNodes r
  /\ arcCount r' = r_numArcs r'
  /\ isSourceAssigned r' <> 0 /\ isSinkAssigned r' <> 0
  /\ r_source r' <> r_sink r'.
Proof.
  intros H Hok.
  assert (exists r1, (arcCount r1 = r_numArcs r1 -> Reader_ok r1)
            /\ r_numNodes r1 = r_numNodes r
            /\ (r <- get ;;
                if negb (arcCount r =? r_numArcs r)
                then exit0 "Incorrect number of arcs specified"
                else if isSourceAssigned r =? 0 then exit0 "Source is not assigned"
                else if isSinkAssigned r =? 0 then exit0 "Sink is not assigned"
                else if r_source r =? r_sink r then
                  exit0 "The source node and sink node need to be distinct"
                else ret tt) r1 = Ok (u, r')) as (r1 & Hok1 & Hn1 & H1).
  { unfold readData_finish in H. rewrite bind_get in H.
    destruct (0 <? numRemovedArcs r) eqn:Erem.
    - destruct (Z_le_gt_dec 1 (r_numArcs r - numRemovedArcs r)) as [Hleft|Hnone].
      + fold readData_finish in H.
        pose proof (readData_finish_overflow r ltac:(lia) Hleft) as Hov.
        unfold readData_finish in Hov. rewrite bind_get, Erem in Hov.
        rewrite Hov in H. done.
      + apply bind_Ok in H as (u1 & r1 & H1 & H2). exists r1.
        apply bind_Ok in H1 as (u2 & r2 & H1 & H3). apply modify_Ok in H1 as ->.
        rewrite bind_get in H3. unfold run_on, for_range in H3.
        replace (Z.to_nat (r_numArcs (set_r_numArcs (r_numArcs r - numRemovedArcs r) r)
                           * 4 - 0)) with 0%nat in H3 by (simpl; lia).
        simpl in H3. apply modify_Ok in H3 as ->.
        split; [|done].
        destruct Hok as (H1 & H2' & H3 & H4 & H5 & H6 & H7).
        simpl. intros Hc.
        unfold Reader_ok. simpl. split_and!; try done; try lia.
    - apply bind_Ok in H as (u1 & r1 & H1 & H2). apply ret_Ok in H1 as [_ ->].
      by exists r. }
  rewrite bind_get in H1.
  destruct (negb (arcCount r1 =? r_numArcs r1)) eqn:E1; [done|].
  assert (arcCount r1 = r_numArcs r1) as Hc by lia. specialize (Hok1 Hc).
  destruct (isSourceAssigned r1 =? 0) eqn:E2; [done|].
  destruct (isSinkAssigned r1 =? 0) eqn:E3; [done|].
  destruct (r_source r1 =? r_sink r1) eqn:E4; [done|].
  apply ret_Ok in H1 as [_ ->]. split_and!; try done; lia.
Qed.

(** X4.  A file that [readData] accepts, with its problem line first and
    no other problem line, describes a well-formed instance: the source and
    the sink are two distinct nodes of the graph, the number of arcs is the
    number of rows filled, and every row of the arc matrix is an arc with its
    ends in range and distinct, not into the source and not out of the sink,
    with a positive multiplier only out of the source and a negative one
    only into the sink. *)
Theorem readData_accepts_valid n m lo hi rnd ls r :
  Forall not_problem_line ls ->
  readData (LineP n m lo hi rnd :: ls) = Ok (tt, r) ->
  r_numNodes r = n
  /\ 0 <= r_source r < n /\ 0 <= r_sink r < n /\ r_source r <> r_sink r
  /\ arcCount r = r_numArcs r
  /\ forall k, 0 <= k < r_numArcs r ->
       valid_arc_row n (r_source r) (r_sink r) (arcMatrix r) k.
Proof.
  intros Hls H. unfold readData in H.
  apply bind_Ok in H as (u1 & r1 & H1 & H2). simpl in H1.
  apply bind_Ok in H1 as (u0 & r0 & H0 & H1).
  unfold readData_problem in H0. apply modify_Ok in H0 as ->.
  apply readData_lines_ok in H1 as [Hok1 Hn1]; [|done|].
  2:{ unfold Reader_ok. simpl. split_and!; try done; lia. }
  apply readData_finish_Ok in H2 as (Hok & Hn & Hc & Hs & Ht & Hst); [|done].
  destruct Hok as (_ & _ & _ & _ & H5 & H6 & H7).
  simpl in Hn1. rewrite Hn, Hn1 in *.
  specialize (H5 Hs). specialize (H6 Ht).
  split_and!; try done; try lia.
  intros k Hk. apply H7. lia.
Qed.

Lemma readData_accepts_valid_witness :
  exists r,
    Forall not_problem_line chain3_lines
    /\ readData (LineP 3 2 0%Q 20%Q 0 :: chain3_lines) = Ok (tt, r)
    /\ arcMatrix r = [0; 1; 0; 1;  1; 2; 10; 0]%Q
    /\ r_numNodes r = 3
    /\ 0 <= r_source r < 3 /\ 0 <= r_sink r < 3 /\ r_source r <> r_sink r
    /\ arcCount r = r_numArcs r
    /\ forall k, 0 <= k < r_numArcs r ->
         valid_arc_row 3 (r_source r) (r_sink r) (arcMatrix r) k.
Proof.
  eexists.
  assert (Forall not_problem_line chain3_lines) as Hls by (repeat constructor).
  split; [exact Hls|].
  match goal with
  | |- readData ?ls = Ok (tt, ?r) /\ _ =>
      assert (readData ls = Ok (tt, r)) as H by (vm_compute; reflexivity);
      split; [exact H|]; split; [reflexivity|];
      exact (readData_accepts_valid 3 2 0%Q 20%Q 0 chain3_lines r Hls H)
  end.
Defined.

(** ** The fields of the nodes and of the arcs that the engine leaves alone *)

Lemma map_awrite {A B} (h : A -> B) (l : list A) (i : Z) (n n' : A) l' :
  aread l i = Ok n -> awrite l i n' = Ok l' -> h n' = h n -> map h l' = map h l.
Proof.
  intros Hr Hw Hh. apply awrite_inv in Hw as [_ ->]. apply aread_Ok in Hr as [_ Hr].
  rewrite <- (list_insert_id _ _ _ Hr) at 2.
  change map with (@fmap list _). by rewrite !list_fmap_insert, Hh.
Qed.

Section EngineKeeps.
Context {V W : Type} (kept : Node -> V) (keptA : Arc -> W).
Context (P : list V -> list W -> Prop).
Local Abbreviation I := (engine_inv kept keptA P).

Hypothesis Hk_label : forall v n, kept (set_label v n) = kept n.
Hypothesis Hk_parent : forall v n, kept (set_parent v n) = kept n.
Hypothesis Hk_childList : forall v n, kept (set_childList v n) = kept n.
Hypothesis Hk_nextScan : forall v n, kept (set_nextScan v n) = kept n.
Hypothesis Hk_numOutOfTree : forall v n, kept (set_numOutOfTree v n) = kept n.
Hypothesis Hk_outOfTree : forall v n, kept (set_outOfTree v n) = kept n.
Hypothesis Hk_nextArc : forall v n, kept (set_nextArc v n) = kept n.
Hypothesis Hk_arcToParent : forall v n, kept (set_arcToParent v n) = kept n.
Hypothesis Hk_next : forall v n, kept (set_next v n) = kept n.
Hypothesis Hk_direction : forall v a, keptA (set_direction v a) = keptA a.

Lemma keeps_updNode p f :
  (forall n, kept (f n) = kept n) -> preserves I (updNode p f).
Proof.
  intros Hf e u e' HI H. unfold updNode, setNode, getNode in H. inv_run.
  unfold engine_inv in *. simpl.
  match goal with
  | Hr : pread _ _ = Ok _, Hw : pwrite _ _ _ = Ok _ |- _ =>
      rewrite (map_awrite kept _ _ _ _ _ Hr Hw (Hf _))
  end. done.
Qed.

Lemma keeps_updArc p f :
  (forall a, keptA (f a) = keptA a) -> preserves I (updArc p f).
Proof.
  intros Hf e u e' HI H. unfold updArc in H. inv_run.
  unfold engine_inv in *. simpl.
  match goal with
  | Hr : pread _ _ = Ok _, Hw : pwrite _ _ _ = Ok _ |- _ =>
      rewrite (map_awrite keptA _ _ _ _ _ Hr Hw (Hf _))
  end. done.
Qed.

Ltac kept_eq :=
  intros ?; cbv beta;
  first [ apply Hk_label | apply Hk_parent | apply Hk_childList | apply Hk_nextScan
        | apply Hk_numOutOfTree | apply Hk_outOfTree | apply Hk_nextArc
        | apply Hk_arcToParent | apply Hk_next | apply Hk_direction ].

Ltac keeps_base :=
  first
    [ simple apply keeps_updNode; kept_eq
    | simple apply keeps_updArc; kept_eq
    | preserves_step
    | lazymatch goal with
      | |- preserves _ (modify _) =>
          apply preserves_modify; let s := fresh in let H := fresh in
          intros s H; exact H
      end ].

Lemma keeps_addOutOfTreeNode n out : preserves I (addOutOfTreeNode n out).
Proof.
  unfold addOutOfTreeNode. intros e u e' HI H.
  apply bind_Ok in H as (nd & e1 & H1 & H).
  apply bind_Ok in H as (ot & e2 & H2 & H).
  apply bind_Ok in H as (u3 & e3 & H3 & H).
  apply liftR_Ok in H2 as [H2 ->].
  assert (I e3) as HI3.
  { unfold getNode, setNode in *. inv_run. unfold engine_inv in *. simpl.
    match goal with
    | Hr : pread _ _ = Ok _, Hw : pwrite _ _ _ = Ok _ |- _ =>
        rewrite (map_awrite kept _ _ _ _ _ Hr Hw (Hk_outOfTree _ _))
    end. done. }
  revert H. simple apply keeps_updNode; [kept_eq | done].
Qed.

Lemma keeps_findWeakNode_take strongNode i : preserves I (findWeakNode_take strongNode i).
Proof.
  unfold findWeakNode_take. intros e u e' HI H.
  apply bind_Ok in H as (u1 & e1 & H1 & H).
  apply (keeps_updNode strongNode (set_nextArc i) ltac:(kept_eq) _ _ _ HI) in H1.
  apply bind_Ok in H as (sn & e2 & H2 & H).
  apply bind_Ok in H as (out & e3 & H3 & H). apply liftR_Ok in H3 as [H3 ->].
  unfold getNode in H2. inv_run.
  match goal with
  | Hu : updNode _ _ _ = Ok (_, ?e4) |- _ =>
      assert (I e4) as HI4 by (revert Hu; simple apply keeps_updNode; [kept_eq | done])
  end.
  unfold getNode, setNode in *. inv_run. unfold engine_inv in *. simpl.
  match goal with
  | Hr : pread _ _ = Ok _, Hw : pwrite _ _ _ = Ok _ |- _ =>
      rewrite (map_awrite kept _ _ _ _ _ Hr Hw (Hk_outOfTree _ _))
  end. done.
Qed.

Lemma keeps_addToStrongBucket newRoot rootBucket :
  preserves I (addToStrongBucket newRoot rootBucket).
Proof. unfold addToStrongBucket, getRoot, updRoot. repeat keeps_base. Qed.

Lemma keeps_addRelationship newParent child :
  preserves I (addRelationship newParent child).
Proof. unfold addRelationship, getNode. repeat keeps_base. Qed.

Lemma keeps_breakRelationship_find fuel current child :
  preserves I (breakRelationship_find fuel current child).
Proof.
  revert current. induction fuel as [|fuel IH]; intros current; simpl;
    [apply preserves_fail|].
  unfold getNode. repeat first [simple apply IH | keeps_base].
Qed.

Lemma keeps_breakRelationship fuel oldParent child :
  preserves I (breakRelationship fuel oldParent child).
Proof.
  unfold breakRelationship, getNode.
  repeat first [simple apply keeps_breakRelationship_find | keeps_base].
Qed.

Lemma keeps_merge fuel parent child newArc : preserves I (merge fuel parent child newArc).
Proof.
  unfold merge. apply preserves_bind; [keeps_base | intros _].
  revert parent child newArc. induction fuel as [|fuel IH]; intros parent child newArc;
    simpl; [apply preserves_fail|].
  unfold getNode.
  repeat first [simple apply IH | simple apply keeps_breakRelationship | simple apply keeps_addRelationship
               | keeps_base].
Qed.

Lemma keeps_liftAll fuel rootNode : preserves I (liftAll fuel rootNode).
Proof.
  assert (forall c, preserves I (liftAll_lift c)) as Hlift.
  { intros c. unfold liftAll_lift, decLabelCount, setLabelCount, getLabelCount, getNode.
    repeat keeps_base. }
  unfold liftAll. apply preserves_bind; [simple apply Hlift | intros _].
  generalize (Some rootNode). induction fuel as [|fuel IH]; intros current; simpl;
    [apply preserves_fail|].
  unfold getNode. repeat first [simple apply IH | simple apply Hlift | keeps_base].
Qed.

Lemma keeps_findWeakNode strongNode : preserves I (findWeakNode strongNode).
Proof.
  unfold findWeakNode. apply preserves_bind; [unfold getNode; repeat keeps_base | intros sn].
  generalize (Z.to_nat (numOutOfTree sn - nextArc sn)). intros n.
  generalize (nextArc sn).
  induction n as [|n IH]; intros i; simpl.
  - repeat keeps_base.
  - unfold getNode, getArc.
    repeat first [simple apply IH | simple apply keeps_findWeakNode_take | keeps_base].
Qed.

Lemma keeps_checkChildren fuel curNode : preserves I (checkChildren fuel curNode).
Proof.
  unfold checkChildren. apply preserves_bind.
  - induction fuel as [|fuel IH]; simpl; [apply preserves_fail|].
    unfold getNode. repeat first [simple apply IH | keeps_base].
  - intros found. unfold decLabelCount, incLabelCount, setLabelCount, getLabelCount, getNode.
    repeat keeps_base.
Qed.

Lemma keeps_getHighestStrongRoot fuel : preserves I (getHighestStrongRoot fuel).
Proof.
  assert (forall fuel i, preserves I (getHighestStrongRoot_gap fuel i)) as Hgap.
  { intros f. induction f as [|f IH]; intros i; simpl; [apply preserves_fail|].
    unfold getRoot, updRoot, getNode.
    repeat first [simple apply IH | simple apply keeps_liftAll | keeps_base]. }
  assert (forall n i, preserves I (getHighestStrongRoot_scan fuel n i)) as Hscan.
  { intros n. induction n as [|n IH]; intros i; simpl; [apply preserves_ret|].
    unfold getRoot, updRoot, getNode, getLabelCount.
    repeat first [simple apply IH | simple apply Hgap | keeps_base]. }
  assert (forall fuel, preserves I (getHighestStrongRoot_promote fuel)) as Hprom.
  { intros f. induction f as [|f IH]; simpl; [apply preserves_fail|].
    unfold getRoot, updRoot, getNode, decLabelCount, incLabelCount, setLabelCount,
      getLabelCount.
    repeat first [simple apply IH | simple apply keeps_addToStrongBucket | keeps_base]. }
  unfold getHighestStrongRoot, getRoot, updRoot, getNode.
  repeat first [simple apply Hscan | simple apply Hprom | keeps_base].
Qed.

(** The two pushes change the excesses: what they keep is shown for each
    property on its own. *)
Hypothesis Hpush_up :
  forall fuel a c p r, preserves I (pushUpward fuel a c p r).
Hypothesis Hpush_down :
  forall fuel a c p r, preserves I (pushDownward fuel a c p r).

Lemma keeps_pushExcess fuel strongRoot : preserves I (pushExcess fuel strongRoot).
Proof.
  unfold pushExcess. apply preserves_bind.
  - generalize 1%Q. generalize strongRoot.
    induction fuel as [|fuel IH]; intros current prevEx; simpl; [apply preserves_fail|].
    unfold getNode, getArc.
    repeat first [simple apply IH | simple apply Hpush_up | simple apply Hpush_down | keeps_base].
  - intros r. unfold getNode.
    repeat first [simple apply keeps_addToStrongBucket | keeps_base].
Qed.

Lemma keeps_processRoot fuel strongRoot : preserves I (processRoot fuel strongRoot).
Proof.
  assert (forall fuel sr sn, preserves I (processRoot_walk fuel sr sn)) as Hwalk.
  { intros f. induction f as [|f IH]; intros sr sn; simpl; [apply preserves_fail|].
    unfold getNode.
    repeat first [simple apply IH | simple apply keeps_findWeakNode | simple apply keeps_merge
                 | simple apply keeps_pushExcess | simple apply keeps_checkChildren | keeps_base]. }
  unfold processRoot, getNode.
  repeat first [simple apply Hwalk | simple apply keeps_findWeakNode | simple apply keeps_merge
               | simple apply keeps_pushExcess | simple apply keeps_checkChildren
               | simple apply keeps_addToStrongBucket | keeps_base].
Qed.

Lemma keeps_pseudoflowPhase1 fuel : preserves I (pseudoflowPhase1 fuel).
Proof.
  induction fuel as [|fuel IH]; simpl; [apply preserves_fail|].
  repeat first [simple apply IH | simple apply keeps_getHighestStrongRoot | simple apply keeps_processRoot
               | keeps_base].
Qed.

End EngineKeeps.

(** *** The graph of the engine *)

Ltac graph_kept := intros; reflexivity.

Lemma graph_pushUpward P fuel a c p r :
  preserves (engine_inv node_id arc_datum P) (pushUpward fuel a c p r).
Proof.
  unfold pushUpward, getNode.
  repeat first
    [ simple apply keeps_updNode; graph_kept
    | simple apply keeps_updArc; graph_kept
    | simple apply keeps_addOutOfTreeNode; graph_kept
    | simple apply keeps_breakRelationship; graph_kept
    | simple apply keeps_addToStrongBucket; graph_kept
    | preserves_step
    | apply preserves_modify; let s := fresh in let H := fresh in intros s H; exact H ].
Qed.

Lemma graph_pushDownward P fuel a c p r :
  preserves (engine_inv node_id arc_datum P) (pushDownward fuel a c p r).
Proof.
  unfold pushDownward, getNode.
  repeat first
    [ simple apply keeps_updNode; graph_kept
    | simple apply keeps_updArc; graph_kept
    | simple apply keeps_addOutOfTreeNode; graph_kept
    | simple apply keeps_breakRelationship; graph_kept
    | simple apply keeps_addToStrongBucket; graph_kept
    | preserves_step
    | apply preserves_modify; let s := fresh in let H := fresh in intros s H; exact H ].
Qed.

Lemma graph_pseudoflowPhase1 P fuel :
  preserves (engine_inv node_id arc_datum P) (pseudoflowPhase1 fuel).
Proof.
  simple apply keeps_pseudoflowPhase1; try graph_kept.
  - apply graph_pushUpward.
  - apply graph_pushDownward.
Qed.

Lemma graph_createMemoryStructures P :
  preserves (engine_inv node_id arc_datum P) createMemoryStructures.
Proof.
  assert (forall nd, preserves (engine_inv node_id arc_datum P)
                       (createOutOfTree nd)) as Hcreate.
  { intros nd e u e' HI H. unfold createOutOfTree, getNode, setNode in H. inv_run.
    destruct (numAdjacent _ =? 0); inv_run; [done|].
    unfold engine_inv in *. simpl.
    match goal with
    | Hr : pread _ _ = Ok _, Hw : pwrite _ _ _ = Ok _ |- _ =>
        rewrite (map_awrite node_id _ _ _ _ _ Hr Hw eq_refl)
    end. done. }
  unfold createMemoryStructures, getArc, getNode, updRoot, setLabelCount.
  repeat first
    [ simple apply Hcreate
    | simple apply keeps_updArc; graph_kept
    | simple apply keeps_addOutOfTreeNode; graph_kept
    | preserves_step
    | apply preserves_modify; let s := fresh in let H := fresh in intros s H; exact H ].
Qed.

Lemma graph_simpleInitialization P :
  preserves (engine_inv node_id arc_datum P) simpleInitialization.
Proof.
  unfold simpleInitialization, getArc, getNode, incLabelCount, getLabelCount, setLabelCount.
  repeat first
    [ simple apply keeps_updNode; graph_kept
    | simple apply keeps_updArc; graph_kept
    | simple apply keeps_addToStrongBucket; graph_kept
    | preserves_step
    | apply preserves_modify; let s := fresh in let H := fresh in intros s H; exact H ].
Qed.

Lemma graph_freeMemorySolve P :
  preserves (engine_inv node_id arc_datum P) freeMemorySolve.
Proof.
  unfold freeMemorySolve, updRoot.
  repeat first
    [ simple apply keeps_updNode; graph_kept
    | preserves_step
    | apply preserves_modify; let s := fresh in let H := fresh in intros s H; exact H ].
Qed.


(** ** The steps of [solveProblem] *)

Lemma inEngine_bind {A B} (m : M Engine A) (k : A -> M Engine B) g :
  (x <- inEngine m ;; inEngine (k x)) g = inEngine (x <- m ;; k x) g.
Proof.
  unfold bind, inEngine. destruct (m (engine g)) as [[a e]|err]; [|done].
  simpl. by destruct (k a e) as [[b e']|err].
Qed.

Lemma solveProblem_start_Ok p m g u g1 :
  solveProblem_start p m g = Ok (u, g1) ->
  exists al e1,
    (if m =? 1 then reversed_arcs p = Ok al else al = p_arcList p)
    /\ (createMemoryStructures ;; simpleInitialization)
         (set_arcList al
            (set_sink (if m =? 1 then 0 else 1)
               (set_source (if m =? 1 then 1 else 0) (engine g)))) = Ok (tt, e1)
    /\ g1 = set_engine e1 g.
Proof.
  unfold solveProblem_start. intros H.
  apply bind_Ok in H as (u0 & g0 & H0 & H).
  apply bind_Ok in H as (u1 & g2 & H1 & H2).
  apply inEngine_Ok in H1 as (e1 & H1 & ->). apply inEngine_Ok in H2 as (e2 & H2 & ->).
  destruct u, u1.
  destruct (m =? 1).
  - apply bind_Ok in H0 as (? & ? & Ha & H0). apply inEngine_Ok in Ha as (? & Ha & ->).
    apply modify_Ok in Ha as ->.
    apply bind_Ok in H0 as (? & ? & Hb & H0). apply inEngine_Ok in Hb as (? & Hb & ->).
    apply modify_Ok in Hb as ->.
    apply bind_Ok in H0 as (al & ? & Hc & H0). apply liftR_Ok in Hc as [Hc ->].
    apply inEngine_Ok in H0 as (? & H0 & ->). apply modify_Ok in H0 as ->.
    exists al, e2. split; [done|]. split; [|done].
    unfold bind. simpl in H1. rewrite H1. exact H2.
  - apply bind_Ok in H0 as (? & ? & Ha & H0). apply inEngine_Ok in Ha as (? & Ha & ->).
    apply modify_Ok in Ha as ->.
    apply bind_Ok in H0 as (? & ? & Hb & H0). apply inEngine_Ok in Hb as (? & Hb & ->).
    apply modify_Ok in Hb as ->.
    apply inEngine_Ok in H0 as (? & H0 & ->). apply modify_Ok in H0 as ->.
    exists (p_arcList p), e2. split; [done|]. split; [|done].
    unfold bind. simpl in H1. rewrite H1. exact H2.
Qed.

(** The marking of the indicator at the end of [solveProblem]. *)
Lemma solveProblem_Ok fuel p m g p' g' :
  solveProblem fuel p m g = Ok (p', g') ->
  let p0 := set_cutValue 0%Q (set_cutConstant 0%Q (set_cutMultiplier 0%Q p)) in
  (numNodesInList p = 2
   /\ solveProblem_empty (numNodesSuper g) p0 = Ok (tt, p'))
  \/ (numNodesInList p <> 2
      /\ exists al e1 e2 e3 ind p2,
           (if m =? 1 then reversed_arcs p = Ok al else al = p_arcList p)
           /\ (createMemoryStructures ;; simpleInitialization)
                (set_arcList al
                   (set_sink (if m =? 1 then 0 else 1)
                      (set_source (if m =? 1 then 1 else 0)
                         (set_numArcs (p_numArcs p)
                            (set_numNodes (numNodesInList p)
                               (set_nodesList (nodeList p) (engine g)))))))
              = Ok (tt, e1)
           /\ pseudoflowPhase1 fuel e1 = Ok (tt, e2)
           /\ ((if m =? 1
                then mark_labels (nodesList e2) (numNodesInList p) 0 1
                else mark_labels (nodesList e2) (numNodesInList p) 1 0) ;;
               mark_set (sourceSet p) (numSourceSet p) 1 ;;
               mark_set (sinkSet p) (numSinkSet p) 0)
                (malloc (u32 (u32 (u32 (numNodesInList p + numSourceSet p)
                                   + numSinkSet p) - 2)) 0)
              = Ok (tt, ind)
           /\ evaluateCut
                (set_optimalSourceSetIndicator (Some ind)
                   (let q := set_nodeList (nodesList e2) p0 in
                    if m =? 1 then q else set_p_arcList (arcList e2) q))
              = Ok (tt, p2)
           /\ freeMemorySolve (if m =? 1 then set_arcList [] e2 else e2) = Ok (tt, e3)
           /\ p' = set_nodeList (nodesList e3) p2).
Proof.
  intros H p0. unfold solveProblem in H.
  apply bind_Ok in H as ([] & g1 & H1 & H). apply inEngine_Ok in H1 as (? & H1 & ->).
  apply modify_Ok in H1 as ->.
  apply bind_Ok in H as ([] & g2 & H2 & H). apply inEngine_Ok in H2 as (? & H2 & ->).
  apply modify_Ok in H2 as ->.
  apply bind_Ok in H as ([] & g3 & H3 & H). apply inEngine_Ok in H3 as (? & H3 & ->).
  apply modify_Ok in H3 as ->.
  apply bind_Ok in H as (nn & g4 & H4 & H). apply inEngine_Ok in H4 as (? & H4 & ->).
  apply gets_Ok in H4 as [-> ->]. simpl in H.
  destruct (numNodesInList p =? 2) eqn:E2.
  - left. split; [lia|].
    apply bind_Ok in H as (n & g5 & H5 & H). apply gets_Ok in H5 as [-> ->].
    apply run_on_Ok in H as [[a H] ->]. destruct a. exact H.
  - right. split; [lia|]. subst p0.
    destruct (m =? 1) eqn:Em; simpl in H |- *.
    all: apply bind_Ok in H as ([] & g5 & H5 & H);
      apply solveProblem_start_Ok in H5 as (al & e1 & Hal & H5 & ->);
      rewrite Em in Hal, H5;
      apply bind_Ok in H as ([] & g6 & H6 & H); apply inEngine_Ok in H6 as (e2 & H6 & ->);
      apply bind_Ok in H as (nl & g7 & H7 & H); apply inEngine_Ok in H7 as (? & H7 & ->);
      apply gets_Ok in H7 as [-> ->];
      apply bind_Ok in H as (al2 & g8 & H8 & H); apply inEngine_Ok in H8 as (? & H8 & ->);
      apply gets_Ok in H8 as [-> ->];
      apply bind_Ok in H as (ind & g9 & H9 & H); apply run_on_Ok in H9 as [[a H9] ->];
      destruct a;
      apply bind_Ok in H as (p2 & g10 & H10 & H); apply run_on_Ok in H10 as [[a H10] ->];
      destruct a;
      apply bind_Ok in H as ([] & g11 & H11 & H);
      apply bind_Ok in H as ([] & g12 & H12 & H); apply inEngine_Ok in H12 as (e3 & H12 & ->);
      apply bind_Ok in H as (nl3 & g13 & H13 & H); apply inEngine_Ok in H13 as (? & H13 & ->);
      apply gets_Ok in H13 as [-> ->]; apply ret_Ok in H as [-> ->];
      exists al, e1, e2, e3, ind, p2; simpl in *;
      (split; [exact Hal|]); (split; [exact H5|]); (split; [exact H6|]);
      (split; [exact H9|]); (split; [exact H10|]); (split; [|reflexivity]).
    + apply inEngine_Ok in H11 as (? & H11 & ->). apply modify_Ok in H11 as ->.
      exact H12.
    + apply ret_Ok in H11 as [_ ->]. exact H12.
Qed.

Lemma preserves_problem_graph_evaluateCut c :
  preserves (fun p => problem_graph p = c) evaluateCut.
Proof.
  unfold evaluateCut, add_to_cut, originalIndexFrom_of, originalIndexTo_of. preserves_auto.
Qed.

Lemma preserves_problem_graph_solveProblem_empty c n :
  preserves (fun p => problem_graph p = c) (solveProblem_empty n).
Proof.
  unfold solveProblem_empty, originalIndexFrom_of, originalIndexTo_of. preserves_auto.
Qed.

Lemma reversed_arcs_length p al :
  reversed_arcs p = Ok al -> length al = Z.to_nat (p_numArcs p).
Proof.
  unfold reversed_arcs, run_on.
  destruct (for_range _ _ _ _) as [[u l]|e] eqn:E; [|done]. intros [= <-].
  assert (preserves (fun l : list Arc => length l = Z.to_nat (p_numArcs p))
            (for_range 0 (p_numArcs p) (fun i =>
               a <- liftR (aread (p_arcList p) i) ;;
               l <- get ;;
               l <- liftR (arc_upd l i initializeArc) ;;
               l <- liftR (arc_upd l i (set_from (to a))) ;;
               l <- liftR (arc_upd l i (set_to (from a))) ;;
               l <- liftR (arc_upd l i (set_capacity (capacity a))) ;;
               modify (fun _ => l)))) as Hp.
  { apply preserves_for_range. intros i s a s' Hs H. inv_run.
    unfold arc_upd in *.
    repeat match goal with
    | H : match aread ?l ?i with _ => _ end = Ok _ |- _ =>
        destruct (aread l i); [|done]; apply awrite_inv in H as [_ ->]
    end.
    by rewrite !length_insert. }
  eapply Hp; [|exact E]. unfold malloc. by rewrite length_replicate.
Qed.

Lemma solveProblem_graph fuel p m g p' g' :
  solveProblem fuel p m g = Ok (p', g') -> problem_graph p' = problem_graph p.
Proof.
  intros H. apply solveProblem_Ok in H as [(_ & H)|(_ & H)].
  - eapply (preserves_problem_graph_solveProblem_empty (problem_graph p)); [|exact H].
    reflexivity.
  - destruct H as (al & e1 & e2 & e3 & ind & p2 & Hal & H1 & H2 & _ & Hcut & Hfree & ->).
    apply bind_Ok in H1 as ([] & e0 & Hc & Hs).
    set (ids := map node_id (nodeList p)). set (arcs := map arc_datum al).
    assert (engine_inv node_id arc_datum (same_graph ids arcs) e2) as [Hn2 Ha2].
    { eapply graph_pseudoflowPhase1; [|exact H2].
      eapply graph_simpleInitialization; [|exact Hs].
      eapply graph_createMemoryStructures; [|exact Hc]. done. }
    assert (engine_inv node_id arc_datum (fun l _ => l = ids) e3) as Hn3.
    { eapply graph_freeMemorySolve; [|exact Hfree]. by destruct (m =? 1). }
    unfold engine_inv in Hn3.
    pose proof (preserves_problem_graph_evaluateCut _ _ _ _ eq_refl Hcut) as Hg.
    clear Hcut. rename Hg into Hcut.
    unfold problem_graph in *. simpl in *.
    injection Hcut as G1 G2 G3 G4 G5 G6 G7 G8 G9 G10.
    rewrite G1, G2, G3, G4, G5, G6, G7, G8, Hn3.
    destruct (m =? 1); simpl in *.
    + by rewrite G10.
    + rewrite G10, Ha2. subst arcs. by rewrite Hal.
Qed.

(** X5.  [solveProblem] leaves the graph of the problem as it finds it:
    the sizes of the node list, of the two frozen sets and of the arc array,
    the solved flag and the lambda value, the frozen sets themselves, which
    node each cell of the node list holds (original index, number, number of
    arcs) and the ends, the capacity and the capacity function of each arc.
    What it changes is the working fields of the nodes and of the arcs
    (labels, excesses, flows, tree pointers), the three cut fields and the
    indicator. *)
Theorem solveProblem_keeps_graph fuel p m g p' g' :
  solveProblem fuel p m g = Ok (p', g') ->
  numNodesInList p' = numNodesInList p
  /\ numSourceSet p' = numSourceSet p /\ numSinkSet p' = numSinkSet p
  /\ p_numArcs p' = p_numArcs p
  /\ solved p' = solved p /\ p_lambdaValue p' = p_lambdaValue p
  /\ sourceSet p' = sourceSet p /\ sinkSet p' = sinkSet p
  /\ map node_id (nodeList p') = map node_id (nodeList p)
  /\ map arc_datum (p_arcList p') = map arc_datum (p_arcList p).
Proof.
  intros H. apply solveProblem_graph in H. unfold problem_graph in H.
  injection H as H1 H2 H3 H4 H5 H6 H7 H8 H9 H10. split_and!; done.
Qed.

(** A problem with the graph of a well-formed problem is well formed. *)
Lemma problem_graph_ok N s t p p' :
  problem_graph p' = problem_graph p ->
  (problem_ok N p -> problem_ok N p') /\ (problem_ends s t p -> problem_ends s t p').
Proof.
  unfold problem_graph. intros [= E1 E2 E3 _ _ _ E7 E8 E9 _].
  assert (length (nodeList p') = length (nodeList p)) as EL.
  { by rewrite <- (length_map node_id), E9, length_map. }
  assert (idx (drop 2 (nodeList p')) = idx (drop 2 (nodeList p))) as Ed.
  { unfold idx. rewrite <- !skipn_map.
    change originalIndex with (fun nd => fst (fst (node_id nd))).
    rewrite <- !(map_map node_id (fun x => fst (fst x))). by rewrite E9. }
  unfold problem_ok, problem_ends, problem_nodes.
  by rewrite E1, E2, E3, E7, E8, EL, Ed.
Qed.



(** ** The marking of the indicator *)

(** A loop that writes, for each node of [arr] from the cell [i0] on, the
    value [val] of the node at the original index of the node. *)
Lemma mark_loop (arr : list Node) (val : Node -> uint) (n : nat) (i0 : Z)
    (ind : list uint) u ind' :
  for_loop n i0 (fun i =>
     nd <- liftR (aread arr i) ;;
     ind <- get ;;
     ind <- liftR (awrite ind (originalIndex nd) (val nd)) ;;
     modify (fun _ => ind)) ind = Ok (u, ind') ->
  0 <= i0 ->
  let ns := take n (drop (Z.to_nat i0) arr) in
  length ns = n
  /\ length ind' = length ind
  /\ Forall (fun nd => 0 <= originalIndex nd < Z.of_nat (length ind)) ns
  /\ forall j, 0 <= j ->
       ((forall nd, nd ∈ ns -> originalIndex nd <> j) ->
        ind' !! Z.to_nat j = ind !! Z.to_nat j)
       /\ (forall nd0, nd0 ∈ ns -> originalIndex nd0 = j ->
           exists nd, nd ∈ ns /\ originalIndex nd = j
                      /\ ind' !! Z.to_nat j = Some (val nd)).
Proof.
  intros H Hi0.
  set (l := drop (Z.to_nat i0) arr).
  apply (for_loop_ind
           (fun k ind1 =>
              length (take k l) = k
              /\ length ind1 = length ind
              /\ Forall (fun nd => 0 <= originalIndex nd < Z.of_nat (length ind)) (take k l)
              /\ forall j, 0 <= j ->
                   ((forall nd, nd ∈ take k l -> originalIndex nd <> j) ->
                    ind1 !! Z.to_nat j = ind !! Z.to_nat j)
                   /\ (forall nd0, nd0 ∈ take k l -> originalIndex nd0 = j ->
                       exists nd, nd ∈ take k l /\ originalIndex nd = j
                                  /\ ind1 !! Z.to_nat j = Some (val nd)))
           _ _ _ _ _ _ H).
  - rewrite take_0. split_and!; try done. intros j Hj. split; [done|].
    intros nd0 Hin. by apply elem_of_nil in Hin.
  - intros k ind1 u1 ind2 Hk (Hlen & Hl1 & Hall & Hj) Hb.
    apply bind_Ok in Hb as (nd & ? & Hr & Hb). apply liftR_Ok in Hr as [Hr ->].
    rewrite bind_get in Hb.
    apply bind_Ok in Hb as (ind3 & ? & Hw & Hb). apply liftR_Ok in Hw as [Hw ->].
    apply modify_Ok in Hb as ->.
    apply aread_Ok in Hr as [_ Hr]. apply awrite_inv in Hw as [Hb ->].
    assert (l !! k = Some nd) as Hlk.
    { unfold l. rewrite lookup_drop. rewrite <- Hr. f_equal. lia. }
    rewrite (take_S_r _ _ _ Hlk).
    split_and!.
    + rewrite length_app, Hlen. simpl. lia.
    + by rewrite length_insert.
    + apply Forall_app. split; [done|]. constructor; [lia | constructor].
    + intros j Hj0. destruct (Hj j Hj0) as [Hout Hin]. split.
      * intros Hne. rewrite list_lookup_insert_ne.
        -- apply Hout. intros nd1 H1. apply Hne. apply elem_of_app. by left.
        -- assert (originalIndex nd <> j)
             by (apply Hne; apply elem_of_app; right; by apply list_elem_of_singleton).
           lia.
      * intros nd0 Hnd0 Hoi.
        destruct (decide (originalIndex nd = j)) as [Heq|Hne].
        -- exists nd. split; [apply elem_of_app; right; by apply list_elem_of_singleton|].
           split; [done|]. rewrite <- Heq. apply list_lookup_insert_eq. lia.
        -- apply elem_of_app in Hnd0 as [Hnd0|Hnd0].
           ++ destruct (Hin nd0 Hnd0 Hoi) as (nd1 & H1 & H2 & H3).
              exists nd1. split; [apply elem_of_app; by left|]. split; [done|].
              rewrite list_lookup_insert_ne by lia. done.
           ++ apply list_elem_of_singleton in Hnd0 as ->. done.
Qed.

Lemma elem_of_idx j l : j ∈ idx l <-> exists nd, nd ∈ l /\ originalIndex nd = j.
Proof.
  unfold idx. change (map originalIndex l) with (originalIndex <$> l).
  rewrite list_elem_of_fmap. split; intros (nd & H1 & H2); exists nd; done.
Qed.

Lemma marked_nil val ind : marked [] val ind ind.
Proof.
  split; [done|]. intros j Hj. split; [done|]. intros nd0 H. by apply elem_of_nil in H.
Qed.

(** The three markings of [solveProblem], one after the other: the undecided
    nodes by their labels, then 1 for the source set, then 0 for the sink
    set. *)
Lemma marking_Ok N (und src snk : list Node) (valU : Node -> uint) ind0 ind1 ind2 ind3 :
  0 <= N ->
  length ind0 = Z.to_nat N ->
  idx src ++ idx snk ++ idx und ≡ₚ seqZ 0 N ->
  (forall nd, valU nd = 0 \/ valU nd = 1) ->
  marked und valU ind0 ind1 ->
  marked src (fun _ => 1) ind1 ind2 ->
  marked snk (fun _ => 0) ind2 ind3 ->
  indicator_of N (idx src) (idx snk) ind3.
Proof.
  intros HN Hlen Hperm Hval [HlU HU] [HlS HS] [HlT HT].
  unfold indicator_of. unfold uint in *.
  assert (NoDup (idx src ++ idx snk ++ idx und)) as Hnd.
  { rewrite Hperm. apply NoDup_seqZ. }
  apply NoDup_app in Hnd as (_ & Hsrc & Hnd).
  apply NoDup_app in Hnd as (_ & Hsnk & _).
  assert (forall j, j ∈ idx src ++ idx snk ++ idx und -> 0 <= j < N) as Hrange.
  { intros j Hj. rewrite Hperm in Hj. apply elem_of_seqZ in Hj. lia. }
  assert (forall j, j ∈ idx snk -> ind3 !! Z.to_nat j = Some 0) as H0.
  { intros j Hj.
    assert (0 <= j) as Hj0 by (apply Hrange; rewrite !elem_of_app; auto).
    apply elem_of_idx in Hj as (nd0 & Hin & Hoi).
    destruct (proj2 (HT j Hj0) nd0 Hin Hoi) as (nd & _ & _ & H). exact H. }
  assert (forall j, j ∈ idx src -> ind3 !! Z.to_nat j = Some 1) as H1.
  { intros j Hj.
    assert (0 <= j) as Hj0 by (apply Hrange; rewrite !elem_of_app; auto).
    etrans.
    - apply (proj1 (HT j Hj0)).
      intros nd Hnd' Hoi. apply (Hsrc j Hj). rewrite elem_of_app. left.
      apply elem_of_idx. eauto.
    - apply elem_of_idx in Hj as (nd0 & Hin & Hoi).
      destruct (proj2 (HS j Hj0) nd0 Hin Hoi) as (nd & _ & _ & H). exact H. }
  split; [lia|]. split; [|done].
  apply Forall_lookup. intros i v Hi.
  assert (i < Z.to_nat N)%nat as Hlt.
  { apply lookup_lt_Some in Hi. lia. }
  assert (Z.of_nat i ∈ idx src ++ idx snk ++ idx und) as Hin.
  { rewrite Hperm. apply elem_of_seqZ. lia. }
  rewrite <- (Nat2Z.id i) in Hi.
  apply elem_of_app in Hin as [Hin|Hin].
  { rewrite (H1 _ Hin) in Hi. injection Hi as <-. by right. }
  apply elem_of_app in Hin as [Hin|Hin].
  { rewrite (H0 _ Hin) in Hi. injection Hi as <-. by left. }
  assert (0 <= Z.of_nat i) as Hi0 by lia.
  assert (ind3 !! Z.to_nat (Z.of_nat i) = ind2 !! Z.to_nat (Z.of_nat i)) as E3.
  { apply (proj1 (HT _ Hi0)).
    intros nd Hnd' Hoi. apply (Hsnk (Z.of_nat i)); [|exact Hin].
    apply elem_of_idx. eauto. }
  assert (ind2 !! Z.to_nat (Z.of_nat i) = ind1 !! Z.to_nat (Z.of_nat i)) as E2.
  { apply (proj1 (HS _ Hi0)).
    intros nd Hnd' Hoi. apply (Hsrc (Z.of_nat i)).
    - apply elem_of_idx. eauto.
    - rewrite elem_of_app. by right. }
  apply elem_of_idx in Hin as (nd0 & Hin & Hoi).
  destruct (proj2 (HU _ Hi0) nd0 Hin Hoi) as (nd & _ & _ & H).
  assert (Some v = Some (valU nd)) as Hv by congruence.
  injection Hv as ->. apply Hval.
Qed.

Lemma mark_set_marked set n v ind u ind' :
  length set = Z.to_nat n ->
  mark_set set n v ind = Ok (u, ind') ->
  marked set (fun _ => v) ind ind'.
Proof.
  intros Hlen H. unfold mark_set, for_range in H.
  apply (mark_loop set (fun _ => v)) in H; [|lia].
  rewrite Z.sub_0_r, drop_0, <- Hlen, firstn_all in H.
  destruct H as (_ & Hl & _ & H). by split.
Qed.

Lemma mark_labels_marked nodes n above below ind u ind' :
  length nodes = Z.to_nat n -> 2 <= n ->
  mark_labels nodes n above below ind = Ok (u, ind') ->
  marked (drop 2 nodes) (fun nd => if n <=? label nd then above else below) ind ind'.
Proof.
  intros Hlen Hn H. unfold mark_labels, for_range in H.
  apply (mark_loop nodes (fun nd => if n <=? label nd then above else below)) in H; [|lia].
  change (Z.to_nat 2) with 2%nat in H.
  rewrite take_ge in H by (rewrite length_drop; lia).
  destruct H as (_ & Hl & _ & H). by split.
Qed.

Lemma preserves_indicator_evaluateCut c :
  preserves (fun p => optimalSourceSetIndicator p = c) evaluateCut.
Proof.
  unfold evaluateCut, add_to_cut, originalIndexFrom_of, originalIndexTo_of. preserves_auto.
Qed.

Lemma solveProblem_empty_Ok n p u p' :
  solveProblem_empty n p = Ok (u, p') ->
  exists ind,
    (mark_set (sourceSet p) (numSourceSet p) 1 ;;
     mark_set (sinkSet p) (numSinkSet p) 0) (malloc n 0) = Ok (tt, ind)
    /\ optimalSourceSetIndicator p' = Some ind.
Proof.
  unfold solveProblem_empty. intros H.
  apply bind_Ok in H as (p1 & ? & H1 & H). apply get_Ok in H1 as [-> ->].
  apply bind_Ok in H as (ind & ? & H1 & H). apply run_on_Ok in H1 as [[[] H1] ->].
  apply bind_Ok in H as ([] & ? & H2 & H). apply modify_Ok in H2 as ->.
  exists ind. split; [exact H1|].
  revert H.
  match goal with
  | |- ?m ?s = Ok (?a, ?s') -> _ =>
      intros H;
      apply (fun Hp : preserves (fun p => optimalSourceSetIndicator p = Some ind) m =>
               Hp s a s' eq_refl H)
  end.
  unfold originalIndexFrom_of, originalIndexTo_of. preserves_auto.
Qed.

Lemma u32_node_count a b c : u32 (u32 (u32 (a + b) + c) - 2) = u32 (a + b + c - 2).
Proof.
  unfold u32. rewrite Zplus_mod_idemp_l, Zminus_mod_idemp_l. done.
Qed.

Lemma problem_ok_count N p :
  problem_ok N p ->
  (Z.to_nat (numSourceSet p) + Z.to_nat (numSinkSet p) + (Z.to_nat (numNodesInList p) - 2)
   = Z.to_nat N)%nat.
Proof.
  intros (? & ? & ? & L1 & L2 & L3 & Hp). apply Permutation_length in Hp.
  unfold problem_nodes, idx in Hp.
  rewrite !length_app, !length_map, length_drop, length_seqZ in Hp. lia.
Qed.

Lemma solveProblem_indicator_of fuel p m g p' g' N :
  problem_ok N p -> numNodesSuper g = N -> 0 <= N < 2 ^ 32 ->
  solveProblem fuel p m g = Ok (p', g') ->
  exists ind,
    optimalSourceSetIndicator p' = Some ind
    /\ indicator_of N (idx (sourceSet p)) (idx (sinkSet p)) ind.
Proof.
  intros Hok HN Hb H.
  pose proof (problem_ok_count _ _ Hok) as Hcount.
  destruct Hok as (HS & HT & HL & L1 & L2 & L3 & Hperm). unfold problem_nodes in Hperm.
  apply solveProblem_Ok in H as [(Hn & H)|(Hn & H)].
  - apply solveProblem_empty_Ok in H as (ind & H & Hind). simpl in H.
    exists ind. split; [exact Hind|].
    apply bind_Ok in H as ([] & ind1 & H1 & H2).
    apply mark_set_marked in H1; [|done]. apply mark_set_marked in H2; [|done].
    eapply (marking_Ok N (drop 2 (nodeList p)) _ _ (fun _ => 0) (malloc (numNodesSuper g) 0)
              (malloc (numNodesSuper g) 0));
      [lia | | exact Hperm | by left | | exact H1 | exact H2].
    + unfold malloc. rewrite length_replicate. congruence.
    + rewrite drop_ge by lia. apply marked_nil.
  - destruct H as (al & e1 & e2 & e3 & ind & p2 & Hal & H1 & H2 & Hm & Hcut & _ & ->).
    apply bind_Ok in H1 as ([] & e0 & Hc & Hs).
    assert (engine_inv node_id arc_datum (fun l _ => l = map node_id (nodeList p)) e2)
      as Hn2.
    { eapply graph_pseudoflowPhase1; [|exact H2].
      eapply graph_simpleInitialization; [|exact Hs].
      eapply graph_createMemoryStructures; [|exact Hc]. done. }
    unfold engine_inv in Hn2.
    assert (length (nodesList e2) = Z.to_nat (numNodesInList p)) as L3'.
    { rewrite <- L3, <- (length_map node_id), Hn2. by rewrite length_map. }
    assert (idx (drop 2 (nodesList e2)) = idx (drop 2 (nodeList p))) as Hidx.
    { unfold idx. rewrite <- !skipn_map.
      change originalIndex with (fun nd => fst (fst (node_id nd))).
      rewrite <- !(map_map node_id (fun x => fst (fst x))). by rewrite Hn2. }
    pose proof (preserves_indicator_evaluateCut _ _ _ _ eq_refl Hcut) as Hind.
    exists ind. split; [exact Hind|].
    rewrite u32_node_count, u32_small in Hm by lia.
    apply bind_Ok in Hm as ([] & ind1 & M1 & Hm).
    apply bind_Ok in Hm as ([] & ind2 & M2 & M3).
    apply mark_set_marked in M2; [|done]. apply mark_set_marked in M3; [|done].
    rewrite <- Hidx in Hperm.
    destruct (m =? 1).
    + apply mark_labels_marked in M1; [|done|done].
      eapply (marking_Ok N); [lia | | exact Hperm | | exact M1 | exact M2 | exact M3].
      * unfold malloc. rewrite length_replicate. lia.
      * intros nd. simpl. destruct (_ <=? _); auto.
    + apply mark_labels_marked in M1; [|done|done].
      eapply (marking_Ok N); [lia | | exact Hperm | | exact M1 | exact M2 | exact M3].
      * unfold malloc. rewrite length_replicate. lia.
      * intros nd. simpl. destruct (_ <=? _); auto.
Qed.

(** X6.  When [solveProblem] returns on a well-formed problem on a graph
    of [N] nodes, the problem is still well formed, and the indicator left in
    it has [N] cells, each 0 or 1; it has 1 at every node frozen on the
    source side and 0 at every node frozen on the sink side. *)
Theorem solveProblem_indicator fuel p m g p' g' N :
  problem_ok N p -> numNodesSuper g = N -> 0 <= N < 2 ^ 32 ->
  solveProblem fuel p m g = Ok (p', g') ->
  problem_ok N p'
  /\ exists ind,
       optimalSourceSetIndicator p' = Some ind
       /\ indicator_of N (idx (sourceSet p')) (idx (sinkSet p')) ind.
Proof.
  intros Hok HN Hb H.
  pose proof (solveProblem_graph _ _ _ _ _ _ H) as Hg.
  split; [by apply (problem_graph_ok N 0 0 _ _ Hg)|].
  unfold problem_graph in Hg. injection Hg as _ _ _ _ _ _ -> -> _ _.
  by apply (solveProblem_indicator_of fuel p m g p' g').
Qed.

(** ** The contraction keeps the nodes *)

Lemma placed_perm lowInd highInd l :
  Forall (fun nd => exists pl, placement lowInd highInd nd = Ok pl) l ->
  placed InSourceSet lowInd highInd l ++ placed InSinkSet lowInd highInd l
    ++ placed Undecided lowInd highInd l ≡ₚ idx l.
Proof.
  unfold idx. induction 1 as [|nd l [pl Hpl] _ IH]; simpl; [done|].
  rewrite Hpl. destruct pl; simpl.
  - by rewrite IH.
  - symmetry. apply Permutation_cons_app. by symmetry.
  - rewrite app_assoc. symmetry. apply Permutation_cons_app.
    rewrite <- app_assoc. by symmetry.
Qed.

Lemma preserves_problem_sizes_copyArcNew c oldNodes nm old new :
  preserves (fun p => problem_sizes p = c) (copyArcNew oldNodes nm old new).
Proof. unfold copyArcNew. preserves_auto. Qed.

Lemma preserves_problem_sizes_copyArcAdd c old new :
  preserves (fun p => problem_sizes p = c) (copyArcAdd old new).
Proof. unfold copyArcAdd. preserves_auto. Qed.

Lemma preserves_problem_sizes_evaluateCapacities c g :
  preserves (fun p => problem_sizes p = c) (evaluateCapacities g).
Proof. unfold evaluateCapacities. preserves_auto. Qed.

Lemma preserves_problem_sizes_contractProblem_arcs c old :
  preserves (fun f => problem_sizes (problem f) = c) (contractProblem_arcs old).
Proof.
  unfold contractProblem_arcs, newIndexFrom_of, newIndexTo_of.
  repeat first
    [ apply (preserves_onProblem (fun p => problem_sizes p = c))
    | apply preserves_problem_sizes_copyArcNew
    | apply preserves_problem_sizes_copyArcAdd
    | preserves_step
    | lazymatch goal with
      | |- preserves _ (modify _) =>
          apply preserves_modify; let s := fresh in let H := fresh in
          intros s H; exact H
      end ].
Qed.

Lemma preserves_problem_sizes_contractProblem_nodes c old lowInd highInd :
  preserves (fun f => problem_sizes (problem f) = c)
    (contractProblem_nodes old lowInd highInd).
Proof.
  unfold contractProblem_nodes, contractProblem_copy_sets, contractProblem_place,
    new_sourceSet_node, new_sinkSet_node, new_nodeList_node, set_nodeMap_at.
  repeat first
    [ apply (preserves_onProblem (fun p => problem_sizes p = c))
    | preserves_step
    | lazymatch goal with
      | |- preserves _ (modify _) =>
          apply preserves_modify; let s := fresh in let H := fresh in
          intros s H; exact H
      end ].
Qed.

(** The node arrays of the problem [contractProblem] builds: what they hold,
    and that their counters are their sizes. *)
Lemma contractProblem_sets g old lambda lowInd highInd new :
  contractProblem g old lambda lowInd highInd = Ok new ->
  0 <= numSourceSet old -> 0 <= numSinkSet old -> 2 <= numNodesInList old ->
  numSourceSet old + numNodesInList old < 2 ^ 32 ->
  numSinkSet old + numNodesInList old < 2 ^ 32 ->
  let und := undecided_nodes old in
  Forall (fun nd => exists pl, placement lowInd highInd nd = Ok pl) und
  /\ idx (sourceSet new)
     = idx (take (Z.to_nat (numSourceSet old)) (sourceSet old))
       ++ placed InSourceSet lowInd highInd und
  /\ idx (sinkSet new)
     = idx (take (Z.to_nat (numSinkSet old)) (sinkSet old))
       ++ placed InSinkSet lowInd highInd und
  /\ idx (nodeList new) = [-1; -2] ++ placed Undecided lowInd highInd und
  /\ 0 <= numSourceSet new /\ 0 <= numSinkSet new /\ 2 <= numNodesInList new
  /\ length (sourceSet new) = Z.to_nat (numSourceSet new)
  /\ length (sinkSet new) = Z.to_nat (numSinkSet new)
  /\ length (nodeList new) = Z.to_nat (numNodesInList new).
Proof.
  intros H HS HT HN HSb HTb und. unfold contractProblem in H. unfold idx.
  match type of H with
  | match ?run ?f0 with _ => _ end = _ =>
      destruct (run f0) as [[[] f4]|e] eqn:Hrun; [|done]
  end.
  injection H as <-.
  apply bind_Ok in Hrun as ([] & f1 & Hsizes & Hrun).
  apply bind_Ok in Hrun as ([] & f2 & Hnodes & Hrun).
  apply bind_Ok in Hrun as ([] & f3 & Harcs & Heval).
  pose proof (preserves_problem_sizes_contractProblem_nodes _ old lowInd highInd
                _ _ _ eq_refl Hnodes) as Hsz2.
  apply bind_Ok in Hnodes as ([] & fa & Hcopy & Hplace).
  (* the sizes *)
  pose proof (preserves_cursors_contractProblem_sizes _ old lowInd highInd
                _ _ _ eq_refl Hsizes) as Hcur.
  apply contractProblem_sizes_Ok in Hsizes as (Hlen & Hall & HnS & HnT & HnU);
    try done.
  simpl in Hcur, HnS, HnT. injection Hcur as Hc1 Hc2 Hc3.
  (* the frozen sets *)
  apply contractProblem_copy_sets_Ok in Hcopy
    as (HlS & HlT & HlU & HmS & HmT & HmU & Hd1 & Hd2 & Hd3).
  (* the undecided nodes *)
  pose proof (contractProblem_place_loop old lowInd highInd fa tt f2
    (fun pl => match pl with
               | InSourceSet => numSourceSet old
               | InSinkSet => numSinkSet old
               | Undecided => 2
               end)
    (fun pl => match pl with
               | InSourceSet =>
                   map originalIndex (take (Z.to_nat (numSourceSet old)) (sourceSet old))
               | InSinkSet =>
                   map originalIndex (take (Z.to_nat (numSinkSet old)) (sinkSet old))
               | Undecided => [-1; -2]
               end) Hplace) as Hloop.
  assert (forall pl, let '(c, arr) := track pl f2 in
            map originalIndex arr
            = match pl with
              | InSourceSet =>
                  map originalIndex (take (Z.to_nat (numSourceSet old)) (sourceSet old))
              | InSinkSet =>
                  map originalIndex (take (Z.to_nat (numSinkSet old)) (sinkSet old))
              | Undecided => [-1; -2]
              end ++ placed pl lowInd highInd und
            /\ length arr = length (track pl fa).2) as Hsets.
  { intros pl. destruct (Hloop ltac:(intros []; simpl; split_and!; try done; try lia; congruence) pl)
      as (Hc & Hl & Hm).
    destruct (track pl f2) as [c arr] eqn:E. simpl in Hc, Hl, Hm.
    split; [|done].
    rewrite take_ge in Hm; [done|].
    rewrite Hl, Hc. subst und. destruct pl; simpl; lia. }
  pose proof (Hsets InSourceSet) as [H1 L1]. pose proof (Hsets InSinkSet) as [H2 L2].
  pose proof (Hsets Undecided) as [H3 L3]. simpl in H1, H2, H3, L1, L2, L3.
  (* the arcs and the capacities *)
  pose proof (preserves_node_sets_contractProblem_arcs _ old _ _ _ eq_refl Harcs) as E3.
  pose proof (preserves_problem_sizes_contractProblem_arcs _ old _ _ _ eq_refl Harcs) as S3.
  apply onProblem_Ok in Heval as (p4 & Heval & ->).
  pose proof (preserves_node_sets_evaluateCapacities _ g _ _ _ eq_refl Heval) as E4.
  pose proof (preserves_problem_sizes_evaluateCapacities _ g _ _ _ eq_refl Heval) as S4.
  simpl. unfold node_sets in E3, E4. injection E3 as G1 G2 G3. injection E4 as K1 K2 K3.
  unfold problem_sizes in Hsz2, S3, S4.
  injection Hsz2 as Z1 Z2 Z3. injection S3 as Y1 Y2 Y3. injection S4 as X1 X2 X3.
  assert (length (nodeList p4) = length (nodeList (problem f2))) as LU.
  { rewrite <- (length_map originalIndex (nodeList p4)), K3, G3. by rewrite length_map. }
  rewrite K1, K2, K3, G1, G2, G3, LU, X1, X2, X3, Y1, Y2, Y3, Z1, Z2, Z3.
  rewrite L1, L2, L3, HlS, HlT, HlU.
  split_and!; try done; lia.
Qed.

Lemma contractProblem_problem_ok N g old lambda lowInd highInd new :
  problem_ok N old -> N + 2 < 2 ^ 32 ->
  contractProblem g old lambda lowInd highInd = Ok new ->
  problem_ok N new
  /\ (forall j, j ∈ idx (sourceSet old) -> j ∈ idx (sourceSet new))
  /\ (forall j, j ∈ idx (sinkSet old) -> j ∈ idx (sinkSet new))
  /\ p_lambdaValue new = lambda /\ solved new = 0.
Proof.
  intros Hok HN H.
  pose proof (problem_ok_count _ _ Hok) as Hcount.
  destruct Hok as (HS & HT & HL & L1 & L2 & L3 & Hperm).
  pose proof (contractProblem_keeps _ _ _ _ _ _ H) as [Hl Hs].
  apply contractProblem_sets in H; try lia.
  destruct H as (Hall & ES & ET & EU & ? & ? & ? & ? & ? & ?).
  rewrite take_ge in ES, ET by lia.
  assert (undecided_nodes old = drop 2 (nodeList old)) as Hund.
  { unfold undecided_nodes. apply take_ge. rewrite length_drop. lia. }
  rewrite Hund in *.
  split_and!; try done.
  - unfold problem_ok. split_and!; try done.
    unfold problem_nodes in *. rewrite ES, ET.
    assert (idx (drop 2 (nodeList new))
            = placed Undecided lowInd highInd (drop 2 (nodeList old))) as ->.
    { unfold idx in *. by rewrite <- skipn_map, EU. }
    rewrite <- Hperm, <- (placed_perm lowInd highInd _ Hall).
    rewrite <- !app_assoc. apply Permutation_app_head.
    apply Permutation_app_swap_app.
  - intros j Hj. rewrite ES, elem_of_app. by left.
  - intros j Hj. rewrite ET, elem_of_app. by left.
Qed.

(** X7.  [contractProblem] builds, from a well-formed problem on a graph
    of [N] nodes, a well-formed problem on the same graph: every node of the
    graph is in exactly one of the new source set, the new sink set and the
    new node list.  The nodes that were frozen stay frozen on their side, the
    node list does not grow, and the new problem is at the lambda value asked
    for and not yet solved. *)
Theorem contractProblem_keeps_nodes N g old lambda lowInd highInd new :
  problem_ok N old -> N + 2 < 2 ^ 32 ->
  contractProblem g old lambda lowInd highInd = Ok new ->
  problem_ok N new
  /\ (forall j, j ∈ idx (sourceSet old) -> j ∈ idx (sourceSet new))
  /\ (forall j, j ∈ idx (sinkSet old) -> j ∈ idx (sinkSet new))
  /\ numNodesInList new <= numNodesInList old
  /\ p_lambdaValue new = lambda /\ solved new = 0.
Proof.
  intros Hok HN H.
  destruct (contractProblem_problem_ok _ _ _ _ _ _ _ Hok HN H) as (H1 & H2 & H3 & H4 & H5).
  split_and!; try done.
  pose proof (problem_ok_count _ _ Hok) as Hcount.
  destruct Hok as (HS & HT & HL & L1 & L2 & L3 & _).
  apply contractProblem_sets in H; try lia.
  destruct H as (_ & _ & _ & EU & _ & _ & ? & _ & _ & LU).
  apply (f_equal length) in EU. unfold idx in EU.
  rewrite length_map, length_app in EU. simpl in EU.
  pose proof (placed_length_le Undecided lowInd highInd (undecided_nodes old)) as Hle.
  unfold undecided_nodes in Hle at 2. rewrite length_take, length_drop in Hle.
  lia.
Qed.

(** ** The graph as it is read, and the first two problems *)

Lemma readGraphSuper_nodes arcMatrix g u g' :
  readGraphSuper arcMatrix g = Ok (u, g') ->
  idx (nodeListSuper g') = seqZ 0 (numNodesSuper g).
Proof.
  unfold readGraphSuper. intros H.
  apply bind_Ok in H as (n & ? & Hn & H). apply gets_Ok in Hn as [-> ->].
  apply bind_Ok in H as (m & ? & Hm & H). apply gets_Ok in Hm as [-> ->].
  apply bind_Ok in H as ([] & ? & H1 & H). apply modify_Ok in H1 as ->.
  apply bind_Ok in H as ([] & ? & H1 & H). apply modify_Ok in H1 as ->.
  apply bind_Ok in H as ([] & g1 & Hnodes & H).
  apply bind_Ok in H as ([] & g2 & Harcs & H).
  apply bind_Ok in H as (lo & ? & Hlo & H). apply gets_Ok in Hlo as [-> ->].
  apply bind_Ok in H as (hi & ? & Hhi & H). apply gets_Ok in Hhi as [-> ->].
  apply bind_Ok in H as ([] & g3 & Hflag & H).
  assert (idx (nodeListSuper g') = idx (nodeListSuper g3)) as ->.
  { apply (for_loop_keeps (fun s => idx (nodeListSuper s)) _ _ _ _ _ _) in H; [done|].
    intros j s1 u1 s2 Hb. inv_run. simpl. unfold idx.
    repeat match goal with
    | H : node_upd _ _ _ = Ok _ |- _ => apply node_upd_originalIndex in H; simpl in H
    end.
    congruence. }
  assert (nodeListSuper g3 = nodeListSuper g2) as ->.
  { destruct (deq _ _); inv_run; done. }
  assert (nodeListSuper g2 = nodeListSuper g1) as ->.
  { apply (for_loop_keeps nodeListSuper _ _ _ _ _ _) in Harcs; [done|].
    intros j s1 u1 s2 Hb. inv_run. done. }
  unfold for_range in Hnodes. rewrite Z.sub_0_r in Hnodes.
  set (n := numNodesSuper g) in *.
  assert (length (nodeListSuper g1) = Z.to_nat n
          /\ idx (take (Z.to_nat n) (nodeListSuper g1)) = seqZ 0 (Z.of_nat (Z.to_nat n)))
    as [Hlen Hidx].
  { apply (for_loop_ind
             (fun k s => length (nodeListSuper s) = Z.to_nat n
                         /\ idx (take k (nodeListSuper s)) = seqZ 0 (Z.of_nat k))
             _ _ _ _ _ _ Hnodes).
    - simpl. unfold malloc. rewrite length_replicate. done.
    - intros k s1 u1 s2 Hk [Hlen Hidx] Hb. inv_run.
      match goal with H : awrite _ _ _ = Ok _ |- _ => apply awrite_inv in H as [Hi ->] end.
      simpl. rewrite length_insert. split; [done|].
      rewrite Z.add_0_l, Nat2Z.id. unfold idx in *.
      rewrite fill_next by lia. rewrite Hidx, seqZ_S. done. }
  rewrite take_ge in Hidx by lia. rewrite Hidx.
  destruct (Z.le_gt_cases 0 n); [by rewrite Z2Nat.id|].
  rewrite !seqZ_nil; [done|lia|lia].
Qed.

Lemma preserves_node_sets_sizes_copyArcNew c oldNodes nm old new :
  preserves (fun p => (node_sets p, problem_sizes p) = c) (copyArcNew oldNodes nm old new).
Proof.
  intros p a p' <- H.
  pose proof (preserves_node_sets_copyArcNew _ _ _ _ _ _ _ _ eq_refl H) as ->.
  pose proof (preserves_problem_sizes_copyArcNew _ _ _ _ _ _ _ _ eq_refl H) as ->.
  done.
Qed.

Lemma preserves_node_sets_sizes_evaluateCapacities c g :
  preserves (fun p => (node_sets p, problem_sizes p) = c) (evaluateCapacities g).
Proof. unfold evaluateCapacities. preserves_auto. Qed.

Lemma idx_lookup_seqZ nl n (k : nat) old :
  idx nl = seqZ 0 n -> nl !! k = Some old -> originalIndex old = Z.of_nat k.
Proof.
  intros Hnl Hk.
  assert (idx nl !! k = Some (originalIndex old)) as H.
  { unfold idx. change (map originalIndex nl) with (originalIndex <$> nl).
    by rewrite list_lookup_fmap, Hk. }
  rewrite Hnl in H. apply lookup_seqZ in H. lia.
Qed.

Lemma idx_singleton (l : list Node) x :
  length l = 1%nat -> idx (<[0%nat := x]> l) = [originalIndex x].
Proof. destruct l as [|y [|z l]]; simpl; intros; try lia; done. Qed.

(** The node arrays of the problem [initializeProblem] builds from a graph
    whose node [i] has the original index [i]. *)
Lemma initializeProblem_Ok g nl n al m lambda p s t :
  initializeProblem g nl n al m lambda = Ok p ->
  idx nl = seqZ 0 n ->
  source (engine g) = s -> sink (engine g) = t ->
  0 <= s < n -> 0 <= t < n -> s <> t -> n < 2 ^ 32 ->
  problem_ok n p /\ idx (sourceSet p) = [s] /\ idx (sinkSet p) = [t].
Proof.
  intros H Hnl Hs Ht Hsn Htn Hst Hn. unfold initializeProblem in H.
  match type of H with
  | match ?run ?f0 with _ => _ end = _ =>
      destruct (run f0) as [[[] f4]|e] eqn:Hrun; [|done]
  end.
  injection H as <-.
  match type of Hrun with
  | bind _ _ ?f = _ => remember f as f0 eqn:Ef0
  end.
  assert (length (sourceSet (problem f0)) = 1%nat
          /\ length (sinkSet (problem f0)) = 1%nat
          /\ length (nodeList (problem f0)) = Z.to_nat n
          /\ problem_sizes (problem f0) = (1, 1, n)
          /\ currentNode f0 = 2) as Hf0
    by (subst f0; simpl; unfold malloc; rewrite !length_replicate; done).
  clear Ef0.
  apply bind_Ok in Hrun as ([] & f1 & Hnodes & Hrun).
  apply bind_Ok in Hrun as ([] & f2 & H1 & Hrun).
  apply onProblem_Ok in H1 as (? & H1 & ->). apply modify_Ok in H1 as ->.
  apply bind_Ok in Hrun as ([] & f3 & H1 & Hrun).
  apply onProblem_Ok in H1 as (? & H1 & ->). apply modify_Ok in H1 as ->.
  apply bind_Ok in Hrun as ([] & f5 & Harcs & Heval).
  apply onProblem_Ok in Heval as (p4 & Heval & ->).
  (* the nodes *)
  unfold for_range in Hnodes. rewrite Z.sub_0_r, Hs, Ht in Hnodes.
  pose (P := fun (k : nat) (f : Frame) =>
    length (sourceSet (problem f)) = 1%nat
    /\ length (sinkSet (problem f)) = 1%nat
    /\ length (nodeList (problem f)) = Z.to_nat n
    /\ problem_sizes (problem f) = (1, 1, n)
    /\ 2 <= currentNode f
    /\ (s < Z.of_nat k -> idx (sourceSet (problem f)) = [s])
    /\ (t < Z.of_nat k -> idx (sinkSet (problem f)) = [t])
    /\ (if s <? Z.of_nat k then [s] else [])
         ++ (if t <? Z.of_nat k then [t] else [])
         ++ idx (take (Z.to_nat (currentNode f) - 2) (drop 2 (nodeList (problem f))))
       ≡ₚ seqZ 0 (Z.of_nat k)).
  assert (P (Z.to_nat n) f1) as (LS & LT & LU & Hsz & Hc & HS & HT & Hperm).
  { apply (for_loop_ind P _ _ _ _ _ _ Hnodes).
    - destruct Hf0 as (? & ? & ? & ? & Hc0). unfold P. rewrite Hc0.
      split_and!; try done; try lia.
      destruct (Z.ltb_spec s (Z.of_nat 0)); [lia|]. destruct (Z.ltb_spec t (Z.of_nat 0)); [lia|].
      done.
    - intros k f fu f' Hk (LS & LT & LU & Hsz & Hc & HS & HT & Hperm) Hb.
      rewrite Z.add_0_l in Hb.
      apply bind_Ok in Hb as (old & ? & Hold & Hb). apply liftR_Ok in Hold as [Hold ->].
      apply aread_Ok in Hold as [_ Hold]. rewrite Nat2Z.id in Hold.
      pose proof (idx_lookup_seqZ _ _ _ _ Hnl Hold) as Hoi.
      unfold P. rewrite seqZ_S, Z.add_0_l.
      destruct (Z.of_nat k =? s) eqn:Es; [|destruct (Z.of_nat k =? t) eqn:Et].
      + apply Z.eqb_eq in Es.
        apply bind_Ok in Hb as ([] & ? & Hw & Hb). apply new_sourceSet_node_Ok in Hw as [Hi ->].
        apply bind_Ok in Hb as ([] & ? & Hw & Hb). apply new_nodeList_node_Ok in Hw as [Hi' ->].
        apply set_nodeMap_at_Ok in Hb as [nm ->]. simpl in *.
        change (Z.to_nat 0) with 0%nat.
        rewrite !length_insert, drop_insert_lt by lia.
        destruct (Z.ltb_spec s (Z.of_nat (S k))); [|lia]. destruct (Z.ltb_spec s (Z.of_nat k)); [lia|].
        destruct (Z.ltb_spec t (Z.of_nat (S k))); destruct (Z.ltb_spec t (Z.of_nat k)); try lia.
        * split_and!; try done.
          -- intros _. rewrite idx_singleton by done. simpl. by rewrite Hoi, Es.
          -- intros _. apply HT. lia.
          -- simpl in *. rewrite <- Hperm, Es. apply Permutation_cons_append.
        * split_and!; try done.
          -- intros _. rewrite idx_singleton by done. simpl. by rewrite Hoi, Es.
          -- lia.
          -- simpl in *. rewrite <- Hperm, Es. apply Permutation_cons_append.
      + apply Z.eqb_eq in Et. apply Z.eqb_neq in Es.
        apply bind_Ok in Hb as ([] & ? & Hw & Hb). apply new_sinkSet_node_Ok in Hw as [Hi ->].
        apply bind_Ok in Hb as ([] & ? & Hw & Hb). apply new_nodeList_node_Ok in Hw as [Hi' ->].
        apply set_nodeMap_at_Ok in Hb as [nm ->]. simpl in *.
        change (Z.to_nat 0) with 0%nat. change (Z.to_nat 1) with 1%nat.
        rewrite !length_insert, drop_insert_lt by lia.
        destruct (Z.ltb_spec t (Z.of_nat (S k))); [|lia]. destruct (Z.ltb_spec t (Z.of_nat k)); [lia|].
        destruct (Z.ltb_spec s (Z.of_nat (S k))); destruct (Z.ltb_spec s (Z.of_nat k)); try lia.
        * split_and!; try done.
          -- intros _. apply HS. lia.
          -- intros _. rewrite idx_singleton by done. simpl. by rewrite Hoi, Et.
          -- simpl in *. rewrite <- Hperm, Et. simpl. constructor.
             apply Permutation_cons_append.
        * split_and!; try done.
          -- lia.
          -- intros _. rewrite idx_singleton by done. simpl. by rewrite Hoi, Et.
          -- simpl in *. rewrite <- Hperm, Et. apply Permutation_cons_append.
      + apply Z.eqb_neq in Es, Et.
        apply bind_Ok in Hb as (c & ? & Hg & Hb). apply gets_Ok in Hg as [-> ->].
        apply bind_Ok in Hb as ([] & ? & Hw & Hb). apply new_nodeList_node_Ok in Hw as [Hi ->].
        apply bind_Ok in Hb as ([] & ? & Hw & Hb). apply set_nodeMap_at_Ok in Hw as [nm ->].
        apply modify_Ok in Hb as ->. simpl in *.
        rewrite u32_small by lia.
        rewrite !length_insert, drop_insert_ge by lia.
        replace (Z.to_nat (currentNode f + 1) - 2)%nat
          with (S (Z.to_nat (currentNode f) - 2)) by lia.
        unfold idx in *. rewrite fill_next by (rewrite length_drop; lia).
        simpl. rewrite Hoi.
        assert ((s <? Z.of_nat (S k)) = (s <? Z.of_nat k)) as ->
          by (destruct (Z.ltb_spec s (Z.of_nat (S k)));
              destruct (Z.ltb_spec s (Z.of_nat k)); try done; lia).
        assert ((t <? Z.of_nat (S k)) = (t <? Z.of_nat k)) as ->
          by (destruct (Z.ltb_spec t (Z.of_nat (S k)));
              destruct (Z.ltb_spec t (Z.of_nat k)); try done; lia).
        split_and!; try done; try lia.
        * intros ?. apply HS. lia.
        * intros ?. apply HT. lia.
        * rewrite !app_assoc. apply Permutation_app_tail. by rewrite <- !app_assoc. }
  rewrite Z2Nat.id in * by lia.
  destruct (Z.ltb_spec s (n)); [|lia]. destruct (Z.ltb_spec t (n)); [|lia].
  specialize (HS ltac:(lia)). specialize (HT ltac:(lia)).
  assert (take (Z.to_nat (currentNode f1) - 2) (drop 2 (nodeList (problem f1)))
          = drop 2 (nodeList (problem f1))) as Htake.
  { apply take_ge. apply Permutation_length in Hperm.
    rewrite !length_app, length_seqZ in Hperm. unfold idx in Hperm.
    rewrite length_map, length_take, length_drop in *. simpl in Hperm. lia. }
  rewrite Htake in Hperm.
  (* the arcs and the capacities *)
  assert ((node_sets (problem f5), problem_sizes (problem f5))
          = (node_sets (problem f1), problem_sizes (problem f1))) as E5.
  { unfold for_range in Harcs.
    eapply (preserves_for_loop
              (fun f => (node_sets (problem f), problem_sizes (problem f)) = _));
      [| |exact Harcs]; [|reflexivity].
    intros j.
    repeat first
      [ apply (preserves_onProblem (fun p => (node_sets p, problem_sizes p) = _))
      | apply preserves_node_sets_sizes_copyArcNew
      | preserves_step ]. }
  pose proof (preserves_node_sets_sizes_evaluateCapacities _ g _ _ _ eq_refl Heval) as E4.
  rewrite E5 in E4. unfold node_sets, problem_sizes in E4. simpl in E4.
  injection E4 as K1 K2 K3 K4 K5 K6.
  unfold problem_sizes in Hsz. injection Hsz as Z1 Z2 Z3.
  assert (length (nodeList p4) = length (nodeList (problem f1))) as LU'.
  { rewrite <- (length_map originalIndex (nodeList p4)), K3. by rewrite length_map. }
  assert (idx (drop 2 (nodeList p4)) = idx (drop 2 (nodeList (problem f1)))) as Hd.
  { unfold idx. by rewrite <- !skipn_map, K3. }
  simpl. unfold problem_ok, problem_nodes.
  rewrite K1, K2, K4, K5, K6, Z1, Z2, Z3, LU', Hd, HS, HT, LS, LT.
  split_and!; try done; lia.
Qed.

(** ** The rows that [hpf_solve] returns *)

Lemma indicator_of_weaken N ones zeros ones' zeros' ind :
  indicator_of N ones zeros ind ->
  (forall j, j ∈ ones' -> j ∈ ones) -> (forall j, j ∈ zeros' -> j ∈ zeros) ->
  indicator_of N ones' zeros' ind.
Proof. intros (? & ? & H1 & H0) ? ?. split_and!; auto. Qed.

Lemma problem_good_set_solved N s t v p :
  problem_ok N p -> problem_ends s t p ->
  (exists ind, optimalSourceSetIndicator p = Some ind /\ indicator_of N [s] [t] ind) ->
  problem_good N s t (set_solved v p).
Proof. intros ? ? ?. split_and!; try done. by right. Qed.

Lemma solve_if_needed_good N s t fuel p m g p1 g1 :
  0 <= N < 2 ^ 32 -> numNodesSuper g = N -> problem_good N s t p ->
  (if solved p =? 0
   then q <- solveProblem fuel p m ;; ret (set_solved 1 q)
   else ret p) g = Ok (p1, g1) ->
  problem_ok N p1 /\ problem_ends s t p1
  /\ exists ind, optimalSourceSetIndicator p1 = Some ind /\ indicator_of N [s] [t] ind.
Proof.
  intros HN Hg (Hok & Hends & Hind) H.
  destruct (solved p =? 0) eqn:E; inv_run.
  - match goal with H : solveProblem _ _ _ _ = Ok _ |- _ =>
      pose proof (solveProblem_graph _ _ _ _ _ _ H) as Hgr;
      pose proof (solveProblem_indicator_of _ _ _ _ _ _ _ Hok eq_refl HN H)
        as (ind & Hi & Hof)
    end.
    destruct (problem_graph_ok (numNodesSuper g) s t _ _ Hgr) as [Hok' Hends'].
    specialize (Hok' Hok). specialize (Hends' Hends).
    split_and!; try done. exists ind. split; [done|].
    destruct Hends as [Hs Ht].
    apply (indicator_of_weaken _ _ _ _ _ _ Hof); intros j Hj;
      apply list_elem_of_singleton in Hj as ->; done.
  - apply Z.eqb_neq in E. destruct Hind as [|Hind]; done.
Qed.

Lemma copy_cells_Ok n i ind copy :
  copy_cells n i (Some ind) = Ok copy -> 0 <= i ->
  copy = take n (drop (Z.to_nat i) ind) /\ length copy = n.
Proof.
  revert i copy. induction n as [|n IH]; intros i copy H Hi; simpl in H.
  - injection H as <-. by rewrite take_0.
  - destruct (aread ind i) as [v|] eqn:Hv; [|done].
    destruct (copy_cells n (i + 1) (Some ind)) as [l|] eqn:Hl; [|done].
    injection H as <-. apply IH in Hl as [-> Hlen]; [|lia].
    apply aread_Ok in Hv as [_ Hv].
    split; [|simpl; lia].
    rewrite (drop_S _ _ _ Hv). simpl. do 3 f_equal. lia.
Qed.

Lemma copy_cells_all N s t ind copy :
  indicator_of N s t ind -> copy_cells (Z.to_nat N) 0 (Some ind) = Ok copy -> copy = ind.
Proof.
  intros [Hlen _] H. apply copy_cells_Ok in H as [-> _]; [|done].
  rewrite drop_0. apply take_ge. lia.
Qed.

Lemma addBreakpoint_good N s t site lambda ind g u g' :
  numNodesSuper g = N -> indicator_of N [s] [t] ind -> rows_ok N s t (breakpoints g) ->
  addBreakpoint site lambda (Some ind) g = Ok (u, g') ->
  rows_ok N s t (breakpoints g') /\ numNodesSuper g' = N.
Proof.
  intros Hg Hind Hrows H.
  apply addBreakpoint_Ok in H as (copy & Hcopy & Hbp & _ & _ & HN).
  rewrite Hg in Hcopy. apply (copy_cells_all _ _ _ _ _ Hind) in Hcopy as ->.
  split; [|congruence]. unfold rows_ok. rewrite Hbp.
  apply Forall_app. split; [done|]. constructor; [done|constructor].
Qed.

Lemma solve_if_needed_nodes fuel p m g p1 g1 :
  (if solved p =? 0
   then q <- solveProblem fuel p m ;; ret (set_solved 1 q)
   else ret p) g = Ok (p1, g1) ->
  numNodesSuper g1 = numNodesSuper g /\ breakpoints g1 = breakpoints g.
Proof.
  intros H. apply solve_if_needed in H as [Hd _].
  unfold driver_part in Hd. by injection Hd as _ -> _ _ _ -> _ _ _ _ _.
Qed.

(** The driver keeps its problems well formed, and appends only cuts that
    separate the source from the sink. *)
Lemma parametricCut_good N s t fuel :
  0 <= N -> N + 2 < 2 ^ 32 ->
  forall low high g low' high' g',
    parametricCut fuel low high g = Ok ((low', high'), g') ->
    numNodesSuper g = N ->
    problem_good N s t low -> problem_good N s t high ->
    rows_ok N s t (breakpoints g) ->
    problem_good N s t low' /\ solved low' <> 0
    /\ problem_good N s t high' /\ solved high' <> 0
    /\ rows_ok N s t (breakpoints g') /\ numNodesSuper g' = N.
Proof.
  intros HN0 HN.
  induction fuel as [|fuel IH]; intros low high g low' high' g' H Hg Hlow Hhigh Hrows;
    [done|].
  simpl in H.
  apply bind_Ok in H as (low1 & g1 & Hs1 & H).
  apply bind_Ok in H as (high1 & g2 & Hs2 & H).
  apply bind_Ok in H as ([low2 high2] & g3 & Hint & H).
  apply bind_Ok in H as ([] & g4 & Hbase & H). apply ret_Ok in H as [[= -> ->] ->].
  pose proof (solve_if_needed_nodes _ _ _ _ _ _ Hs1) as [Hn1 Hb1].
  pose proof (solve_if_needed _ _ _ _ _ _ Hs1) as (_ & _ & Hsv1).
  apply (solve_if_needed_good N s t) in Hs1 as (Hok1 & He1 & ind1 & Hi1 & Hof1);
    [|lia|done|done].
  pose proof (solve_if_needed_nodes _ _ _ _ _ _ Hs2) as [Hn2 Hb2].
  pose proof (solve_if_needed _ _ _ _ _ _ Hs2) as (_ & _ & Hsv2).
  apply (solve_if_needed_good N s t) in Hs2 as (Hok2 & He2 & ind2 & Hi2 & Hof2);
    [|lia|congruence|done].
  assert (problem_good N s t low2 /\ solved low2 <> 0
          /\ problem_good N s t high2 /\ solved high2 <> 0
          /\ rows_ok N s t (breakpoints g3) /\ numNodesSuper g3 = N)
    as (Hl2 & Hsl2 & Hh2 & Hsh2 & Hr3 & Hn3).
  { unfold parametricCut_interval in Hint. rewrite bind_gets in Hint.
    assert (problem_good N s t low1) as Hg1 by (split_and!; try done; right; eauto).
    assert (problem_good N s t high1) as Hg2 by (split_and!; try done; right; eauto).
    assert (rows_ok N s t (breakpoints g2)) as Hr2 by congruence.
    assert (numNodesSuper g2 = N) as HnN by congruence.
    destruct (intersect_branch (TOL g2) low1 high1) as [l| | |].
    - apply bind_Ok in Hint as (ga & ? & Hga & Hint). apply get_Ok in Hga as [-> ->].
      apply bind_Ok in Hint as (ub & ? & Hub & Hint). apply liftR_Ok in Hub as [Hub ->].
      apply bind_Ok in Hint as ([low3 ub'] & g5 & Hrec1 & Hint).
      apply bind_Ok in Hint as (gb & ? & Hgb & Hint). apply get_Ok in Hgb as [-> ->].
      apply bind_Ok in Hint as (lb & ? & Hlb & Hint). apply liftR_Ok in Hlb as [Hlb ->].
      apply bind_Ok in Hint as ([lb' high3] & g6 & Hrec2 & Hint).
      apply ret_Ok in Hint as [[= <- <-] <-].
      apply (contractProblem_problem_ok N) in Hub as (Hoku & Hsu & Htu & _ & Hsvu);
        [|done|done].
      assert (problem_good N s t ub) as Hgu.
      { split_and!; [done| |by left]. destruct He1. split; auto. }
      destruct (IH _ _ _ _ _ _ Hrec1 HnN Hg1 Hgu Hr2)
        as (Hg3 & Hs3 & _ & _ & Hr5 & Hn5).
      destruct Hg3 as (Hok3 & He3 & Hi3).
      apply (contractProblem_problem_ok N) in Hlb as (Hokl & Hsl & Htl & _ & Hsvl);
        [|done|done].
      assert (problem_good N s t lb) as Hgl.
      { split_and!; [done| |by left]. destruct He3. split; auto. }
      destruct (IH _ _ _ _ _ _ Hrec2 Hn5 Hgl Hg2 Hr5)
        as (_ & _ & Hg6 & Hs6 & Hr6 & Hn6).
      split_and!; done.
    - apply bind_Ok in Hint as ([] & g5 & Hadd & Hint).
      apply ret_Ok in Hint as [[= <- <-] <-].
      rewrite Hi1 in Hadd.
      apply (addBreakpoint_good N s t) in Hadd as [? ?]; try done.
    - apply bind_Ok in Hint as ([] & g5 & Hadd & Hint).
      apply ret_Ok in Hint as [[= <- <-] <-].
      rewrite Hi1 in Hadd.
      apply (addBreakpoint_good N s t) in Hadd as [? ?]; try done.
    - apply ret_Ok in Hint as [[= <- <-] <-]. done. }
  split; [done|]. split; [done|]. split; [done|]. split; [done|].
  destruct (_ =? 1); [|by apply ret_Ok in Hbase as [_ <-]].
  destruct Hh2 as (_ & _ & [Hz|(ind & Hi & Hof)]); [done|].
  rewrite Hi in Hbase.
  by apply (addBreakpoint_good N s t) in Hbase.
Qed.

Lemma removeDuplicateBreakpoints_loop_Forall (P : Breakpoint -> Prop) n :
  forall b rest, (length rest <= n)%nat ->
    Forall P (b :: rest) -> Forall P (removeDuplicateBreakpoints_loop b rest).
Proof.
  induction n as [|n IH]; intros b rest Hn Hall.
  - destruct rest; [|simpl in Hn; lia]. done.
  - destruct rest as [|b1 rest]; [done|]. simpl.
    apply Forall_cons in Hall as [Hb Hall].
    destruct (deq _ _).
    + destruct rest as [|b2 rest]; [by constructor|].
      apply Forall_cons in Hall as [_ Hall].
      constructor; [done|]. apply IH; [simpl in Hn; lia | done].
    + constructor; [done|]. apply IH; [simpl in Hn; lia | done].
Qed.

Lemma prepareOutput_cuts_Ok N s t l cuts :
  rows_ok N s t l -> prepareOutput_cuts N l = Ok cuts ->
  cuts = concat (map sourceSetIndicator l).
Proof.
  revert cuts. induction l as [|b l IH]; intros cuts Hrows H; simpl in H.
  - by injection H as <-.
  - apply Forall_cons in Hrows as [Hb Hrows].
    destruct (copy_cells _ _ _) as [row|] eqn:Hrow; [|done].
    destruct (prepareOutput_cuts N l) as [rows|] eqn:Hl; [|done].
    injection H as <-. apply (copy_cells_all _ _ _ _ _ Hb) in Hrow as ->.
    simpl. by rewrite (IH _ Hrows eq_refl).
Qed.

Lemma readGraphSuper_engine c arcMatrix :
  preserves (fun g => engine g = c) (readGraphSuper arcMatrix).
Proof. unfold readGraphSuper. preserves_auto. Qed.

Lemma hpf_solve_read_graph n m s t arcMatrix range rnd g u g' :
  hpf_solve_read n m s t arcMatrix range rnd g = Ok (u, g') ->
  numNodesSuper g' = u32 n
  /\ idx (nodeListSuper g') = seqZ 0 (u32 n)
  /\ source (engine g') = u32 s /\ sink (engine g') = u32 t
  /\ breakpoints g' = [].
Proof.
  intros H. destruct u.
  pose proof (hpf_solve_read_post _ _ _ _ _ _ _ _ _ H) as (_ & _ & _ & Hb & _ & Hn & _).
  unfold hpf_solve_read in H.
  apply bind_Ok in H as ([] & g0 & H0 & H). apply modify_Ok in H0 as ->.
  pose proof (readGraphSuper_nodes _ _ _ _ H) as Hidx.
  pose proof (readGraphSuper_engine _ _ _ _ _ eq_refl H) as He.
  rewrite He. done.
Qed.

Lemma initializeParametricCut_good N s t high0 g low high g' :
  initializeParametricCut high0 g = Ok ((low, high), g') ->
  numNodesSuper g = N -> idx (nodeListSuper g) = seqZ 0 N ->
  source (engine g) = s -> sink (engine g) = t ->
  0 <= s < N -> 0 <= t < N -> s <> t -> N < 2 ^ 32 ->
  problem_good N s t low
  /\ (useParametricCut g = 1 -> problem_good N s t high).
Proof.
  unfold initializeParametricCut. intros H HN Hidx Hs Ht Hsn Htn Hst Hb.
  assert (forall lambda p,
            initializeProblem g (nodeListSuper g) (numNodesSuper g)
              (arcListSuper g) (numArcsSuper g) lambda = Ok p ->
            problem_good N s t p) as Hgood.
  { intros lambda p Hp.
    pose proof (initializeProblem_keeps _ _ _ _ _ _ _ Hp) as [_ Hsv].
    rewrite HN in Hp.
    apply (initializeProblem_Ok _ _ _ _ _ _ _ s t) in Hp as (Hok & HS & HT); try done.
    split_and!; [done| |by left].
    unfold problem_ends. rewrite HS, HT. split; apply list_elem_of_singleton; done. }
  apply bind_Ok in H as (g0 & ? & Hg & H). apply get_Ok in Hg as [-> ->].
  apply bind_Ok in H as (lowP & ? & Hl & H). apply liftR_Ok in Hl as [Hl ->].
  destruct (useParametricCut g =? 1) eqn:E.
  - apply bind_Ok in H as (highP & ? & Hh & H). apply liftR_Ok in Hh as [Hh ->].
    apply ret_Ok in H as [[= <- <-] <-]. split; eauto.
  - apply ret_Ok in H as [[= <- <-] <-]. apply Z.eqb_neq in E. split; [eauto|done].
Qed.

Lemma hpf_solve_breakpoints_good N s t fuel low high g u g' :
  0 <= N -> N + 2 < 2 ^ 32 ->
  hpf_solve_breakpoints fuel low high g = Ok (u, g') ->
  numNodesSuper g = N -> breakpoints g = [] ->
  problem_good N s t low -> (useParametricCut g = 1 -> problem_good N s t high) ->
  rows_ok N s t (breakpoints g') /\ numNodesSuper g' = N.
Proof.
  intros HN0 HN H Hg Hbp Hlow Hhigh. unfold hpf_solve_breakpoints in H.
  rewrite bind_gets in H. destruct (useParametricCut g =? 1) eqn:E.
  - apply Z.eqb_eq in E.
    apply bind_Ok in H as ([low' high'] & g1 & Hcut & H).
    apply (parametricCut_good N s t) in Hcut as (_ & _ & _ & _ & Hrows & Hn);
      try done; [|by apply Hhigh|by rewrite Hbp; constructor].
    unfold removeDuplicateBreakpoints in H. rewrite bind_gets in H.
    destruct (breakpoints g1) as [|b rest] eqn:Hl; [done|].
    apply modify_Ok in H as ->. simpl. split; [|done].
    by apply (removeDuplicateBreakpoints_loop_Forall _ (length rest)).
  - apply bind_Ok in H as (low' & g1 & Hsolve & H).
    destruct Hlow as (Hok & [Hs Ht] & _).
    pose proof (solveProblem_driver (driver_part g) _ _ _ _ _ _ eq_refl Hsolve) as Hd.
    unfold driver_part in Hd. injection Hd as _ Hn1 _ _ _ Hb1 _ _ _ _ _.
    apply (solveProblem_indicator_of _ _ _ _ _ _ N) in Hsolve as (ind & Hi & Hof);
      [|done|done|lia].
    rewrite Hi in H.
    apply (addBreakpoint_good N s t) in H; [done|congruence| |].
    + apply (indicator_of_weaken _ _ _ _ _ _ Hof); intros j Hj;
        apply list_elem_of_singleton in Hj as ->; done.
    + rewrite Hb1, Hbp. constructor.
Qed.

(** X8.  On a graph of [n] nodes with distinct source [s] and sink [t],
    the array of cuts that a returning run of [hpf_solve] hands back is made
    of as many rows as it returns breakpoints; every row has [n] entries, each
    of them 0 or 1, with 1 at the source and 0 at the sink. *)
Theorem hpf_solve_cuts fuel n m s t arcMatrix range rnd out g :
  0 <= n -> n + 2 < 2 ^ 32 -> 0 <= s < n -> 0 <= t < n -> s <> t ->
  hpf_solve fuel n m s t arcMatrix range rnd = Ok (out, g) ->
  exists rows,
    out_cuts out = concat rows
    /\ Z.of_nat (length rows) = out_numBreakpoints out
    /\ Forall (indicator_of n [s] [t]) rows.
Proof.
  intros Hn0 Hn Hs Ht Hst H. unfold hpf_solve in H.
  apply bind_Ok in H as (u1 & g1 & Hread & H).
  apply bind_Ok in H as ([low high] & g2 & Hinit & H).
  apply bind_Ok in H as (u2 & g3 & Hrun & H).
  apply bind_Ok in H as (out0 & g4 & Hout & H).
  apply bind_Ok in H as (u3 & g5 & _ & H). apply ret_Ok in H as [-> _].
  apply hpf_solve_read_graph in Hread as (HN & Hidx & Hsrc & Hsnk & Hbp).
  rewrite !u32_small in * by lia.
  pose proof (initializeParametricCut_post _ _ _ _ _ Hinit) as (-> & _).
  apply (initializeParametricCut_good n s t) in Hinit as [Hlow Hhigh]; try done; [|lia].
  apply (hpf_solve_breakpoints_good n s t) in Hrun as [Hrows HN3]; try done.
  unfold prepareOutput in Hout. inv_run. simpl.
  match goal with H : prepareOutput_cuts _ _ = Ok _ |- _ =>
    rewrite HN3 in H; apply (prepareOutput_cuts_Ok _ _ _ _ _ Hrows) in H as -> end.
  exists (map sourceSetIndicator (breakpoints g3)).
  split; [done|]. split; [by rewrite length_map|].
  unfold rows_ok in Hrows. by apply Forall_map.
Qed.

(** ** The arcs of the problems the driver builds *)

Lemma evaluateCapacities_arcs_ok g p u p' :
  p_numArcs p = Z.of_nat (length (p_arcList p)) ->
  evaluateCapacities g p = Ok (u, p') -> arcs_ok p'.
Proof.
  intros Hn H. unfold evaluateCapacities in H. rewrite bind_gets in H.
  unfold for_range in H. rewrite Hn, Z.sub_0_r, Nat2Z.id in H.
  pose proof (evaluateCapacities_loop g (length (p_arcList p)) 0 p eq_refl) as Hloop.
  change (Z.of_nat 0) with 0 in Hloop. rewrite H in Hloop.
  destruct Hloop as (l' & -> & Hl & _ & Hk).
  split; simpl; [congruence|].
  apply Forall_lookup. intros i a' Ha'.
  destruct (lookup_lt_is_Some_2 (p_arcList p) i) as [a Ha].
  { apply lookup_lt_Some in Ha'. lia. }
  destruct (Hk i a ltac:(lia) Ha) as (a'' & Hev & Ha'').
  assert (a'' = a') as -> by congruence.
  pose proof (evaluateCapacity_rule g (p_lambdaValue p) a) as R.
  rewrite Hev in R. simpl in R. destruct R as (R1 & R2 & _ & _ & _ & Hc & Hm & _).
  unfold arc_evaluated, arc_value. rewrite Hc, Hm. split; [|done].
  intros Hneg. by apply R1.
Qed.

Lemma arc_upd_length l i f l' : arc_upd l i f = Ok l' -> length l' = length l.
Proof.
  unfold arc_upd. destruct (aread l i); [|done]. intros H.
  apply awrite_inv in H as [_ ->]. by rewrite length_insert.
Qed.

Lemma preserves_arcs_size_copyArcNew c oldNodes nm old new :
  preserves (fun p => arcs_size p = c) (copyArcNew oldNodes nm old new).
Proof.
  intros p a p' HI H. unfold copyArcNew in H. inv_run.
  repeat match goal with
  | H : deref _ _ = Ok _ |- _ => apply deref_Ok in H as [_ ->]
  end.
  repeat match goal with
  | H : arc_upd _ _ _ = Ok _ |- _ => apply arc_upd_length in H
  end.
  unfold arcs_size in *. simpl in *. congruence.
Qed.

Lemma preserves_arcs_size_copyArcAdd c old new :
  preserves (fun p => arcs_size p = c) (copyArcAdd old new).
Proof.
  intros p a p' HI H. unfold copyArcAdd in H. inv_run.
  repeat match goal with
  | H : arc_upd _ _ _ = Ok _ |- _ => apply arc_upd_length in H
  end.
  unfold arcs_size in *. simpl in *. congruence.
Qed.

Lemma u32_nonneg z : 0 <= u32 z.
Proof. unfold u32. apply Z.mod_pos_bound. lia. Qed.

(** The loop of [contractProblem] that counts the new arcs leaves a count
    that is not negative. *)
Lemma contractProblem_arcs_size old f u f' :
  contractProblem_arcs old f = Ok (u, f') -> 0 <= currentArc f ->
  p_numArcs (problem f') = Z.of_nat (length (p_arcList (problem f'))).
Proof.
  unfold contractProblem_arcs. intros H Hc.
  apply bind_Ok in H as ([] & f1 & H1 & H).
  apply onProblem_Ok in H1 as (? & H1 & ->). apply modify_Ok in H1 as ->.
  apply bind_Ok in H as (n & f2 & H1 & H).
  apply onProblem_Ok in H1 as (? & H1 & ->). apply gets_Ok in H1 as [-> ->].
  apply bind_Ok in H as ([] & f3 & H1 & H). apply modify_Ok in H1 as ->.
  apply bind_Ok in H as ([] & f4 & H1 & H). apply modify_Ok in H1 as ->.
  apply bind_Ok in H as ([] & f5 & Hcount & H).
  apply bind_Ok in H as (c & f6 & H1 & H). apply gets_Ok in H1 as [-> ->].
  apply bind_Ok in H as ([] & f7 & H1 & H).
  apply onProblem_Ok in H1 as (? & H1 & ->). apply modify_Ok in H1 as ->.
  apply bind_Ok in H as ([] & f8 & H1 & H).
  apply onProblem_Ok in H1 as (? & H1 & ->). apply modify_Ok in H1 as ->.
  apply bind_Ok in H as ([] & f9 & H1 & H). apply modify_Ok in H1 as ->.
  assert (0 <= currentArc f5) as Hc5.
  { eapply (preserves_for_range (fun f => 0 <= currentArc f)); [| |exact Hcount];
      [|exact Hc].
    intros j. unfold newIndexFrom_of, newIndexTo_of.
    repeat first
      [ preserves_step
      | lazymatch goal with
        | |- preserves _ (modify (set_currentArc _)) =>
            apply preserves_modify; intros; apply u32_nonneg
        | |- preserves _ (modify _) =>
            apply preserves_modify; let s := fresh in let H := fresh in
            intros s H; exact H
        end ]. }
  assert (arcs_size (problem f') = (currentArc f5, Z.to_nat (currentArc f5))) as E.
  { eapply (preserves_for_range (fun f => arcs_size (problem f) = _)); [| |exact H].
    - intros j. unfold newIndexFrom_of, newIndexTo_of.
      repeat first
        [ apply (preserves_onProblem (fun p => arcs_size p = _))
        | apply preserves_arcs_size_copyArcNew
        | apply preserves_arcs_size_copyArcAdd
        | preserves_step
        | lazymatch goal with
          | |- preserves _ (modify _) =>
              apply preserves_modify; let s := fresh in let H := fresh in
              intros s H; exact H
          end ].
    - unfold arcs_size. simpl. unfold malloc. by rewrite length_replicate. }
  unfold arcs_size in E. injection E as -> ->. lia.
Qed.

Lemma preserves_currentArc_sizes_nodes c old lowInd highInd :
  preserves (fun f => currentArc f = c)
    (contractProblem_sizes old lowInd highInd ;;
     contractProblem_nodes old lowInd highInd).
Proof.
  unfold contractProblem_sizes, contractProblem_size, contractProblem_nodes,
    contractProblem_copy_sets, contractProblem_place, set_nodeMap_at.
  repeat first
    [ apply preserves_onProblem_locals; intros ? ? HH; exact HH
    | preserves_step
    | lazymatch goal with
      | |- preserves _ (modify _) =>
          apply preserves_modify; let s := fresh in let H := fresh in
          intros s H; exact H
      end ].
Qed.

Lemma initializeProblem_arcs_good g nl n al m lambda p :
  0 <= m -> initializeProblem g nl n al m lambda = Ok p -> arcs_ok p.
Proof.
  intros Hm H. unfold initializeProblem in H.
  match type of H with
  | match ?run ?f0 with _ => _ end = _ =>
      destruct (run f0) as [[[] f4]|e] eqn:Hrun; [|done]
  end.
  injection H as <-.
  apply bind_Ok in Hrun as ([] & f1 & Hnodes & Hrun).
  apply bind_Ok in Hrun as ([] & f2 & H1 & Hrun).
  apply onProblem_Ok in H1 as (? & H1 & ->). apply modify_Ok in H1 as ->.
  apply bind_Ok in Hrun as ([] & f3 & H1 & Hrun).
  apply onProblem_Ok in H1 as (? & H1 & ->). apply modify_Ok in H1 as ->.
  apply bind_Ok in Hrun as ([] & f5 & Harcs & Heval).
  apply onProblem_Ok in Heval as (p4 & Heval & ->).
  assert (arcs_size (problem f5) = (m, Z.to_nat m)) as E.
  { eapply (preserves_for_range (fun f => arcs_size (problem f) = _)); [| |exact Harcs].
    - intros j.
      repeat first
        [ apply (preserves_onProblem (fun p => arcs_size p = _))
        | apply preserves_arcs_size_copyArcNew
        | preserves_step ].
    - unfold arcs_size. simpl. unfold malloc. by rewrite length_replicate. }
  unfold arcs_size in E. injection E as E1 E2.
  apply evaluateCapacities_arcs_ok in Heval; [done|]. lia.
Qed.

(** X12.  On a graph whose node [i] has the original index [i] (as
    [readGraphSuper] builds it), with fewer than 2^32 nodes and a source and
    a sink that are two distinct nodes of it, [initializeProblem] builds a
    well-formed problem: its source set holds the source alone, its sink set
    the sink alone, and every other node is in its node list; its arc array
    has the size its counter says, with the capacities evaluated at the
    lambda value asked for; the problem is at that lambda value and not yet
    solved. *)
Theorem initializeProblem_start g nl n al m lambda p s t :
  idx nl = seqZ 0 n ->
  source (engine g) = s -> sink (engine g) = t ->
  0 <= s < n -> 0 <= t < n -> s <> t -> n < 2 ^ 32 -> 0 <= m ->
  initializeProblem g nl n al m lambda = Ok p ->
  problem_ok n p /\ idx (sourceSet p) = [s] /\ idx (sinkSet p) = [t]
  /\ arcs_ok p /\ p_lambdaValue p = lambda /\ solved p = 0.
Proof.
  intros Hnl Hs Ht Hsn Htn Hst Hn Hm H.
  pose proof (initializeProblem_keeps _ _ _ _ _ _ _ H) as [Hl Hsv].
  pose proof (initializeProblem_arcs_good _ _ _ _ _ _ _ Hm H) as Ha.
  apply (initializeProblem_Ok _ _ _ _ _ _ _ s t) in H as (Hok & HS & HT); try done.
Qed.

(** X9.  The problem that [contractProblem] builds has as many arcs in
    its arc array as its counter says, and the capacity of each of them is
    the value of its capacity function at the lambda value of the problem,
    or 0 when that value is negative. *)
Theorem contractProblem_arcs_evaluated g old lambda lowInd highInd new :
  contractProblem g old lambda lowInd highInd = Ok new -> arcs_ok new.
Proof.
  intros H. unfold contractProblem in H.
  match type of H with
  | match ?run ?f0 with _ => _ end = _ =>
      destruct (run f0) as [[[] f4]|e] eqn:Hrun; [|done]
  end.
  injection H as <-.
  apply bind_Ok in Hrun as ([] & f1 & Hsizes & Hrun).
  apply bind_Ok in Hrun as ([] & f2 & Hnodes & Hrun).
  apply bind_Ok in Hrun as ([] & f3 & Harcs & Heval).
  assert (currentArc f2 = 0) as Hc.
  { eapply (preserves_currentArc_sizes_nodes 0 old lowInd highInd
              (contractProblem_frame old lambda)); [reflexivity|].
    apply bind_Ok. eauto. }
  apply contractProblem_arcs_size in Harcs; [|lia].
  apply onProblem_Ok in Heval as (p4 & Heval & ->).
  by apply evaluateCapacities_arcs_ok in Heval.
Qed.

(** ** The cut value and the cut function *)

Section CutLine.
Variable R : Q -> Q -> Prop.
Variable lambda : double.
Hypothesis R_add : forall x y x' y', R x y -> R x' y' -> R (x + x') (y + y').
Hypothesis R_eq : forall x y x' y', (x == x')%Q -> (y == y')%Q -> R x y -> R x' y'.

Lemma cut_related_add (p : CutProblem) (a : Arc) :
  R (cut_line lambda p) (cutValue p) ->
  R (arc_value lambda a) (capacity a) ->
  R (dadd (cutConstant p) (constant a) + dadd (cutMultiplier p) (multiplier a) * lambda)
    (dadd (cutValue p) (capacity a)).
Proof.
  intros Hp Ha. eapply R_eq; [| |exact (R_add _ _ _ _ Hp Ha)].
  - unfold cut_line, arc_value. rewrite !dadd_eq. ring.
  - by rewrite dadd_eq.
Qed.

Lemma preserves_cut_related_evaluateCut :
  preserves (cut_related R lambda) evaluateCut.
Proof.
  unfold evaluateCut. apply preserves_bind; [apply preserves_gets|]. intros m.
  apply preserves_for_range. intros j p u p' [HA HJ] H.
  apply bind_Ok in H as (l & ? & Hl & H). apply gets_Ok in Hl as [-> ->].
  apply bind_Ok in H as (a & ? & Ha & H). apply liftR_Ok in Ha as [Ha ->].
  apply aread_Ok in Ha as [_ Ha].
  assert (R (arc_value lambda a) (capacity a)) as HRa.
  { exact (proj1 (Forall_lookup _ _) HA _ _ Ha). }
  assert (forall q, cut_related R lambda p ->
            add_to_cut a p = Ok (u, q) -> cut_related R lambda q) as Hadd.
  { intros q [HA' HJ'] Hq. unfold add_to_cut in Hq. inv_run.
    split; [exact HA'|]. unfold cut_line. simpl. by apply cut_related_add. }
  unfold originalIndexFrom_of, originalIndexTo_of in H.
  inv_run.
  repeat match goal with
  | H : deref _ _ = Ok _ |- _ => apply deref_Ok in H as [_ ->]
  end.
  repeat (match goal with
          | H : (if ?b then _ else _) _ = Ok _ |- _ => destruct b
          end; inv_run);
    try (by split); try (by eapply Hadd; [split|eassumption]).
Qed.

Lemma preserves_cut_related_solveProblem_empty n :
  preserves (cut_related R lambda) (solveProblem_empty n).
Proof.
  unfold solveProblem_empty.
  apply preserves_bind; [apply preserves_get|]. intros p0.
  apply preserves_bind; [apply preserves_run_on|]. intros ind.
  apply preserves_bind; [apply preserves_modify; by intros ? [? ?]|]. intros [].
  apply preserves_bind; [apply preserves_gets|]. intros m.
  apply preserves_for_range. intros j p u p' [HA HJ] H.
  apply bind_Ok in H as (l & ? & Hl & H). apply gets_Ok in Hl as [-> ->].
  apply bind_Ok in H as (a & ? & Ha & H). apply liftR_Ok in Ha as [Ha ->].
  apply aread_Ok in Ha as [_ Ha].
  assert (R (arc_value lambda a) (capacity a)) as HRa.
  { exact (proj1 (Forall_lookup _ _) HA _ _ Ha). }
  unfold originalIndexFrom_of, originalIndexTo_of in H.
  inv_run.
  repeat match goal with
  | H : deref _ _ = Ok _ |- _ => apply deref_Ok in H as [_ ->]
  end.
  repeat (match goal with
          | H : (if ?b then _ else _) _ = Ok _ |- _ => destruct b
          | H : deref _ _ = Ok _ |- _ => apply deref_Ok in H as [_ ->]
          end; inv_run);
    try (by split).
  split; [exact HA|]. unfold cut_line. simpl. by apply cut_related_add.
Qed.

Hypothesis R_0 : R 0 0.
Hypothesis R_arc : forall a b, arc_datum a = arc_datum b ->
  R (arc_value lambda a) (capacity a) -> R (arc_value lambda b) (capacity b).

Lemma solveProblem_cut_related fuel p m g p' g' :
  solveProblem fuel p m g = Ok (p', g') ->
  Forall (fun a => R (arc_value lambda a) (capacity a)) (p_arcList p) ->
  R (cut_line lambda p') (cutValue p').
Proof.
  intros H HA.
  assert (R (cut_line lambda (set_cutValue 0%Q (set_cutConstant 0%Q
                                                  (set_cutMultiplier 0%Q p)))) 0)
    as H0.
  { eapply R_eq; [| |exact R_0]; [|done]. unfold cut_line. simpl. ring. }
  apply solveProblem_Ok in H as [(_ & H)|(_ & H)].
  - eapply preserves_cut_related_solveProblem_empty; [|exact H]. by split.
  - destruct H as (al & e1 & e2 & e3 & ind & p2 & Hal & H1 & H2 & _ & Hcut & _ & ->).
    apply bind_Ok in H1 as ([] & e0 & Hc & Hs).
    assert (engine_inv node_id arc_datum (fun _ l => l = map arc_datum al) e2) as Ha2.
    { eapply graph_pseudoflowPhase1; [|exact H2].
      eapply graph_simpleInitialization; [|exact Hs].
      eapply graph_createMemoryStructures; [|exact Hc]. done. }
    unfold engine_inv in Ha2.
    eapply (preserves_cut_related_evaluateCut _ _ _) in Hcut as [_ HJ]; [exact HJ|].
    split; [|by destruct (m =? 1)].
    destruct (m =? 1); simpl; [done|]. subst al.
    apply Forall_lookup. intros i b Hb.
    assert (exists a, p_arcList p !! i = Some a /\ arc_datum a = arc_datum b)
      as (a & Ha & Hab).
    { assert (map arc_datum (arcList e2) !! i = Some (arc_datum b)) as Hm.
      { change (map arc_datum (arcList e2)) with (arc_datum <$> arcList e2).
        by rewrite list_lookup_fmap, Hb. }
      rewrite Ha2 in Hm.
      change (map arc_datum (p_arcList p)) with (arc_datum <$> p_arcList p) in Hm.
      rewrite list_lookup_fmap in Hm.
      destruct (p_arcList p !! i) as [a|]; [|done]. exists a. split; [done|].
      simpl in Hm. congruence. }
    apply (R_arc a b Hab). exact (proj1 (Forall_lookup _ _) HA _ _ Ha).
Qed.
End CutLine.


(** ** The theorems on the chain of three nodes *)

Lemma solveProblem_keeps_graph_witness :
  exists low high g p' g',
    chain3_start = Ok (low, high, g)
    /\ solveProblem 100 low 0 g = Ok (p', g')
    /\ numNodesInList p' = numNodesInList low
    /\ numSourceSet p' = numSourceSet low /\ numSinkSet p' = numSinkSet low
    /\ p_numArcs p' = p_numArcs low
    /\ solved p' = solved low /\ p_lambdaValue p' = p_lambdaValue low
    /\ sourceSet p' = sourceSet low /\ sinkSet p' = sinkSet low
    /\ map node_id (nodeList p') = map node_id (nodeList low)
    /\ map arc_datum (p_arcList p') = map arc_datum (p_arcList low).
Proof.
  eexists _, _, _, _, _. split; [vm_compute; reflexivity|].
  match goal with
  | |- solveProblem ?fuel ?low ?m ?g = Ok (?p', ?g') /\ _ =>
      assert (solveProblem fuel low m g = Ok (p', g')) as H by (vm_compute; reflexivity);
      split; [exact H|];
      exact (solveProblem_keeps_graph fuel low m g p' g' H)
  end.
Defined.

Lemma solveProblem_indicator_witness :
  exists low high g p' g',
    chain3_start = Ok (low, high, g)
    /\ problem_ok 3 low /\ numNodesSuper g = 3
    /\ solveProblem 100 low 0 g = Ok (p', g')
    /\ problem_ok 3 p'
    /\ exists ind,
         optimalSourceSetIndicator p' = Some ind
         /\ indicator_of 3 (idx (sourceSet p')) (idx (sinkSet p')) ind.
Proof.
  eexists _, _, _, _, _. split; [vm_compute; reflexivity|].
  match goal with
  | |- problem_ok ?N ?low /\ numNodesSuper ?g = _
       /\ solveProblem ?fuel ?low ?m ?g = Ok (?p', ?g') /\ _ =>
      assert (problem_ok N low) as Hok
        by (unfold problem_ok, problem_nodes; simpl; split_and!; try done;
            vm_compute; constructor; apply perm_swap);
      assert (solveProblem fuel low m g = Ok (p', g')) as H by (vm_compute; reflexivity);
      split; [exact Hok|]; split; [reflexivity|]; split; [exact H|];
      exact (solveProblem_indicator fuel low m g p' g' N Hok eq_refl
               ltac:(lia) H)
  end.
Defined.

Lemma contractProblem_keeps_nodes_witness :
  exists low high g new,
    chain3_bounds = Ok (low, high, g)
    /\ problem_ok 3 low
    /\ contractProblem g low 10%Q (optimalSourceSetIndicator low)
         (optimalSourceSetIndicator high) = Ok new
    /\ problem_ok 3 new
    /\ (forall j, j ∈ idx (sourceSet low) -> j ∈ idx (sourceSet new))
    /\ (forall j, j ∈ idx (sinkSet low) -> j ∈ idx (sinkSet new))
    /\ numNodesInList new <= numNodesInList low
    /\ p_lambdaValue new = 10%Q /\ solved new = 0.
Proof.
  eexists _, _, _, _. split; [vm_compute; reflexivity|].
  match goal with
  | |- problem_ok ?N ?low /\ contractProblem ?g ?low ?l ?li ?hi = Ok ?new /\ _ =>
      assert (problem_ok N low) as Hok
        by (unfold problem_ok, problem_nodes; simpl; split_and!; try done;
            vm_compute; constructor; apply perm_swap);
      assert (contractProblem g low l li hi = Ok new) as H by (vm_compute; reflexivity);
      split; [exact Hok|]; split; [exact H|];
      exact (contractProblem_keeps_nodes N g low l li hi new Hok ltac:(lia) H)
  end.
Defined.

Lemma contractProblem_arcs_evaluated_witness :
  exists low high g new,
    chain3_bounds = Ok (low, high, g)
    /\ contractProblem g low 10%Q (optimalSourceSetIndicator low)
         (optimalSourceSetIndicator high) = Ok new
    /\ arcs_ok new.
Proof.
  eexists _, _, _, _. split; [vm_compute; reflexivity|].
  match goal with
  | |- contractProblem ?g ?low ?l ?li ?hi = Ok ?new /\ _ =>
      assert (contractProblem g low l li hi = Ok new) as H by (vm_compute; reflexivity);
      split; [exact H|];
      exact (contractProblem_arcs_evaluated g low l li hi new H)
  end.
Defined.

Lemma hpf_solve_cuts_witness :
  exists out g,
    hpf_solve 100 3 2 0 2 chain3 (0, 20)%Q 0 = Ok (out, g)
    /\ out_cuts out = [1; 0; 0; 1; 1; 0]
    /\ exists rows,
         out_cuts out = concat rows
         /\ Z.of_nat (length rows) = out_numBreakpoints out
         /\ Forall (indicator_of 3 [0] [2]) rows.
Proof.
  eexists _, _.
  match goal with
  | |- hpf_solve ?fuel ?n ?m ?s ?t ?a ?range ?rnd = Ok (?out, ?g) /\ _ =>
      assert (hpf_solve fuel n m s t a range rnd = Ok (out, g)) as H
        by (vm_compute; reflexivity);
      split; [exact H|]; split; [reflexivity|];
      exact (hpf_solve_cuts fuel n m s t a range rnd out g
               ltac:(lia) ltac:(lia) ltac:(lia) ltac:(lia) ltac:(lia) H)
  end.
Defined.


Lemma initializeProblem_start_witness :
  exists g p,
    hpf_solve_read 3 2 0 2 chain3 (0, 20)%Q 0 reset_globals = Ok (tt, g)
    /\ idx (nodeListSuper g) = seqZ 0 3
    /\ initializeProblem g (nodeListSuper g) 3 (arcListSuper g) 2 0%Q = Ok p
    /\ problem_ok 3 p /\ idx (sourceSet p) = [0] /\ idx (sinkSet p) = [2]
    /\ arcs_ok p /\ p_lambdaValue p = 0%Q /\ solved p = 0.
Proof.
  eexists _, _. split; [vm_compute; reflexivity|].
  match goal with
  | |- idx ?nl = seqZ 0 ?n /\ initializeProblem ?g ?nl ?n ?al ?m ?l = Ok ?p /\ _ =>
      assert (idx nl = seqZ 0 n) as Hnl by (vm_compute; reflexivity);
      assert (initializeProblem g nl n al m l = Ok p) as H by (vm_compute; reflexivity);
      split; [exact Hnl|]; split; [exact H|];
      exact (initializeProblem_start g nl n al m l p 0 2 Hnl eq_refl eq_refl
               ltac:(lia) ltac:(lia) ltac:(lia) ltac:(lia) ltac:(lia) H)
  end.
Defined.

(** ** The arcs of the graph *)

Lemma arc_upd_Ok l i f l' :
  arc_upd l i f = Ok l' ->
  exists a, 0 <= i /\ l !! Z.to_nat i = Some a /\ l' = <[Z.to_nat i := f a]> l.
Proof.
  unfold arc_upd. destruct (aread l i) as [a|] eqn:E; [|done]. intros H.
  apply awrite_inv in H as [Hi ->]. apply aread_Ok in E as [_ E].
  exists a. split_and!; [lia|done|done].
Qed.

Lemma node_upd_Ok l i f l' :
  node_upd l i f = Ok l' -> 0 <= i < Z.of_nat (length l) /\ length l' = length l.
Proof.
  unfold node_upd. destruct (aread l i) as [a|] eqn:E; [|done]. intros H.
  apply awrite_inv in H as [Hi ->]. by rewrite length_insert.
Qed.

(** X11.  When [readGraphSuper] returns, node [i] of the graph has the
    original index [i], the arc array has [numArcsSuper] arcs, and arc [k] is
    the arc that row [k] of the arc matrix describes: in particular both ends
    of every row are nodes of the graph (the function does not check them; it
    counts the arc at the two nodes it names). *)
Theorem readGraphSuper_graph arcMatrix g u g' :
  readGraphSuper arcMatrix g = Ok (u, g') ->
  idx (nodeListSuper g') = seqZ 0 (numNodesSuper g)
  /\ length (arcListSuper g') = Z.to_nat (numArcsSuper g)
  /\ forall k a, arcListSuper g' !! k = Some a ->
       arc_of_row arcMatrix (numNodesSuper g) k a.
Proof.
  intros H. split; [by eapply readGraphSuper_nodes|].
  unfold readGraphSuper in H.
  apply bind_Ok in H as (n & ? & Hn & H). apply gets_Ok in Hn as [-> ->].
  apply bind_Ok in H as (m & ? & Hm & H). apply gets_Ok in Hm as [-> ->].
  apply bind_Ok in H as ([] & ? & H1 & H). apply modify_Ok in H1 as ->.
  apply bind_Ok in H as ([] & ? & H1 & H). apply modify_Ok in H1 as ->.
  apply bind_Ok in H as ([] & g1 & Hnodes & H).
  apply bind_Ok in H as ([] & g2 & Harcs & H).
  apply bind_Ok in H as (lo & ? & Hlo & H). apply gets_Ok in Hlo as [-> ->].
  apply bind_Ok in H as (hi & ? & Hhi & H). apply gets_Ok in Hhi as [-> ->].
  apply bind_Ok in H as ([] & g3 & Hflag & H).
  set (n := numNodesSuper g) in *. set (m := numArcsSuper g) in *.
  set (a0 := mkArc None None 0%Q 0%Q 0%Q 0%Q 1).
  (* the nodes *)
  assert (length (nodeListSuper g1) = Z.to_nat n
          /\ arcListSuper g1 = malloc m Arc_uninit) as [Ln1 La1].
  { unfold for_range in Hnodes.
    apply (for_loop_ind
             (fun _ s => length (nodeListSuper s) = Z.to_nat n
                         /\ arcListSuper s = malloc m Arc_uninit)
             _ _ _ _ _ _ Hnodes).
    - simpl. unfold malloc. by rewrite length_replicate.
    - intros k s1 u1 s2 _ [Hl Ha] Hb. inv_run.
      match goal with H : awrite _ _ _ = Ok _ |- _ => apply awrite_inv in H as [_ ->] end.
      simpl. by rewrite length_insert. }
  (* the arcs, initialised *)
  assert (nodeListSuper g2 = nodeListSuper g1
          /\ length (arcListSuper g2) = Z.to_nat m
          /\ forall k a, arcListSuper g2 !! k = Some a -> a = a0) as (Ln2 & La2 & Hinit).
  { unfold for_range in Harcs. rewrite Z.sub_0_r in Harcs.
    assert (nodeListSuper g2 = nodeListSuper g1
            /\ length (arcListSuper g2) = Z.to_nat m
            /\ forall k a, (k < Z.to_nat m)%nat -> arcListSuper g2 !! k = Some a -> a = a0)
      as (? & ? & Hk).
    { apply (for_loop_ind
               (fun j s => nodeListSuper s = nodeListSuper g1
                           /\ length (arcListSuper s) = Z.to_nat m
                           /\ forall k a, (k < j)%nat -> arcListSuper s !! k = Some a -> a = a0)
               _ _ _ _ _ _ Harcs).
      - rewrite La1. unfold malloc. rewrite length_replicate.
        split_and!; try done. lia.
      - intros j s1 u1 s2 Hj (Hn1 & Hl & Hk) Hb. inv_run.
        match goal with H : arc_upd _ _ _ = Ok _ |- _ =>
          apply arc_upd_Ok in H as (a & _ & Ha & ->) end.
        rewrite Z.add_0_l, Nat2Z.id in *. simpl. rewrite length_insert.
        split_and!; try done. intros k b Hkj Hb.
        destruct (decide (k = j)) as [->|Hne].
        + rewrite list_lookup_insert_eq in Hb by lia. by injection Hb as <-.
        + rewrite list_lookup_insert_ne in Hb by done. apply (Hk k); [lia|done]. }
    split_and!; try done. intros k a Ha. apply (Hk k); [|done].
    apply lookup_lt_Some in Ha. lia. }
  assert (nodeListSuper g3 = nodeListSuper g2 /\ arcListSuper g3 = arcListSuper g2)
    as [Ln3 La3].
  { destruct (deq _ _); inv_run; done. }
  (* the rows *)
  unfold for_range in H. rewrite Z.sub_0_r in H.
  assert (length (nodeListSuper g') = Z.to_nat n
          /\ length (arcListSuper g') = Z.to_nat m
          /\ (forall k a, (k < Z.to_nat m)%nat -> arcListSuper g' !! k = Some a ->
                arc_of_row arcMatrix n k a)
          /\ (forall k a, (Z.to_nat m <= k)%nat -> arcListSuper g' !! k = Some a ->
                a = a0)) as (_ & Hlen & Hrows & _).
  { apply (for_loop_ind
             (fun j s => length (nodeListSuper s) = Z.to_nat n
                         /\ length (arcListSuper s) = Z.to_nat m
                         /\ (forall k a, (k < j)%nat -> arcListSuper s !! k = Some a ->
                               arc_of_row arcMatrix n k a)
                         /\ (forall k a, (j <= k)%nat -> arcListSuper s !! k = Some a ->
                               a = a0))
             _ _ _ _ _ _ H).
    - rewrite Ln3, La3, Ln2. split_and!; try done; [lia|]. intros k a _. apply Hinit.
    - intros j s1 u1 s2 Hj (Hn1 & Hl & Hlow & Hhigh) Hb.
      rewrite Z.add_0_l in Hb.
      apply bind_Ok in Hb as (f & ? & Hf & Hb). apply liftR_Ok in Hf as [Hf ->].
      apply bind_Ok in Hb as (t & ? & Ht & Hb). apply liftR_Ok in Ht as [Ht ->].
      apply bind_Ok in Hb as (c & ? & Hc & Hb). apply liftR_Ok in Hc as [Hc ->].
      apply bind_Ok in Hb as (mu & ? & Hmu & Hb). apply liftR_Ok in Hmu as [Hmu ->].
      apply bind_Ok in Hb as (l & ? & Hg & Hb). apply gets_Ok in Hg as [-> ->].
      apply bind_Ok in Hb as (l1 & ? & U1 & Hb). apply liftR_Ok in U1 as [U1 ->].
      apply bind_Ok in Hb as (l2 & ? & U2 & Hb). apply liftR_Ok in U2 as [U2 ->].
      apply bind_Ok in Hb as (l3 & ? & U3 & Hb). apply liftR_Ok in U3 as [U3 ->].
      apply bind_Ok in Hb as (l4 & ? & U4 & Hb). apply liftR_Ok in U4 as [U4 ->].
      apply bind_Ok in Hb as ([] & ? & Hs & Hb). apply modify_Ok in Hs as ->.
      apply bind_Ok in Hb as (nl & ? & Hg & Hb). apply gets_Ok in Hg as [-> ->].
      apply bind_Ok in Hb as (nl1 & ? & N1 & Hb). apply liftR_Ok in N1 as [N1 ->].
      apply bind_Ok in Hb as (nl2 & ? & N2 & Hb). apply liftR_Ok in N2 as [N2 ->].
      apply modify_Ok in Hb as ->. simpl in *.
      apply node_upd_Ok in N1 as [Rf L1]. apply node_upd_Ok in N2 as [Rt L2].
      apply arc_upd_Ok in U1 as (b1 & _ & B1 & ->).
      apply arc_upd_Ok in U2 as (b2 & _ & B2 & ->).
      apply arc_upd_Ok in U3 as (b3 & _ & B3 & ->).
      apply arc_upd_Ok in U4 as (b4 & _ & B4 & ->).
      rewrite Nat2Z.id in *.
      assert (j < length (arcListSuper s1))%nat as Hjl by lia.
      rewrite list_lookup_insert_eq in B2, B3, B4 by (rewrite ?length_insert; lia).
      injection B2 as <-. injection B3 as <-. injection B4 as <-.
      pose proof (Hhigh j b1 ltac:(lia) B1) as ->.
      rewrite !list_insert_insert_eq, !length_insert.
      split_and!; try lia.
      + intros k a Hk Ha. destruct (decide (k = j)) as [->|Hne].
        * rewrite list_lookup_insert_eq in Ha by lia. injection Ha as <-.
          apply aread_Ok in Hf as [_ Hf]. apply aread_Ok in Ht as [_ Ht].
          apply aread_Ok in Hc as [_ Hc]. apply aread_Ok in Hmu as [_ Hmu].
          exists f, t, c, mu.
          replace (4 * j)%nat with (Z.to_nat (Z.of_nat j * 4 + 0)) by lia.
          replace (Z.to_nat (Z.of_nat j * 4 + 0) + 1)%nat
            with (Z.to_nat (Z.of_nat j * 4 + 1)) by lia.
          replace (Z.to_nat (Z.of_nat j * 4 + 0) + 2)%nat
            with (Z.to_nat (Z.of_nat j * 4 + 2)) by lia.
          replace (Z.to_nat (Z.of_nat j * 4 + 0) + 3)%nat
            with (Z.to_nat (Z.of_nat j * 4 + 3)) by lia.
          split_and!; try done; lia.
        * rewrite list_lookup_insert_ne in Ha by done. apply Hlow; [lia|done].
      + intros k a Hk Ha. rewrite list_lookup_insert_ne in Ha by lia.
        apply (Hhigh k); [lia|done]. }
  split; [done|]. intros k a Ha. apply Hrows; [|done].
  apply lookup_lt_Some in Ha. lia.
Qed.

Lemma readGraphSuper_graph_witness :
  exists g',
    readGraphSuper chain3
      (mkGlobals TOL_1Em8 3 2 [] [] [] [] 1 0 0%Q 20%Q
         (mkEngine 0 0 0 2 1 0 0 0 0 0 [] [] [] [])) = Ok (tt, g')
    /\ idx (nodeListSuper g') = seqZ 0 3
    /\ length (arcListSuper g') = Z.to_nat 2
    /\ forall k a, arcListSuper g' !! k = Some a -> arc_of_row chain3 3 k a.
Proof.
  eexists.
  match goal with
  | |- readGraphSuper ?m ?g = Ok (?u, ?g') /\ _ =>
      assert (readGraphSuper m g = Ok (u, g')) as H by (vm_compute; reflexivity);
      split; [exact H|];
      exact (readGraphSuper_graph m g u g' H)
  end.
Defined.

(** ** The end of the first phase *)

Lemma liftAll_roots c fuel rootNode :
  preserves (fun e => roots_part e = c) (liftAll fuel rootNode).
Proof.
  assert (forall n, preserves (fun e => roots_part e = c) (liftAll_lift n)) as Hlift.
  { intros n. unfold liftAll_lift, updNode, setNode, decLabelCount, setLabelCount,
      getLabelCount, getNode.
    preserves_auto. }
  unfold liftAll. apply preserves_bind; [apply Hlift | intros _].
  generalize (Some rootNode). induction fuel as [|fuel IH]; intros current; simpl;
    [apply preserves_fail|].
  unfold updNode, setNode, getNode.
  repeat first
    [ simple apply IH | simple apply Hlift | preserves_step
    | lazymatch goal with
      | |- preserves _ (modify _) =>
          apply preserves_modify; let s := fresh in let H := fresh in
          intros s H; exact H
      end ].
Qed.

Lemma getRoot_Ok i e rt e' :
  getRoot i e = Ok (rt, e') -> 0 <= i /\ strongRoots e !! Z.to_nat i = Some rt /\ e' = e.
Proof.
  unfold getRoot. intros H. inv_run.
  match goal with H : aread _ _ = Ok _ |- _ => apply aread_Ok in H as [? ?] end. done.
Qed.

Lemma updRoot_Ok i f e u e' :
  updRoot i f e = Ok (u, e') ->
  exists rt, 0 <= i /\ strongRoots e !! Z.to_nat i = Some rt
             /\ e' = set_strongRoots (<[Z.to_nat i := f rt]> (strongRoots e)) e.
Proof.
  unfold updRoot. intros H. inv_run.
  match goal with H : aread _ _ = Ok _ |- _ => apply aread_Ok in H as [? ?] end.
  match goal with H : awrite _ _ _ = Ok _ |- _ => apply awrite_inv in H as [? ->] end.
  eauto.
Qed.

(** The loop that empties bucket [i] at a gap. *)
Lemma getHighestStrongRoot_gap_Ok fuel i e u e' :
  getHighestStrongRoot_gap fuel i e = Ok (u, e') ->
  bucket_empty e' i
  /\ (forall k, k <> Z.to_nat i -> strongRoots e' !! k = strongRoots e !! k)
  /\ highestStrongLabel e' = highestStrongLabel e.
Proof.
  revert e. induction fuel as [|fuel IH]; intros e H; [done|]. simpl in H.
  apply bind_Ok in H as (rt & ? & Hrt & H). apply getRoot_Ok in Hrt as (Hi & Hrt & ->).
  destruct (start rt) as [strongRoot|] eqn:Hs.
  - apply bind_Ok in H as ([] & ? & Hm & H). apply modify_Ok in Hm as ->.
    apply bind_Ok in H as (r & e1 & Hr & H).
    assert (e1 = set_numGaps (u32 (numGaps e + 1)) e) as ->.
    { unfold getNode in Hr. inv_run. done. }
    apply bind_Ok in H as ([] & e2 & Hu & H).
    apply updRoot_Ok in Hu as (rt' & _ & Hrt' & ->).
    apply bind_Ok in H as ([] & e3 & Hl & H).
    pose proof (liftAll_roots _ _ _ _ _ _ eq_refl Hl) as Hk.
    unfold roots_part in Hk. simpl in Hk. injection Hk as Hk1 Hk2.
    apply IH in H as (He & Hf & Hh). split_and!; [done| |congruence].
    intros k Hk. rewrite (Hf k Hk), Hk1. by apply list_lookup_insert_ne.
  - apply ret_Ok in H as [_ <-]. split_and!; try done. by exists rt.
Qed.

(** The scan of the buckets [i], [i - 1], ... that ends without a root. *)
Lemma getHighestStrongRoot_scan_None fuel n : forall i e e',
  Z.of_nat n <= i ->
  getHighestStrongRoot_scan fuel n i e = Ok (None, e') ->
  (forall j, i - Z.of_nat n < j <= i -> bucket_empty e' j)
  /\ (forall k, (k <= Z.to_nat (i - Z.of_nat n) \/ Z.to_nat i < k)%nat ->
        strongRoots e' !! k = strongRoots e !! k)
  /\ highestStrongLabel e' <= Z.max (highestStrongLabel e) i.
Proof.
  induction n as [|n IH]; intros i e e' Hn H; simpl in H.
  - apply ret_Ok in H as [_ <-]. split_and!; try done; lia.
  - apply bind_Ok in H as (rt & ? & Hrt & H). apply getRoot_Ok in Hrt as (Hi & Hrt & ->).
    destruct (start rt) as [strongRoot|] eqn:Hs.
    + apply bind_Ok in H as ([] & ? & Hm & H). apply modify_Ok in Hm as ->.
      apply bind_Ok in H as (c & e1 & Hc & H).
      assert (e1 = set_highestStrongLabel i e) as ->.
      { unfold getLabelCount in Hc. inv_run. done. }
      destruct (negb (c =? 0)).
      { apply bind_Ok in H as (? & ? & _ & H). apply bind_Ok in H as (? & ? & _ & H).
        apply bind_Ok in H as (? & ? & _ & H). by apply ret_Ok in H as [? _]. }
      apply bind_Ok in H as ([] & e2 & Hgap & H).
      apply getHighestStrongRoot_gap_Ok in Hgap as (He & Hf & Hh).
      apply IH in H as (Hlow & Hfr & Hle); [|lia]. simpl in *.
      split_and!.
      * intros j Hj. destruct (decide (j = i)) as [->|Hji].
        -- destruct He as (rt1 & Hrt1 & Hst1). exists rt1. split; [|done].
           rewrite Hfr by lia. done.
        -- apply Hlow. lia.
      * intros k Hk. rewrite Hfr by lia. apply Hf. lia.
      * lia.
    + apply IH in H as (Hlow & Hfr & Hle); [|lia].
      split_and!.
      * intros j Hj. destruct (decide (j = i)) as [->|Hji].
        -- exists rt. split; [|done]. rewrite Hfr by lia. done.
        -- apply Hlow. lia.
      * intros k Hk. apply Hfr. lia.
      * lia.
Qed.

Lemma getHighestStrongRoot_None fuel e e' :
  getHighestStrongRoot fuel e = Ok (None, e') ->
  forall i, 0 <= i <= highestStrongLabel e' -> bucket_empty e' i.
Proof.
  unfold getHighestStrongRoot. rewrite bind_gets. intros H.
  apply bind_Ok in H as (found & e1 & Hscan & H).
  destruct found as [strongRoot|]; [by apply ret_Ok in H as [? _]|].
  apply bind_Ok in H as (rt & ? & Hrt & H). apply getRoot_Ok in Hrt as (_ & Hrt & ->).
  destruct (start rt) as [r0|] eqn:Hs.
  { repeat (apply bind_Ok in H as (? & ? & _ & H)). by apply ret_Ok in H as [? _]. }
  apply ret_Ok in H as [_ <-].
  destruct (Z.le_gt_cases 0 (highestStrongLabel e)) as [Hh|Hh].
  - apply getHighestStrongRoot_scan_None in Hscan as (Hlow & _ & Hle); [|lia].
    intros i Hi. destruct (decide (i = 0)) as [->|Hne]; [by exists rt|].
    apply Hlow. lia.
  - replace (Z.to_nat (highestStrongLabel e)) with 0%nat in Hscan by lia.
    simpl in Hscan. apply ret_Ok in Hscan as [_ <-]. intros i Hi. lia.
Qed.

(** X13.  When the first phase returns, no strong root is left: every
    bucket of [strongRoots] from bucket 0 to bucket [highestStrongLabel] is
    empty. *)
Theorem pseudoflowPhase1_no_strong_root fuel e u e' :
  pseudoflowPhase1 fuel e = Ok (u, e') ->
  forall i, 0 <= i <= highestStrongLabel e' -> bucket_empty e' i.
Proof.
  revert e. induction fuel as [|fuel IH]; intros e H; [done|]. simpl in H.
  apply bind_Ok in H as (r & e1 & Hr & H). destruct r as [strongRoot|].
  - apply bind_Ok in H as ([] & e2 & _ & H). exact (IH _ H).
  - apply ret_Ok in H as [_ <-]. by apply (getHighestStrongRoot_None fuel e).
Qed.

Lemma pseudoflowPhase1_no_strong_root_witness :
  exists e e',
    fork4_engine = Ok e
    /\ pseudoflowPhase1 100 e = Ok (tt, e')
    /\ highestStrongLabel e' = 2
    /\ forall i, 0 <= i <= highestStrongLabel e' -> bucket_empty e' i.
Proof.
  eexists _, _. split; [vm_compute; reflexivity|].
  match goal with
  | |- pseudoflowPhase1 ?fuel ?e = Ok (?u, ?e') /\ _ =>
      assert (pseudoflowPhase1 fuel e = Ok (u, e')) as H by (vm_compute; reflexivity);
      split; [exact H|]; split; [reflexivity|];
      exact (pseudoflowPhase1_no_strong_root fuel e u e' H)
  end.
Defined.

(** ** The state after [simpleInitialization] *)

Lemma getNode_Ok p e nd e' :
  getNode p e = Ok (nd, e') <-> nodesList e !! p = Some nd /\ e' = e.
Proof.
  unfold getNode, pread. rewrite bind_gets, liftR_Ok, aread_Ok, Nat2Z.id.
  split; [intros [[_ ?] ?]; done | intros [? ?]; split_and!; [lia|done|done]].
Qed.

Lemma updNode_Ok p f e u e' :
  updNode p f e = Ok (u, e') <->
  exists nd, nodesList e !! p = Some nd
             /\ e' = set_nodesList (<[p := f nd]> (nodesList e)) e.
Proof.
  unfold updNode, setNode, pwrite. split.
  - intros H. apply bind_Ok in H as (nd & ? & Hg & H). apply getNode_Ok in Hg as [Hg ->].
    rewrite bind_gets in H. apply bind_Ok in H as (l & ? & Hw & H).
    apply liftR_Ok in Hw as [Hw ->]. apply awrite_inv in Hw as [_ ->].
    apply modify_Ok in H as ->. rewrite Nat2Z.id. eauto.
  - intros (nd & Hnd & ->). destruct u. apply bind_Ok. exists nd, e.
    split; [by apply getNode_Ok|]. rewrite bind_gets.
    rewrite awrite_Ok by (apply lookup_lt_Some in Hnd; lia).
    by rewrite Nat2Z.id.
Qed.

Lemma getLabelCount_Ok i e v e' :
  getLabelCount i e = Ok (v, e') -> 0 <= i /\ labelCount e !! Z.to_nat i = Some v /\ e' = e.
Proof.
  unfold getLabelCount. rewrite bind_gets, liftR_Ok, aread_Ok. by intros [[? ?] ?].
Qed.

Lemma setLabelCount_Ok i v e u e' :
  setLabelCount i v e = Ok (u, e') ->
  0 <= i /\ e' = set_labelCount (<[Z.to_nat i := v]> (labelCount e)) e.
Proof.
  unfold setLabelCount. rewrite bind_gets. intros H.
  apply bind_Ok in H as (l & ? & Hw & H). apply liftR_Ok in Hw as [Hw ->].
  apply awrite_inv in Hw as [? ->]. apply modify_Ok in H as ->. split; [lia|done].
Qed.

Lemma chain_update nodes cur l x nd nd' :
  chain nodes cur l -> nodes !! x = Some nd -> next nd' = next nd ->
  chain (<[x := nd']> nodes) cur l.
Proof.
  intros H Hx Hn. revert cur H. induction l as [|y l IH]; intros cur H; simpl in *; [done|].
  destruct H as (-> & ndy & Hy & H). split; [done|].
  destruct (decide (y = x)) as [->|Hne].
  - exists nd'. rewrite list_lookup_insert_eq by (by apply lookup_lt_Some in Hx).
    split; [done|]. rewrite Hn. apply IH. congruence.
  - exists ndy. rewrite list_lookup_insert_ne by done. split; [done|]. by apply IH.
Qed.

Lemma chain_nil_start nodes cur l : chain nodes cur l -> (cur = None <-> l = []).
Proof. destruct l; simpl; [by intros ->|]. intros [-> _]. done. Qed.

(** A node appended to a chain, behind its last node. *)
Lemma chain_snoc nodes cur l e k nde ndk ndk' :
  chain nodes cur (l ++ [e]) -> NoDup (l ++ [e]) -> k ∉ l ++ [e] ->
  nodes !! e = Some nde -> nodes !! k = Some ndk -> next ndk' = None ->
  chain (<[k := ndk']> (<[e := set_next (Some k) nde]> nodes)) cur ((l ++ [e]) ++ [k]).
Proof.
  intros H Hnd Hk He Hkk Hn. revert cur H Hnd Hk.
  assert (k < length nodes)%nat as Lk by (by apply lookup_lt_Some in Hkk).
  assert (e < length nodes)%nat as Le by (by apply lookup_lt_Some in He).
  induction l as [|x l IH]; intros cur H Hnd Hk; simpl in *.
  - destruct H as (-> & nd & Hnd' & Hnone). split; [done|].
    assert (k <> e) as Hke.
    { intros ->. apply Hk. by apply list_elem_of_singleton. }
    exists (set_next (Some k) nde).
    rewrite list_lookup_insert_ne by done. rewrite list_lookup_insert_eq by done.
    split; [done|]. simpl. split; [done|]. exists ndk'.
    rewrite list_lookup_insert_eq by (by rewrite length_insert). done.
  - destruct H as (-> & ndx & Hx & H). split; [done|].
    apply NoDup_cons in Hnd as [Hxl Hnd].
    assert (x <> e) as Hxe.
    { intros ->. apply Hxl. apply elem_of_app. right. by apply list_elem_of_singleton. }
    assert (x <> k) as Hxk.
    { intros ->. apply Hk. by left. }
    exists ndx. rewrite !list_lookup_insert_ne by done. split; [done|].
    apply IH; [done|done|]. intros Hin. apply Hk. by right.
Qed.

(** A node put in an empty chain. *)
Lemma chain_single nodes k ndk' :
  (k < length nodes)%nat -> next ndk' = None ->
  chain (<[k := ndk']> nodes) (Some k) [k].
Proof.
  intros Hk Hn. simpl. split; [done|]. exists ndk'.
  by rewrite list_lookup_insert_eq.
Qed.

Lemma strong_nodes_S nodes k :
  strong_nodes nodes (S k)
  = strong_nodes nodes k
    ++ (if match nodes !! k with Some nd => positive_excess nd | None => false end
        then [k] else []).
Proof.
  unfold strong_nodes. rewrite seq_S, List.filter_app. simpl.
  destruct (nodes !! k) as [nd|]; [destruct (positive_excess nd)|]; done.
Qed.

Lemma strong_nodes_lt nodes k i : i ∈ strong_nodes nodes k -> (i < k)%nat.
Proof.
  unfold strong_nodes. rewrite list_elem_of_In, List.filter_In, in_seq. lia.
Qed.

Lemma strong_nodes_NoDup nodes k : NoDup (strong_nodes nodes k).
Proof.
  unfold strong_nodes. apply NoDup_ListNoDup, List.NoDup_filter, seq_NoDup.
Qed.

Lemma strong_nodes_length nodes k : (length (strong_nodes nodes k) <= k)%nat.
Proof.
  unfold strong_nodes. etrans; [apply List.filter_length_le|]. by rewrite length_seq.
Qed.

Lemma strong_nodes_ext nodes nodes' k :
  map excess nodes = map excess nodes' -> strong_nodes nodes k = strong_nodes nodes' k.
Proof.
  intros H. unfold strong_nodes. apply List.filter_ext. intros i.
  assert (excess <$> nodes !! i = excess <$> nodes' !! i) as Hi.
  { rewrite <- !list_lookup_fmap. change (excess <$> nodes) with (map excess nodes).
    change (excess <$> nodes') with (map excess nodes'). by rewrite H. }
  unfold positive_excess.
  destruct (nodes !! i), (nodes' !! i); simpl in Hi; try done. by injection Hi as ->.
Qed.

Lemma map_insert_kept {A B} (h : A -> B) (l : list A) (i : nat) (x x' : A) :
  l !! i = Some x -> h x' = h x -> map h (<[i := x']> l) = map h l.
Proof.
  intros Hi Hh. rewrite <- (list_insert_id _ _ _ Hi) at 2.
  change map with (@fmap list _). by rewrite !list_fmap_insert, Hh.
Qed.

(** [addToStrongBucket] appends the node to the bucket, and changes no label
    and no excess. *)
Lemma addToStrongBucket_snoc k b l e u e' :
  addToStrongBucket k b e = Ok (u, e') ->
  bucket_holds e (Z.to_nat b) l -> NoDup l -> k ∉ l ->
  bucket_holds e' (Z.to_nat b) (l ++ [k])
  /\ map (fun nd => (label nd, excess nd)) (nodesList e')
     = map (fun nd => (label nd, excess nd)) (nodesList e)
  /\ (labelCount e', numNodes e', source e', sink e')
     = (labelCount e, numNodes e, source e, sink e).
Proof.
  unfold addToStrongBucket. intros H (rt0 & Hrt0 & Hch & Hend) Hnd Hk.
  apply bind_Ok in H as (rt & ? & Hrt & H). apply getRoot_Ok in Hrt as (Hb & Hrt & ->).
  assert (rt0 = rt) as -> by congruence.
  assert (Z.to_nat b < length (strongRoots e))%nat as Lb by (by apply lookup_lt_Some in Hrt).
  destruct (start rt) as [x|] eqn:Hs.
  - assert (l <> []) as Hl.
    { intros Hl. apply (chain_nil_start _ _ _ Hch) in Hl. congruence. }
    specialize (Hend Hl).
    destruct (last l) as [e0|] eqn:Hlast; [|by apply last_None in Hlast].
    apply last_Some in Hlast as [l0 ->].
    apply bind_Ok in H as (e1 & ? & Hd & H). apply deref_Ok in Hd as [Hd ->].
    assert (e1 = e0) as -> by congruence.
    apply bind_Ok in H as ([] & ? & U1 & H). apply updNode_Ok in U1 as (nde & Hnde & ->).
    apply bind_Ok in H as ([] & ? & U2 & H). apply updRoot_Ok in U2 as (rt1 & _ & Hrt1 & ->).
    apply updNode_Ok in H as (ndk & Hndk & ->). simpl in *.
    assert (rt1 = rt) as -> by congruence.
    assert (k <> e0) as Hke.
    { intros ->. apply Hk. apply elem_of_app. right. by apply list_elem_of_singleton. }
    rewrite list_lookup_insert_ne in Hndk by done.
    split_and!.
    + exists (set_end (Some k) rt). simpl. rewrite list_lookup_insert_eq by done.
      split; [done|]. split.
      * rewrite Hs. by apply (chain_snoc _ _ _ _ _ _ ndk).
      * intros _. by rewrite last_snoc.
    + rewrite (map_insert_kept _ _ _ ndk) by (by rewrite ?list_lookup_insert_ne).
      by rewrite (map_insert_kept _ _ _ nde).
    + done.
  - assert (l = []) as -> by (by apply (chain_nil_start _ _ _ Hch)).
    apply bind_Ok in H as ([] & ? & U1 & H). apply updRoot_Ok in U1 as (rt1 & _ & Hrt1 & ->).
    apply bind_Ok in H as ([] & ? & U2 & H). apply updRoot_Ok in U2 as (rt2 & _ & Hrt2 & ->).
    apply updNode_Ok in H as (ndk & Hndk & ->). simpl in *.
    rewrite list_lookup_insert_eq in Hrt2 by done. injection Hrt2 as <-.
    split_and!.
    + exists (set_end (Some k) (set_start (Some k) rt1)). simpl.
      rewrite list_lookup_insert_eq by (by rewrite length_insert).
      split; [done|]. split; [|done].
      split; [done|]. exists (set_next None ndk).
      rewrite list_lookup_insert_eq by (by apply lookup_lt_Some in Hndk). done.
    + by rewrite (map_insert_kept _ _ _ ndk).
    + done.
Qed.

Lemma updNode_labels_part c p f :
  (forall n, (label (f n), next (f n)) = (label n, next n)) ->
  preserves (fun e => labels_part e = c) (updNode p f).
Proof.
  intros Hf e u e' <- H. apply updNode_Ok in H as (nd & Hnd & ->).
  unfold labels_part. simpl. by rewrite (map_insert_kept _ _ _ nd).
Qed.

Lemma updArc_labels_part c p f : preserves (fun e => labels_part e = c) (updArc p f).
Proof. unfold updArc. preserves_auto. Qed.

(** The saturation of the arcs at the source and at the sink changes no
    label, no [next] pointer, no bucket and no count of labels. *)
Lemma saturation_labels_part c p (sign : double -> double -> double) sel n :
  preserves (fun e => labels_part e = c)
    (for_range 0 n (fun i =>
       s <- getNode p ;;
       tempArc <- liftR (aread (outOfTree s) i) ;;
       updArc tempArc (fun a => set_flow (capacity a) a) ;;
       a <- getArc tempArc ;;
       t <- deref (sel a) ;;
       updNode t (fun n => set_excess (sign (excess n) (capacity a)) n))).
Proof.
  apply preserves_for_range. intros i. unfold getNode, getArc.
  repeat first
    [ simple apply updArc_labels_part
    | simple apply updNode_labels_part; intros; reflexivity
    | preserves_step ].
Qed.

Lemma ltb_S_ne i k : i <> k -> (i <? S k)%nat = (i <? k)%nat.
Proof. intros. destruct (Nat.ltb_spec i (S k)), (Nat.ltb_spec i k); try done; lia. Qed.

(** The loop of [simpleInitialization] over the nodes: the nodes with
    positive excess get the label 1 and go to bucket 1, in their order. *)
Lemma simpleInitialization_label_loop (e : Engine) (n : nat) u e' :
  for_loop n 0 (fun i =>
    nd <- getNode (addr i) ;;
    if 0 <? isExcess (excess nd) then
      updNode (addr i) (set_label 1) ;;
      incLabelCount 1 ;;
      addToStrongBucket (addr i) 1
    else ret tt) e = Ok (u, e') ->
  Z.of_nat n < 2 ^ 32 ->
  labelCount e !! 1%nat = Some 0 -> bucket_holds e 1 [] ->
  let strong := strong_nodes (nodesList e) n in
  map excess (nodesList e') = map excess (nodesList e)
  /\ (forall i nd nd', nodesList e !! i = Some nd -> nodesList e' !! i = Some nd' ->
        label nd' = if (i <? n)%nat && positive_excess nd then 1 else label nd)
  /\ bucket_holds e' 1 strong
  /\ labelCount e' = <[1%nat := Z.of_nat (length strong)]> (labelCount e)
  /\ (numNodes e', source e', sink e') = (numNodes e, source e, sink e).
Proof.
  intros H Hn Hc Hb.
  apply (for_loop_ind
    (fun k ek =>
       map excess (nodesList ek) = map excess (nodesList e)
       /\ (forall i nd nd', nodesList e !! i = Some nd -> nodesList ek !! i = Some nd' ->
             label nd' = if (i <? k)%nat && positive_excess nd then 1 else label nd)
       /\ bucket_holds ek 1 (strong_nodes (nodesList e) k)
       /\ labelCount ek
          = <[1%nat := Z.of_nat (length (strong_nodes (nodesList e) k))]> (labelCount e)
       /\ (numNodes ek, source ek, sink ek) = (numNodes e, source e, sink e))
    _ _ _ _ _ _ H).
  - split_and!; try done.
    + intros i nd nd' H1 H2. assert (nd' = nd) as -> by congruence.
      by destruct (Nat.ltb_spec i 0); [lia|].
    + simpl. by rewrite list_insert_id.
  - intros k ek uk ek' Hk (Hex & Hlab & Hbk & Hlc & Hfr) Hbody.
    rewrite Z.add_0_l in Hbody. unfold addr in Hbody. rewrite Nat2Z.id in Hbody.
    apply bind_Ok in Hbody as (ndk & ? & Hg & Hbody). apply getNode_Ok in Hg as [Hndk ->].
    assert (exists nd0, nodesList e !! k = Some nd0 /\ excess nd0 = excess ndk)
      as (nd0 & Hnd0 & Hex0).
    { assert (excess <$> nodesList e !! k = excess <$> nodesList ek !! k) as Hi.
      { rewrite <- !list_lookup_fmap.
        change (excess <$> nodesList e) with (map excess (nodesList e)).
        change (excess <$> nodesList ek) with (map excess (nodesList ek)).
        by rewrite Hex. }
      rewrite Hndk in Hi. destruct (nodesList e !! k) as [nd0|]; [|done].
      exists nd0. simpl in Hi. split; [done|congruence]. }
    assert (positive_excess nd0 = (0 <? isExcess (excess ndk))) as Hpe
      by (unfold positive_excess; by rewrite Hex0).
    rewrite strong_nodes_S, Hnd0, Hpe.
    pose proof (strong_nodes_length (nodesList e) k) as Hlen.
    destruct (0 <? isExcess (excess ndk)) eqn:Hpos.
    + apply bind_Ok in Hbody as ([] & ? & U1 & Hbody).
      apply updNode_Ok in U1 as (nd1 & Hnd1 & ->).
      assert (nd1 = ndk) as -> by congruence.
      apply bind_Ok in Hbody as ([] & e2 & Hinc & Hbody).
      unfold incLabelCount in Hinc.
      apply bind_Ok in Hinc as (v & ? & Hv & Hinc).
      apply getLabelCount_Ok in Hv as (_ & Hv & ->).
      apply setLabelCount_Ok in Hinc as (_ & ->). simpl in Hv.
      change (Z.to_nat 1) with 1%nat in *.
      assert (1 < length (labelCount e))%nat as L1 by (by apply lookup_lt_Some in Hc).
      rewrite Hlc, list_lookup_insert_eq in Hv by done. injection Hv as <-.
      apply (addToStrongBucket_snoc k 1 (strong_nodes (nodesList e) k)) in Hbody
        as (Hb' & Hkept & Hfr'); simpl.
      * simpl in Hkept, Hfr'. injection Hfr' as F1 F2 F3 F4.
        assert (map excess (nodesList ek') = map excess (nodesList ek)
                /\ map label (nodesList ek')
                   = map label (<[k := set_label 1 ndk]> (nodesList ek))) as [Hex' Hlab'].
        { split.
          - rewrite <- (map_insert_kept excess (nodesList ek) k ndk (set_label 1 ndk))
              by done.
            rewrite <- !(map_map (fun nd => (label nd, excess nd)) snd).
            by rewrite Hkept.
          - rewrite <- !(map_map (fun nd => (label nd, excess nd)) fst).
            by rewrite Hkept. }
        split_and!.
        -- congruence.
        -- intros i nd nd' H1 H2.
           assert (label <$> nodesList ek' !! i
                   = label <$> (<[k := set_label 1 ndk]> (nodesList ek)) !! i) as Hi.
           { rewrite <- !list_lookup_fmap. f_equal. exact Hlab'. }
           rewrite H2 in Hi. simpl in Hi.
           destruct (decide (i = k)) as [->|Hne].
           ++ rewrite list_lookup_insert_eq in Hi by (by apply lookup_lt_Some in Hndk).
              simpl in Hi. injection Hi as ->.
              assert (nd = nd0) as -> by congruence.
              rewrite (proj2 (Nat.ltb_lt k (S k))) by lia.
              by rewrite Hpe.
           ++ rewrite list_lookup_insert_ne in Hi by done.
              destruct (nodesList ek !! i) as [ndi|] eqn:Hndi; [|done].
              simpl in Hi. injection Hi as ->. rewrite (Hlab i nd ndi H1 Hndi).
              by rewrite (ltb_S_ne i k).
        -- done.
        -- rewrite F1, Hlc, list_insert_insert_eq, length_app. simpl.
           rewrite u32_small by lia. do 2 f_equal. lia.
        -- congruence.
      * destruct Hbk as (rt & Hrt & Hch & Hend). exists rt. simpl.
        split; [done|]. split; [|done].
        by apply (chain_update _ _ _ _ ndk).
      * apply strong_nodes_NoDup.
      * intros Hin. apply strong_nodes_lt in Hin. lia.
    + apply ret_Ok in Hbody as [_ <-]. rewrite app_nil_r.
      split_and!; try done.
      intros i nd nd' H1 H2. rewrite (Hlab i nd nd' H1 H2).
      destruct (decide (i = k)) as [->|Hne].
      * assert (nd = nd0) as -> by congruence.
        rewrite Nat.ltb_irrefl, Hpe. by rewrite !andb_false_r.
      * by rewrite (ltb_S_ne i k).
Qed.

(** X14.  When [simpleInitialization] returns, in a solve whose source and
    sink are two distinct nodes, with fewer than 2^32 nodes, started with
    [labelCount[1] = 0] and an empty bucket 1 (as [createMemoryStructures]
    leaves them): the source has the label [numNodes] and the sink the label
    0, both with excess 0; every other node among the first [numNodes] that
    has positive excess has the label 1, and the remaining nodes keep their
    labels; bucket 1 of [strongRoots] holds exactly the nodes with positive
    excess, in the order of the node array; [labelCount[1]] is their number
    and [labelCount[0]] is [numNodes - 2 - labelCount[1]] (in unsigned
    arithmetic). *)
Theorem simpleInitialization_post e u e' :
  simpleInitialization e = Ok (u, e') ->
  addr (source e) <> addr (sink e) ->
  0 <= numNodes e < 2 ^ 32 ->
  labelCount e !! 1%nat = Some 0 -> bucket_holds e 1 [] ->
  let n := numNodes e in
  let strong := strong_nodes (nodesList e') (Z.to_nat n) in
  (forall i nd nd', nodesList e !! i = Some nd -> nodesList e' !! i = Some nd' ->
     label nd' = if decide (i = addr (source e)) then n
                 else if decide (i = addr (sink e)) then 0
                 else if (i <? Z.to_nat n)%nat && positive_excess nd' then 1
                 else label nd)
  /\ (exists ns nt, nodesList e' !! addr (source e) = Some ns /\ excess ns = 0%Q
                    /\ nodesList e' !! addr (sink e) = Some nt /\ excess nt = 0%Q)
  /\ bucket_holds e' 1 strong
  /\ labelCount e' !! 1%nat = Some (Z.of_nat (length strong))
  /\ labelCount e' !! 0%nat = Some (u32 (u32 (n - 2) - Z.of_nat (length strong))).
Proof.
  intros H Hst Hn Hc Hb n strong. unfold simpleInitialization in H.
  rewrite !bind_gets in H.
  set (s := addr (source e)) in *. set (t := addr (sink e)) in *.
  apply bind_Ok in H as (s0 & ? & Hg & H). apply getNode_Ok in Hg as [_ ->].
  apply bind_Ok in H as ([] & eA & HA & H).
  pose proof (saturation_labels_part _ s dadd to _ _ _ _ eq_refl HA) as FA.
  apply bind_Ok in H as (t0 & ? & Hg & H). apply getNode_Ok in Hg as [_ ->].
  apply bind_Ok in H as ([] & eB & HB & H).
  pose proof (saturation_labels_part _ t dsub from _ _ _ _ eq_refl HB) as FB.
  apply bind_Ok in H as ([] & e3 & U3 & H).
  pose proof (updNode_labels_part _ s (set_excess 0%Q) ltac:(done) _ _ _ eq_refl U3) as F3.
  apply updNode_Ok in U3 as (ns & Hns & ->).
  apply bind_Ok in H as ([] & e4 & U4 & H).
  pose proof (updNode_labels_part _ t (set_excess 0%Q) ltac:(done) _ _ _ eq_refl U4) as F4.
  apply updNode_Ok in U4 as (nt & Hnt & ->).
  simpl in Hnt. rewrite list_lookup_insert_ne in Hnt by done.
  match type of H with
  | _ ?x = _ => set (e4 := x) in *
  end.
  assert (labels_part e4 = labels_part e) as F by congruence.
  clear FA FB F3 F4 HA HB.
  assert (nodesList e4 !! s = Some (set_excess 0%Q ns)) as X4s.
  { subst e4. simpl. rewrite list_lookup_insert_ne by done.
    apply list_lookup_insert_eq. by apply lookup_lt_Some in Hns. }
  assert (nodesList e4 !! t = Some (set_excess 0%Q nt)) as X4t.
  { subst e4. simpl. apply list_lookup_insert_eq. rewrite length_insert.
    by apply lookup_lt_Some in Hnt. }
  clearbody e4.
  unfold labels_part in F. injection F as G1 G2 G3 G4 G5 G6.
  assert (bucket_holds e4 1 []) as Hb4.
  { destruct Hb as (rt & Hrt & Hch & Hend). exists rt. rewrite G2. done. }
  rewrite bind_gets in H.
  apply bind_Ok in H as ([] & eC & HC & H).
  unfold for_range in HC. rewrite Z.sub_0_r, G4 in HC.
  apply simpleInitialization_label_loop in HC
    as (Hex & Hlab & HbC & HlC & HfC); [|lia|congruence|done].
  injection HfC as K1 K2 K3.
  rewrite bind_gets in H.
  apply bind_Ok in H as ([] & e5 & U5 & H). apply updNode_Ok in U5 as (n5 & Hn5 & ->).
  apply bind_Ok in H as ([] & e6 & U6 & H). apply updNode_Ok in U6 as (n6 & Hn6 & ->).
  apply bind_Ok in H as (c1 & ? & Hc1 & H). apply getLabelCount_Ok in Hc1 as (_ & Hc1 & ->).
  apply setLabelCount_Ok in H as (_ & ->). simpl in *.
  change (Z.to_nat 1) with 1%nat in *. change (Z.to_nat 0) with 0%nat in *.
  rewrite list_lookup_insert_ne in Hn6 by done.
  assert (1 < length (labelCount e))%nat as L1 by (by apply lookup_lt_Some in Hc).
  rewrite HlC, G3, list_lookup_insert_eq in Hc1 by done. injection Hc1 as <-.
  rewrite K1, G4. fold n.
  assert (map excess (<[t := set_label 0 n6]> (<[s := set_label n n5]> (nodesList eC)))
          = map excess (nodesList e4)) as Hex'.
  { rewrite (map_insert_kept _ _ _ n6) by (by rewrite ?list_lookup_insert_ne).
    by rewrite (map_insert_kept _ _ _ n5). }
  assert (strong = strong_nodes (nodesList e4) (Z.to_nat n)) as Hstrong.
  { unfold strong. simpl. rewrite K1, G4. by apply strong_nodes_ext. }
  clearbody strong. subst strong.
  assert (s < length (nodesList eC))%nat as Ls by (by apply lookup_lt_Some in Hn5).
  assert (t < length (nodesList eC))%nat as Lt by (by apply lookup_lt_Some in Hn6).
  assert (forall i nd, nodesList eC !! i = Some nd ->
            exists nd4, nodesList e4 !! i = Some nd4 /\ excess nd4 = excess nd) as Hex4.
  { intros i nd Hi.
    assert (excess <$> nodesList e4 !! i = excess <$> nodesList eC !! i) as E.
    { rewrite <- !list_lookup_fmap.
      change (excess <$> nodesList e4) with (map excess (nodesList e4)).
      change (excess <$> nodesList eC) with (map excess (nodesList eC)).
      by rewrite Hex. }
    rewrite Hi in E. destruct (nodesList e4 !! i) as [nd4|]; [|done].
    exists nd4. simpl in E. split; [done|congruence]. }
  split_and!.
  - intros i nd nd' H1 H2.
    destruct (decide (i = s)) as [->|Hs].
    { rewrite list_lookup_insert_ne in H2 by done.
      rewrite list_lookup_insert_eq in H2 by done. by injection H2 as <-. }
    destruct (decide (i = t)) as [->|Ht].
    { rewrite list_lookup_insert_eq in H2 by (by rewrite length_insert).
      by injection H2 as <-. }
    rewrite !list_lookup_insert_ne in H2 by done.
    destruct (Hex4 i nd' H2) as (nd4 & H4 & E4).
    rewrite (Hlab i nd4 nd' H4 H2).
    assert (positive_excess nd' = positive_excess nd4) as ->
      by (unfold positive_excess; by rewrite E4).
    assert (label nd4 = label nd) as ->; [|done].
    assert ((fun nd => (label nd, next nd)) <$> nodesList e4 !! i
            = (fun nd => (label nd, next nd)) <$> nodesList e !! i) as E.
    { rewrite <- !list_lookup_fmap. f_equal. exact G1. }
    rewrite H4, H1 in E. simpl in E. congruence.
  - destruct (Hex4 s n5 Hn5) as (nd4 & H4 & E4).
    destruct (Hex4 t n6 Hn6) as (nd4' & H4' & E4').
    exists (set_label n n5), (set_label 0 n6).
    rewrite list_lookup_insert_ne by done. rewrite list_lookup_insert_eq by done.
    rewrite list_lookup_insert_eq by (by rewrite length_insert).
    split_and!; try done; simpl.
    + rewrite <- E4. rewrite X4s in H4. by injection H4 as <-.
    + rewrite <- E4'. rewrite X4t in H4'. by injection H4' as <-.
  - destruct HbC as (rt & Hrt & Hch & Hend). exists rt. simpl.
    split; [done|]. split; [|done].
    apply (chain_update _ _ _ _ n6); [|by rewrite list_lookup_insert_ne|done].
    by apply (chain_update _ _ _ _ n5).
  - rewrite list_lookup_insert_ne by done. rewrite HlC, G3.
    by apply list_lookup_insert_eq.
  - apply list_lookup_insert_eq. rewrite HlC, length_insert, G3. lia.
Qed.

Lemma simpleInitialization_post_witness :
  exists e e',
    fork4_created = Ok e
    /\ simpleInitialization e = Ok (tt, e')
    /\ strong_nodes (nodesList e') (Z.to_nat (numNodes e)) = [2%nat]
    /\ let n := numNodes e in
       let strong := strong_nodes (nodesList e') (Z.to_nat n) in
       (forall i nd nd', nodesList e !! i = Some nd -> nodesList e' !! i = Some nd' ->
          label nd' = if decide (i = addr (source e)) then n
                      else if decide (i = addr (sink e)) then 0
                      else if (i <? Z.to_nat n)%nat && positive_excess nd' then 1
                      else label nd)
       /\ (exists ns nt, nodesList e' !! addr (source e) = Some ns /\ excess ns = 0%Q
                         /\ nodesList e' !! addr (sink e) = Some nt /\ excess nt = 0%Q)
       /\ bucket_holds e' 1 strong
       /\ labelCount e' !! 1%nat = Some (Z.of_nat (length strong))
       /\ labelCount e' !! 0%nat = Some (u32 (u32 (n - 2) - Z.of_nat (length strong))).
Proof.
  eexists _, _. split; [vm_compute; reflexivity|].
  match goal with
  | |- simpleInitialization ?e = Ok (?u, ?e') /\ _ =>
      assert (simpleInitialization e = Ok (u, e')) as H by (vm_compute; reflexivity);
      split; [exact H|]; split; [vm_compute; reflexivity|];
      exact (simpleInitialization_post e u e' H
               ltac:(vm_compute; lia) ltac:(vm_compute; split; discriminate || reflexivity)
               eq_refl
               ltac:(eexists; split; [reflexivity|]; split; [reflexivity|done]))
  end.
Defined.

(** [createMemoryStructures] leaves every bucket empty and every count of
    labels at 0: the state [simpleInitialization] starts from. *)
Lemma createMemoryStructures_buckets e u e' :
  createMemoryStructures e = Ok (u, e') -> 1 < numNodes e' ->
  labelCount e' !! 1%nat = Some 0 /\ bucket_holds e' 1 [].
Proof.
  unfold createMemoryStructures. intros H Hn.
  rewrite bind_gets in H. apply bind_Ok in H as ([] & e1 & _ & H).
  rewrite bind_gets in H. apply bind_Ok in H as ([] & e2 & _ & H).
  rewrite bind_gets in H.
  apply bind_Ok in H as ([] & ? & H1 & H). apply modify_Ok in H1 as ->.
  apply bind_Ok in H as ([] & ? & H1 & H). apply modify_Ok in H1 as ->.
  set (n := numNodes e2) in *.
  assert (strongRoots e' = replicate (Z.to_nat n) (mkRoot None None)
          /\ labelCount e' = replicate (Z.to_nat n) 0 /\ numNodes e' = n) as (HR & HL & HN).
  { unfold for_range in H.
    apply (for_loop_ind
             (fun _ s => strongRoots s = replicate (Z.to_nat n) (mkRoot None None)
                         /\ labelCount s = replicate (Z.to_nat n) 0 /\ numNodes s = n)
             _ _ _ _ _ _ H); [done|].
    intros k s1 u1 s2 Hk (HR & HL & HN) Hb.
    apply bind_Ok in Hb as ([] & ? & U & Hb). apply updRoot_Ok in U as (rt & _ & Hrt & ->).
    apply setLabelCount_Ok in Hb as (_ & ->). simpl. rewrite HR, HL.
    split_and!; [|by apply list_insert_id, lookup_replicate_2; lia|done].
    apply list_insert_id. rewrite HR in Hrt. apply lookup_replicate in Hrt as [_ Hlt].
    by apply lookup_replicate_2. }
  rewrite HN in Hn. split.
  - rewrite HL. apply lookup_replicate_2. lia.
  - exists (mkRoot None None). rewrite HR. split; [apply lookup_replicate_2; lia|done].
Qed.

(** ** A push along an arc of the tree *)

Lemma updArc_Ok p f e u e' :
  updArc p f e = Ok (u, e') ->
  exists a, arcList e !! p = Some a /\ e' = set_arcList (<[p := f a]> (arcList e)) e.
Proof.
  unfold updArc, pread, pwrite. rewrite bind_gets. intros H.
  apply bind_Ok in H as (a & ? & Ha & H). apply liftR_Ok in Ha as [Ha ->].
  apply bind_Ok in H as (l & ? & Hw & H). apply liftR_Ok in Hw as [Hw ->].
  apply modify_Ok in H as ->. apply aread_Ok in Ha as [_ Ha].
  apply awrite_inv in Hw as [_ ->]. rewrite Nat2Z.id in *. eauto.
Qed.

Lemma isExcess_nonneg x : (0 <=? isExcess x) = true <-> (0 <= x)%Q.
Proof.
  unfold isExcess, dgt. destruct (dlt x 0%Q) eqn:E1.
  - apply dlt_true in E1. split; [done | intros; lra].
  - apply dlt_false in E1. destruct (dlt 0%Q x); done.
Qed.

Lemma breakRelationship_find_Ok fuel cur child e r e' :
  breakRelationship_find fuel cur child e = Ok (r, e') -> e' = e.
Proof.
  revert cur e. induction fuel as [|fuel IH]; intros cur e H; [done|].
  simpl in H. apply bind_Ok in H as (c & e1 & Hd & H). apply deref_Ok in Hd as [_ ->].
  apply bind_Ok in H as (nd & e2 & Hg & H). apply getNode_Ok in Hg as [_ ->].
  destruct (decide (next nd = Some child)).
  - by apply ret_Ok in H as [_ ->].
  - by apply IH in H.
Qed.

Lemma tree_part_insert l i (nd nd' : Node) :
  l !! i = Some nd -> tree_part nd' = tree_part nd ->
  map tree_part (<[i := nd']> l) = map tree_part l.
Proof. apply map_insert_kept. Qed.

Lemma breakRelationship_tree_part fuel op child e u e' :
  breakRelationship fuel op child e = Ok (u, e') ->
  exists c, nodesList e !! child = Some c
    /\ map tree_part (nodesList e')
       = <[child := (excess c, None)]> (map tree_part (nodesList e))
    /\ arcList e' = arcList e.
Proof.
  unfold breakRelationship. intros H.
  apply bind_Ok in H as (u1 & e1 & H1 & H). apply updNode_Ok in H1 as (c & Hc & ->).
  exists c. split; [done|].
  assert (forall e2 : Engine, arcList e2 = arcList e ->
            map tree_part (nodesList e2)
            = <[child := (excess c, None)]> (map tree_part (nodesList e)) ->
            forall i f u2 e3, updNode i f e2 = Ok (u2, e3) ->
            (forall nd, tree_part (f nd) = tree_part nd) ->
            arcList e3 = arcList e /\
            map tree_part (nodesList e3)
            = <[child := (excess c, None)]> (map tree_part (nodesList e))) as Hstep.
  { intros e2 Ha Hn i f u2 e3 Hu Hf. apply updNode_Ok in Hu as (nd & Hnd & ->).
    simpl. split; [done|]. by rewrite (tree_part_insert _ _ _ _ Hnd (Hf nd)). }
  set (e1 := set_nodesList _ e) in H.
  assert (arcList e1 = arcList e) as Ha1 by done.
  assert (map tree_part (nodesList e1)
          = <[child := (excess c, None)]> (map tree_part (nodesList e))) as Hn1.
  { unfold e1. simpl. change map with (@fmap list _). by rewrite list_fmap_insert. }
  clearbody e1.
  apply bind_Ok in H as (op' & e2 & Hg & H). apply getNode_Ok in Hg as [_ ->].
  destruct (decide (childList op' = Some child)).
  - apply bind_Ok in H as (c' & e2 & Hg & H). apply getNode_Ok in Hg as [_ ->].
    apply bind_Ok in H as (u2 & e2 & H2 & H).
    destruct (Hstep _ Ha1 Hn1 _ _ _ _ H2 ltac:(done)) as [Ha2 Hn2].
    destruct (Hstep _ Ha2 Hn2 _ _ _ _ H ltac:(done)) as [Ha3 Hn3]. done.
  - apply bind_Ok in H as (cur & e2 & Hf & H). apply breakRelationship_find_Ok in Hf as ->.
    apply bind_Ok in H as (c' & e2 & Hg & H). apply getNode_Ok in Hg as [_ ->].
    apply bind_Ok in H as (u2 & e2 & H2 & H).
    destruct (Hstep _ Ha1 Hn1 _ _ _ _ H2 ltac:(done)) as [Ha2 Hn2].
    destruct (Hstep _ Ha2 Hn2 _ _ _ _ H ltac:(done)) as [Ha3 Hn3]. done.
Qed.

Lemma keeps_tree_part {A} (m : M Engine A) :
  (forall L B, preserves (engine_inv tree_part (fun a : Arc => a)
                            (fun l m => l = L /\ m = B)) m) ->
  forall e u e', m e = Ok (u, e') ->
    map tree_part (nodesList e') = map tree_part (nodesList e)
    /\ arcList e' = arcList e.
Proof.
  intros Hm e u e' H.
  specialize (Hm (map tree_part (nodesList e)) (arcList e) e u e').
  unfold engine_inv in Hm. rewrite !List.map_id in Hm. by apply Hm.
Qed.

(** The end of a push that saturates the arc: the child leaves its parent
    and becomes a strong root; no excess and no arc changes. *)
Lemma push_tail fuel currentArc child parent_ e u e' :
  (addOutOfTreeNode parent_ currentArc ;;
   breakRelationship fuel parent_ child ;;
   c <- getNode child ;;
   addToStrongBucket child (label c)) e = Ok (u, e') ->
  exists c, nodesList e !! child = Some c
    /\ map tree_part (nodesList e')
       = <[child := (excess c, None)]> (map tree_part (nodesList e))
    /\ arcList e' = arcList e.
Proof.
  intros H.
  apply bind_Ok in H as (u1 & e1 & H1 & H).
  apply keeps_tree_part in H1 as [Hn1 Ha1];
    [|intros; by apply keeps_addOutOfTreeNode].
  apply bind_Ok in H as (u2 & e2 & H2 & H).
  apply breakRelationship_tree_part in H2 as (c & Hc & Hn2 & Ha2).
  apply bind_Ok in H as (c' & e3 & Hg & H). apply getNode_Ok in Hg as [_ ->].
  apply keeps_tree_part in H as [Hn3 Ha3];
    [|intros; by apply keeps_addToStrongBucket].
  assert (exists c0, nodesList e !! child = Some c0 /\ excess c0 = excess c)
    as (c0 & Hc0 & Ec).
  { assert (map tree_part (nodesList e1) !! child = Some (tree_part c)) as Hl.
    { change map with (@fmap list _). by rewrite list_lookup_fmap, Hc. }
    rewrite Hn1 in Hl. change map with (@fmap list _) in Hl.
    rewrite list_lookup_fmap in Hl.
    destruct (nodesList e !! child) as [c0|]; [|done].
    exists c0. split; [done|]. simpl in Hl. by injection Hl. }
  exists c0. split; [done|]. split; [|congruence].
  rewrite Hn3, Hn2, Hn1, Ec. done.
Qed.

Lemma tree_part_fmap_insert l i (nd : Node) :
  map tree_part (<[i := nd]> l) = <[i := tree_part nd]> (map tree_part l).
Proof. change map with (@fmap list _). apply list_fmap_insert. Qed.

Lemma pushUpward_Ok fuel a child parent_ resCap e u e' :
  pushUpward fuel a child parent_ resCap e = Ok (u, e') -> child <> parent_ ->
  exists ec ep ar,
    nodesList e !! child = Some ec /\ nodesList e !! parent_ = Some ep
    /\ arcList e !! a = Some ar
    /\ if 0 <=? isExcess (dsub resCap (excess ec)) then
         map tree_part (nodesList e')
         = <[child := (0%Q, parent ec)]>
             (<[parent_ := (dadd (excess ep) (excess ec), parent ep)]>
                (map tree_part (nodesList e)))
         /\ arcList e' = <[a := set_flow (dadd (flow ar) (excess ec)) ar]> (arcList e)
       else
         map tree_part (nodesList e')
         = <[child := (dsub (excess ec) resCap, None)]>
             (<[parent_ := (dadd (excess ep) resCap, parent ep)]>
                (map tree_part (nodesList e)))
         /\ arcList e'
            = <[a := set_flow (capacity ar) (set_direction 0 ar)]> (arcList e).
Proof.
  unfold pushUpward. intros H Hne.
  apply bind_Ok in H as (u0 & e0 & H0 & H). apply modify_Ok in H0 as ->.
  apply bind_Ok in H as (ec & e0 & Hg & H). apply getNode_Ok in Hg as [Hec ->].
  simpl in Hec. exists ec.
  destruct (0 <=? isExcess (dsub resCap (excess ec))).
  - apply bind_Ok in H as (ec1 & e0 & Hg & H). apply getNode_Ok in Hg as [Hec1 ->].
    simpl in Hec1. rewrite Hec in Hec1. injection Hec1 as <-.
    apply bind_Ok in H as (u1 & e1 & H1 & H). apply updNode_Ok in H1 as (ep & Hep & ->).
    simpl in Hep.
    apply bind_Ok in H as (ec2 & e0 & Hg & H). apply getNode_Ok in Hg as [Hec2 ->].
    simpl in Hec2. rewrite list_lookup_insert_ne in Hec2 by done.
    rewrite Hec in Hec2. injection Hec2 as <-.
    apply bind_Ok in H as (u2 & e2 & H2 & H). apply updArc_Ok in H2 as (ar & Har & ->).
    simpl in Har.
    apply updNode_Ok in H as (ec3 & Hec3 & ->). simpl in Hec3.
    rewrite list_lookup_insert_ne in Hec3 by done.
    rewrite Hec in Hec3. injection Hec3 as <-.
    exists ep, ar. split_and!; try done. simpl.
    by rewrite !tree_part_fmap_insert.
  - apply bind_Ok in H as (u1 & e1 & H1 & H). apply updArc_Ok in H1 as (ar & Har & ->).
    simpl in Har.
    apply bind_Ok in H as (u2 & e2 & H2 & H). apply updNode_Ok in H2 as (ep & Hep & ->).
    simpl in Hep.
    apply bind_Ok in H as (u3 & e3 & H3 & H). apply updNode_Ok in H3 as (ec3 & Hec3 & ->).
    simpl in Hec3. rewrite list_lookup_insert_ne in Hec3 by done.
    rewrite Hec in Hec3. injection Hec3 as <-.
    apply bind_Ok in H as (u4 & e4 & H4 & H). apply updArc_Ok in H4 as (ar1 & Har1 & ->).
    simpl in Har1.
    rewrite list_lookup_insert_eq in Har1 by (by apply lookup_lt_Some in Har).
    injection Har1 as <-.
    apply push_tail in H as (c & Hc & Hn & Ha). simpl in Hc, Hn, Ha.
    rewrite list_lookup_insert_eq in Hc
      by (rewrite length_insert; by apply lookup_lt_Some in Hec).
    injection Hc as <-.
    exists ep, ar. split_and!; try done.
    + rewrite Hn, !tree_part_fmap_insert. simpl. by rewrite list_insert_insert_eq.
    + rewrite Ha. by rewrite list_insert_insert_eq.
Qed.

Lemma pushDownward_Ok fuel a child parent_ flow_ e u e' :
  pushDownward fuel a child parent_ flow_ e = Ok (u, e') -> child <> parent_ ->
  exists ec ep ar,
    nodesList e !! child = Some ec /\ nodesList e !! parent_ = Some ep
    /\ arcList e !! a = Some ar
    /\ if 0 <=? isExcess (dsub flow_ (excess ec)) then
         map tree_part (nodesList e')
         = <[child := (0%Q, parent ec)]>
             (<[parent_ := (dadd (excess ep) (excess ec), parent ep)]>
                (map tree_part (nodesList e)))
         /\ arcList e' = <[a := set_flow (dsub (flow ar) (excess ec)) ar]> (arcList e)
       else
         map tree_part (nodesList e')
         = <[child := (dsub (excess ec) flow_, None)]>
             (<[parent_ := (dadd (excess ep) flow_, parent ep)]>
                (map tree_part (nodesList e)))
         /\ arcList e' = <[a := set_flow 0%Q (set_direction 1 ar)]> (arcList e).
Proof.
  unfold pushDownward. intros H Hne.
  apply bind_Ok in H as (u0 & e0 & H0 & H). apply modify_Ok in H0 as ->.
  apply bind_Ok in H as (ec & e0 & Hg & H). apply getNode_Ok in Hg as [Hec ->].
  simpl in Hec. exists ec.
  destruct (0 <=? isExcess (dsub flow_ (excess ec))).
  - apply bind_Ok in H as (ec1 & e0 & Hg & H). apply getNode_Ok in Hg as [Hec1 ->].
    simpl in Hec1. rewrite Hec in Hec1. injection Hec1 as <-.
    apply bind_Ok in H as (u1 & e1 & H1 & H). apply updNode_Ok in H1 as (ep & Hep & ->).
    simpl in Hep.
    apply bind_Ok in H as (ec2 & e0 & Hg & H). apply getNode_Ok in Hg as [Hec2 ->].
    simpl in Hec2. rewrite list_lookup_insert_ne in Hec2 by done.
    rewrite Hec in Hec2. injection Hec2 as <-.
    apply bind_Ok in H as (u2 & e2 & H2 & H). apply updArc_Ok in H2 as (ar & Har & ->).
    simpl in Har.
    apply updNode_Ok in H as (ec3 & Hec3 & ->). simpl in Hec3.
    rewrite list_lookup_insert_ne in Hec3 by done.
    rewrite Hec in Hec3. injection Hec3 as <-.
    exists ep, ar. split_and!; try done. simpl.
    by rewrite !tree_part_fmap_insert.
  - apply bind_Ok in H as (u1 & e1 & H1 & H). apply updArc_Ok in H1 as (ar & Har & ->).
    simpl in Har.
    apply bind_Ok in H as (u3 & e3 & H3 & H). apply updNode_Ok in H3 as (ec3 & Hec3 & ->).
    simpl in Hec3. rewrite Hec in Hec3. injection Hec3 as <-.
    apply bind_Ok in H as (u2 & e2 & H2 & H). apply updNode_Ok in H2 as (ep & Hep & ->).
    simpl in Hep. rewrite list_lookup_insert_ne in Hep by done.
    apply bind_Ok in H as (u4 & e4 & H4 & H). apply updArc_Ok in H4 as (ar1 & Har1 & ->).
    simpl in Har1.
    rewrite list_lookup_insert_eq in Har1 by (by apply lookup_lt_Some in Har).
    injection Har1 as <-.
    apply push_tail in H as (c & Hc & Hn & Ha). simpl in Hc, Hn, Ha.
    rewrite list_lookup_insert_ne in Hc by done.
    rewrite list_lookup_insert_eq in Hc by (by apply lookup_lt_Some in Hec).
    injection Hc as <-.
    exists ep, ar. split_and!; try done.
    + rewrite Hn, !tree_part_fmap_insert. simpl.
      rewrite (list_insert_insert_ne _ parent_ child) by done.
      by rewrite list_insert_insert_eq.
    + rewrite Ha. by rewrite list_insert_insert_eq.
Qed.

Lemma sum_fst_insert {B} (T : list (Q * B)) i x y :
  T !! i = Some x ->
  (foldr Qplus 0 (map fst (<[i := y]> T)) == foldr Qplus 0 (map fst T) - x.1 + y.1)%Q.
Proof.
  revert i. induction T as [|z T IH]; intros [|i] Hi; try done; simpl in *.
  - injection Hi as ->. ring.
  - rewrite (IH _ Hi). ring.
Qed.

Lemma total_excess_tree_part e :
  total_excess e = foldr Qplus 0%Q (map fst (map tree_part (nodesList e))).
Proof. unfold total_excess. by rewrite List.map_map. Qed.

(** What one push of [pushExcess] changes, and what follows for the tree. *)
Lemma push_step cur parent_ a (c p : Node) (ar ar' : Arc) (delta x : Q) pc e e' :
  nodesList e !! cur = Some c -> nodesList e !! parent_ = Some p ->
  arcList e !! a = Some ar -> parent c = Some parent_ ->
  flows_ok e -> settled (Some cur) e ->
  map tree_part (nodesList e')
  = <[cur := (x, pc)]> (<[parent_ := (dadd (excess p) delta, parent p)]>
                          (map tree_part (nodesList e))) ->
  arcList e' = <[a := ar']> (arcList e) ->
  (x == excess c - delta)%Q -> (0 <= delta)%Q ->
  (pc = Some parent_ /\ (x == 0)%Q) \/ pc = None ->
  capacity ar' = capacity ar -> (0 <= flow ar')%Q -> (flow ar' <= capacity ar')%Q ->
  flows_ok e' /\ settled (Some parent_) e'
  /\ (forall y q, map tree_part (nodesList e') !! parent_ = Some (y, Some q) -> (0 <= y)%Q)
  /\ (total_excess e' == total_excess e)%Q
  /\ map capacity (arcList e') = map capacity (arcList e).
Proof.
  intros Hc Hp Har Hpar HF HS HT HA Hx Hd Hpc Hcap Hf0 Hf1.
  assert (map tree_part (nodesList e) !! cur = Some (excess c, Some parent_)) as Tc.
  { change map with (@fmap list _). rewrite list_lookup_fmap, Hc. simpl.
    unfold tree_part. by rewrite Hpar. }
  assert (map tree_part (nodesList e) !! parent_ = Some (excess p, parent p)) as Tp.
  { change map with (@fmap list _). by rewrite list_lookup_fmap, Hp. }
  destruct (HS _ _ _ Tc) as [Hne _].
  assert (cur < length (map tree_part (nodesList e)))%nat as Lc
    by (by apply lookup_lt_Some in Tc).
  assert (parent_ < length (map tree_part (nodesList e)))%nat as Lp
    by (by apply lookup_lt_Some in Tp).
  split_and!.
  - unfold flows_ok. rewrite HA. apply Forall_insert; done.
  - intros i y q Hi. rewrite HT in Hi.
    destruct (decide (i = cur)) as [->|Hic].
    + rewrite list_lookup_insert_eq in Hi by (by rewrite length_insert).
      injection Hi as -> ->. destruct Hpc as [[[= ->] Hx0]|]; [|done].
      split; [done|]. intros _. done.
    + rewrite list_lookup_insert_ne in Hi by done.
      destruct (decide (i = parent_)) as [->|Hip].
      * rewrite list_lookup_insert_eq in Hi by done. injection Hi as <- Hq.
        rewrite Hq in Tp. destruct (HS _ _ _ Tp) as [? _]. split; [done|]. done.
      * rewrite list_lookup_insert_ne in Hi by done.
        destruct (HS _ _ _ Hi) as [? Hz]. split; [done|]. intros _. apply Hz. congruence.
  - intros y q Hi. rewrite HT in Hi.
    rewrite list_lookup_insert_ne in Hi by done.
    rewrite list_lookup_insert_eq in Hi by done. injection Hi as <- Hq.
    rewrite Hq in Tp. destruct (HS _ _ _ Tp) as [_ Hz].
    rewrite dadd_eq, Hz by congruence. lra.
  - rewrite !total_excess_tree_part, HT.
    rewrite (sum_fst_insert _ cur (excess c, Some parent_))
      by (by rewrite list_lookup_insert_ne).
    rewrite (sum_fst_insert _ parent_ _ _ Tp). cbn [fst]. rewrite dadd_eq, Hx.
    unfold double in *. ring.
  - rewrite HA. by apply map_insert_kept with (x := ar).
Qed.

Lemma isExcess_zero x : (isExcess x =? 0) = true -> (x == 0)%Q.
Proof.
  unfold isExcess, dgt. destruct (dlt x 0%Q) eqn:E1; [done|].
  destruct (dlt 0%Q x) eqn:E2; [done|]. intros _.
  apply dlt_false in E1, E2. lra.
Qed.

Lemma settled_exit cur (c : Node) e :
  nodesList e !! cur = Some c ->
  (excess c == 0)%Q \/ parent c = None ->
  settled (Some cur) e -> settled None e.
Proof.
  intros Hc Hex HS i x p Hi. destruct (HS _ _ _ Hi) as [? Hz]. split; [done|].
  intros _. destruct (decide (i = cur)) as [->|]; [|apply Hz; congruence].
  change map with (@fmap list _) in Hi. rewrite list_lookup_fmap, Hc in Hi.
  injection Hi as <- Hp. destruct Hex as [?|Hn]; [done|congruence].
Qed.

Lemma pushExcess_loop_keeps fuel cur prevEx e r e' :
  pushExcess_loop fuel cur prevEx e = Ok (r, e') ->
  flows_ok e -> settled (Some cur) e ->
  (forall y q, map tree_part (nodesList e) !! cur = Some (y, Some q) -> (0 <= y)%Q) ->
  flows_ok e' /\ settled None e'
  /\ (total_excess e' == total_excess e)%Q
  /\ map capacity (arcList e') = map capacity (arcList e).
Proof.
  revert cur prevEx e. induction fuel as [|fuel IH]; intros cur prevEx e H HF HS H0; [done|].
  simpl in H.
  apply bind_Ok in H as (c & e0 & Hg & H). apply getNode_Ok in Hg as [Hc ->].
  destruct (isExcess (excess c) =? 0) eqn:Ez.
  { apply ret_Ok in H as [_ <-]. split_and!; try done.
    apply (settled_exit cur c); [done| |done]. left. by apply isExcess_zero. }
  destruct (parent c) as [parent_|] eqn:Hpar.
  2:{ apply ret_Ok in H as [_ <-]. split_and!; try done.
      apply (settled_exit cur c); [done| |done]. by right. }
  apply bind_Ok in H as (p & e0 & Hg & H). apply getNode_Ok in Hg as [Hp ->].
  apply bind_Ok in H as (a & e0 & Hd & H). apply deref_Ok in Hd as [_ ->].
  apply bind_Ok in H as (ar & e0 & Hg & H).
  unfold getArc, pread in Hg. rewrite bind_gets in Hg.
  apply liftR_Ok in Hg as [Hg ->]. apply aread_Ok in Hg as [_ Har].
  rewrite Nat2Z.id in Har.
  apply bind_Ok in H as (u1 & e1 & Hpush & H).
  assert (map tree_part (nodesList e) !! cur = Some (excess c, Some parent_)) as Tc.
  { change map with (@fmap list _). rewrite list_lookup_fmap, Hc. simpl.
    unfold tree_part. by rewrite Hpar. }
  destruct (HS _ _ _ Tc) as [Hne _]. specialize (H0 _ _ Tc).
  assert ((0 <= flow ar)%Q /\ (flow ar <= capacity ar)%Q) as [Hf0 Hf1]
    by exact (proj1 (Forall_lookup _ _) HF _ _ Har).
  assert (flows_ok e1 /\ settled (Some parent_) e1
          /\ (forall y q, map tree_part (nodesList e1) !! parent_ = Some (y, Some q)
                          -> (0 <= y)%Q)
          /\ (total_excess e1 == total_excess e)%Q
          /\ map capacity (arcList e1) = map capacity (arcList e))
    as (HF1 & HS1 & H01 & Ht1 & Hc1).
  { destruct (direction ar =? 0).
    - apply pushDownward_Ok in Hpush as (ec & ep & ar0 & Hec & Hep & Har0 & Hb); [|done].
      rewrite Hc in Hec. injection Hec as <-. rewrite Hp in Hep. injection Hep as <-.
      rewrite Har in Har0. injection Har0 as <-.
      destruct (0 <=? isExcess (dsub (flow ar) (excess c))) eqn:Eb.
      + apply isExcess_nonneg in Eb. rewrite dsub_eq in Eb. destruct Hb as [HT HA].
        rewrite Hpar in HT.
        eapply (push_step cur parent_ a c p ar) with (delta := excess c);
          [exact Hc|exact Hp|exact Har|exact Hpar|exact HF|exact HS|exact HT|exact HA|..];
          simpl; rewrite ?dsub_eq; try lra; try done. by left.
      + destruct Hb as [HT HA].
        eapply (push_step cur parent_ a c p ar) with (delta := flow ar);
          [exact Hc|exact Hp|exact Har|exact Hpar|exact HF|exact HS|exact HT|exact HA|..];
          simpl; rewrite ?dsub_eq; try lra; try done. by right.
    - apply pushUpward_Ok in Hpush as (ec & ep & ar0 & Hec & Hep & Har0 & Hb); [|done].
      rewrite Hc in Hec. injection Hec as <-. rewrite Hp in Hep. injection Hep as <-.
      rewrite Har in Har0. injection Har0 as <-.
      destruct (0 <=? isExcess (dsub (dsub (capacity ar) (flow ar)) (excess c))) eqn:Eb.
      + apply isExcess_nonneg in Eb. rewrite !dsub_eq in Eb. destruct Hb as [HT HA].
        rewrite Hpar in HT.
        eapply (push_step cur parent_ a c p ar) with (delta := excess c);
          [exact Hc|exact Hp|exact Har|exact Hpar|exact HF|exact HS|exact HT|exact HA|..];
          simpl; rewrite ?dadd_eq; try lra; try done. by left.
      + destruct Hb as [HT HA].
        eapply (push_step cur parent_ a c p ar)
          with (delta := dsub (capacity ar) (flow ar));
          [exact Hc|exact Hp|exact Har|exact Hpar|exact HF|exact HS|exact HT|exact HA|..];
          simpl; rewrite ?dsub_eq; try lra; try done. by right. }
  destruct (IH _ _ _ H HF1 HS1 H01) as (HF2 & HS2 & Ht2 & Hc2).
  split_and!; try done; [by rewrite Ht2|congruence].
Qed.

Lemma tree_part_excess l : map fst (map tree_part l) = map excess l.
Proof. by rewrite List.map_map. Qed.

Lemma tree_part_parent l : map snd (map tree_part l) = map parent l.
Proof. by rewrite List.map_map. Qed.

Lemma tree_part_pushed (delta x y : Q) (pc pp : option nat) child parent_
    (ec ep : Node) (old new : list Node) :
  old !! child = Some ec -> old !! parent_ = Some ep ->
  map tree_part new
  = <[child := (x, pc)]> (<[parent_ := (y, pp)]> (map tree_part old)) ->
  (x == excess ec - delta)%Q -> (y == excess ep + delta)%Q ->
  pushed delta child parent_ (map excess old) (map excess new)
  /\ map parent new = <[child := pc]> (<[parent_ := pp]> (map parent old)).
Proof.
  intros Hc Hp HT Hx Hy. split.
  - exists (excess ec), (excess ep), x, y. split_and!; try done.
    + change map with (@fmap list _). by rewrite list_lookup_fmap, Hc.
    + change map with (@fmap list _). by rewrite list_lookup_fmap, Hp.
    + rewrite <- !tree_part_excess, HT. change map with (@fmap list _).
      by rewrite !list_fmap_insert.
  - rewrite <- !tree_part_parent, HT. change map with (@fmap list _).
    by rewrite !list_fmap_insert.
Qed.

Lemma isExcess_neg x : (0 <=? isExcess x) = false -> (x < 0)%Q.
Proof.
  intros H. apply Qnot_le_lt. intros Hx. apply isExcess_nonneg in Hx. congruence.
Qed.

(** X15. [pushUpward] moves excess from the child to its parent and changes
    no other excess: the whole excess of the child when the residual
    capacity [resCap] covers it, and then the flow of the arc grows by it and
    the tree keeps its shape; otherwise [resCap], and then the arc is
    saturated, gets direction 0, and the child, with the rest of its excess,
    loses its parent.  The capacity of the arc never changes. *)
Theorem pushUpward_moves fuel a child parent_ resCap e u e' :
  pushUpward fuel a child parent_ resCap e = Ok (u, e') -> child <> parent_ ->
  exists ec ar ar',
    nodesList e !! child = Some ec /\ arcList e !! a = Some ar
    /\ arcList e' = <[a := ar']> (arcList e) /\ capacity ar' = capacity ar
    /\ ((excess ec <= resCap)%Q
        /\ pushed (excess ec) child parent_
             (map excess (nodesList e)) (map excess (nodesList e'))
        /\ (flow ar' == flow ar + excess ec)%Q /\ direction ar' = direction ar
        /\ map parent (nodesList e') = map parent (nodesList e)
        \/
        (resCap < excess ec)%Q
        /\ pushed resCap child parent_
             (map excess (nodesList e)) (map excess (nodesList e'))
        /\ flow ar' = capacity ar /\ direction ar' = 0
        /\ map parent (nodesList e') = <[child := None]> (map parent (nodesList e))).
Proof.
  intros H Hne.
  apply pushUpward_Ok in H as (ec & ep & ar & Hec & Hep & Har & Hb); [|done].
  exists ec, ar. destruct (0 <=? isExcess (dsub resCap (excess ec))) eqn:Eb.
  - apply isExcess_nonneg in Eb. rewrite dsub_eq in Eb. destruct Hb as [HT HA].
    eexists. split_and!; [done|done|exact HA|done|]. left.
    destruct (tree_part_pushed (excess ec) _ _ _ _ _ _ _ _ _ _ Hec Hep HT)
      as [Hpush Hpar]; [ring|apply dadd_eq|].
    split_and!; [lra|done|apply dadd_eq|done|].
    rewrite Hpar. change map with (@fmap list _).
    rewrite <- !list_fmap_insert. by rewrite (list_insert_id _ _ _ Hep), (list_insert_id _ _ _ Hec).
  - apply isExcess_neg in Eb. rewrite dsub_eq in Eb. destruct Hb as [HT HA].
    eexists. split_and!; [done|done|exact HA|done|]. right.
    destruct (tree_part_pushed resCap _ _ _ _ _ _ _ _ _ _ Hec Hep HT)
      as [Hpush Hpar]; [apply dsub_eq|apply dadd_eq|].
    split_and!; [lra|done|done|done|].
    rewrite Hpar. change map with (@fmap list _).
    rewrite <- (list_fmap_insert parent _ parent_ ep). by rewrite (list_insert_id _ _ _ Hep).
Qed.

(** X16. [pushDownward] moves excess from the child to its parent and changes
    no other excess: the whole excess of the child when the flow [flow_] of
    the arc covers it, and then the flow of the arc shrinks by it and the tree
    keeps its shape; otherwise [flow_], and then the arc is emptied, gets
    direction 1, and the child, with the rest of its excess, loses its
    parent.  The capacity of the arc never changes. *)
Theorem pushDownward_moves fuel a child parent_ flow_ e u e' :
  pushDownward fuel a child parent_ flow_ e = Ok (u, e') -> child <> parent_ ->
  exists ec ar ar',
    nodesList e !! child = Some ec /\ arcList e !! a = Some ar
    /\ arcList e' = <[a := ar']> (arcList e) /\ capacity ar' = capacity ar
    /\ ((excess ec <= flow_)%Q
        /\ pushed (excess ec) child parent_
             (map excess (nodesList e)) (map excess (nodesList e'))
        /\ (flow ar' == flow ar - excess ec)%Q /\ direction ar' = direction ar
        /\ map parent (nodesList e') = map parent (nodesList e)
        \/
        (flow_ < excess ec)%Q
        /\ pushed flow_ child parent_
             (map excess (nodesList e)) (map excess (nodesList e'))
        /\ flow ar' = 0%Q /\ direction ar' = 1
        /\ map parent (nodesList e') = <[child := None]> (map parent (nodesList e))).
Proof.
  intros H Hne.
  apply pushDownward_Ok in H as (ec & ep & ar & Hec & Hep & Har & Hb); [|done].
  exists ec, ar. destruct (0 <=? isExcess (dsub flow_ (excess ec))) eqn:Eb.
  - apply isExcess_nonneg in Eb. rewrite dsub_eq in Eb. destruct Hb as [HT HA].
    eexists. split_and!; [done|done|exact HA|done|]. left.
    destruct (tree_part_pushed (excess ec) _ _ _ _ _ _ _ _ _ _ Hec Hep HT)
      as [Hpush Hpar]; [ring|apply dadd_eq|].
    split_and!; [lra|done|apply dsub_eq|done|].
    rewrite Hpar. change map with (@fmap list _).
    rewrite <- !list_fmap_insert. by rewrite (list_insert_id _ _ _ Hep), (list_insert_id _ _ _ Hec).
  - apply isExcess_neg in Eb. rewrite dsub_eq in Eb. destruct Hb as [HT HA].
    eexists. split_and!; [done|done|exact HA|done|]. right.
    destruct (tree_part_pushed flow_ _ _ _ _ _ _ _ _ _ _ Hec Hep HT)
      as [Hpush Hpar]; [apply dsub_eq|apply dadd_eq|].
    split_and!; [lra|done|done|done|].
    rewrite Hpar. change map with (@fmap list _).
    rewrite <- (list_fmap_insert parent _ parent_ ep). by rewrite (list_insert_id _ _ _ Hep).
Qed.


Ltac settled_at_each_node :=
  let i := fresh "i" in let x := fresh "x" in let p := fresh "p" in
  let Hi := fresh "Hi" in let Hc := fresh "Hc" in
  intros i x p Hi;
  do 6 (destruct i as [|i];
        [vm_compute in Hi;
         first [ discriminate Hi
               | injection Hi as <- <-;
                 split; [lia | intros Hc; try (by destruct Hc); reflexivity] ]|]);
  vm_compute in Hi; discriminate Hi.

Lemma pushUpward_moves_witness :
  exists e e',
    net5_merged 0 = Ok (2%nat, e)
    /\ pushUpward 50 1 2 3 3%Q e = Ok (tt, e')
    /\ map excess (nodesList e) = [0; 0; 10; -1; -30]%Q
    /\ map excess (nodesList e') = [0; 0; 7; 2; -30]%Q
    /\ exists ec ar ar',
         nodesList e !! 2%nat = Some ec /\ arcList e !! 1%nat = Some ar
         /\ arcList e' = <[1%nat := ar']> (arcList e) /\ capacity ar' = capacity ar
         /\ ((excess ec <= 3)%Q
             /\ pushed (excess ec) 2 3
                  (map excess (nodesList e)) (map excess (nodesList e'))
             /\ (flow ar' == flow ar + excess ec)%Q /\ direction ar' = direction ar
             /\ map parent (nodesList e') = map parent (nodesList e)
             \/
             (3 < excess ec)%Q
             /\ pushed 3 2 3
                  (map excess (nodesList e)) (map excess (nodesList e'))
             /\ flow ar' = capacity ar /\ direction ar' = 0
             /\ map parent (nodesList e')
                = <[2%nat := None]> (map parent (nodesList e))).
Proof.
  eexists _, _. split; [vm_compute; reflexivity|].
  match goal with
  | |- pushUpward ?f ?a ?c ?p ?r ?e = Ok (?u, ?e') /\ _ =>
      assert (pushUpward f a c p r e = Ok (u, e')) as H by (vm_compute; reflexivity);
      split; [exact H|]; split; [vm_compute; reflexivity|];
      split; [vm_compute; reflexivity|];
      exact (pushUpward_moves f a c p r e u e' H ltac:(lia))
  end.
Defined.

Lemma pushDownward_moves_witness :
  exists e e',
    net5_merged 3 = Ok (3%nat, e)
    /\ pushDownward 50 1 3 2 3%Q e = Ok (tt, e')
    /\ map excess (nodesList e) = [0; 0; 0; 2; -23]%Q
    /\ map excess (nodesList e') = [0; 0; 2; 0; -23]%Q
    /\ exists ec ar ar',
         nodesList e !! 3%nat = Some ec /\ arcList e !! 1%nat = Some ar
         /\ arcList e' = <[1%nat := ar']> (arcList e) /\ capacity ar' = capacity ar
         /\ ((excess ec <= 3)%Q
             /\ pushed (excess ec) 3 2
                  (map excess (nodesList e)) (map excess (nodesList e'))
             /\ (flow ar' == flow ar - excess ec)%Q /\ direction ar' = direction ar
             /\ map parent (nodesList e') = map parent (nodesList e)
             \/
             (3 < excess ec)%Q
             /\ pushed 3 3 2
                  (map excess (nodesList e)) (map excess (nodesList e'))
             /\ flow ar' = 0%Q /\ direction ar' = 1
             /\ map parent (nodesList e')
                = <[3%nat := None]> (map parent (nodesList e))).
Proof.
  eexists _, _. split; [vm_compute; reflexivity|].
  match goal with
  | |- pushDownward ?f ?a ?c ?p ?r ?e = Ok (?u, ?e') /\ _ =>
      assert (pushDownward f a c p r e = Ok (u, e')) as H by (vm_compute; reflexivity);
      split; [exact H|]; split; [vm_compute; reflexivity|];
      split; [vm_compute; reflexivity|];
      exact (pushDownward_moves f a c p r e u e' H ltac:(lia))
  end.
Defined.


(** ** The search for a weak node *)

Lemma swap_remove_perm {A} (l : list A) i n out last_ :
  (i < n)%nat -> l !! i = Some out -> l !! (n - 1)%nat = Some last_ ->
  take n l ≡ₚ out :: take (n - 1) (<[i := last_]> l).
Proof.
  intros Hin Hout Hlast. destruct n as [|m]; [lia|].
  replace (S m - 1)%nat with m in * by lia.
  rewrite (take_S_r _ _ _ Hlast).
  destruct (decide (i = m)) as [->|Hne].
  - rewrite take_insert_ge by lia. rewrite Hout in Hlast. injection Hlast as ->.
    symmetry. apply Permutation_cons_append.
  - rewrite take_insert_lt by lia.
    assert (take m l !! i = Some out) as Ht by (rewrite lookup_take_lt by lia; done).
    rewrite insert_take_drop by (by apply lookup_lt_Some in Ht).
    rewrite <- (take_drop_middle _ _ _ Ht) at 1.
    rewrite <- app_assoc. simpl. rewrite <- !Permutation_middle.
    simpl. by rewrite app_nil_r.
Qed.

Lemma setNode_Ok p nd e u e' :
  setNode p nd e = Ok (u, e') ->
  (p < length (nodesList e))%nat /\ e' = set_nodesList (<[p := nd]> (nodesList e)) e.
Proof.
  unfold setNode, pwrite. rewrite bind_gets. intros H.
  apply bind_Ok in H as (l & ? & Hw & H). apply liftR_Ok in Hw as [Hw ->].
  apply awrite_inv in Hw as [? ->]. apply modify_Ok in H as ->.
  rewrite Nat2Z.id. split; [lia|done].
Qed.

Lemma getArc_Ok p e a e' :
  getArc p e = Ok (a, e') <-> arcList e !! p = Some a /\ e' = e.
Proof.
  unfold getArc, pread. rewrite bind_gets, liftR_Ok, aread_Ok, Nat2Z.id.
  split; [intros [[_ ?] ?]; done | intros [? ?]; split_and!; [lia|done|done]].
Qed.

Lemma findWeakNode_take_Ok strongNode i e out e' sn :
  findWeakNode_take strongNode i e = Ok (out, e') ->
  nodesList e !! strongNode = Some sn ->
  0 <= i /\ outOfTree sn !! Z.to_nat i = Some out
  /\ exists last_,
       outOfTree sn !! Z.to_nat (u32 (numOutOfTree sn - 1)) = Some last_
       /\ e' = set_nodesList
                 (<[strongNode :=
                      set_outOfTree (<[Z.to_nat i := last_]> (outOfTree sn))
                        (set_numOutOfTree (u32 (numOutOfTree sn - 1))
                           (set_nextArc i sn))]> (nodesList e)) e.
Proof.
  unfold findWeakNode_take. intros H Hsn.
  assert (strongNode < length (nodesList e))%nat as Hlt by (by apply lookup_lt_Some in Hsn).
  apply bind_Ok in H as (u1 & e1 & H1 & H). apply updNode_Ok in H1 as (sn0 & Hsn0 & ->).
  rewrite Hsn in Hsn0. injection Hsn0 as <-.
  apply bind_Ok in H as (sn1 & e1 & Hg & H). apply getNode_Ok in Hg as [Hsn1 ->].
  simpl in Hsn1. rewrite list_lookup_insert_eq in Hsn1 by done. injection Hsn1 as <-.
  apply bind_Ok in H as (out1 & e1 & Hr & H). apply liftR_Ok in Hr as [Hr ->].
  apply aread_Ok in Hr as [Hi Hout]. simpl in Hout.
  apply bind_Ok in H as (u2 & e2 & H2 & H). apply updNode_Ok in H2 as (sn2 & Hsn2 & ->).
  simpl in Hsn2. rewrite list_lookup_insert_eq in Hsn2 by done. injection Hsn2 as <-.
  apply bind_Ok in H as (sn3 & e3 & Hg & H). apply getNode_Ok in Hg as [Hsn3 ->].
  simpl in Hsn3. rewrite list_lookup_insert_eq in Hsn3 by (by rewrite length_insert).
  injection Hsn3 as <-.
  apply bind_Ok in H as (last_ & e3 & Hr & H). apply liftR_Ok in Hr as [Hr ->].
  apply aread_Ok in Hr as [_ Hlast]. simpl in Hlast.
  apply bind_Ok in H as (ot & e3 & Hw & H). apply liftR_Ok in Hw as [Hw ->].
  apply awrite_inv in Hw as [_ ->]. simpl.
  apply bind_Ok in H as (u4 & e4 & H4 & H). apply setNode_Ok in H4 as [_ ->].
  apply ret_Ok in H as [-> ->]. simpl.
  split; [done|]. split; [done|]. exists last_. split; [done|].
  by rewrite !list_insert_insert_eq.
Qed.

Lemma end_label_Ok nodes (p : option nat) (e : Engine) t tn :
  p = Some t -> nodes !! t = Some tn -> end_label nodes p = Some (label tn).
Proof. intros -> Ht. simpl. by rewrite Ht. Qed.

Lemma findWeakNode_scan_Ok n strongNode i e r e' sn :
  findWeakNode_scan n strongNode i e = Ok (r, e') ->
  nodesList e !! strongNode = Some sn -> 0 <= i ->
  let l := u32 (highestStrongLabel e - 1) in
  arcList e' = arcList e
  /\ exists k : nat,
       (forall j : nat, (j < k)%nat ->
          exists oi, outOfTree sn !! (Z.to_nat i + j)%nat = Some oi
                     /\ no_end_at (nodesList e) (arcList e) l oi)
       /\ match r with
          | None =>
              k = n
              /\ nodesList e'
                 = <[strongNode := set_nextArc (numOutOfTree sn) sn]> (nodesList e)
          | Some (out, weakNode) =>
              (k < n)%nat
              /\ outOfTree sn !! (Z.to_nat i + k)%nat = Some out
              /\ end_at (nodesList e) (arcList e) l out weakNode
              /\ exists last_,
                   outOfTree sn !! Z.to_nat (u32 (numOutOfTree sn - 1)) = Some last_
                   /\ nodesList e'
                      = <[strongNode :=
                            set_outOfTree (<[(Z.to_nat i + k)%nat := last_]> (outOfTree sn))
                              (set_numOutOfTree (u32 (numOutOfTree sn - 1))
                                 (set_nextArc (i + Z.of_nat k) sn))]> (nodesList e)
          end.
Proof.
  revert i e. induction n as [|n IH]; intros i e H Hsn Hi l.
  - simpl in H. apply bind_Ok in H as (u1 & e1 & H1 & H).
    apply updNode_Ok in H1 as (sn0 & Hsn0 & ->). rewrite Hsn in Hsn0. injection Hsn0 as <-.
    apply ret_Ok in H as [-> ->]. simpl. split; [done|]. exists 0%nat.
    split; [intros; lia|done].
  - simpl in H. apply bind_Ok in H as (u0 & e0 & H0 & H). apply modify_Ok in H0 as ->.
    set (e0 := set_numArcScans _ e) in H.
    assert (nodesList e0 = nodesList e) as En by done.
    assert (arcList e0 = arcList e) as Ea by done.
    assert (highestStrongLabel e0 = highestStrongLabel e) as Eh by done.
    clearbody e0.
    apply bind_Ok in H as (sn0 & e1 & Hg & H). apply getNode_Ok in Hg as [Hsn0 ->].
    rewrite En, Hsn in Hsn0. injection Hsn0 as <-.
    apply bind_Ok in H as (oi & e1 & Hr & H). apply liftR_Ok in Hr as [Hr ->].
    apply aread_Ok in Hr as [_ Hoi].
    apply bind_Ok in H as (a & e1 & Hg & H). apply getArc_Ok in Hg as [Ha ->].
    apply bind_Ok in H as (t & e1 & Hd & H). apply deref_Ok in Hd as [Ht ->].
    apply bind_Ok in H as (tn & e1 & Hg & H). apply getNode_Ok in Hg as [Htn ->].
    rewrite bind_gets in H. rewrite Eh in H. fold l in H.
    rewrite En in Htn. rewrite Ea in Ha.
    assert (end_label (nodesList e) (to a) = Some (label tn)) as Elt
      by (rewrite Ht; simpl; by rewrite Htn).
    destruct (label tn =? l) eqn:El.
    { apply Z.eqb_eq in El.
      apply bind_Ok in H as (out & e1 & Htake & H).
      apply findWeakNode_take_Ok with (sn := sn) in Htake as (_ & Hout & last_ & Hlast & ->);
        [|by rewrite En].
      apply bind_Ok in H as (a' & e2 & Hg & H). apply getArc_Ok in Hg as [Ha' ->].
      simpl in Ha'. rewrite Ea in Ha'.
      apply bind_Ok in H as (w & e2 & Hd & H). apply deref_Ok in Hd as [Hw ->].
      apply ret_Ok in H as [-> ->]. simpl. split; [done|]. exists 0%nat.
      split; [intros; lia|]. rewrite !Nat.add_0_r, Z.add_0_r, En.
      rewrite Hoi in Hout. injection Hout as <-. rewrite Ha in Ha'. injection Ha' as <-.
      split_and!; [lia|done| |by exists last_].
      exists a, (label tn). split_and!; [done|done|]. by rewrite decide_True. }
    apply Z.eqb_neq in El.
    apply bind_Ok in H as (f & e1 & Hd & H). apply deref_Ok in Hd as [Hf ->].
    apply bind_Ok in H as (fn & e1 & Hg & H). apply getNode_Ok in Hg as [Hfn ->].
    rewrite En in Hfn.
    assert (end_label (nodesList e) (from a) = Some (label fn)) as Elf
      by (rewrite Hf; simpl; by rewrite Hfn).
    destruct (label fn =? l) eqn:El2.
    { apply Z.eqb_eq in El2.
      apply bind_Ok in H as (out & e1 & Htake & H).
      apply findWeakNode_take_Ok with (sn := sn) in Htake as (_ & Hout & last_ & Hlast & ->);
        [|by rewrite En].
      apply bind_Ok in H as (a' & e2 & Hg & H). apply getArc_Ok in Hg as [Ha' ->].
      simpl in Ha'. rewrite Ea in Ha'.
      apply bind_Ok in H as (w & e2 & Hd & H). apply deref_Ok in Hd as [Hw ->].
      apply ret_Ok in H as [-> ->]. simpl. split; [done|]. exists 0%nat.
      split; [intros; lia|]. rewrite !Nat.add_0_r, Z.add_0_r, En.
      rewrite Hoi in Hout. injection Hout as <-. rewrite Ha in Ha'. injection Ha' as <-.
      split_and!; [lia|done| |by exists last_].
      exists a, (label tn). split_and!; [done|done|]. rewrite decide_False by done.
      split; [done|]. by rewrite Elf, El2. }
    apply Z.eqb_neq in El2.
    apply IH in H as (HA & k & Hno & Hr); [|by rewrite En|lia].
    rewrite Eh in Hr, Hno. fold l in Hr, Hno. rewrite En, Ea in *.
    split; [done|]. exists (S k). split.
    + intros [|j] Hj.
      * rewrite Nat.add_0_r. exists oi. split; [done|].
        exists a, (label tn), (label fn). done.
      * destruct (Hno j ltac:(lia)) as (oj & Hoj & Hnoj). exists oj. split; [|done].
        rewrite <- Hoj. f_equal. lia.
    + destruct r as [[out w]|].
      * destruct Hr as (Hk & Hout & Hend & last_ & Hlast & Hn').
        split_and!; [lia| |done|].
        -- rewrite <- Hout. f_equal. lia.
        -- exists last_. split; [done|]. rewrite Hn'. f_equal. f_equal; [f_equal; lia|].
           f_equal. f_equal. lia.
      * destruct Hr as [-> Hn']. done.
Qed.

(** X18.  [findWeakNode] scans the out-of-tree arcs of the strong node from
    its [nextArc] on and stops at the first arc with an end labelled
    [highestStrongLabel - 1]: it returns that arc and that end (the head [to]
    first), leaves [nextArc] at the index of the arc, and takes the arc out
    of the out-of-tree arcs by moving the last of them into its cell, so that
    the arcs counted by [numOutOfTree] are the former ones without the arc
    returned.  It returns [NULL] only when no arc from [nextArc] on has such an
    end, and then changes only [nextArc], to [numOutOfTree].  In both cases
    only the strong node changes, and no arc. *)
Theorem findWeakNode_first strongNode e r e' sn :
  findWeakNode strongNode e = Ok (r, e') ->
  nodesList e !! strongNode = Some sn ->
  0 <= nextArc sn -> numOutOfTree sn < 2 ^ 32 ->
  let l := u32 (highestStrongLabel e - 1) in
  arcList e' = arcList e
  /\ exists i,
       nextArc sn <= i
       /\ (forall j, nextArc sn <= j < i ->
             exists oi, outOfTree sn !! Z.to_nat j = Some oi
                        /\ no_end_at (nodesList e) (arcList e) l oi)
       /\ match r with
          | None =>
              i = Z.max (nextArc sn) (numOutOfTree sn)
              /\ nodesList e'
                 = <[strongNode := set_nextArc (numOutOfTree sn) sn]> (nodesList e)
          | Some (out, weakNode) =>
              i < numOutOfTree sn
              /\ outOfTree sn !! Z.to_nat i = Some out
              /\ end_at (nodesList e) (arcList e) l out weakNode
              /\ exists ot,
                   nodesList e'
                   = <[strongNode :=
                         set_outOfTree ot
                           (set_numOutOfTree (numOutOfTree sn - 1)
                              (set_nextArc i sn))]> (nodesList e)
                   /\ take (Z.to_nat (numOutOfTree sn)) (outOfTree sn)
                      ≡ₚ out :: take (Z.to_nat (numOutOfTree sn - 1)) ot
          end.
Proof.
  intros H Hsn H0 Hn l. unfold findWeakNode in H.
  apply bind_Ok in H as (sn0 & e0 & Hg & H). apply getNode_Ok in Hg as [Hsn0 ->].
  rewrite Hsn in Hsn0. injection Hsn0 as <-.
  apply findWeakNode_scan_Ok with (sn := sn) in H as (HA & k & Hno & Hr); [|done|done].
  fold l in Hno, Hr. split; [done|]. exists (nextArc sn + Z.of_nat k). split; [lia|]. split.
  - intros j Hj. destruct (Hno (Z.to_nat (j - nextArc sn)) ltac:(lia)) as (oi & Hoi & Hnoi).
    exists oi. split; [|done]. rewrite <- Hoi. f_equal. lia.
  - destruct r as [[out w]|].
    + destruct Hr as (Hk & Hout & Hend & last_ & Hlast & Hn').
      assert (Z.to_nat (nextArc sn + Z.of_nat k) = (Z.to_nat (nextArc sn) + k)%nat) as Ei by lia.
      assert (u32 (numOutOfTree sn - 1) = numOutOfTree sn - 1) as Eu
        by (apply u32_small; lia).
      rewrite Eu in *. rewrite Ei.
      split_and!; [lia|done|done|]. eexists. split; [exact Hn'|].
      replace (Z.to_nat (numOutOfTree sn - 1)) with (Z.to_nat (numOutOfTree sn) - 1)%nat
        in * by lia.
      apply swap_remove_perm; [lia|done|done].
    + destruct Hr as [-> Hn']. split; [lia|done].
Qed.

Lemma findWeakNode_first_witness :
  exists e e' sn,
    net5_started = Ok e
    /\ findWeakNode 2 e = Ok (Some (1%nat, 3%nat), e')
    /\ nodesList e !! 2%nat = Some sn
    /\ outOfTree sn = [1%nat; 3%nat; 0%nat] /\ numOutOfTree sn = 2 /\ nextArc sn = 0
    /\ arcList e' = arcList e
    /\ exists i,
         nextArc sn <= i
         /\ (forall j, nextArc sn <= j < i ->
               exists oi, outOfTree sn !! Z.to_nat j = Some oi
                          /\ no_end_at (nodesList e) (arcList e)
                               (u32 (highestStrongLabel e - 1)) oi)
         /\ i < numOutOfTree sn
         /\ outOfTree sn !! Z.to_nat i = Some 1%nat
         /\ end_at (nodesList e) (arcList e) (u32 (highestStrongLabel e - 1)) 1 3
         /\ exists ot,
              nodesList e'
              = <[2%nat :=
                    set_outOfTree ot
                      (set_numOutOfTree (numOutOfTree sn - 1)
                         (set_nextArc i sn))]> (nodesList e)
              /\ take (Z.to_nat (numOutOfTree sn)) (outOfTree sn)
                 ≡ₚ 1%nat :: take (Z.to_nat (numOutOfTree sn - 1)) ot.
Proof.
  eexists _, _, _. split; [vm_compute; reflexivity|].
  match goal with
  | |- findWeakNode ?s ?e = Ok (?r, ?e') /\ nodesList _ !! _ = Some ?sn /\ _ =>
      assert (findWeakNode s e = Ok (r, e')) as H by (vm_compute; reflexivity);
      assert (nodesList e !! s = Some sn) as Hsn by (vm_compute; reflexivity);
      split; [exact H|]; split; [exact Hsn|];
      do 3 (split; [vm_compute; reflexivity|]);
      exact (findWeakNode_first s e r e' sn H Hsn
               ltac:(vm_compute; discriminate) ltac:(vm_compute; reflexivity))
  end.
Defined.

(** ** The relabelling of a node *)

Lemma chain_to_ext nodes nodes' cur l stop :
  map (fun nd => (label nd, next nd)) nodes' = map (fun nd => (label nd, next nd)) nodes ->
  chain_to nodes cur l stop -> chain_to nodes' cur l stop.
Proof.
  intros Hm. revert cur. induction l as [|x l IH]; intros cur; simpl; [done|].
  intros (-> & nd & Hnd & Hc). split; [done|].
  assert (map (fun nd => (label nd, next nd)) nodes !! x = Some (label nd, next nd)) as Hx.
  { change map with (@fmap list _). by rewrite list_lookup_fmap, Hnd. }
  rewrite <- Hm in Hx. change map with (@fmap list _) in Hx.
  rewrite list_lookup_fmap in Hx. destruct (nodes' !! x) as [nd'|]; [|done].
  injection Hx as Hl Hn. exists nd'. split; [done|]. rewrite Hn. by apply IH.
Qed.

Lemma other_label_ext nodes nodes' l s :
  map (fun nd => (label nd, next nd)) nodes' = map (fun nd => (label nd, next nd)) nodes ->
  other_label nodes l s -> other_label nodes' l s.
Proof.
  intros Hm (sn & Hs & Hl).
  assert (map (fun nd => (label nd, next nd)) nodes !! s = Some (label sn, next sn)) as Hx.
  { change map with (@fmap list _). by rewrite list_lookup_fmap, Hs. }
  rewrite <- Hm in Hx. change map with (@fmap list _) in Hx.
  rewrite list_lookup_fmap in Hx. destruct (nodes' !! s) as [sn'|] eqn:Hs'; [|done].
  injection Hx as Hl' Hn. exists sn'. split; [done|]. by rewrite Hl'.
Qed.

Lemma checkChildren_scan_Ok fuel cur e found e' c :
  checkChildren_scan fuel cur e = Ok (found, e') ->
  nodesList e !! cur = Some c ->
  exists skipped stop,
    chain_to (nodesList e) (nextScan c) skipped stop
    /\ Forall (other_label (nodesList e) (label c)) skipped
    /\ e' = set_nodesList (<[cur := set_nextScan stop c]> (nodesList e)) e
    /\ if found
       then exists s sn, stop = Some s /\ nodesList e !! s = Some sn /\ label sn = label c
       else stop = None.
Proof.
  revert e c. induction fuel as [|fuel IH]; intros e c H Hc; [done|].
  simpl in H. apply bind_Ok in H as (c0 & e0 & Hg & H). apply getNode_Ok in Hg as [Hc0 ->].
  rewrite Hc in Hc0. injection Hc0 as <-.
  assert (forall e : Engine, nodesList e !! cur = Some c ->
            set_nodesList (<[cur := set_nextScan (nextScan c) c]> (nodesList e)) e = e) as Hid.
  { intros e1 H1. replace (set_nextScan (nextScan c) c) with c by (by destruct c).
    rewrite (list_insert_id _ _ _ H1). by destruct e1. }
  destruct (nextScan c) as [s|] eqn:Hns.
  2:{ apply ret_Ok in H as [-> ->]. exists [], None. simpl.
      split_and!; [done|done| |done]. symmetry. by apply Hid. }
  apply bind_Ok in H as (sn & e0 & Hg & H). apply getNode_Ok in Hg as [Hsn ->].
  destruct (label sn =? label c) eqn:El.
  { apply Z.eqb_eq in El. apply ret_Ok in H as [-> ->]. exists [], (Some s). simpl.
    split_and!; [done|done| |by exists s, sn]. symmetry. by apply Hid. }
  apply Z.eqb_neq in El.
  apply bind_Ok in H as (u1 & e1 & H1 & H). apply updNode_Ok in H1 as (c1 & Hc1 & ->).
  rewrite Hc in Hc1. injection Hc1 as <-.
  assert (cur < length (nodesList e))%nat as Hlt by (by apply lookup_lt_Some in Hc).
  apply IH with (c := set_nextScan (next sn) c) in H
      as (skipped & stop & Hch & Hall & -> & Hf);
    [|simpl; by rewrite list_lookup_insert_eq].
  simpl in *.
  assert (map (fun nd => (label nd, next nd)) (nodesList e)
          = map (fun nd => (label nd, next nd))
              (<[cur := set_nextScan (next sn) c]> (nodesList e))) as Hm.
  { symmetry. by apply map_insert_kept with (x := c). }
  exists (s :: skipped), stop. split_and!.
  - simpl. split; [done|]. exists sn. split; [done|]. by apply (chain_to_ext _ _ _ _ _ Hm).
  - constructor; [by exists sn|].
    eapply Forall_impl; [exact Hall|]. intros x. by apply other_label_ext.
  - rewrite list_insert_insert_eq. by destruct c.
  - destruct found; [|done]. destruct Hf as (s' & sn' & -> & Hs' & Hl').
    destruct (decide (s' = cur)) as [->|Hne].
    + rewrite list_lookup_insert_eq in Hs' by done. injection Hs' as <-.
      exists cur, c. done.
    + rewrite list_lookup_insert_ne in Hs' by done. by exists s', sn'.
Qed.

(** X19.  [checkChildren] walks the children of the node from its [nextScan]
    pointer on, over the children with another label.  If it reaches a child
    with the label of the node, it leaves [nextScan] at that child and changes
    nothing else.  If it reaches the end of the list, it relabels the node:
    the label grows by one, [labelCount] loses one at the old label and gains
    one at the new label, [numRelabels] grows by one, and [nextArc] and
    [nextScan] of the node are reset. *)
Theorem checkChildren_relabel fuel cur e u e' c :
  checkChildren fuel cur e = Ok (u, e') ->
  nodesList e !! cur = Some c ->
  label c + 1 < 2 ^ 32 ->
  exists skipped stop,
    chain_to (nodesList e) (nextScan c) skipped stop
    /\ Forall (other_label (nodesList e) (label c)) skipped
    /\ match stop with
       | Some s =>
           (exists sn, nodesList e !! s = Some sn /\ label sn = label c)
           /\ e' = set_nodesList (<[cur := set_nextScan (Some s) c]> (nodesList e)) e
       | None =>
           exists v0 v1,
             0 <= label c
             /\ labelCount e !! Z.to_nat (label c) = Some v0
             /\ labelCount e !! Z.to_nat (label c + 1) = Some v1
             /\ e' = set_nodesList
                       (<[cur := set_nextArc 0
                                   (set_label (label c + 1) (set_nextScan None c))]>
                          (nodesList e))
                       (set_numRelabels (u32 (numRelabels e + 1))
                          (set_labelCount
                             (<[Z.to_nat (label c + 1) := u32 (v1 + 1)]>
                                (<[Z.to_nat (label c) := u32 (v0 - 1)]> (labelCount e)))
                             e))
       end.
Proof.
  unfold checkChildren. intros H Hc Hl.
  assert (cur < length (nodesList e))%nat as Hlt by (by apply lookup_lt_Some in Hc).
  apply bind_Ok in H as (found & e1 & Hscan & H).
  apply checkChildren_scan_Ok with (c := c) in Hscan
    as (skipped & stop & Hch & Hall & -> & Hf); [|done].
  exists skipped, stop. split; [done|]. split; [done|].
  destruct found.
  - destruct Hf as (s & sn & -> & Hs & Hls). apply ret_Ok in H as [_ ->].
    split; [by exists sn|done].
  - subst stop.
    apply bind_Ok in H as (c1 & e1 & Hg & H). apply getNode_Ok in Hg as [Hc1 ->].
    simpl in Hc1. rewrite list_lookup_insert_eq in Hc1 by done. injection Hc1 as <-.
    simpl in H.
    apply bind_Ok in H as (u1 & e1 & Hdec & H). unfold decLabelCount in Hdec.
    apply bind_Ok in Hdec as (v0 & e0 & Hg & Hs).
    apply getLabelCount_Ok in Hg as (Hl0 & Hv0 & ->).
    apply setLabelCount_Ok in Hs as [_ ->]. simpl in Hv0.
    apply bind_Ok in H as (u2 & e2 & H2 & H). apply updNode_Ok in H2 as (c2 & Hc2 & ->).
    simpl in Hc2. rewrite list_lookup_insert_eq in Hc2 by done. injection Hc2 as <-.
    apply bind_Ok in H as (c3 & e3 & Hg & H). apply getNode_Ok in Hg as [Hc3 ->].
    simpl in Hc3. rewrite list_lookup_insert_eq in Hc3 by (by rewrite length_insert).
    injection Hc3 as <-. simpl in H.
    assert (u32 (label c + 1) = label c + 1) as Eu by (apply u32_small; lia).
    rewrite Eu in H.
    apply bind_Ok in H as (u4 & e4 & Hinc & H). unfold incLabelCount in Hinc.
    apply bind_Ok in Hinc as (v1 & e0 & Hg & Hs).
    apply getLabelCount_Ok in Hg as (_ & Hv1 & ->).
    apply setLabelCount_Ok in Hs as [_ ->]. simpl in Hv1.
    rewrite list_lookup_insert_ne in Hv1 by lia.
    apply bind_Ok in H as (u5 & e5 & H5 & H). apply modify_Ok in H5 as ->.
    apply updNode_Ok in H as (c6 & Hc6 & ->). simpl in Hc6.
    rewrite list_lookup_insert_eq in Hc6 by (by rewrite length_insert).
    injection Hc6 as <-.
    exists v0, v1. split_and!; [done|done|done|]. simpl.
    rewrite !list_insert_insert_eq. by destruct e.
Qed.

Lemma checkChildren_relabel_witness :
  exists e e' c,
    net5_no_weak 2 = Ok (3%nat, e)
    /\ checkChildren 50 3 e = Ok (tt, e')
    /\ nodesList e !! 3%nat = Some c
    /\ label c = 1 /\ nextScan c = None
    /\ labelCount e = [1; 2; 0; 0; 0] /\ labelCount e' = [1; 1; 1; 0; 0]
    /\ exists skipped stop,
         chain_to (nodesList e) (nextScan c) skipped stop
         /\ Forall (other_label (nodesList e) (label c)) skipped
         /\ match stop with
            | Some s =>
                (exists sn, nodesList e !! s = Some sn /\ label sn = label c)
                /\ e' = set_nodesList (<[3%nat := set_nextScan (Some s) c]> (nodesList e)) e
            | None =>
                exists v0 v1,
                  0 <= label c
                  /\ labelCount e !! Z.to_nat (label c) = Some v0
                  /\ labelCount e !! Z.to_nat (label c + 1) = Some v1
                  /\ e' = set_nodesList
                            (<[3%nat := set_nextArc 0
                                          (set_label (label c + 1)
                                             (set_nextScan None c))]>
                               (nodesList e))
                            (set_numRelabels (u32 (numRelabels e + 1))
                               (set_labelCount
                                  (<[Z.to_nat (label c + 1) := u32 (v1 + 1)]>
                                     (<[Z.to_nat (label c) := u32 (v0 - 1)]>
                                        (labelCount e)))
                                  e))
            end.
Proof.
  eexists _, _, _. split; [vm_compute; reflexivity|].
  match goal with
  | |- checkChildren ?f ?s ?e = Ok (?u, ?e') /\ nodesList _ !! _ = Some ?c /\ _ =>
      assert (checkChildren f s e = Ok (u, e')) as H by (vm_compute; reflexivity);
      assert (nodesList e !! s = Some c) as Hc by (vm_compute; reflexivity);
      split; [exact H|]; split; [exact Hc|];
      do 4 (split; [vm_compute; reflexivity|]);
      exact (checkChildren_relabel f s e u e' c H Hc ltac:(vm_compute; reflexivity))
  end.
Defined.

(** ** The buckets of strong roots as queues *)

Lemma chain_update_notin nodes cur l x nd' :
  chain nodes cur l -> x ∉ l -> chain (<[x := nd']> nodes) cur l.
Proof.
  revert cur. induction l as [|y l IH]; intros cur H Hx; simpl in *; [done|].
  destruct H as (-> & ndy & Hy & H). split; [done|].
  apply not_elem_of_cons in Hx as [Hne Hx].
  exists ndy. rewrite list_lookup_insert_ne by done. split; [done|]. by apply IH.
Qed.

(** X20.  [addToStrongBucket] appends the node at the end of the bucket: a
    bucket that holds the nodes [l], linked in this order, holds [l] followed
    by the new root afterwards.  No label, no excess and no counter of labels
    changes. *)
Theorem addToStrongBucket_appends k b l e u e' :
  addToStrongBucket k b e = Ok (u, e') ->
  bucket_holds e (Z.to_nat b) l -> NoDup l -> k ∉ l ->
  bucket_holds e' (Z.to_nat b) (l ++ [k])
  /\ map label (nodesList e') = map label (nodesList e)
  /\ map excess (nodesList e') = map excess (nodesList e)
  /\ labelCount e' = labelCount e.
Proof.
  intros H Hb Hnd Hk.
  destruct (addToStrongBucket_snoc k b l e u e' H Hb Hnd Hk) as (Hb' & Hm & Hc).
  assert (forall l : list Node,
            map label l = map fst (map (fun nd => (label nd, excess nd)) l)) as El
    by (intros; by rewrite List.map_map).
  assert (forall l : list Node,
            map excess l = map snd (map (fun nd => (label nd, excess nd)) l)) as Ee
    by (intros; by rewrite List.map_map).
  split; [done|]. split_and!.
  - by rewrite !El, Hm.
  - by rewrite !Ee, Hm.
  - by injection Hc.
Qed.

Lemma addToStrongBucket_appends_witness :
  exists e e',
    net5_started = Ok e
    /\ addToStrongBucket 3 1 e = Ok (tt, e')
    /\ bucket_holds e' (Z.to_nat 1) ([2%nat] ++ [3%nat])
    /\ map label (nodesList e') = map label (nodesList e)
    /\ map excess (nodesList e') = map excess (nodesList e)
    /\ labelCount e' = labelCount e.
Proof.
  eexists _, _. split; [vm_compute; reflexivity|].
  match goal with
  | |- addToStrongBucket ?k ?b ?e = Ok (?u, ?e') /\ _ =>
      assert (addToStrongBucket k b e = Ok (u, e')) as H by (vm_compute; reflexivity);
      split; [exact H|];
      refine (addToStrongBucket_appends k b [2%nat] e u e' H _ _ _)
  end.
  - eexists. split; [vm_compute; reflexivity|]. split; [|done].
    simpl. split; [done|]. eexists. split; [vm_compute; reflexivity|]. done.
  - apply NoDup_singleton.
  - apply not_elem_of_cons. split; [done|]. apply not_elem_of_nil.
Defined.

Lemma getHighestStrongRoot_scan_first fuel n j e r e' i x l c :
  getHighestStrongRoot_scan fuel n j e = Ok (r, e') ->
  0 < i <= j -> Z.of_nat n = j ->
  (forall k, i < k <= j -> bucket_empty e k) ->
  bucket_holds e (Z.to_nat i) (x :: l) ->
  labelCount e !! Z.to_nat (i - 1) = Some c -> c <> 0 ->
  r = Some x
  /\ exists nd rt,
       nodesList e !! x = Some nd /\ strongRoots e !! Z.to_nat i = Some rt
       /\ chain (nodesList e) (next nd) l /\ (l <> [] -> end_ rt = last l)
       /\ e' = set_nodesList (<[x := set_next None nd]> (nodesList e))
                 (set_strongRoots (<[Z.to_nat i := set_start (next nd) rt]> (strongRoots e))
                    (set_highestStrongLabel i e)).
Proof.
  revert j. induction n as [|n IH]; intros j H Hij Hn Hempty Hb Hc Hc0; [lia|].
  simpl in H. apply bind_Ok in H as (rt & e0 & Hg & H).
  apply getRoot_Ok in Hg as (_ & Hrt & ->).
  destruct (decide (j = i)) as [->|Hne].
  - destruct Hb as (rt0 & Hrt0 & Hch & Hend). rewrite Hrt in Hrt0. injection Hrt0 as <-.
    simpl in Hch. destruct Hch as (Hs & nd & Hnd & Hch). rewrite Hs in H.
    apply bind_Ok in H as (u1 & e1 & H1 & H). apply modify_Ok in H1 as ->.
    apply bind_Ok in H as (c0 & e1 & Hg & H). apply getLabelCount_Ok in Hg as (_ & Hc' & ->).
    change (labelCount e !! Z.to_nat (i - 1) = Some c0) in Hc'.
    unfold uint in *. assert (c0 = c) as -> by congruence.
    replace (c =? 0) with false in H by lia. simpl in H.
    apply bind_Ok in H as (r0 & e1 & Hg & H). apply getNode_Ok in Hg as [Hr0 ->].
    simpl in Hr0. rewrite Hnd in Hr0. injection Hr0 as <-.
    apply bind_Ok in H as (u2 & e2 & H2 & H).
    apply updRoot_Ok in H2 as (rt1 & _ & Hrt1 & ->). simpl in Hrt1.
    rewrite Hrt in Hrt1. injection Hrt1 as <-.
    apply bind_Ok in H as (u3 & e3 & H3 & H). apply updNode_Ok in H3 as (nd1 & Hnd1 & ->).
    simpl in Hnd1. rewrite Hnd in Hnd1. injection Hnd1 as <-.
    apply ret_Ok in H as [-> ->]. split; [done|]. exists nd, rt.
    split_and!; try done.
    intros Hl. rewrite (Hend ltac:(done)). destruct l; [done|]. done.
  - destruct (Hempty j ltac:(lia)) as (rt0 & Hrt0 & Hs0).
    rewrite Hrt in Hrt0. injection Hrt0 as <-. rewrite Hs0 in H.
    apply (IH (j - 1)) in H; [done|lia|lia| |done|done|done].
    intros k Hk. apply Hempty. lia.
Qed.

(** X21.  [getHighestStrongRoot] takes the first root of the highest bucket
    that is not empty: when the buckets above bucket [i >= 1] are empty, bucket
    [i] holds the nodes [x :: l] and some node has the label [i - 1] (no gap),
    it returns [x], sets [highestStrongLabel] to [i] and leaves the nodes [l]
    in the bucket, in their order.  It cuts [x] from the list (its [next]
    pointer becomes [NULL]) and changes no other node, no other bucket, no
    label counter and no arc. *)
Theorem getHighestStrongRoot_first fuel e r e' i x l c :
  getHighestStrongRoot fuel e = Ok (r, e') ->
  0 < i <= highestStrongLabel e ->
  (forall k, i < k <= highestStrongLabel e -> bucket_empty e k) ->
  bucket_holds e (Z.to_nat i) (x :: l) -> x ∉ l ->
  labelCount e !! Z.to_nat (i - 1) = Some c -> c <> 0 ->
  r = Some x /\ highestStrongLabel e' = i
  /\ bucket_holds e' (Z.to_nat i) l
  /\ (exists nd, nodesList e !! x = Some nd
                 /\ nodesList e' = <[x := set_next None nd]> (nodesList e))
  /\ (forall k, k <> Z.to_nat i -> strongRoots e' !! k = strongRoots e !! k)
  /\ labelCount e' = labelCount e /\ arcList e' = arcList e.
Proof.
  unfold getHighestStrongRoot. rewrite bind_gets. intros H Hi Hempty Hb Hx Hc Hc0.
  apply bind_Ok in H as (found & e1 & Hscan & H).
  apply (getHighestStrongRoot_scan_first _ _ _ _ _ _ i x l c) in Hscan
    as (-> & nd & rt & Hnd & Hrt & Hch & Hend & ->); [|done|lia|done|done|done|done].
  apply ret_Ok in H as [-> ->]. simpl. split_and!; try done.
  - exists (set_start (next nd) rt). split_and!.
    + apply list_lookup_insert_eq. by apply lookup_lt_Some in Hrt.
    + simpl. by apply chain_update_notin.
    + done.
  - by exists nd.
  - intros k Hk. by rewrite list_lookup_insert_ne.
Qed.

Lemma getHighestStrongRoot_first_witness :
  exists e e',
    net5_started = Ok e
    /\ getHighestStrongRoot 50 e = Ok (Some 2%nat, e')
    /\ highestStrongLabel e' = 1
    /\ bucket_holds e' (Z.to_nat 1) []
    /\ (exists nd, nodesList e !! 2%nat = Some nd
                   /\ nodesList e' = <[2%nat := set_next None nd]> (nodesList e))
    /\ (forall k, k <> Z.to_nat 1 -> strongRoots e' !! k = strongRoots e !! k)
    /\ labelCount e' = labelCount e /\ arcList e' = arcList e.
Proof.
  eexists _, _. split; [vm_compute; reflexivity|].
  match goal with
  | |- getHighestStrongRoot ?f ?e = Ok (?r, ?e') /\ _ =>
      assert (getHighestStrongRoot f e = Ok (r, e')) as H by (vm_compute; reflexivity);
      split; [exact H|];
      refine (proj2 (getHighestStrongRoot_first f e r e' 1 2%nat [] 2 H _ _ _ _ _ _))
  end.
  - vm_compute. split; [reflexivity|discriminate].
  - intros k Hk. simpl in Hk. lia.
  - eexists. split; [vm_compute; reflexivity|]. split; [|done].
    simpl. split; [done|]. eexists. split; [vm_compute; reflexivity|]. done.
  - apply not_elem_of_nil.
  - vm_compute. reflexivity.
  - done.
Defined.

(** ** The lists of children *)

Lemma chain_remove nodes cur l1 pred child l2 ndp ndc ndc' :
  chain nodes cur (l1 ++ pred :: child :: l2) ->
  NoDup (l1 ++ pred :: child :: l2) ->
  nodes !! pred = Some ndp -> nodes !! child = Some ndc ->
  chain (<[child := ndc']> (<[pred := set_next (next ndc) ndp]> nodes)) cur
    (l1 ++ pred :: l2).
Proof.
  intros H Hnd Hp Hc. revert cur H Hnd.
  induction l1 as [|a l1 IH]; intros cur H Hnd; simpl in *.
  - destruct H as (-> & ndp0 & Hp0 & Hn & ndc0 & Hc0 & Hch).
    rewrite Hp in Hp0. injection Hp0 as <-. rewrite Hc in Hc0. injection Hc0 as <-.
    apply NoDup_cons in Hnd as [Hp1 Hnd]. apply NoDup_cons in Hnd as [Hc1 Hnd].
    apply not_elem_of_cons in Hp1 as [Hpc Hp1].
    split; [done|]. eexists. split.
    + rewrite list_lookup_insert_ne by done.
      apply list_lookup_insert_eq. by apply lookup_lt_Some in Hp.
    + simpl. apply chain_update_notin; [|done]. by apply chain_update_notin.
  - destruct H as (-> & nda & Ha & Hch).
    apply NoDup_cons in Hnd as [Ha1 Hnd].
    assert (a <> pred /\ a <> child) as [Hap Hac].
    { split; intros ->; apply Ha1; apply elem_of_app; right; [left|right; left]. }
    split; [done|]. exists nda. split.
    + by rewrite !list_lookup_insert_ne.
    + by apply IH.
Qed.

Lemma breakRelationship_find_last fuel cur child e r e' l1 pred l2 :
  breakRelationship_find fuel cur child e = Ok (r, e') ->
  chain (nodesList e) cur (l1 ++ pred :: child :: l2) ->
  NoDup (l1 ++ pred :: child :: l2) ->
  r = pred.
Proof.
  revert cur l1. induction fuel as [|fuel IH]; intros cur l1 H Hch Hnd; [done|].
  simpl in H. apply bind_Ok in H as (x & e0 & Hd & H). apply deref_Ok in Hd as [Hx ->].
  apply bind_Ok in H as (c & e0 & Hg & H). apply getNode_Ok in Hg as [Hc ->].
  destruct l1 as [|a l1]; simpl in Hch.
  - destruct Hch as (Hcur & ndp & Hp & Hn & _). rewrite Hx in Hcur. injection Hcur as ->.
    rewrite Hc in Hp. injection Hp as <-.
    rewrite decide_True in H by done. by apply ret_Ok in H as [-> _].
  - destruct Hch as (Hcur & nda & Ha & Hch). rewrite Hx in Hcur. injection Hcur as ->.
    rewrite Hc in Ha. injection Ha as <-.
    simpl in Hnd. apply NoDup_cons in Hnd as [_ Hnd].
    destruct (decide (next c = Some child)) as [En|En].
    + exfalso. rewrite En in Hch.
      destruct l1 as [|b l1]; simpl in Hch.
      * destruct Hch as ([= ->] & _). simpl in Hnd.
        apply NoDup_cons in Hnd as [Hn _]. apply Hn. left.
      * destruct Hch as ([= ->] & _). simpl in Hnd.
        apply NoDup_cons in Hnd as [Hn _]. apply Hn.
        apply elem_of_app. right. right. left.
    + by apply (IH _ _ H Hch).
Qed.

(** X22.  [addRelationship] puts the child at the head of the list of
    children of its new parent, in front of the children that were there, and
    makes the parent pointer of the child point to the new parent. *)
Theorem addRelationship_head newParent child e u e' l :
  addRelationship newParent child e = Ok (u, e') ->
  child <> newParent -> children (nodesList e) newParent l -> child ∉ l ->
  children (nodesList e') newParent (child :: l)
  /\ exists c np,
       nodesList e !! child = Some c /\ nodesList e !! newParent = Some np
       /\ nodesList e'
          = <[newParent := set_childList (Some child) np]>
              (<[child := set_next (childList np) (set_parent (Some newParent) c)]>
                 (nodesList e)).
Proof.
  unfold addRelationship. intros H Hne (np & Hnp & Hch) Hc.
  apply bind_Ok in H as (u1 & e1 & H1 & H). apply updNode_Ok in H1 as (c & Hcn & ->).
  apply bind_Ok in H as (np0 & e0 & Hg & H). apply getNode_Ok in Hg as [Hnp0 ->].
  simpl in Hnp0. rewrite list_lookup_insert_ne in Hnp0 by done.
  rewrite Hnp in Hnp0. injection Hnp0 as <-.
  apply bind_Ok in H as (u2 & e2 & H2 & H). apply updNode_Ok in H2 as (c2 & Hc2 & ->).
  simpl in Hc2. rewrite list_lookup_insert_eq in Hc2 by (by apply lookup_lt_Some in Hcn).
  injection Hc2 as <-.
  apply updNode_Ok in H as (np3 & Hnp3 & ->). simpl in Hnp3.
  rewrite !list_lookup_insert_ne in Hnp3 by done.
  rewrite Hnp in Hnp3. injection Hnp3 as <-. simpl.
  rewrite list_insert_insert_eq. split.
  - eexists. split.
    + apply list_lookup_insert_eq. rewrite length_insert. by apply lookup_lt_Some in Hnp.
    + simpl. split; [done|]. eexists. split.
      * rewrite list_lookup_insert_ne by done.
        apply list_lookup_insert_eq. by apply lookup_lt_Some in Hcn.
      * simpl. apply chain_update with (nd := np); [|by rewrite list_lookup_insert_ne|done].
        by apply chain_update_notin.
  - by exists c, np.
Qed.

(** X23.  [breakRelationship] takes the child out of the list of children
    of its old parent and keeps the other children in their order; the child
    is left without parent and without successor. *)
Theorem breakRelationship_removes fuel oldParent child e u e' l1 l2 :
  breakRelationship fuel oldParent child e = Ok (u, e') ->
  child <> oldParent ->
  children (nodesList e) oldParent (l1 ++ child :: l2) ->
  NoDup (l1 ++ child :: l2) ->
  children (nodesList e') oldParent (l1 ++ l2)
  /\ (exists c', nodesList e' !! child = Some c' /\ parent c' = None /\ next c' = None)
  /\ arcList e' = arcList e /\ map excess (nodesList e') = map excess (nodesList e)
  /\ map label (nodesList e') = map label (nodesList e).
Proof.
  intros H Hne (op & Hop & Hch) Hnd.
  assert (map excess (nodesList e') = map excess (nodesList e)
          /\ map label (nodesList e') = map label (nodesList e)
          /\ arcList e' = arcList e) as (Hex & Hlab & Harc).
  { pose proof (keeps_breakRelationship (fun nd => (excess nd, label nd)) (fun a : Arc => a)
                  (fun l m => l = map (fun nd => (excess nd, label nd)) (nodesList e)
                              /\ m = arcList e)) as Hk.
    assert (forall l : list Node,
              map excess l = map fst (map (fun nd => (excess nd, label nd)) l)) as E1
      by (intros; by rewrite List.map_map).
    assert (forall l : list Node,
              map label l = map snd (map (fun nd => (excess nd, label nd)) l)) as E2
      by (intros; by rewrite List.map_map).
    destruct (Hk ltac:(done) ltac:(done) ltac:(done) fuel oldParent child e u e') as [K1 K2];
      [unfold engine_inv; by rewrite List.map_id|done|].
    rewrite List.map_id in K2. by rewrite !E1, !E2, K1. }
  assert (children (nodesList e') oldParent (l1 ++ l2)
          /\ exists c', nodesList e' !! child = Some c' /\ parent c' = None /\ next c' = None)
    as [Hch' Hc']; [|done].
  clear Hex Hlab Harc. unfold breakRelationship in H.
  apply bind_Ok in H as (u1 & e1 & H1 & H). apply updNode_Ok in H1 as (c & Hc & ->).
  assert (child < length (nodesList e))%nat as Hlc by (by apply lookup_lt_Some in Hc).
  assert (oldParent < length (nodesList e))%nat as Hlo by (by apply lookup_lt_Some in Hop).
  set (nodes1 := <[child := set_parent None c]> (nodesList e)).
  assert (chain nodes1 (childList op) (l1 ++ child :: l2)) as Hch1
    by (by apply chain_update with (nd := c)).
  assert (nodes1 !! child = Some (set_parent None c)) as Hc1
    by (by apply list_lookup_insert_eq).
  assert (nodes1 !! oldParent = Some op) as Hop1
    by (unfold nodes1; by rewrite list_lookup_insert_ne).
  assert (length nodes1 = length (nodesList e)) as Hl1 by apply length_insert.
  apply bind_Ok in H as (op0 & e0 & Hg & H). apply getNode_Ok in Hg as [Hop0 ->].
  simpl in Hop0. fold nodes1 in Hop0. rewrite Hop1 in Hop0. injection Hop0 as <-.
  destruct (decide (childList op = Some child)) as [Ecl|Ecl].
  - assert (l1 = []) as ->.
    { destruct l1 as [|a l1]; [done|]. exfalso. simpl in Hch1, Hnd.
      destruct Hch1 as (Ha & _). rewrite Ecl in Ha. injection Ha as <-.
      apply NoDup_cons in Hnd as [Hn _]. apply Hn. apply elem_of_app. right. left. }
    simpl in *. destruct Hch1 as (_ & ndc & Hndc & Hch1).
    rewrite Hc1 in Hndc. injection Hndc as <-. simpl in Hch1.
    apply NoDup_cons in Hnd as [Hcl2 _].
    apply bind_Ok in H as (c1 & e0 & Hg & H). apply getNode_Ok in Hg as [Hc1' ->].
    simpl in Hc1'. fold nodes1 in Hc1'. rewrite Hc1 in Hc1'. injection Hc1' as <-.
    apply bind_Ok in H as (u2 & e2 & H2 & H). apply updNode_Ok in H2 as (op2 & Hop2 & ->).
    simpl in Hop2. fold nodes1 in Hop2. rewrite Hop1 in Hop2. injection Hop2 as <-.
    apply updNode_Ok in H as (c3 & Hc3 & ->). simpl in Hc3. fold nodes1 in Hc3.
    rewrite list_lookup_insert_ne in Hc3 by done. rewrite Hc1 in Hc3. injection Hc3 as <-.
    simpl. fold nodes1. split.
    + eexists. split.
      * rewrite list_lookup_insert_ne by done. apply list_lookup_insert_eq. lia.
      * simpl. apply chain_update_notin; [|done].
        by apply chain_update with (nd := op).
    + eexists. split; [apply list_lookup_insert_eq; rewrite length_insert; lia|done].
  - assert (exists l1' pred, l1 = l1' ++ [pred]) as (l1' & pred & ->).
    { destruct l1 as [|a l1] using rev_ind; [|by eauto].
      exfalso. simpl in Hch1. by destruct Hch1 as (? & _). }
    rewrite <- !app_assoc in Hch1, Hnd. simpl in Hch1, Hnd.
    apply bind_Ok in H as (cur & e0 & Hf & H).
    pose proof (breakRelationship_find_Ok _ _ _ _ _ _ Hf) as ->.
    apply breakRelationship_find_last with (l1 := l1') (pred := pred) (l2 := l2) in Hf
      as ->; [|done|done].
    assert (pred <> child) as Hpc.
    { intros ->. apply NoDup_app in Hnd as (_ & _ & Hnd).
      apply NoDup_cons in Hnd as [Hn _]. apply Hn. left. }
    apply bind_Ok in H as (c1 & e0 & Hg & H). apply getNode_Ok in Hg as [Hc1' ->].
    simpl in Hc1'. fold nodes1 in Hc1'. rewrite Hc1 in Hc1'. injection Hc1' as <-.
    apply bind_Ok in H as (u2 & e2 & H2 & H). apply updNode_Ok in H2 as (ndp & Hp & ->).
    simpl in Hp. fold nodes1 in Hp.
    apply updNode_Ok in H as (c3 & Hc3 & ->). simpl in Hc3. fold nodes1 in Hc3.
    rewrite list_lookup_insert_ne in Hc3 by done. rewrite Hc1 in Hc3. injection Hc3 as <-.
    simpl. fold nodes1.
    pose proof (chain_remove nodes1 (childList op) l1' pred child l2 ndp
                  (set_parent None c) (set_next None (set_parent None c))
                  Hch1 Hnd Hp Hc1) as Hch3.
    simpl in Hch3. split.
    + rewrite <- app_assoc. simpl.
      destruct (decide (oldParent = pred)) as [->|Hop'].
      * exists (set_next (next c) ndp). split.
        -- rewrite list_lookup_insert_ne by done. apply list_lookup_insert_eq.
           by apply lookup_lt_Some in Hp.
        -- simpl. rewrite Hop1 in Hp. by injection Hp as <-.
      * exists op. split; [|done]. by rewrite !list_lookup_insert_ne.
    + eexists. split; [apply list_lookup_insert_eq; rewrite length_insert; lia|done].
Qed.

Lemma addRelationship_head_witness :
  exists e e',
    net5_started = Ok e
    /\ addRelationship 3 2 e = Ok (tt, e')
    /\ children (nodesList e') 3 (2%nat :: [])
    /\ exists c np,
         nodesList e !! 2%nat = Some c /\ nodesList e !! 3%nat = Some np
         /\ nodesList e'
            = <[3%nat := set_childList (Some 2%nat) np]>
                (<[2%nat := set_next (childList np) (set_parent (Some 3%nat) c)]>
                   (nodesList e)).
Proof.
  eexists _, _. split; [vm_compute; reflexivity|].
  match goal with
  | |- addRelationship ?p ?c ?e = Ok (?u, ?e') /\ _ =>
      assert (addRelationship p c e = Ok (u, e')) as H by (vm_compute; reflexivity);
      split; [exact H|];
      refine (addRelationship_head p c e u e' [] H _ _ _)
  end.
  - lia.
  - eexists. split; [vm_compute; reflexivity|]. done.
  - apply not_elem_of_nil.
Defined.

Lemma breakRelationship_removes_witness :
  exists e e',
    net5_merged 0 = Ok (2%nat, e)
    /\ breakRelationship 50 3 2 e = Ok (tt, e')
    /\ children (nodesList e') 3 ([] ++ [])
    /\ (exists c', nodesList e' !! 2%nat = Some c' /\ parent c' = None /\ next c' = None)
    /\ arcList e' = arcList e /\ map excess (nodesList e') = map excess (nodesList e)
    /\ map label (nodesList e') = map label (nodesList e).
Proof.
  eexists _, _. split; [vm_compute; reflexivity|].
  match goal with
  | |- breakRelationship ?f ?p ?c ?e = Ok (?u, ?e') /\ _ =>
      assert (breakRelationship f p c e = Ok (u, e')) as H by (vm_compute; reflexivity);
      split; [exact H|];
      refine (breakRelationship_removes f p c e u e' [] [] H _ _ _)
  end.
  - lia.
  - eexists. split; [vm_compute; reflexivity|]. simpl. split; [done|].
    eexists. split; [vm_compute; reflexivity|]. done.
  - apply NoDup_singleton.
Defined.

(** ** The path to the root, and its reversal by [merge] *)

Lemma up_part_fmap_insert l i (nd : Node) :
  map up_part (<[i := nd]> l) = <[i := up_part nd]> (map up_part l).
Proof. change map with (@fmap list _). apply list_fmap_insert. Qed.

Lemma up_part_lookup l i (nd : Node) :
  l !! i = Some nd -> map up_part l !! i = Some (up_part nd).
Proof. intros H. change map with (@fmap list _). by rewrite list_lookup_fmap, H. Qed.

Lemma updNode_up_part i f e u e' :
  updNode i f e = Ok (u, e') ->
  exists nd, nodesList e !! i = Some nd
    /\ map up_part (nodesList e') = <[i := up_part (f nd)]> (map up_part (nodesList e))
    /\ arcList e' = arcList e.
Proof.
  intros H. apply updNode_Ok in H as (nd & Hnd & ->). exists nd. simpl.
  by rewrite up_part_fmap_insert.
Qed.

Lemma breakRelationship_up_part fuel op child e u e' :
  breakRelationship fuel op child e = Ok (u, e') ->
  exists c, nodesList e !! child = Some c
    /\ map up_part (nodesList e')
       = <[child := (None, arcToParent c)]> (map up_part (nodesList e))
    /\ arcList e' = arcList e.
Proof.
  unfold breakRelationship. intros H.
  apply bind_Ok in H as (u1 & e1 & H1 & H). apply updNode_Ok in H1 as (c & Hc & ->).
  exists c. split; [done|].
  assert (forall e2 : Engine, arcList e2 = arcList e ->
            map up_part (nodesList e2)
            = <[child := (None, arcToParent c)]> (map up_part (nodesList e)) ->
            forall i f u2 e3, updNode i f e2 = Ok (u2, e3) ->
            (forall nd, up_part (f nd) = up_part nd) ->
            arcList e3 = arcList e /\
            map up_part (nodesList e3)
            = <[child := (None, arcToParent c)]> (map up_part (nodesList e))) as Hstep.
  { intros e2 Ha Hn i f u2 e3 Hu Hf. apply updNode_Ok in Hu as (nd & Hnd & ->).
    simpl. split; [done|]. by rewrite (map_insert_kept up_part _ _ _ _ Hnd (Hf nd)). }
  set (e1 := set_nodesList _ e) in H.
  assert (arcList e1 = arcList e) as Ha1 by done.
  assert (map up_part (nodesList e1)
          = <[child := (None, arcToParent c)]> (map up_part (nodesList e))) as Hn1.
  { unfold e1. simpl. by rewrite up_part_fmap_insert. }
  clearbody e1.
  apply bind_Ok in H as (op' & e2 & Hg & H). apply getNode_Ok in Hg as [_ ->].
  destruct (decide (childList op' = Some child)).
  - apply bind_Ok in H as (c' & e2 & Hg & H). apply getNode_Ok in Hg as [_ ->].
    apply bind_Ok in H as (u2 & e2 & H2 & H).
    destruct (Hstep _ Ha1 Hn1 _ _ _ _ H2 ltac:(done)) as [Ha2 Hn2].
    destruct (Hstep _ Ha2 Hn2 _ _ _ _ H ltac:(done)) as [Ha3 Hn3]. done.
  - apply bind_Ok in H as (cur & e2 & Hf & H). apply breakRelationship_find_Ok in Hf as ->.
    apply bind_Ok in H as (c' & e2 & Hg & H). apply getNode_Ok in Hg as [_ ->].
    apply bind_Ok in H as (u2 & e2 & H2 & H).
    destruct (Hstep _ Ha1 Hn1 _ _ _ _ H2 ltac:(done)) as [Ha2 Hn2].
    destruct (Hstep _ Ha2 Hn2 _ _ _ _ H ltac:(done)) as [Ha3 Hn3]. done.
Qed.

Lemma addRelationship_up_part np child e u e' :
  addRelationship np child e = Ok (u, e') ->
  exists c, nodesList e !! child = Some c
    /\ map up_part (nodesList e')
       = <[child := (Some np, arcToParent c)]> (map up_part (nodesList e))
    /\ arcList e' = arcList e.
Proof.
  unfold addRelationship. intros H.
  apply bind_Ok in H as (u1 & e1 & H1 & H).
  apply updNode_up_part in H1 as (c & Hc & Hn1 & Ha1). exists c. split; [done|].
  apply bind_Ok in H as (npn & e0 & Hg & H). apply getNode_Ok in Hg as [_ ->].
  apply bind_Ok in H as (u2 & e2 & H2 & H).
  apply updNode_Ok in H2 as (c2 & Hc2 & ->).
  apply updNode_Ok in H as (n3 & Hn3 & ->). simpl in *.
  rewrite (map_insert_kept up_part _ _ _ _ Hn3) by done.
  rewrite (map_insert_kept up_part _ _ _ _ Hc2) by done.
  by rewrite Hn1, Ha1.
Qed.

Lemma climb_top_in U x l top : climb U x l top -> top ∈ x :: map snd l.
Proof.
  revert x. induction l as [|[a y] l IH]; intros x H; simpl in *.
  - subst. left.
  - destruct H as [_ H]. right. by apply IH.
Qed.

Lemma climb_insert_notin U x l top x0 v :
  x0 ∉ x :: map snd l -> climb U x l top -> climb (<[x0 := v]> U) x l top.
Proof.
  revert x. induction l as [|[a y] l IH]; intros x Hx H; simpl in *; [done|].
  destruct H as [Hl H]. apply not_elem_of_cons in Hx as [Hne Hx].
  split; [by rewrite list_lookup_insert_ne|]. by apply IH.
Qed.

Lemma merge_loop_Ok fuel cur np na e u e' l root :
  merge_loop fuel cur np na e = Ok (u, e') ->
  climb (map up_part (nodesList e)) cur l root ->
  is_root (map up_part (nodesList e)) root ->
  NoDup (cur :: map snd l) ->
  map up_part (nodesList e') = turn_up (map up_part (nodesList e)) cur np na l
  /\ arcList e' = flip_directions (arcList e) (map fst l).
Proof.
  revert cur np na e l. induction fuel as [|fuel IH]; intros cur np na e l H Hcl Hroot Hnd;
    [done|].
  simpl in H. apply bind_Ok in H as (c & e0 & Hg & H). apply getNode_Ok in Hg as [Hc ->].
  pose proof (up_part_lookup _ _ _ Hc) as HU.
  destruct l as [|[a y] l]; simpl in Hcl.
  - subst root. destruct Hroot as (a0 & Hr). rewrite HU in Hr. injection Hr as Hp Ha.
    rewrite Hp in H.
    apply bind_Ok in H as (u1 & e1 & H1 & H).
    apply updNode_up_part in H1 as (c1 & Hc1 & Hn1 & Ha1).
    rewrite Hc in Hc1. injection Hc1 as <-.
    apply addRelationship_up_part in H as (c2 & Hc2 & Hn2 & Ha2).
    pose proof (up_part_lookup _ _ _ Hc2) as HU2. rewrite Hn1 in HU2.
    rewrite list_lookup_insert_eq in HU2
      by (rewrite length_map; by apply lookup_lt_Some in Hc).
    injection HU2 as _ Harc2. simpl in Harc2.
    simpl. split; [|congruence].
    rewrite Hn2, Hn1, list_insert_insert_eq. by rewrite <- Harc2.
  - destruct Hcl as [Hcur Hcl]. rewrite HU in Hcur. injection Hcur as Hp Ha.
    rewrite Hp in H.
    apply bind_Ok in H as (u1 & e1 & H1 & H).
    apply updNode_up_part in H1 as (c1 & Hc1 & Hn1 & Ha1).
    rewrite Hc in Hc1. injection Hc1 as <-.
    apply bind_Ok in H as (u2 & e2 & H2 & H).
    apply breakRelationship_up_part in H2 as (c2 & Hc2 & Hn2 & Ha2).
    pose proof (up_part_lookup _ _ _ Hc2) as HU2. rewrite Hn1 in HU2.
    rewrite list_lookup_insert_eq in HU2
      by (rewrite length_map; by apply lookup_lt_Some in Hc).
    injection HU2 as _ Harc2. simpl in Harc2.
    apply bind_Ok in H as (u3 & e3 & H3 & H).
    apply addRelationship_up_part in H3 as (c3 & Hc3 & Hn3 & Ha3).
    pose proof (up_part_lookup _ _ _ Hc3) as HU3. rewrite Hn2 in HU3.
    rewrite list_lookup_insert_eq in HU3
      by (rewrite length_map; by apply lookup_lt_Some in Hc2).
    injection HU3 as _ Harc3. simpl in Harc3.
    apply bind_Ok in H as (a' & e0 & Hd & H). apply deref_Ok in Hd as [Hd ->].
    rewrite Ha in Hd. injection Hd as <-.
    apply bind_Ok in H as (u4 & e4 & H4 & H). apply updArc_Ok in H4 as (ar & Har & ->).
    assert (map up_part (nodesList e3)
            = <[cur := (Some np, Some na)]> (map up_part (nodesList e))) as HU4.
    { rewrite Hn3, Hn2, Hn1, !list_insert_insert_eq. by rewrite <- Harc3, <- Harc2. }
    simpl in Hnd. apply NoDup_cons in Hnd as [Hcur Hnd].
    apply IH with (l := l) in H as [Hn' Ha']; simpl.
    + simpl in Hn', Ha'. rewrite Hn', HU4. split; [done|].
      rewrite Ha'. unfold flip_directions. simpl.
      rewrite Ha3, Ha2, Ha1 in Har. rewrite Har. by rewrite Ha3, Ha2, Ha1.
    + rewrite HU4. by apply climb_insert_notin.
    + rewrite HU4. destruct Hroot as (a0 & Hr). exists a0.
      rewrite list_lookup_insert_ne; [done|].
      intros ->. apply Hcur. by apply (climb_top_in _ _ _ _ Hcl).
    + done.
Qed.

Lemma turn_up_lookup_notin U cur np na l x :
  x ∉ cur :: map snd l -> turn_up U cur np na l !! x = U !! x.
Proof.
  revert U cur np na. induction l as [|[a y] l IH]; intros U cur np na Hx; simpl in *.
  - apply not_elem_of_cons in Hx as [Hne _]. by rewrite list_lookup_insert_ne.
  - apply not_elem_of_cons in Hx as [Hne Hx]. rewrite IH by done.
    by rewrite list_lookup_insert_ne.
Qed.

Lemma climb_app U x l1 m l2 top :
  climb U x l1 m -> climb U m l2 top -> climb U x (l1 ++ l2) top.
Proof.
  revert x. induction l1 as [|[a y] l1 IH]; intros x H1 H2; simpl in *.
  - by subst.
  - destruct H1 as [Hx H1]. split; [done|]. by apply IH.
Qed.

Lemma climb_turned U cur np na l root :
  climb U cur l root -> is_root U root -> NoDup (cur :: map snd l) ->
  climb (turn_up U cur np na l) root (turned cur l ++ [(na, np)]) np.
Proof.
  revert U cur np na. induction l as [|[a y] l IH]; intros U cur np na Hcl Hroot Hnd;
    simpl in *.
  - subst root. destruct Hroot as (a0 & Hr). split; [|done].
    apply list_lookup_insert_eq. by apply lookup_lt_Some in Hr.
  - destruct Hcl as [Hcur Hcl]. apply NoDup_cons in Hnd as [Hc Hnd].
    apply climb_app with (m := cur).
    + apply IH; [by apply climb_insert_notin| |done].
      destruct Hroot as (a0 & Hr). exists a0. rewrite list_lookup_insert_ne; [done|].
      intros ->. apply Hc. by apply (climb_top_in _ _ _ _ Hcl).
    + simpl. split; [|done]. rewrite turn_up_lookup_notin by done.
      apply list_lookup_insert_eq. by apply lookup_lt_Some in Hcur.
Qed.

(** X24.  [merge] hangs the strong node below the weak node and reverses
    the path from the strong node to the root of its tree: where the pointers
    to the parents led from the strong node [child] up through the nodes of
    the path to the root, they lead afterwards from that root down the same
    nodes, over the same arcs, to [child], and from [child] over the new arc
    to the weak node [parent].  The parent pointer and the arc to the parent
    of every node off the path are unchanged; each arc of the old path has
    its direction flipped; no excess and no label changes. *)
Theorem merge_reverses fuel parent_ child newArc e u e' l root :
  merge fuel parent_ child newArc e = Ok (u, e') ->
  climb (map up_part (nodesList e)) child l root ->
  is_root (map up_part (nodesList e)) root ->
  NoDup (child :: map snd l) ->
  climb (map up_part (nodesList e')) root (turned child l ++ [(newArc, parent_)]) parent_
  /\ (forall x, x ∉ child :: map snd l ->
        map up_part (nodesList e') !! x = map up_part (nodesList e) !! x)
  /\ arcList e' = flip_directions (arcList e) (map fst l)
  /\ map excess (nodesList e') = map excess (nodesList e)
  /\ map label (nodesList e') = map label (nodesList e).
Proof.
  intros H Hcl Hroot Hnd.
  assert (map excess (nodesList e') = map excess (nodesList e)
          /\ map label (nodesList e') = map label (nodesList e)) as [Hex Hlab].
  { pose proof (keeps_merge (fun nd => (excess nd, label nd)) (fun _ : Arc => tt)
                  (fun l _ => l = map (fun nd => (excess nd, label nd)) (nodesList e))
                  ltac:(done) ltac:(done) ltac:(done) ltac:(done) ltac:(done)
                  fuel parent_ child newArc e u e' eq_refl H) as Hk.
    unfold engine_inv in Hk.
    assert (forall l : list Node,
              map excess l = map fst (map (fun nd => (excess nd, label nd)) l)) as E1
      by (intros; by rewrite List.map_map).
    assert (forall l : list Node,
              map label l = map snd (map (fun nd => (excess nd, label nd)) l)) as E2
      by (intros; by rewrite List.map_map).
    by rewrite !E1, !E2, Hk. }
  unfold merge in H. apply bind_Ok in H as (u0 & e0 & H0 & H). apply modify_Ok in H0 as ->.
  apply merge_loop_Ok with (l := l) (root := root) in H as [Hn Ha]; [|done|done|done].
  simpl in Hn, Ha. split_and!; try done.
  - rewrite Hn. by apply climb_turned.
  - intros x Hx. rewrite Hn. by apply turn_up_lookup_notin.
Qed.

Lemma merge_reverses_witness :
  exists e e',
    net5w_found = Ok (4%nat, 2%nat, 3%nat, e)
    /\ merge 50 4 2 3 e = Ok (tt, e')
    /\ map up_part (nodesList e)
       = [(None, None); (None, None); (Some 3%nat, Some 1%nat); (None, None); (None, None)]
    /\ map up_part (nodesList e')
       = [(None, None); (None, None); (Some 4%nat, Some 3%nat);
          (Some 2%nat, Some 1%nat); (None, None)]
    /\ map direction (arcList e) = [1; 1; 1; 1; 1]
    /\ map direction (arcList e') = [1; 0; 1; 1; 1]
    /\ climb (map up_part (nodesList e')) 3
         (turned 2 [(1%nat, 3%nat)] ++ [(3%nat, 4%nat)]) 4
    /\ (forall x, x ∉ 2%nat :: map snd [(1%nat, 3%nat)] ->
          map up_part (nodesList e') !! x = map up_part (nodesList e) !! x)
    /\ arcList e' = flip_directions (arcList e) (map fst [(1%nat, 3%nat)])
    /\ map excess (nodesList e') = map excess (nodesList e)
    /\ map label (nodesList e') = map label (nodesList e).
Proof.
  eexists _, _. split; [vm_compute; reflexivity|].
  match goal with
  | |- merge ?f ?w ?c ?a ?e = Ok (?u, ?e') /\ _ =>
      assert (merge f w c a e = Ok (u, e')) as H by (vm_compute; reflexivity);
      split; [exact H|]; do 4 (split; [vm_compute; reflexivity|]);
      refine (merge_reverses f w c a e u e' [(1%nat, 3%nat)] 3 H _ _ _)
  end.
  - simpl. split; [vm_compute; reflexivity|done].
  - eexists. vm_compute. reflexivity.
  - apply NoDup_cons. split; [|apply NoDup_singleton].
    apply not_elem_of_cons. split; [done|apply not_elem_of_nil].
Defined.

(** ** The out-of-tree arcs at the start of a solve *)

Lemma addOutOfTreeNode_Ok n out e u e' :
  addOutOfTreeNode n out e = Ok (u, e') ->
  exists nd,
    nodesList e !! n = Some nd
    /\ 0 <= numOutOfTree nd < Z.of_nat (length (outOfTree nd))
    /\ e' = set_nodesList
              (<[n := set_numOutOfTree (u32 (numOutOfTree nd + 1))
                        (set_outOfTree (<[Z.to_nat (numOutOfTree nd) := out]> (outOfTree nd))
                           nd)]> (nodesList e)) e.
Proof.
  unfold addOutOfTreeNode. intros H.
  apply bind_Ok in H as (nd & e0 & Hg & H). apply getNode_Ok in Hg as [Hnd ->].
  apply bind_Ok in H as (ot & e0 & Hw & H). apply liftR_Ok in Hw as [Hw ->].
  apply awrite_inv in Hw as [Hb ->].
  apply bind_Ok in H as (u1 & e1 & H1 & H). apply setNode_Ok in H1 as [Hlt ->].
  apply updNode_Ok in H as (nd1 & Hnd1 & ->). simpl in Hnd1.
  rewrite list_lookup_insert_eq in Hnd1 by done. injection Hnd1 as <-.
  exists nd. split; [done|]. split; [done|]. simpl.
  by rewrite list_insert_insert_eq.
Qed.

Lemma owned_S source_ sink_ nodes arcs n k :
  owned source_ sink_ nodes arcs n (S k)
  = owned source_ sink_ nodes arcs n k
    ++ (match arcs !! k with
        | Some a => if bool_decide (arc_owner source_ sink_ nodes a = Some n) then [k] else []
        | None => []
        end).
Proof.
  unfold owned. rewrite seq_S, List.filter_app. simpl. f_equal.
  destruct (arcs !! k) as [a|]; [|done].
  by destruct (bool_decide (arc_owner source_ sink_ nodes a = Some n)).
Qed.

Lemma owned_length source_ sink_ nodes arcs n k :
  (length (owned source_ sink_ nodes arcs n k) <= k)%nat.
Proof.
  unfold owned. etrans; [apply List.filter_length_le|]. by rewrite length_seq.
Qed.

Lemma arc_owner_ext source_ sink_ nodes nodes' a a' :
  map number nodes' = map number nodes -> from a' = from a -> to a' = to a ->
  arc_owner source_ sink_ nodes' a' = arc_owner source_ sink_ nodes a
  /\ source_to_sink source_ sink_ nodes' a' = source_to_sink source_ sink_ nodes a.
Proof.
  intros Hm Hf Ht. unfold arc_owner, source_to_sink. rewrite Hf, Ht.
  destruct (to a) as [t|]; [|done]. destruct (from a) as [f|]; [|done].
  assert (forall i, number <$> nodes' !! i = number <$> nodes !! i) as Hl.
  { intros i. rewrite <- !list_lookup_fmap. change (@fmap list _) with map.
    by rewrite Hm. }
  pose proof (Hl t) as Ht'. pose proof (Hl f) as Hf'.
  destruct (nodes' !! t) as [tn'|], (nodes !! t) as [tn|]; try done;
    destruct (nodes' !! f) as [fn'|], (nodes !! f) as [fn|]; try done.
  simpl in Ht', Hf'. injection Ht' as ->. injection Hf' as ->. done.
Qed.

(** What the allocation of the out-of-tree arrays leaves alone. *)
Lemma createOutOfTree_loop n e u e' :
  for_range 0 n (fun i => createOutOfTree (addr i)) e = Ok (u, e') ->
  map (fun nd => (number nd, numOutOfTree nd)) (nodesList e')
  = map (fun nd => (number nd, numOutOfTree nd)) (nodesList e)
  /\ arcList e' = arcList e
  /\ (numNodes e', numArcs e', source e', sink e') = (numNodes e, numArcs e, source e, sink e).
Proof.
  unfold for_range. intros H.
  apply (for_loop_ind
           (fun _ s =>
              map (fun nd => (number nd, numOutOfTree nd)) (nodesList s)
              = map (fun nd => (number nd, numOutOfTree nd)) (nodesList e)
              /\ arcList s = arcList e
              /\ (numNodes s, numArcs s, source s, sink s)
                 = (numNodes e, numArcs e, source e, sink e))
           _ _ _ _ _ _ H); [done|].
  intros k s1 u1 s2 _ (Hn & Ha & Hs) Hb. unfold createOutOfTree in Hb.
  apply bind_Ok in Hb as (nd & s0 & Hg & Hb). apply getNode_Ok in Hg as [Hnd ->].
  destruct (numAdjacent nd =? 0).
  - by apply ret_Ok in Hb as [_ ->].
  - apply setNode_Ok in Hb as [_ ->]. simpl.
    by rewrite (map_insert_kept (fun nd => (number nd, numOutOfTree nd)) _ _ _ _ Hnd).
Qed.

Lemma owned_S_other source_ sink_ nodes arcs n j a :
  arcs !! j = Some a -> arc_owner source_ sink_ nodes a <> Some n ->
  owned source_ sink_ nodes arcs n (S j) = owned source_ sink_ nodes arcs n j.
Proof.
  intros Ha Hn. rewrite owned_S, Ha, bool_decide_eq_false_2 by done. apply app_nil_r.
Qed.

Lemma owned_S_self source_ sink_ nodes arcs n j a :
  arcs !! j = Some a -> arc_owner source_ sink_ nodes a = Some n ->
  owned source_ sink_ nodes arcs n (S j) = owned source_ sink_ nodes arcs n j ++ [j].
Proof. intros Ha Hn. by rewrite owned_S, Ha, bool_decide_eq_true_2. Qed.

Lemma ltb_S_other i j : i <> j -> (i <? S j)%nat = (i <? j)%nat.
Proof.
  intros Hne. destruct (Nat.ltb_spec i (S j)), (Nat.ltb_spec i j); try done; lia.
Qed.

(** The state of the out-of-tree arcs after the first [k] arcs. *)
Lemma createMemoryStructures_arcs_loop e0 m e u e' :
  for_range 0 m (fun i =>
    a <- getArc (addr i) ;;
    t <- deref (to a) ;; tn <- getNode t ;;
    let to_ := number tn in
    f <- deref (from a) ;; fn <- getNode f ;;
    let from_ := number fn in
    let capacity_ := capacity a in
    source_ <- gets source ;;
    sink_ <- gets sink ;;
    if negb ((source_ =? to_) || (sink_ =? from_) || (from_ =? to_)) then
      if (source_ =? from_) && (to_ =? sink_) then
        updArc (addr i) (set_flow capacity_)
      else if to_ =? sink_ then
        addOutOfTreeNode (addr to_) (addr i)
      else
        addOutOfTreeNode (addr from_) (addr i)
    else ret tt) e = Ok (u, e') ->
  m < 2 ^ 32 ->
  map (fun nd => (number nd, numOutOfTree nd)) (nodesList e)
  = map (fun nd => (number nd, numOutOfTree nd)) (nodesList e0) ->
  arcList e = arcList e0 ->
  (source e, sink e) = (source e0, sink e0) ->
  Forall (fun nd => numOutOfTree nd = 0) (nodesList e0) ->
  let own := owned (source e0) (sink e0) (nodesList e0) (arcList e0) in
  let k := Z.to_nat m in
  (numNodes e', numArcs e', source e', sink e') = (numNodes e, numArcs e, source e, sink e)
  /\ (forall n nd', nodesList e' !! n = Some nd' ->
        numOutOfTree nd' = Z.of_nat (length (own n k))
        /\ take (length (own n k)) (outOfTree nd') = own n k)
  /\ (forall i a, arcList e0 !! i = Some a ->
        arcList e' !! i
        = Some (if (i <? k)%nat && source_to_sink (source e0) (sink e0) (nodesList e0) a
                then set_flow (capacity a) a else a))
  /\ length (nodesList e') = length (nodesList e0)
  /\ length (arcList e') = length (arcList e0).
Proof.
  intros H Hm Hn Ha Hss H0 own k. unfold for_range in H. rewrite Z.sub_0_r in H.
  set (P := fun (k : nat) (s : Engine) =>
    (numNodes s, numArcs s, source s, sink s) = (numNodes e, numArcs e, source e, sink e)
    /\ map number (nodesList s) = map number (nodesList e0)
    /\ length (arcList s) = length (arcList e0)
    /\ (forall n nd', nodesList s !! n = Some nd' ->
          numOutOfTree nd' = Z.of_nat (length (own n k))
          /\ take (length (own n k)) (outOfTree nd') = own n k)
    /\ (forall i a, arcList e0 !! i = Some a ->
          arcList s !! i
          = Some (if (i <? k)%nat && source_to_sink (source e0) (sink e0) (nodesList e0) a
                  then set_flow (capacity a) a else a))).
  assert (forall l : list Node,
            map number l = map fst (map (fun nd => (number nd, numOutOfTree nd)) l)) as En
    by (intros; by rewrite List.map_map).
  assert (forall l : list Node,
            map numOutOfTree l = map snd (map (fun nd => (number nd, numOutOfTree nd)) l)) as Eo
    by (intros; by rewrite List.map_map).
  assert (P k e') as (Hs' & Hnum' & Hla' & Hnodes' & Harcs').
  { apply (for_loop_ind P _ _ _ _ _ _ H).
    - split_and!; [done|by rewrite !En, Hn|by rewrite Ha| |].
      + intros n nd' Hnd'. simpl. split; [|by rewrite take_0].
        assert (map numOutOfTree (nodesList e) !! n = Some (numOutOfTree nd')) as Hx.
        { change map with (@fmap list _). by rewrite list_lookup_fmap, Hnd'. }
        rewrite Eo, Hn, <- Eo in Hx. change map with (@fmap list _) in Hx.
        rewrite list_lookup_fmap in Hx.
        destruct (nodesList e0 !! n) as [nd0|] eqn:E0; [|done].
        injection Hx as <-. by apply (proj1 (Forall_lookup _ _) H0 _ _ E0).
      + intros i a Hi. rewrite Ha, Hi. simpl. done.
    - clear H. intros j s1 u1 s2 Hj (Hs & Hnum & Hla & Hnodes & Harcs) Hb.
      rewrite Z.add_0_l in Hb. unfold addr in Hb at 1. rewrite Nat2Z.id in Hb.
      apply bind_Ok in Hb as (a & s0 & Hg & Hb). apply getArc_Ok in Hg as [Haj ->].
      apply bind_Ok in Hb as (t & s0 & Hd & Hb). apply deref_Ok in Hd as [Ht ->].
      apply bind_Ok in Hb as (tn & s0 & Hg & Hb). apply getNode_Ok in Hg as [Htn ->].
      apply bind_Ok in Hb as (f & s0 & Hd & Hb). apply deref_Ok in Hd as [Hf ->].
      apply bind_Ok in Hb as (fn & s0 & Hg & Hb). apply getNode_Ok in Hg as [Hfn ->].
      rewrite !bind_gets in Hb.
      assert (source s1 = source e0 /\ sink s1 = sink e0) as [Esrc Esnk].
      { injection Hs as _ _ -> ->. by injection Hss. }
      rewrite Esrc, Esnk in Hb.
      destruct (arcList e0 !! j) as [a0|] eqn:Ha0.
      2:{ exfalso. apply lookup_ge_None in Ha0. apply lookup_lt_Some in Haj. lia. }
      pose proof (Harcs _ _ Ha0) as Haj'. rewrite Nat.ltb_irrefl in Haj'. simpl in Haj'.
      rewrite Haj in Haj'. injection Haj' as ->.
      destruct (arc_owner_ext (source e0) (sink e0) (nodesList e0) (nodesList s1) a0 a0
                  Hnum eq_refl eq_refl) as [Eown Ests].
      unfold arc_owner in Eown at 1. unfold source_to_sink in Ests at 1.
      rewrite Ht, Hf, Htn, Hfn in Eown, Ests. cbv zeta in Eown, Ests.
      unfold addr in Hb. rewrite Nat2Z.id in Hb.
      (* the arcs that no node gets *)
      assert (forall s2 : Engine,
                nodesList s2 = nodesList s1 ->
                (numNodes s2, numArcs s2, source s2, sink s2)
                = (numNodes s1, numArcs s1, source s1, sink s1) ->
                length (arcList s2) = length (arcList s1) ->
                arc_owner (source e0) (sink e0) (nodesList e0) a0 = None ->
                (forall i a, arcList e0 !! i = Some a ->
                   arcList s2 !! i
                   = Some (if (i <? S j)%nat
                              && source_to_sink (source e0) (sink e0) (nodesList e0) a
                           then set_flow (capacity a) a else a)) ->
                P (S j) s2) as Hnone.
      { intros s3 E1 E2 E3 Eo' E4. unfold P. rewrite E1, E2, E3.
        split_and!; [done|done|done| |done].
        intros n nd' Hnd'. unfold own. rewrite (owned_S_other _ _ _ _ _ _ _ Ha0)
          by (rewrite Eo'; done). by apply Hnodes. }
      (* the arcs that the node [n0] gets *)
      assert (forall n0 (s2 : Engine),
                addOutOfTreeNode n0 j s1 = Ok (u1, s2) ->
                arc_owner (source e0) (sink e0) (nodesList e0) a0 = Some n0 ->
                source_to_sink (source e0) (sink e0) (nodesList e0) a0 = false ->
                P (S j) s2) as Hsome.
      { intros n0 s3 Hadd Eo' Es'.
        apply addOutOfTreeNode_Ok in Hadd as (nd & Hnd & Hb0 & ->).
        destruct (Hnodes _ _ Hnd) as [Hnum0 Htake0].
        pose proof (owned_length (source e0) (sink e0) (nodesList e0) (arcList e0) n0 j) as Hle.
        fold (own n0 j) in Hle.
        unfold P. simpl. split_and!; [done| |done| |].
        - rewrite <- Hnum. by apply map_insert_kept with (x := nd).
        - intros n nd' Hnd'. destruct (decide (n = n0)) as [->|Hne].
          + rewrite list_lookup_insert_eq in Hnd' by (by apply lookup_lt_Some in Hnd).
            injection Hnd' as <-. simpl. unfold own.
            rewrite (owned_S_self _ _ _ _ _ _ _ Ha0 Eo'). fold (own n0 j).
            rewrite length_app. simpl. split.
            * rewrite u32_small by lia. lia.
            * rewrite Hnum0, Nat2Z.id. rewrite Nat.add_1_r.
              rewrite (take_S_r _ _ j)
                by (apply list_lookup_insert_eq; lia).
              by rewrite take_insert_ge, Htake0 by lia.
          + rewrite list_lookup_insert_ne in Hnd' by done. unfold own.
            rewrite (owned_S_other _ _ _ _ _ _ _ Ha0) by (rewrite Eo'; congruence).
            by apply Hnodes.
        - intros i a Hi. rewrite (Harcs _ _ Hi).
          destruct (decide (i = j)) as [->|Hne].
          + rewrite Ha0 in Hi. injection Hi as <-. by rewrite Es', !andb_false_r.
          + by rewrite ltb_S_other. }
      destruct (negb ((source e0 =? number tn) || (sink e0 =? number fn)
                      || (number fn =? number tn))) eqn:B1.
      2:{ apply ret_Ok in Hb as [_ ->]. apply Hnone; try done.
          intros i a Hi. rewrite (Harcs _ _ Hi).
          destruct (decide (i = j)) as [->|Hne]; [|by rewrite ltb_S_other].
          rewrite Ha0 in Hi. injection Hi as <-. simpl in Ests.
          by rewrite <- Ests, !andb_false_r. }
      destruct ((source e0 =? number fn) && (number tn =? sink e0)) eqn:B2.
      { apply updArc_Ok in Hb as (a1 & Ha1 & ->). rewrite Haj in Ha1. injection Ha1 as <-.
        apply Hnone; try done; simpl.
        - by rewrite length_insert.
        - intros i a Hi. destruct (decide (i = j)) as [->|Hne].
          + rewrite Ha0 in Hi. injection Hi as <-.
            rewrite list_lookup_insert_eq by (by apply lookup_lt_Some in Haj).
            simpl in Ests. rewrite <- Ests.
            replace (j <? S j)%nat with true by (symmetry; apply Nat.ltb_lt; lia). done.
          + rewrite list_lookup_insert_ne by done. rewrite (Harcs _ _ Hi).
            by rewrite ltb_S_other. }
      simpl in Ests.
      destruct (number tn =? sink e0) eqn:B3.
      + apply (Hsome _ _ Hb); [by rewrite <- Eown|by rewrite <- Ests].
      + apply (Hsome _ _ Hb); [by rewrite <- Eown|by rewrite <- Ests]. }
  split_and!; try done.
  assert (length (map number (nodesList e')) = length (map number (nodesList e0))) as Hl
    by (by rewrite Hnum').
  by rewrite !length_map in Hl.
Qed.

(** X25.  When [createMemoryStructures] returns, on nodes that have no
    out-of-tree arc yet: the out-of-tree arcs of every node are the arcs that
    go to it, in the order of the arc array, where an arc into the sink goes
    to the sink, an arc into the source, out of the sink or from a node to
    itself goes to no node, an arc from the source to the sink goes to no node
    and gets its capacity as flow, and every other arc goes to its tail; no
    other arc changes; and [strongRoots] and [labelCount] have [numNodes]
    cells, every bucket empty and every count 0. *)
Theorem createMemoryStructures_out_of_tree e u e' :
  createMemoryStructures e = Ok (u, e') ->
  Forall (fun nd => numOutOfTree nd = 0) (nodesList e) ->
  numArcs e < 2 ^ 32 ->
  let own := owned (source e) (sink e) (nodesList e) (arcList e) in
  let m := Z.to_nat (numArcs e) in
  (forall n nd', nodesList e' !! n = Some nd' ->
     numOutOfTree nd' = Z.of_nat (length (own n m))
     /\ take (length (own n m)) (outOfTree nd') = own n m)
  /\ (forall i a, arcList e !! i = Some a ->
        arcList e' !! i
        = Some (if (i <? m)%nat && source_to_sink (source e) (sink e) (nodesList e) a
                then set_flow (capacity a) a else a))
  /\ length (nodesList e') = length (nodesList e)
  /\ length (arcList e') = length (arcList e)
  /\ strongRoots e' = replicate (Z.to_nat (numNodes e)) (mkRoot None None)
  /\ labelCount e' = replicate (Z.to_nat (numNodes e)) 0.
Proof.
  intros H H0 Hm own m. unfold createMemoryStructures in H.
  rewrite bind_gets in H. apply bind_Ok in H as ([] & e1 & H1 & H).
  apply createOutOfTree_loop in H1 as (Hn1 & Ha1 & Hs1).
  rewrite bind_gets in H. apply bind_Ok in H as ([] & e2 & H2 & H).
  assert (numArcs e1 = numArcs e /\ numNodes e1 = numNodes e
          /\ source e1 = source e /\ sink e1 = sink e) as (Em & En & Esrc & Esnk)
    by (by injection Hs1).
  apply createMemoryStructures_arcs_loop with (e0 := e) in H2
    as (Hs2 & Hnodes & Harcs & Hln & Hla); [|lia|done|done|by rewrite Esrc, Esnk|done].
  rewrite Em in Hnodes, Harcs. fold own m in Hnodes. fold m in Harcs.
  rewrite bind_gets in H.
  apply bind_Ok in H as ([] & ? & H3 & H). apply modify_Ok in H3 as ->.
  apply bind_Ok in H as ([] & ? & H3 & H). apply modify_Ok in H3 as ->.
  assert (numNodes e2 = numNodes e) as En2 by (injection Hs2 as -> _ _ _; done).
  rewrite En2 in H. set (n := numNodes e) in *.
  assert (strongRoots e' = replicate (Z.to_nat n) (mkRoot None None)
          /\ labelCount e' = replicate (Z.to_nat n) 0
          /\ nodesList e' = nodesList e2 /\ arcList e' = arcList e2)
    as (HR & HL & HN & HA).
  { unfold for_range in H.
    apply (for_loop_ind
             (fun _ s => strongRoots s = replicate (Z.to_nat n) (mkRoot None None)
                         /\ labelCount s = replicate (Z.to_nat n) 0
                         /\ nodesList s = nodesList e2 /\ arcList s = arcList e2)
             _ _ _ _ _ _ H); [done|].
    intros k s1 u1 s2 Hk (HR & HL & HN & HA) Hb.
    apply bind_Ok in Hb as ([] & ? & U & Hb). apply updRoot_Ok in U as (rt & _ & Hrt & ->).
    apply setLabelCount_Ok in Hb as (_ & ->). simpl. rewrite HR, HL.
    split_and!; [|by apply list_insert_id, lookup_replicate_2; lia|done|done].
    apply list_insert_id. rewrite HR in Hrt. apply lookup_replicate in Hrt as [_ Hlt].
    by apply lookup_replicate_2. }
  rewrite HN, HA. done.
Qed.

Lemma createMemoryStructures_out_of_tree_witness :
  exists e e',
    net5_loaded = Ok e
    /\ createMemoryStructures e = Ok (tt, e')
    /\ map (fun n => owned (source e) (sink e) (nodesList e) (arcList e) n 5) [0; 1; 2; 3; 4]%nat
       = [[0]; [2; 4]; [1; 3]; []; []]%nat
    /\ let own := owned (source e) (sink e) (nodesList e) (arcList e) in
       let m := Z.to_nat (numArcs e) in
       (forall n nd', nodesList e' !! n = Some nd' ->
          numOutOfTree nd' = Z.of_nat (length (own n m))
          /\ take (length (own n m)) (outOfTree nd') = own n m)
       /\ (forall i a, arcList e !! i = Some a ->
             arcList e' !! i
             = Some (if (i <? m)%nat && source_to_sink (source e) (sink e) (nodesList e) a
                     then set_flow (capacity a) a else a))
       /\ length (nodesList e') = length (nodesList e)
       /\ length (arcList e') = length (arcList e)
       /\ strongRoots e' = replicate (Z.to_nat (numNodes e)) (mkRoot None None)
       /\ labelCount e' = replicate (Z.to_nat (numNodes e)) 0.
Proof.
  eexists _, _. split; [vm_compute; reflexivity|].
  match goal with
  | |- createMemoryStructures ?e = Ok (?u, ?e') /\ _ =>
      assert (createMemoryStructures e = Ok (u, e')) as H by (vm_compute; reflexivity);
      split; [exact H|]; split; [vm_compute; reflexivity|];
      refine (createMemoryStructures_out_of_tree e u e' H _ _)
  end.
  - simpl. repeat constructor.
  - vm_compute. reflexivity.
Defined.

(** ** The lift of a tree at a gap *)

Lemma lifted_refl n l : lifted n l l.
Proof. apply Forall2_same_length_lookup_2; [done|]. intros i x y Hx Hy. left. congruence. Qed.

Lemma lifted_insert n old new i nd nd' :
  lifted n old new -> new !! i = Some nd -> label nd' = label nd \/ label nd' = n ->
  lifted n old (<[i := nd']> new).
Proof.
  intros H Hi Hl. unfold lifted in *.
  apply Forall2_same_length_lookup_2; [rewrite length_insert; by eapply Forall2_length|].
  intros j x y Hx Hy. destruct (decide (j = i)) as [->|Hne].
  - rewrite list_lookup_insert_eq in Hy by (by apply lookup_lt_Some in Hi).
    injection Hy as <-.
    pose proof (Forall2_lookup_lr _ _ _ _ _ _ H Hx Hi) as [Hl0|Hl0]; destruct Hl as [Hl|Hl];
      (by left; congruence) || (by right; congruence).
  - rewrite list_lookup_insert_ne in Hy by done.
    exact (Forall2_lookup_lr _ _ _ _ _ _ H Hx Hy).
Qed.

Lemma labelled_insert (n : uint) (nodes : list Node) root i nd nd' :
  nodes !! i = Some nd -> label nd' = label nd \/ label nd' = n ->
  (exists r, nodes !! root = Some r /\ label r = n) ->
  exists r, <[i := nd']> nodes !! root = Some r /\ label r = n.
Proof.
  intros Hi Hl (r & Hr & Hn). destruct (decide (root = i)) as [->|Hne].
  - exists nd'. rewrite list_lookup_insert_eq by (by apply lookup_lt_Some in Hi).
    split; [done|]. rewrite Hi in Hr. injection Hr as <-. destruct Hl; congruence.
  - exists r. by rewrite list_lookup_insert_ne.
Qed.

Lemma liftAll_lift_lifted n old cur e u e' :
  liftAll_lift cur e = Ok (u, e') -> numNodes e = n -> lifted n old (nodesList e) ->
  numNodes e' = n /\ lifted n old (nodesList e')
  /\ (exists nd', nodesList e' !! cur = Some nd' /\ label nd' = n)
  /\ (forall root, (exists r, nodesList e !! root = Some r /\ label r = n) ->
                   exists r, nodesList e' !! root = Some r /\ label r = n).
Proof.
  unfold liftAll_lift. intros H Hn Hl.
  apply bind_Ok in H as (u1 & e1 & H1 & H). apply updNode_Ok in H1 as (c & Hc & ->).
  apply bind_Ok in H as (c1 & e0 & Hg & H). apply getNode_Ok in Hg as [Hc1 ->].
  apply bind_Ok in H as (u2 & e2 & Hdec & H). unfold decLabelCount in Hdec.
  apply bind_Ok in Hdec as (v0 & e0 & Hg & Hs).
  apply getLabelCount_Ok in Hg as (_ & _ & ->). apply setLabelCount_Ok in Hs as [_ ->].
  rewrite bind_gets in H. apply updNode_Ok in H as (c2 & Hc2 & ->). simpl in *.
  assert (cur < length (nodesList e))%nat as Hlt by (by apply lookup_lt_Some in Hc).
  rewrite list_lookup_insert_eq in Hc2 by done. injection Hc2 as <-.
  rewrite list_insert_insert_eq. split_and!; [done| | |].
  - apply lifted_insert with (nd := c); [done|done|]. right. simpl. done.
  - eexists. split; [by apply list_lookup_insert_eq|]. simpl. done.
  - intros root Hroot. apply labelled_insert with (nd := c); [done| |done]. by right.
Qed.

Lemma liftAll_walk_lifted n old root fuel cur e u e' :
  liftAll_walk fuel cur e = Ok (u, e') -> numNodes e = n -> lifted n old (nodesList e) ->
  (exists r, nodesList e !! root = Some r /\ label r = n) ->
  lifted n old (nodesList e')
  /\ exists r, nodesList e' !! root = Some r /\ label r = n.
Proof.
  revert cur e. induction fuel as [|fuel IH]; intros cur e H Hn Hl Hroot; [done|].
  simpl in H. destruct cur as [cur|]; [|by apply ret_Ok in H as [_ ->]].
  apply bind_Ok in H as (c & e0 & Hg & H). apply getNode_Ok in Hg as [Hc ->].
  destruct (nextScan c) as [temp|].
  - apply bind_Ok in H as (t & e0 & Hg & H). apply getNode_Ok in Hg as [Ht ->].
    apply bind_Ok in H as (u1 & e1 & H1 & H). apply updNode_Ok in H1 as (c1 & Hc1 & ->).
    rewrite Hc in Hc1. injection Hc1 as <-.
    apply bind_Ok in H as (u2 & e2 & H2 & H).
    apply liftAll_lift_lifted with (n := n) (old := old) in H2 as (Hn2 & Hl2 & _ & Hr2);
      [|done|simpl; apply lifted_insert with (nd := c); [done|done|by left]].
    apply (IH _ _ H Hn2 Hl2). apply Hr2. simpl.
    apply labelled_insert with (nd := c); [done|by left|done].
  - by apply (IH _ _ H).
Qed.

(** X26.  [liftAll] leaves every label as it is or raises it to [numNodes],
    and the label of the root it is called on is [numNodes] afterwards.  It
    changes the labels, the scan pointers and the label counters only: no
    other field of a node, no arc and no bucket. *)
Theorem liftAll_labels fuel rootNode e u e' :
  liftAll fuel rootNode e = Ok (u, e') ->
  lifted (numNodes e) (nodesList e) (nodesList e')
  /\ (exists r, nodesList e' !! rootNode = Some r /\ label r = numNodes e)
  /\ map unlabelled (nodesList e') = map unlabelled (nodesList e)
  /\ arcList e' = arcList e /\ strongRoots e' = strongRoots e.
Proof.
  intros H.
  assert (map unlabelled (nodesList e') = map unlabelled (nodesList e)
          /\ arcList e' = arcList e) as [Hu Ha].
  { pose proof (keeps_liftAll unlabelled (fun a : Arc => a)
                  (fun l m => l = map unlabelled (nodesList e) /\ m = arcList e)
                  ltac:(by intros ? []) ltac:(by intros ? [])
                  fuel rootNode e u e') as Hk.
    unfold engine_inv in Hk. rewrite !List.map_id in Hk. by apply Hk. }
  pose proof (liftAll_roots (roots_part e) fuel rootNode e u e' eq_refl H) as Hr.
  injection Hr as Hr _.
  unfold liftAll in H. apply bind_Ok in H as (u1 & e1 & H1 & H).
  apply liftAll_lift_lifted with (n := numNodes e) (old := nodesList e) in H1
    as (Hn1 & Hl1 & Hroot1 & _); [|done|apply lifted_refl].
  apply liftAll_walk_lifted with (n := numNodes e) (old := nodesList e) (root := rootNode)
    in H as [Hl Hroot]; done.
Qed.

Lemma liftAll_labels_witness :
  exists e e',
    net5_started = Ok e
    /\ liftAll 50 2 e = Ok (tt, e')
    /\ map label (nodesList e) = [5; 0; 1; 0; 0]
    /\ map label (nodesList e') = [5; 0; 5; 0; 0]
    /\ lifted (numNodes e) (nodesList e) (nodesList e')
    /\ (exists r, nodesList e' !! 2%nat = Some r /\ label r = numNodes e)
    /\ map unlabelled (nodesList e') = map unlabelled (nodesList e)
    /\ arcList e' = arcList e /\ strongRoots e' = strongRoots e.
Proof.
  eexists _, _. split; [vm_compute; reflexivity|].
  match goal with
  | |- liftAll ?f ?r ?e = Ok (?u, ?e') /\ _ =>
      assert (liftAll f r e = Ok (u, e')) as H by (vm_compute; reflexivity);
      split; [exact H|]; do 2 (split; [vm_compute; reflexivity|]);
      exact (liftAll_labels f r e u e' H)
  end.
Defined.
